(** * data-tetris: the pit, the pieces, the placement search and the
      two-engine coordinator, embedded from the JavaScript sources.

    Conventions of the embedding.
    - JavaScript numbers that hold grid coordinates, counters and scores are
      integers in every path modelled here; they are [Z].
    - A JavaScript object used as a dictionary ([pit.cells], [piece.cells]) is
      a list of key/value pairs in insertion order, which is the order of
      [for (var p in obj)].  Assigning an existing key replaces the value in
      place, assigning a new key appends.
    - DOM nodes are outside the model.  A pit remembers only whether it has a
      node, because [_cleanup] branches on it.
    - [Math.random] is an explicit argument. *)

From stdpp Require Import base list strings sorting.
From Stdlib Require Import ZArith Lia.

Local Open Scope Z_scope.

(** ** Geometry *)

Module XY.

(** Modelled from the spec: js/xy.js is not among the sources.  Section 4.1
    describes it as a pure, immutable integer pair with vector add and
    subtract, structural equality, and a total collision-free key encoding
    when used as a dictionary key.  The pair itself serves as the key.
    The pit, the pieces and the search never assign a field of a coordinate
    that a cell or a piece holds (they store the new object that [plus],
    [minus] or [new XY] gives), so a coordinate is a value here.  In the
    code it is an object with assignable fields all the same; the module
    [Heap] below has it as such, for [clone]. *)
Record t : Set := New { x : Z; y : Z }.

Definition plus (a b : t) : t := New (x a + x b) (y a + y b).
Definition minus (a b : t) : t := New (x a - x b) (y a - y b).
Definition clone (a : t) : t := New (x a) (y a).

Definition eqb (a b : t) : bool := (x a =? x b) && (y a =? y b).

End XY.

#[global] Instance XY_eq_dec : EqDecision XY.t.
Proof. solve_decision. Defined.

(** ** Game constants (js/game.js) *)

Module Game.
Definition DEPTH : Z := 16.
Definition WIDTH : Z := 10.
Definition INTERVAL_ENGINE_initial : Z := 1000.
End Game.

(** ** Cells (js/cell.js) *)

Module Cell.

Record t : Set := New { xy : XY.t; type : string; pieceSet : string }.

(** [cell.xy = v] *)
Definition set_xy (v : XY.t) (c : t) : t := New v (type c) (pieceSet c).

(** [Game.Cell.prototype.clone]: a new cell with the same fields, no node. *)
Definition clone (c : t) : t := New (xy c) (type c) (pieceSet c).

End Cell.

(** ** Dictionaries keyed by coordinates *)

Module Dict.

(** A dictionary with values in [A]. *)
Abbreviation dict A := (list (XY.t * A)) (only parsing).

Section Ops.
Context {A : Type}.

Fixpoint get (k : XY.t) (m : dict A) : option A :=
  match m with
  | [] => None
  | (k', v) :: m' => if XY.eqb k k' then Some v else get k m'
  end.

(** [k in obj], and also the truth value of [obj[k]] (the values are
    objects, hence truthy). *)
Definition has (k : XY.t) (m : dict A) : bool :=
  match get k m with Some _ => true | None => false end.

(** [obj[k] = v] *)
Fixpoint set (k : XY.t) (v : A) (m : dict A) : dict A :=
  match m with
  | [] => [(k, v)]
  | (k', v') :: m' => if XY.eqb k k' then (k', v) :: m' else (k', v') :: set k v m'
  end.

(** [delete obj[k]] *)
Fixpoint del (k : XY.t) (m : dict A) : dict A :=
  match m with
  | [] => []
  | (k', v') :: m' => if XY.eqb k k' then m' else (k', v') :: del k m'
  end.

Definition keys (m : dict A) : list XY.t := fmap fst m.
Definition values (m : dict A) : list A := fmap snd m.

End Ops.

(** The dictionaries of cells: [pit.cells] and [piece.cells]. *)
Abbreviation t := (list (XY.t * Cell.t)) (only parsing).

(** The coordinates stored in the cells, in iteration order. *)
Definition coords (m : t) : list XY.t := fmap (fun kv => Cell.xy (snd kv)) m.

End Dict.

(** ** Objects keyed by a piece type *)

Module SDict.

(** A JavaScript object whose property names are piece types ("s", "-",
    "t", ...).  None of them is an array index, so [for (var k in obj)] and
    [Object.keys(obj)] go through them in insertion order. *)
Abbreviation dict A := (list (string * A)) (only parsing).

Section Ops.
Context {A : Type}.

Fixpoint get (k : string) (m : dict A) : option A :=
  match m with
  | [] => None
  | (k', v) :: m' => if String.eqb k k' then Some v else get k m'
  end.

(** [obj[k] = v] *)
Fixpoint set (k : string) (v : A) (m : dict A) : dict A :=
  match m with
  | [] => [(k, v)]
  | (k', v') :: m' => if String.eqb k k' then (k', v) :: m' else (k', v') :: set k v m'
  end.

(** [delete obj[k]] *)
Fixpoint del (k : string) (m : dict A) : dict A :=
  match m with
  | [] => []
  | (k', v') :: m' => if String.eqb k k' then m' else (k', v') :: del k m'
  end.

(** [Object.keys(obj)] *)
Definition keys (m : dict A) : list string := fmap fst m.

End Ops.

(** The property names that every object made by [{}] inherits from
    [Object.prototype].  [get], [del] and [keys] above are about the own
    properties; reading [obj[k]] for one of these names, when [obj] has no
    own property [k], gives the inherited value: a function, or for
    "__proto__" the prototype itself, in each case an object that is truthy
    and turns into [NaN] in arithmetic and comparisons.  They are not
    enumerable: [for (var k in obj)] and [Object.keys(obj)] leave them
    out. *)
Definition inherited (k : string) : bool :=
  bool_decide (k ∈ ["constructor"; "hasOwnProperty"; "isPrototypeOf";
                    "propertyIsEnumerable"; "toLocaleString"; "toString";
                    "valueOf"; "__proto__"; "__defineGetter__";
                    "__defineSetter__"; "__lookupGetter__";
                    "__lookupSetter__"]).

End SDict.

(** ** Pieces (piece.js, the second half of js/gallery.js) *)

Module Piece.

Record def : Set := Def { avail : Z; def_cells : list XY.t }.

(** [Game.Piece.DEF]; colours are presentation only. *)
Definition DEF (set type : string) : option def :=
  if String.eqb set "left" then
    if String.eqb type "s" then
      Some (Def 10 [XY.New 0 0; XY.New 1 0; XY.New 0 (-1); XY.New (-1) (-1)])
    else if String.eqb type "-" then
      Some (Def 2 [XY.New 0 0; XY.New (-1) 0])
    else if String.eqb type "t" then
      Some (Def 10 [XY.New 0 0; XY.New (-1) 0; XY.New 1 0; XY.New 0 (-1)])
    else if String.eqb type "u" then
      Some (Def 10 [XY.New 0 0; XY.New (-1) 0; XY.New (-1) 1; XY.New 1 0;
                    XY.New 1 (-1)])
    else None
  else if String.eqb set "right" then
    if String.eqb type "o" then
      Some (Def 25 [XY.New 0 0; XY.New (-1) 0; XY.New 0 (-1); XY.New (-1) (-1)])
    else if String.eqb type "i" then
      Some (Def 25 [XY.New 0 0; XY.New (-1) 0; XY.New 1 0; XY.New (-2) 0])
    else if String.eqb type "t" then
      Some (Def 3 [XY.New 0 0; XY.New (-1) 0; XY.New 1 0; XY.New 0 (-1)])
    else if String.eqb type "-" then
      Some (Def 25 [XY.New 0 0; XY.New (-1) 0])
    else None
  else None.

(** The property names of [Game.Piece.DEF[set]] in the order of the literal,
    which is the order of [for (var type in Game.Piece.DEF[set])] and of
    [Object.keys(Game.Piece.DEF[set])]; [None] when [Game.Piece.DEF[set]]
    is [undefined].  For a name that [Game.Piece.DEF] inherits,
    [Game.Piece.DEF[set]] is a function or the prototype, which has no
    enumerable property. *)
Definition types (set : string) : option (list string) :=
  if String.eqb set "left" then Some ["s"; "-"; "t"; "u"]
  else if String.eqb set "right" then Some ["o"; "i"; "t"; "-"]
  else if SDict.inherited set then Some []
  else None.

Record t : Type := Mk {
  type : string;
  pieceSet : string;
  xy : XY.t;
  cells : Dict.t
}.

Definition set_xy (v : XY.t) (p : t) : t := Mk (type p) (pieceSet p) v (cells p).
Definition set_cells (m : Dict.t) (p : t) : t := Mk (type p) (pieceSet p) (xy p) m.

(** [new Game.Piece(type, pieceSet)]; [None] is an error thrown: "Piece ...
    does not exist in set ..." for a type that the set does not have, a
    [TypeError] when [Game.Piece.DEF[pieceSet]] is [undefined], and a
    [TypeError] at [def.cells.forEach] when [type] or [pieceSet] is an
    inherited property name, for which [def] is no piece definition. *)
Definition New (type pieceSet : string) : option t :=
  match DEF pieceSet type with
  | None => None
  | Some d =>
      Some (Mk type pieceSet (XY.New 0 0)
              (fold_left (fun m c => Dict.set c (Cell.New c type pieceSet) m)
                         (def_cells d) []))
  end.

(** [Game.Piece.prototype.fits] *)
Definition fits_cell (pos : XY.t) (pitcells : Dict.t) (c : Cell.t) : bool :=
  let xy := XY.plus (Cell.xy c) pos in
  if (XY.x xy <? 0) || (Game.WIDTH <=? XY.x xy) then false
  else if XY.y xy <? 0 then false
  else if Dict.has xy pitcells then false
  else true.

Definition fits (p : t) (pitcells : Dict.t) : bool :=
  forallb (fits_cell (xy p) pitcells) (Dict.values (cells p)).

(** [Game.Piece.prototype.rotate] *)
Definition rotate_xy (sign : XY.t) (xy : XY.t) : XY.t :=
  XY.New (XY.y xy * XY.x sign) (XY.x xy * XY.y sign).

Definition rotate_sign (direction : Z) : XY.t :=
  if 0 <? direction then XY.New (-1) 1 else XY.New 1 (-1).

Definition rotate (direction : Z) (p : t) : t :=
  let sign := rotate_sign direction in
  let newCells :=
    fold_left
      (fun acc kv =>
         let cell := snd kv in
         let nxy := rotate_xy sign (Cell.xy cell) in
         Dict.set nxy (Cell.set_xy nxy cell) acc)
      (cells p) [] in
  set_cells newCells p.

(** [Game.Piece.prototype.center] *)
Definition center (p : t) : t :=
  set_xy (XY.New (Game.WIDTH / 2) (Game.DEPTH - 1)) p.

(** [Game.Piece.prototype.clone].  The constructor call inside cannot throw:
    the piece being cloned was itself built with the same type and set. *)
Definition clone (p : t) : t :=
  Mk (type p) (pieceSet p) (xy p)
     (fmap (fun kv => (fst kv, Cell.clone (snd kv))) (cells p)).

(** Keys agree with the coordinates held by the cells and are distinct: what
    the constructor, [clone], [rotate] and [fromJSON] all establish. *)
Definition wf (p : t) : Prop :=
  Forall (fun kv => fst kv = Cell.xy (snd kv)) (cells p) /\
  NoDup (Dict.keys (cells p)).

End Piece.

(** ** JavaScript values that the modelled functions hand back *)

Module JS.

(** What a dynamically typed return position can carry here. *)
Inductive value : Set :=
| Number (n : Z)
| Array (l : list Z).

(** Numbers extended with the two infinities ([Infinity] seeds the minimum
    searches, [Math.max] of no arguments is [-Infinity]). *)
Inductive num : Set :=
| NegInf
| Fin (z : Z)
| PosInf.

Definition ltb (a b : num) : bool :=
  match a, b with
  | NegInf, NegInf => false
  | NegInf, _ => true
  | Fin _, NegInf => false
  | Fin u, Fin v => u <? v
  | Fin _, PosInf => true
  | PosInf, _ => false
  end.

Definition eqb (a b : num) : bool :=
  match a, b with
  | NegInf, NegInf => true
  | Fin u, Fin v => u =? v
  | PosInf, PosInf => true
  | _, _ => false
  end.

Definition lt (a b : num) : Prop := ltb a b = true.

(** [arr.random()] of js/game.js:
    [this[Math.floor(Math.random() * this.length)]].  The argument [r] stands
    for the random draw; any index below the length can come out, and an
    empty array yields [undefined]. *)
Definition random {A : Type} (l : list A) (r : nat) : option A :=
  l !! (r mod length l)%nat.

End JS.

(** ** Arrays of numbers indexed by a coordinate *)

Module Arr.

Definition get (l : list Z) (i : Z) : option Z :=
  if i <? 0 then None else l !! Z.to_nat i.

(** [l[i] = f(l[i])] for an index inside the array.  For a negative index
    JavaScript stores [NaN] under a property that is not an element, and the
    elements stay as they are; for an index past the end it would grow the
    array by a [NaN] element, which the integers here cannot express.
    Neither happens for a piece that fits (its columns are inside the pit,
    its rows not negative) on arrays of the constructor's lengths. *)
Definition upd (i : Z) (f : Z -> Z) (l : list Z) : list Z :=
  if i <? 0 then l else alter f (Z.to_nat i) l.

(** [l.splice(j, 1)] for [0 <= j] *)
Definition splice1 (j : Z) (l : list Z) : list Z :=
  take (Z.to_nat j) l ++ drop (S (Z.to_nat j)) l.

(** [l.push(v)] *)
Definition push (v : Z) (l : list Z) : list Z := l ++ [v].

(** [Math.max.apply(Math, l)] *)
Definition max (l : list Z) : JS.num :=
  match l with
  | [] => JS.NegInf
  | a :: l' => JS.Fin (fold_left Z.max l' a)
  end.

(** [l.sort((a, b) => b - a)]: descending order. *)
Fixpoint insert_desc (a : Z) (l : list Z) : list Z :=
  match l with
  | [] => [a]
  | b :: l' => if b <? a then a :: b :: l' else b :: insert_desc a l'
  end.

Definition sort_desc (l : list Z) : list Z := fold_right insert_desc [] l.

End Arr.

(** ** The pit (js/pit.js) *)

Module Pit.

Record t : Type := Mk {
  cells : Dict.t;
  cols : list Z;   (* maximum values per-column *)
  rows : list Z;   (* non-empty cells per-row *)
  node : bool      (* whether [build()] attached a DOM node *)
}.

(** [new Game.Pit()] *)
Definition New : t :=
  Mk [] (replicate (Z.to_nat Game.WIDTH) 0) (replicate (Z.to_nat Game.DEPTH) 0) false.

(** [Game.Pit.prototype.build] *)
Definition build (p : t) : t := Mk (cells p) (cols p) (rows p) true.

(** [Game.Pit.prototype.clone]: the arrays go through a JSON round trip, each
    cell through [Cell.clone]; the copy has no node. *)
Definition clone (p : t) : t :=
  Mk (fmap (fun kv => (fst kv, Cell.clone (snd kv))) (cells p))
     (cols p) (rows p) false.

(** *** getScore *)

(** The counters [cells], [holes] and [weight] of [getScore]. *)
Record stats : Set := Stats { n_cells : Z; n_holes : Z; n_weight : Z }.

(** The body of [for (var p in this.cells)]: one more cell, its row plus one
    more weight, and one more hole when the place right below it is inside
    the pit and not a key of the dictionary. *)
Definition score_cell (m : Dict.t) (s : stats) (kv : XY.t * Cell.t) : stats :=
  let xy := Cell.xy (snd kv) in
  let below := XY.New (XY.x xy) (XY.y xy - 1) in
  Stats (n_cells s + 1)
        (if (0 <=? XY.y below) && negb (Dict.has below m)
         then n_holes s + 1 else n_holes s)
        (n_weight s + (XY.y xy + 1)).

Definition cell_stats (m : Dict.t) : stats :=
  fold_left (score_cell m) m (Stats 0 0 0).

(** The loop over adjacent columns: [(slope, maxslope)]. *)
Fixpoint slopes (l : list Z) (acc : Z * Z) : Z * Z :=
  match l with
  | a :: (b :: _) as l' =>
      let diff := Z.abs (a - b) in
      slopes l' (fst acc + diff, Z.max (snd acc) diff)
  | _ => acc
  end.

(** [Game.Pit.prototype.getScore], with
    [W = [20, 1, 1, 1, 1, 1]] and
    [S = [holes, max, cells, maxslope, slope, weight]]. *)
Definition getScore (p : t) : JS.num :=
  let s := cell_stats (cells p) in
  let sl := slopes (cols p) (0, 0) in
  match Arr.max (cols p) with
  | JS.Fin max =>
      JS.Fin (20 * n_holes s + 1 * max + 1 * n_cells s + 1 * snd sl
              + 1 * fst sl + 1 * n_weight s)
  | inf => inf
  end.

(** *** drop *)

Definition gravity : XY.t := XY.New 0 (-1).

(** [while (piece.fits(pit)) { piece.xy = piece.xy.plus(d); }], with [None]
    when [fuel] iterations do not reach the exit. *)
Fixpoint while_fits (fuel : nat) (d : XY.t) (m : Dict.t) (pc : Piece.t)
  : option Piece.t :=
  match fuel with
  | O => None
  | S fuel' =>
      if Piece.fits pc m
      then while_fits fuel' d m (Piece.set_xy (XY.plus (Piece.xy pc) d) pc)
      else Some pc
  end.

(** Iterations that suffice for the downward loop: a cell cannot go below
    row 0.  A piece without cells fits everywhere and the loop never ends,
    which is the [None] of [drop]. *)
Definition fall_fuel (pc : Piece.t) : nat :=
  match Piece.cells pc with
  | [] => O
  | kv :: _ => S (Z.to_nat (XY.y (Piece.xy pc) + XY.y (Cell.xy (snd kv)) + 1))
  end.

(** The body of [for (var p in piece.cells)] in [drop]. *)
Definition lock_cell (pos : XY.t) (p : t) (kv : XY.t * Cell.t) : t :=
  let cell := snd kv in
  let xy := XY.plus pos (Cell.xy cell) in
  let cells' := Dict.set xy (Cell.set_xy xy cell) (cells p) in
  if XY.y xy <? Game.DEPTH then
    Mk cells'
       (Arr.upd (XY.x xy) (fun h => Z.max h (XY.y xy + 1)) (cols p))
       (Arr.upd (XY.y xy) (fun n => n + 1) (rows p))
       (node p)
  else Mk cells' (cols p) (rows p) (node p).

Definition lock (pc : Piece.t) (p : t) : t :=
  fold_left (lock_cell (Piece.xy pc)) (Piece.cells pc) p.

(** [Game.Pit.prototype.getCompletedRows]; the first loop of [_cleanup]
    collects the same indices, [j] from 0 to [DEPTH - 1]. *)
Definition completedRows (p : t) : list Z :=
  filter (fun j => Arr.get (rows p) j = Some Game.WIDTH)
         (seqZ 0 Game.DEPTH).

(** [Game.Pit.prototype.getCompletedRows] as it is written:
    [rows.map((count, index) => ({count, index}))
         .filter(row => row.count === Game.WIDTH).map(row => row.index)]. *)
Definition getCompletedRows (p : t) : list Z :=
  fmap snd
    (filter (fun row => fst row = Game.WIDTH)
       (imap (fun index count => (count, Z.of_nat index)) (rows p))).

(** One round of [completedRows.forEach] in [_removeCompletedRows]. *)
Definition remove_row (p : t) (j : Z) : t :=
  Mk (filter (fun kv => XY.y (Cell.xy (snd kv)) <> j) (cells p))
     (fmap (fun _ => 0) (cols p))
     (Arr.push 0 (Arr.splice1 j (rows p)))
     (node p).

(** The body of the re-keying loop. [low] is
    [completedRows[completedRows.length - 1]], [undefined] being [None]. *)
Definition shift_cell (low : option Z) (totalShift : Z)
    (acc : Dict.t * list Z) (kv : XY.t * Cell.t) : Dict.t * list Z :=
  let cell := snd kv in
  let xy := Cell.xy cell in
  let above := match low with Some l => l <? XY.y xy | None => false end in
  let xy' := if above then XY.New (XY.x xy) (XY.y xy - totalShift) else xy in
  let cell' := if above then Cell.set_xy xy' cell else cell in
  (Dict.set xy' cell' (fst acc),
   Arr.upd (XY.x xy') (fun h => Z.max h (XY.y xy' + 1)) (snd acc)).

(** [Game.Pit.prototype._removeCompletedRows] *)
Definition _removeCompletedRows (completed : list Z) (p : t) : t :=
  let sorted := Arr.sort_desc completed in
  let totalShift := Z.of_nat (length sorted) in
  let p1 := fold_left remove_row sorted p in
  let r := fold_left (shift_cell (last sorted) totalShift) (cells p1)
                     ([], cols p1) in
  Mk (fst r) (snd r) (rows p1) (node p1).

Record outcome : Type := Outcome {
  after : t;
  returned : JS.value;
  timer : option (list Z)
    (* the [setTimeout] callback armed by a pit with a node:
       [_removeCompletedRows] on these rows, 300 ms later *)
}.

(** [Game.Pit.prototype._cleanup] *)
Definition _cleanup (p : t) : outcome :=
  let completed := completedRows p in
  let result := Z.of_nat (length completed) in
  if (0 <? Z.of_nat (length completed)) then
    if node p then Outcome p (JS.Number result) (Some completed)
    else Outcome (_removeCompletedRows completed p) (JS.Number result) None
  else Outcome p (JS.Number result) None.

(** The timer callback of [_cleanup]. *)
Definition fire (o : outcome) : t :=
  match timer o with
  | Some completed => _removeCompletedRows completed (after o)
  | None => after o
  end.

(** The piece where the downward loop of [drop] leaves it. *)
Definition landing (p : t) (pc : Piece.t) : option Piece.t :=
  match while_fits (fall_fuel pc) gravity (cells p) pc with
  | None => None
  | Some pc' => Some (Piece.set_xy (XY.minus (Piece.xy pc') gravity) pc')
  end.

(** [Game.Pit.prototype.drop]; [None] when the downward loop does not end. *)
Definition drop (p : t) (pc : Piece.t) : option outcome :=
  match landing p pc with
  | None => None
  | Some pc' => Some (_cleanup (lock pc' p))
  end.

End Pit.

(** ** Placement search (ai.js, the second half of js/cell.js) *)

Module AI.

Record position : Set := Position {
  score : JS.num;
  x : option Z          (* [None] is [undefined] *)
}.

Record placement : Set := Placement {
  p_score : JS.num;
  p_x : option Z;
  rotation : Z
}.

Definition left : XY.t := XY.New (-1) 0.

(** Iterations that suffice for the leftward loop (no cell passes column 0)
    and for the rightward loop (no cell reaches column [WIDTH]). *)
Definition left_fuel (pc : Piece.t) : nat :=
  match Piece.cells pc with
  | [] => O
  | kv :: _ => S (Z.to_nat (XY.x (Piece.xy pc) + XY.x (Cell.xy (snd kv)) + 1))
  end.

Definition right_fuel (pc : Piece.t) : nat :=
  match Piece.cells pc with
  | [] => O
  | kv :: _ =>
      S (Z.to_nat (Game.WIDTH - (XY.x (Piece.xy pc) + XY.x (Cell.xy (snd kv)))))
  end.

(** The loop "Test all positions moving right" of [findBestPosition]. *)
Fixpoint scan (fuel : nat) (pit : Pit.t) (pc : Piece.t)
    (bestScore : JS.num) (bestPositions : list Z) : option (JS.num * list Z) :=
  match fuel with
  | O => None
  | S fuel' =>
      if Piece.fits pc (Pit.cells pit) then
        let tmpPit := Pit.clone pit in
        match Pit.drop tmpPit (Piece.clone pc) with
        | None => None
        | Some o =>
            let score := Pit.getScore (Pit.after o) in
            let '(bestScore1, bestPositions1) :=
              if JS.ltb score bestScore then (score, []) else (bestScore, bestPositions) in
            let bestPositions2 :=
              if JS.eqb score bestScore1
              then bestPositions1 ++ [XY.x (Piece.xy pc)] else bestPositions1 in
            scan fuel' pit (Piece.set_xy (XY.minus (Piece.xy pc) left) pc)
                 bestScore1 bestPositions2
        end
      else Some (bestScore, bestPositions)
  end.

(** The piece at the left-most column of the top row where it still fits. *)
Definition leftmost (pit : Pit.t) (pc : Piece.t) : option Piece.t :=
  match Pit.while_fits (left_fuel pc) left (Pit.cells pit) pc with
  | None => None
  | Some pc' => Some (Piece.set_xy (XY.minus (Piece.xy pc') left) pc')
  end.

(** [Game.AI.findBestPosition]; [r] is the draw of [bestPositions.random()],
    [None] a loop that does not end. *)
Definition findBestPosition (pit : Pit.t) (piece : Piece.t) (r : nat)
  : option position :=
  let pit := Pit.clone pit in
  let piece := Piece.center (Piece.clone piece) in
  match leftmost pit piece with
  | None => None
  | Some pc =>
      match scan (right_fuel pc) pit pc JS.PosInf [] with
      | None => None
      | Some (bestScore, bestPositions) =>
          Some (Position bestScore (JS.random bestPositions r))
      end
  end.

(** [for (var j=0;j<i;j++) { tmpPiece.rotate(1); }] *)
Definition rotations (i : nat) (pc : Piece.t) : Piece.t :=
  Nat.iter i (Piece.rotate 1) pc.

(** The body of [for (var i=0;i<4;i++)] in [findBestPositionRotation];
    [rnd i] is the draw used by the i-th call of [findBestPosition]. *)
Definition try_rotation (pit : Pit.t) (piece : Piece.t) (rnd : nat -> nat)
    (acc : option (JS.num * list placement)) (i : nat)
  : option (JS.num * list placement) :=
  match acc with
  | None => None
  | Some (bestScore, bestRotations) =>
      let tmpPiece := rotations i (Piece.clone piece) in
      match findBestPosition pit tmpPiece (rnd i) with
      | None => None
      | Some cur =>
          let current := Placement (score cur) (x cur) (Z.of_nat i) in
          let '(bestScore1, bestRotations1) :=
            if JS.ltb (p_score current) bestScore
            then (p_score current, []) else (bestScore, bestRotations) in
          let bestRotations2 :=
            if JS.eqb (p_score current) bestScore1
            then bestRotations1 ++ [current] else bestRotations1 in
          Some (bestScore1, bestRotations2)
      end
  end.

(** [Game.AI.findBestPositionRotation]; [rnd 4] is the draw of
    [bestRotations.random()].  The outer [None] is a loop that does not end,
    the inner one is [undefined]. *)
Definition findBestPositionRotation (pit : Pit.t) (piece : Piece.t)
    (rnd : nat -> nat) : option (option placement) :=
  match fold_left (try_rotation pit piece rnd) (seq 0 4) (Some (JS.PosInf, [])) with
  | None => None
  | Some (_, bestRotations) => Some (JS.random bestRotations (rnd 4%nat))
  end.

(** [Game.AI.scoreTypes]: [scores[type]] is the score of the best
    placement of a new piece of that type.  [rnd i] holds the draws of the
    search for the type at index [i]; [None] is a thrown error (a type that
    the set does not have) or a loop that does not end. *)
Definition scoreTypes (pit : Pit.t) (types : list string) (pieceSet : string)
    (rnd : nat -> nat -> nat) : option (SDict.dict JS.num) :=
  fold_left
    (fun acc it =>
       match acc with
       | None => None
       | Some scores =>
           match Piece.New (snd it) pieceSet with
           | None => None
           | Some piece =>
               match findBestPositionRotation pit piece (rnd (fst it)) with
               | Some (Some pl) => Some (SDict.set (snd it) (p_score pl) scores)
               | _ => None
               end
           end
       end)
    (imap (fun i type => (i, type)) types) (Some []).

End AI.

(** ** One session's engine (engine.js, src/unnamed/part_001)

    Only the fields and methods that the timing and game-over paths touch.
    Timers are recorded by what was armed, not by when they fire. *)

Module Engine.

Record t : Type := Mk {
  score : Z;
  playing : bool;
  scoreElementId : string;
  _interval : option Z;      (* the armed [setInterval], with its period *)
  _dropping : bool;
  _dropTimeout : bool;        (* whether the drop [setTimeout] is armed *)
  pit : Pit.t;
  _piece : option Piece.t;
  _nextType : string
}.

(** [new Game.Engine(scoreElementId, ...)] as far as these fields go. *)
Definition New (scoreElementId : string) : t :=
  Mk 0 true scoreElementId None false false (Pit.build Pit.New) None "".

(** [Game.Engine.prototype._stop] *)
Definition _stop (e : t) : t :=
  Mk (score e) (playing e) (scoreElementId e) None (_dropping e) false
     (pit e) (_piece e) (_nextType e).

(** [Game.Engine.prototype._start].  [interval_engine] is the global
    [Game.INTERVAL_ENGINE]; its new value is returned with the engine. *)
Definition _start (interval_engine : Z) (e : t) : Z * t :=
  match _interval e with
  | Some _ => (interval_engine, e)
  | None =>
      (interval_engine - 5,
       Mk (score e) (playing e) (scoreElementId e) (Some interval_engine)
          (_dropping e) (_dropTimeout e) (pit e) (_piece e) (_nextType e))
  end.

(** [Game.Engine.prototype._setPlaying] up to, and without, the call of
    [this._onGameOver]. *)
Definition _setPlaying_self (p : bool) (e : t) : t :=
  let e1 := Mk (score e) p (scoreElementId e) (_interval e) (_dropping e)
               (_dropTimeout e) (pit e) (_piece e) (_nextType e) in
  if p then e1
  else
    let e2 := _stop e1 in
    Mk (score e2) (playing e2) (scoreElementId e2) (_interval e2) false
       (_dropTimeout e2) (pit e2) None (_nextType e2).

(** *** The moves of the piece in play *)

(** [this._piece = pc] *)
Definition set_piece (pc : option Piece.t) (e : t) : t :=
  Mk (score e) (playing e) (scoreElementId e) (_interval e) (_dropping e)
     (_dropTimeout e) (pit e) pc (_nextType e).

(** [Game.Engine.prototype.drop]: the piece slides down while it fits and
    goes back one row, the timers stop, and the lock is left to a timeout.
    Without a piece, while dropping or when not playing nothing happens.
    [None] is a downward loop that does not end. *)
Definition drop (e : t) : option t :=
  match _piece e with
  | None => Some e
  | Some pc =>
      if _dropping e || negb (playing e) then Some e
      else
        match Pit.landing (pit e) pc with
        | None => None
        | Some pc' =>
            let e1 := _stop (set_piece (Some pc') e) in
            Some (Mk (score e1) (playing e1) (scoreElementId e1) (_interval e1)
                     true true (pit e1) (_piece e1) (_nextType e1))
        end
  end.

(** [Game.Engine.prototype.rotate] *)
Definition rotate (e : t) : t :=
  match _piece e with
  | None => e
  | Some pc =>
      if _dropping e then e
      else
        let pc1 := Piece.rotate 1 pc in
        if Piece.fits pc1 (Pit.cells (pit e)) then set_piece (Some pc1) e
        else set_piece (Some (Piece.rotate (-1) pc1)) e
  end.

(** [Game.Engine.prototype.shift], for an integer [direction].  The sum
    and the difference are those of integers; they are what the doubles of
    the code give as long as [direction] and the piece's column stay below
    [2^52] in magnitude (with a [direction] of [2^53], [plus] and [minus]
    would round and not cancel). *)
Definition shift (direction : Z) (e : t) : t :=
  match _piece e with
  | None => e
  | Some pc =>
      if _dropping e then e
      else
        let xy := XY.New direction 0 in
        let pc1 := Piece.set_xy (XY.plus (Piece.xy pc) xy) pc in
        if Piece.fits pc1 (Pit.cells (pit e)) then set_piece (Some pc1) e
        else set_piece (Some (Piece.set_xy (XY.minus (Piece.xy pc1) xy) pc1)) e
  end.

(** [Game.Engine.prototype._tick], the callback of the interval.  Without a
    piece [this._piece.xy] is a [TypeError], the first [None]. *)
Definition _tick (e : t) : option t :=
  match _piece e with
  | None => None
  | Some pc =>
      let pc1 := Piece.set_xy (XY.plus (Piece.xy pc) Pit.gravity) pc in
      if Piece.fits pc1 (Pit.cells (pit e)) then Some (set_piece (Some pc1) e)
      else
        drop (set_piece
                (Some (Piece.set_xy (XY.minus (Piece.xy pc1) Pit.gravity) pc1)) e)
  end.

(** *** Locking and the score *)

(** [Game.Engine.prototype._computeScore]: [0] for a falsy argument, the
    argument otherwise. *)
Definition _computeScore (removed : JS.value) : JS.value :=
  match removed with
  | JS.Number 0 => JS.Number 0
  | v => v
  end.

(** [Game.Engine.prototype._setScore]; the score element is presentation. *)
Definition _setScore (sc : Z) (e : t) : t :=
  Mk sc (playing e) (scoreElementId e) (_interval e) (_dropping e)
     (_dropTimeout e) (pit e) (_piece e) (_nextType e).

(** What [_drop] leaves behind: the engine, the value [removed] that the
    350 ms callback has captured, and the rows that the pit's own 300 ms
    timer is to clear. *)
Record locked : Type := Locked {
  engine_after : t;
  removed : JS.value;
  clearing : option (list Z)
}.

(** [Game.Engine.prototype._drop], the callback of the drop timeout (which
    has thereby fired).  [None] is the [TypeError] of [pit.drop(null)], or a
    downward loop that does not end. *)
Definition _drop (e : t) : option locked :=
  match _piece e with
  | None => None
  | Some pc =>
      match Pit.drop (pit e) pc with
      | None => None
      | Some o =>
          Some (Locked
                  (Mk (score e) (playing e) (scoreElementId e) (_interval e)
                      false false (Pit.after o) None (_nextType e))
                  (Pit.returned o) (Pit.timer o))
      end
  end.

(** The callback of the pit's timer: [_removeCompletedRows] on the rows that
    [_cleanup] found. *)
Definition clear_rows (completed : list Z) (e : t) : t :=
  Mk (score e) (playing e) (scoreElementId e) (_interval e) (_dropping e)
     (_dropTimeout e) (Pit._removeCompletedRows completed (pit e)) (_piece e)
     (_nextType e).

End Engine.

(** ** The application: two engines and the game-over arbitration
       (js/app.js, [Game.App.prototype._start]) *)

Module App.

Inductive side : Set := Left | Right.

Definition other (s : side) : side :=
  match s with Left => Right | Right => Left end.

Definition side_name (s : side) : string :=
  match s with Left => "left" | Right => "right" end.

Definition scoreElementId (s : side) : string :=
  match s with Left => "score-left" | Right => "score-right" end.

Record t : Type := Mk {
  INTERVAL_ENGINE : Z;                  (* the global [Game.INTERVAL_ENGINE] *)
  firstGameOver : option string;        (* [None] is [null] *)
  _engineLeft : Engine.t;
  _engineRight : Engine.t;
  overlays : list (string * string)     (* calls of [_showGameEndOverlay] *)
}.

Definition engine (s : side) (w : t) : Engine.t :=
  match s with Left => _engineLeft w | Right => _engineRight w end.

Definition set_engine (s : side) (e : Engine.t) (w : t) : t :=
  match s with
  | Left => Mk (INTERVAL_ENGINE w) (firstGameOver w) e (_engineRight w) (overlays w)
  | Right => Mk (INTERVAL_ENGINE w) (firstGameOver w) (_engineLeft w) e (overlays w)
  end.

(** The two engines as [Game.App.prototype._start] creates them. *)
Definition start : t :=
  Mk Game.INTERVAL_ENGINE_initial None
     (Engine.New (scoreElementId Left)) (Engine.New (scoreElementId Right)) [].

(** Session [s] runs [this._start()]. *)
Definition engine_start (s : side) (w : t) : t :=
  let r := Engine._start (INTERVAL_ENGINE w) (engine s w) in
  let w' := set_engine s (snd r) w in
  Mk (fst r) (firstGameOver w') (_engineLeft w') (_engineRight w') (overlays w').

(** The truth value of [firstGameOver]: [null] and the empty string are
    falsy. *)
Definition truthy (v : option string) : bool :=
  match v with
  | None => false
  | Some s => negb (String.eqb s "")
  end.

(** [engine._setPlaying(playing)] with [this._onGameOver] bound to
    [onGameOver]. *)
Definition _setPlaying (onGameOver : string -> t -> option t)
    (s : side) (playing : bool) (w : t) : option t :=
  let w' := set_engine s (Engine._setPlaying_self playing (engine s w)) w in
  if playing then Some w'
  else onGameOver (Engine.scoreElementId (engine s w')) w'.

(** The closure [handleGameOver].  It calls [_setPlaying] of both engines,
    which call it back; [fuel] bounds the nesting, [None] is too little. *)
Fixpoint handleGameOver (fuel : nat) (id : string) (w : t) : option t :=
  match fuel with
  | O => None
  | S fuel' =>
      if negb (truthy (firstGameOver w)) then
        let w1 := Mk (INTERVAL_ENGINE w) (Some id) (_engineLeft w)
                     (_engineRight w) (overlays w) in
        match _setPlaying (handleGameOver fuel') Left false w1 with
        | None => None
        | Some w2 =>
            match _setPlaying (handleGameOver fuel') Right false w2 with
            | None => None
            | Some w3 =>
                let first := firstGameOver w3 in
                let is_left :=
                  match first with
                  | Some f => String.eqb f "score-left"
                  | None => false
                  end in
                Some (Mk (INTERVAL_ENGINE w3) first (_engineLeft w3) (_engineRight w3)
                         (overlays w3
                          ++ [(if is_left then "left" else "right", "LOSER");
                              (if is_left then "right" else "left", "WINNER")]))
            end
        end
      else Some w
  end.

(** Session [s] enters game over: [this._setPlaying(false)] with the
    callback installed by the application. *)
Definition game_over (fuel : nat) (s : side) (w : t) : option t :=
  _setPlaying (handleGameOver fuel) s false w.

End App.

(** ** One engine with its supply of pieces (engine.js, src/unnamed/part_001)

    The engine of [Engine.t] together with what the spawning of pieces
    reads and writes: the piece set, the table of available types, the
    global [Game.INTERVAL_ENGINE], and the calls of [this._onGameOver],
    which are recorded in the order they are made (the callback itself is
    the caller's). *)

Module Session.

Record t : Type := Mk {
  engine : Engine.t;
  _pieceSet : string;
  _availableTypes : SDict.dict Z;
  INTERVAL_ENGINE : Z;
  notified : list string
}.

Definition set_engine (e : Engine.t) (s : t) : t :=
  Mk e (_pieceSet s) (_availableTypes s) (INTERVAL_ENGINE s) (notified s).

Definition set_availableTypes (m : SDict.dict Z) (s : t) : t :=
  Mk (engine s) (_pieceSet s) m (INTERVAL_ENGINE s) (notified s).

(** [Game.Engine.prototype._stop] *)
Definition _stop (s : t) : t := set_engine (Engine._stop (engine s)) s.

(** [Game.Engine.prototype._start] *)
Definition _start (s : t) : t :=
  let r := Engine._start (INTERVAL_ENGINE s) (engine s) in
  Mk (snd r) (_pieceSet s) (_availableTypes s) (fst r) (notified s).

(** [Game.Engine.prototype._setPlaying], with a callback installed. *)
Definition _setPlaying (playing : bool) (s : t) : t :=
  let e := Engine._setPlaying_self playing (engine s) in
  Mk e (_pieceSet s) (_availableTypes s) (INTERVAL_ENGINE s)
     (if playing then notified s else notified s ++ [Engine.scoreElementId e]).

(** The loop of [_refreshAvailable]: the table and [anyPiecesLeft]. *)
Definition refresh_step (pieceSet : string) (acc : SDict.dict Z * bool)
    (type : string) : SDict.dict Z * bool :=
  match Piece.DEF pieceSet type with
  | Some d =>
      if 0 <? Piece.avail d then (SDict.set type (Piece.avail d) (fst acc), true)
      else acc
  | None => acc
  end.

(** [Game.Engine.prototype._refreshAvailable]; the boolean is what it
    returns. *)
Definition _refreshAvailable (s : t) : bool * t :=
  let types := match Piece.types (_pieceSet s) with Some l => l | None => [] end in
  let r := fold_left (refresh_step (_pieceSet s)) types (_availableTypes s, false) in
  let s1 := set_availableTypes (fst r) s in
  if snd r then (true, s1)
  else
    let s2 := _stop (_setPlaying false s1) in
    let e := engine s2 in
    (false,
     set_engine
       (Engine.Mk (Engine.score e) (Engine.playing e) (Engine.scoreElementId e)
                  (Engine._interval e) false false (Engine.pit e) None
                  (Engine._nextType e))
       s2).

(** [Game.Engine.prototype._useNextType].  A type that the table does not
    list gives [undefined - 1], or a function minus 1 for an inherited
    name, which is [NaN] and falsy; [delete] then finds no own property.
    [None] is the error thrown by [new Game.Piece]. *)
Definition _useNextType (s : t) : option t :=
  let nextType := Engine._nextType (engine s) in
  let m := _availableTypes s in
  let m1 :=
    match SDict.get nextType m with
    | Some n => if n - 1 =? 0 then SDict.del nextType m else SDict.set nextType (n - 1) m
    | None => SDict.del nextType m
    end in
  let s1 := set_availableTypes m1 s in
  let r := match SDict.keys m1 with
           | [] => _refreshAvailable s1
           | _ :: _ => (true, s1)
           end in
  if negb (fst r) then Some (snd r)
  else
    let s2 := snd r in
    match Piece.New nextType (_pieceSet s2) with
    | None => None
    | Some nextPiece =>
        let nextPiece := Piece.center nextPiece in
        let e := engine s2 in
        if Piece.fits nextPiece (Pit.cells (Engine.pit e)) then
          Some (_start
                  (set_engine
                     (Engine.Mk (Engine.score e) (Engine.playing e)
                                (Engine.scoreElementId e) (Engine._interval e)
                                (Engine._dropping e) (Engine._dropTimeout e)
                                (Engine.pit e) (Some nextPiece) "")
                     s2))
        else Some (_stop (_setPlaying false s2))
    end.

(** [this._availableTypes[nextType] || 0]: the count that the table lists;
    for a name that the table does not list but inherits ("constructor",
    ...), the inherited function, which is no number ([None]); 0 for every
    other name. *)
Definition avail_or_0 (nextType : string) (m : SDict.dict Z) : option Z :=
  match SDict.get nextType m with
  | Some n => Some (if n =? 0 then 0 else n)
  | None => if SDict.inherited nextType then None else Some 0
  end.

(** [Game.Engine.prototype.setNextType].  [avail < 1] is false when
    [avail] is no number.  [None] is the error thrown by [new Game.Piece]
    in [_useNextType]. *)
Definition setNextType (nextType : string) (s : t) : option t :=
  let below_1 := match avail_or_0 nextType (_availableTypes s) with
                 | Some avail => avail <? 1
                 | None => false
                 end in
  if below_1 then Some s
  else
    let e := engine s in
    let s1 :=
      set_engine
        (Engine.Mk (Engine.score e) (Engine.playing e) (Engine.scoreElementId e)
                   (Engine._interval e) (Engine._dropping e)
                   (Engine._dropTimeout e) (Engine.pit e) (Engine._piece e)
                   nextType)
        s in
    match Engine._piece e with
    | None => _useNextType s1
    | Some _ => Some s1
    end.

(** [score + v] where [v] is a number; with an array the sum is a string,
    which the score of the model cannot hold. *)
Definition plus_value (sc : Z) (v : JS.value) : option Z :=
  match v with
  | JS.Number n => Some (sc + n)
  | JS.Array _ => None
  end.

(** The 350 ms callback of [_drop]:
    [this._setScore(this._status.score + this._computeScore(removed));
     if (this._nextType) { this._useNextType(); }] *)
Definition score_callback (removed : JS.value) (s : t) : option t :=
  match plus_value (Engine.score (engine s)) (Engine._computeScore removed) with
  | None => None
  | Some sc =>
      let s1 := set_engine (Engine._setScore sc (engine s)) s in
      if negb (String.eqb (Engine._nextType (engine s1)) "") then _useNextType s1
      else Some s1
  end.

(** [new Game.Engine(scoreElementId, pieceSet, onGameOver)] with
    [Game.INTERVAL_ENGINE] at [interval_engine].  [None] is the [TypeError]
    of [new Game.Gallery(this)], whose [_build] takes
    [Object.keys(Game.Piece.DEF[pieceSet])].  With an inherited name for
    [pieceSet] there is no type at all, and the engine is made in game
    over. *)
Definition New (scoreElementId pieceSet : string) (interval_engine : Z) : option t :=
  let s0 := Mk (Engine.New scoreElementId) pieceSet [] interval_engine [] in
  let s1 := _setPlaying true s0 in
  match Piece.types pieceSet with
  | None => None
  | Some _ => Some (snd (_refreshAvailable s1))
  end.

End Session.

(** ** The attacker that picks the next piece (js/attacker.ai.js) *)

Module Attacker.

(** [this._lastType]; [None] is [undefined]. *)
Record t : Set := Mk { _lastType : option string }.

(** [new Game.Attacker.AI(engine)] *)
Definition New : t := Mk (Some "").

(** [l.splice(l.indexOf(x), 1)] for an [x] that occurs in [l] *)
Fixpoint remove_first (x : string) (l : list string) : list string :=
  match l with
  | [] => []
  | a :: l' => if String.eqb x a then l' else a :: remove_first x l'
  end.

(** "remove last used type, if possible" *)
Definition candidates (last : option string) (avail : list string) : list string :=
  match last with
  | Some ty =>
      if bool_decide (ty ∈ avail) && (1 <? Z.of_nat (length avail))
      then remove_first ty avail else avail
  | None => avail
  end.

(** The pit on which the types are scored: the engine's pit, or, with a
    piece in play, a copy in which a copy of that piece was locked where the
    search puts it.  [None] stands for a search that does not end, and for
    a search without a column, whose [new XY(undefined, Game.DEPTH)] is not
    a place of the grid. *)
Definition simulate (rnd : nat -> nat) (s : Session.t) : option Pit.t :=
  match Engine._piece (Session.engine s) with
  | None => Some (Engine.pit (Session.engine s))
  | Some current =>
      let pit := Pit.clone (Engine.pit (Session.engine s)) in
      let current := Piece.clone current in
      match AI.findBestPositionRotation pit current rnd with
      | Some (Some best) =>
          let current := AI.rotations (Z.to_nat (AI.rotation best)) current in
          match AI.p_x best with
          | Some x =>
              match Pit.drop pit (Piece.set_xy (XY.New x Game.DEPTH) current) with
              | Some o => Some (Pit.after o)
              | None => None
              end
          | None => None
          end
      | _ => None
      end
  end.

(** The body of [for (var type in scores)]. *)
Definition worst_step (acc : JS.num * list string) (kv : string * JS.num)
  : JS.num * list string :=
  let score := snd kv in
  let acc1 := if JS.ltb (fst acc) score then (score, []) else acc in
  (fst acc1, if JS.eqb score (fst acc1) then snd acc1 ++ [fst kv] else snd acc1).

(** [Game.Attacker.AI.prototype._poll].  [rnd 0] holds the draws of the
    search for the piece in play, [rnd (S i)] those for the candidate at
    index [i], and [pick] is the draw of [worstTypes.random()]. *)
Definition _poll (rnd : nat -> nat -> nat) (pick : nat) (a : t) (s : Session.t)
  : option (t * Session.t) :=
  if negb (String.eqb (Engine._nextType (Session.engine s)) "") then Some (a, s)
  else
    let avail := candidates (_lastType a) (SDict.keys (Session._availableTypes s)) in
    match simulate (rnd O) s with
    | None => None
    | Some pit =>
        match AI.scoreTypes pit avail (Session._pieceSet s) (fun i => rnd (S i)) with
        | None => None
        | Some scores =>
            let worst := fold_left worst_step scores (JS.NegInf, []) in
            let type := JS.random (snd worst) pick in
            match Session.setNextType
                    (match type with Some ty => ty | None => "undefined" end) s with
            | None => None
            | Some s' => Some (Mk type, s')
            end
        end
    end.

End Attacker.

(** ** Objects and references, for [clone]

    The pit, its dictionary, its two arrays, every cell and every
    coordinate are separate mutable objects reached through references.  A
    cell holds a reference to its [XY] object, whose fields [x] and [y] can
    be assigned ([xy.y--] in js/pit.js, [xy.x += 0.5] in js/gallery.js);
    [Cell.clone] hands the reference of a cell's coordinate on to the new
    cell, it makes no new [XY]. *)

Module Heap.

Abbreviation loc := nat (only parsing).

Inductive obj : Type :=
| OPit (cells cols rows : loc) (node : option loc)
| ODict (entries : Dict.dict loc)
| OArray (elems : list Z)
| OCell (xy : loc) (type pieceSet : string) (node : option loc)
| OXY (x y : Z)
| ONode.

Abbreviation heap := (list obj) (only parsing).

(** A new object: it takes the next unused reference. *)
Definition alloc (o : obj) (h : heap) : heap * loc := (h ++ [o], length h).

(** [new Game.Pit()] *)
Definition new_Pit (h : heap) : heap * loc :=
  let '(h1, lcells) := alloc (ODict []) h in
  let '(h2, lcols) := alloc (OArray (replicate (Z.to_nat Game.WIDTH) 0)) h1 in
  let '(h3, lrows) := alloc (OArray (replicate (Z.to_nat Game.DEPTH) 0)) h2 in
  alloc (OPit lcells lcols lrows None) h3.

(** [Game.Cell.prototype.clone]: [new Game.Cell(this.xy, this.type,
    this.pieceSet)], a new cell that refers to the coordinate object of
    the old one. *)
Definition clone_cell (h : heap) (c : loc) : option (heap * loc) :=
  match h !! c with
  | Some (OCell xy type pieceSet _) => Some (alloc (OCell xy type pieceSet None) h)
  | _ => None
  end.

(** [dict[k] = v] on the dictionary object at [d]. *)
Definition dict_set (d : loc) (k : XY.t) (v : loc) (h : heap) : option heap :=
  match h !! d with
  | Some (ODict es) => Some (<[d := ODict (Dict.set k v es)]> h)
  | _ => None
  end.

(** The body of [for (var p in this.cells)] in [Pit.clone]. *)
Definition clone_entry (ccells : loc) (acc : option heap) (kv : XY.t * loc)
  : option heap :=
  match acc with
  | None => None
  | Some h =>
      match clone_cell h (snd kv) with
      | None => None
      | Some (h1, c') => dict_set ccells (fst kv) c' h1
      end
  end.

(** [Game.Pit.prototype.clone]; [None] is a [TypeError] on a reference that
    does not hold the expected kind of object. *)
Definition clone (h : heap) (this : loc) : option (heap * loc) :=
  match h !! this with
  | Some (OPit tcells tcols trows _) =>
      match h !! tcells, h !! tcols, h !! trows with
      | Some (ODict es), Some (OArray cs), Some (OArray rs) =>
          let '(h1, c) := new_Pit h in
          match h1 !! c with
          | Some (OPit ccells _ _ _) =>
              let '(h2, lcols) := alloc (OArray cs) h1 in
              let '(h3, lrows) := alloc (OArray rs) h2 in
              let h4 := <[c := OPit ccells lcols lrows None]> h3 in
              match fold_left (clone_entry ccells) es (Some h4) with
              | Some h5 => Some (h5, c)
              | None => None
              end
          | _ => None
          end
      | _, _, _ => None
      end
  | _ => None
  end.

(** The coordinate stored at a reference. *)
Definition read_xy (h : heap) (l : loc) : option XY.t :=
  match h !! l with
  | Some (OXY x y) => Some (XY.New x y)
  | _ => None
  end.

(** The cell stored at a reference, with the coordinate that its [xy]
    refers to. *)
Definition read_cell (h : heap) (kv : XY.t * loc) : option (XY.t * Cell.t) :=
  match h !! snd kv with
  | Some (OCell lxy type pieceSet _) =>
      match read_xy h lxy with
      | Some xy => Some (fst kv, Cell.New xy type pieceSet)
      | None => None
      end
  | _ => None
  end.

(** The pit that an object graph represents. *)
Definition read_pit (h : heap) (p : loc) : option Pit.t :=
  match h !! p with
  | Some (OPit lcells lcols lrows node) =>
      match h !! lcells, h !! lcols, h !! lrows with
      | Some (ODict es), Some (OArray cs), Some (OArray rs) =>
          match mapM (read_cell h) es with
          | Some m => Some (Pit.Mk m cs rs (bool_decide (is_Some node)))
          | None => None
          end
      | _, _, _ => None
      end
  | _ => None
  end.

(** The objects of a pit that [clone] makes anew: the pit object, its
    dictionary, its two arrays and its cells. *)
Definition footprint (h : heap) (p : loc) : list loc :=
  match h !! p with
  | Some (OPit lcells lcols lrows _) =>
      p :: lcells :: lcols :: lrows ::
      match h !! lcells with
      | Some (ODict es) => Dict.values es
      | _ => []
      end
  | _ => [p]
  end.

(** The reference that a cell holds in [xy]. *)
Definition cell_xy (h : heap) (c : loc) : option loc :=
  match h !! c with
  | Some (OCell lxy _ _ _) => Some lxy
  | _ => None
  end.

(** The coordinate objects of a pit: what its cells refer to in [xy]. *)
Definition coords (h : heap) (p : loc) : list loc :=
  match h !! p with
  | Some (OPit lcells _ _ _) =>
      match h !! lcells with
      | Some (ODict es) => omap (cell_xy h) (Dict.values es)
      | _ => []
      end
  | _ => []
  end.

(** Any mutation of the object at [l]. *)
Definition write (l : loc) (o : obj) (h : heap) : heap := <[l := o]> h.

End Heap.

(** * Vocabulary of the statements *)

(** ** Well-formed dictionaries *)

(** A dictionary of cells as every path of the program builds it: each key
    is the coordinate held by its cell, and no key occurs twice. *)
Definition cells_wf (m : Dict.t) : Prop :=
  Forall (fun kv => fst kv = Cell.xy (snd kv)) m /\ NoDup (Dict.keys m).

(** ** Rotation *)

(** Section 4.2: "replaces each relative offset (x, y) with (y*s, x*s)". *)
Definition spec_rotate_xy (s : Z) (xy : XY.t) : XY.t :=
  XY.New (XY.y xy * s) (XY.x xy * s).

(** A quarter turn about the origin: the image is as far from the origin as
    the point and perpendicular to it, turning left ([ccw]) or right. *)
Definition quarter_turn (ccw : bool) (f : XY.t -> XY.t) : Prop :=
  forall a,
    XY.x (f a) * XY.x (f a) + XY.y (f a) * XY.y (f a)
      = XY.x a * XY.x a + XY.y a * XY.y a /\
    XY.x a * XY.x (f a) + XY.y a * XY.y (f a) = 0 /\
    XY.x a * XY.y (f a) - XY.y a * XY.x (f a)
      = (if ccw then 1 else -1) * (XY.x a * XY.x a + XY.y a * XY.y a).

(** What [rotate] does to one dictionary entry. *)
Definition rotate_entry (d : Z) (kv : XY.t * Cell.t) : XY.t * Cell.t :=
  let nxy := Piece.rotate_xy (Piece.rotate_sign d) (Cell.xy (snd kv)) in
  (nxy, Cell.set_xy nxy (snd kv)).

(** ** Placement search *)

(** The piece [pc] moved to column [x] of the row it is in. *)
Definition in_column (pc : Piece.t) (x : Z) : Piece.t :=
  Piece.set_xy (XY.New x (XY.y (Piece.xy pc))) pc.

(** What the search promises of a placement it returns for [piece] on
    [pit]: a rotation count below 4 and, when a column comes with it, a fit
    of the piece so rotated at that column of the top row. *)
Definition placement_ok (pit : Pit.t) (piece : Piece.t) (pl : AI.placement) : Prop :=
  exists i : nat,
    (i < 4)%nat /\ AI.rotation pl = Z.of_nat i /\
    (forall x0 : Z, AI.p_x pl = Some x0 ->
       Piece.fits (Piece.set_xy (XY.New x0 (Game.DEPTH - 1)) (AI.rotations i piece))
                  (Pit.cells pit) = true).

(** ** Holes and the score *)

(** Section 4.3 and C6: a hole is an empty cell with an occupied cell
    above it in the same column. *)
Definition spec_hole (m : Dict.t) (h : XY.t) : Prop :=
  0 <= XY.y h /\ Dict.has h m = false /\
  exists y', XY.y h < y' /\ Dict.has (XY.New (XY.x h) y') m = true.

(** Two pits that are identical except that the cell at [h] of the first is
    missing in the second, where it is a hole. *)
Definition one_more_hole (g0 g : Pit.t) (h : XY.t) : Prop :=
  Pit.cols g = Pit.cols g0 /\
  Pit.cells g = filter (fun kv => fst kv <> h) (Pit.cells g0) /\
  Dict.has h (Pit.cells g0) = true /\
  spec_hole (Pit.cells g) h.

(** Sums over the entries of a dictionary. *)
Definition Zsum {A : Type} (f : A -> Z) (l : list A) : Z :=
  fold_right (fun a acc => f a + acc) 0 l.

(** The test of [getScore] for one cell: it stands directly on an empty
    cell of the pit. *)
Definition hole_top (m : Dict.t) (kv : XY.t * Cell.t) : Z :=
  let xy := Cell.xy (snd kv) in
  if (0 <=? XY.y xy - 1) && negb (Dict.has (XY.New (XY.x xy) (XY.y xy - 1)) m)
  then 1 else 0.

(** ** The caches, recomputed from the occupancy map *)

(** The number of occupied cells of row [j]. *)
Definition count_row (m : Dict.t) (j : Z) : Z :=
  Z.of_nat (length (filter (fun kv => XY.y (Cell.xy (snd kv)) = j) m)).

(** One more than the highest occupied row of column [i], 0 for an empty
    column (see [col_height_spec] for this reading). *)
Definition col_height (m : Dict.t) (i : Z) : Z :=
  foldr (fun kv h =>
           if XY.x (Cell.xy (snd kv)) =? i
           then Z.max (XY.y (Cell.xy (snd kv)) + 1) h else h)
        0 m.

Definition rows_consistent (p : Pit.t) : Prop :=
  forall j, 0 <= j < Game.DEPTH ->
    Arr.get (Pit.rows p) j = Some (count_row (Pit.cells p) j).

(** The rows that hold [WIDTH] cells, from the bottom. *)
Definition full_rows (m : Dict.t) : list Z :=
  filter (fun j => count_row m j = Game.WIDTH) (seqZ 0 Game.DEPTH).

Definition cols_consistent (p : Pit.t) : Prop :=
  forall i, 0 <= i < Game.WIDTH ->
    Arr.get (Pit.cols p) i = Some (col_height (Pit.cells p) i).

(** Every cell inside the pit. *)
Definition in_bounds (m : Dict.t) : Prop :=
  Forall (fun kv => 0 <= XY.x (Cell.xy (snd kv)) < Game.WIDTH /\
                    0 <= XY.y (Cell.xy (snd kv)) < Game.DEPTH) m.

(** A pit in order: a proper dictionary of cells inside the pit, arrays of
    the constructor's lengths, both caches right. *)
Definition pit_ok (p : Pit.t) : Prop :=
  cells_wf (Pit.cells p) /\ in_bounds (Pit.cells p) /\
  length (Pit.rows p) = Z.to_nat Game.DEPTH /\
  length (Pit.cols p) = Z.to_nat Game.WIDTH /\
  rows_consistent p /\ cols_consistent p.

(** ** Clearing and reachable pits *)

(** Where the clearing step puts a surviving coordinate. *)
Definition shifted (low k : Z) (xy : XY.t) : XY.t :=
  if low <? XY.y xy then XY.New (XY.x xy) (XY.y xy - k) else xy.

(** What the re-keying loop of [_removeCompletedRows] stores for an entry:
    the cell under the coordinate it then holds. *)
Definition shift_entry (low : option Z) (totalShift : Z) (kv : XY.t * Cell.t)
  : XY.t * Cell.t :=
  let cell := snd kv in
  let xy := Cell.xy cell in
  let above := match low with Some l => l <? XY.y xy | None => false end in
  let xy' := if above then XY.New (XY.x xy) (XY.y xy - totalShift) else xy in
  (xy', if above then Cell.set_xy xy' cell else cell).

(** The piece comes to rest with all its cells below the top of the pit. *)
Definition lands_below_depth (pc : Piece.t) : Prop :=
  Forall (fun kv => XY.y (Piece.xy pc) + XY.y (Cell.xy (snd kv)) < Game.DEPTH)
         (Piece.cells pc).

(** Rows [low], [low + 1], ..., [low + k - 1]; no row when [k] is 0. *)
Definition adjacent_rows (js : list Z) : Prop :=
  exists low k, 0 <= k /\ js = seqZ low k.

(** The pits reached from the empty pit by locks of fitting pieces that
    land below the top of the pit and complete no rows or adjacent rows;
    each lock is followed by its clearing. *)
Inductive reached_gently : Pit.t -> Prop :=
| reached_new : reached_gently Pit.New
| reached_build (p : Pit.t) : reached_gently p -> reached_gently (Pit.build p)
| reached_drop (p : Pit.t) (pc pc' : Piece.t) (o : Pit.outcome) :
    reached_gently p ->
    Piece.wf pc ->
    Piece.fits pc (Pit.cells p) = true ->
    Pit.landing p pc = Some pc' ->
    Pit.drop p pc = Some o ->
    lands_below_depth pc' ->
    adjacent_rows (Pit.completedRows (Pit.lock pc' p)) ->
    reached_gently (Pit.fire o).

(** ** Game over *)

(** A frozen engine, as [_setPlaying(false)] leaves it: not playing, neither
    timer armed, no piece in play and no hard drop under way. *)
Definition frozen (e : Engine.t) : Prop :=
  Engine.playing e = false /\
  Engine._interval e = None /\
  Engine._dropTimeout e = false /\
  Engine._piece e = None /\
  Engine._dropping e = false.

(** ** The heap during [Heap.clone] *)

(** The heap while [Heap.clone] copies the cells of a pit of the heap [h]:
    [h] is still there, followed by the objects made so far; the new pit
    object, its two arrays and its dictionary are in place, and the
    dictionary refers to new cells only, which represent the cells [M] and
    refer to coordinate objects among [X], all of them objects of [h]. *)
Definition cloning (h : Heap.heap) (cs rs : list Z) (X : list Heap.loc)
    (M : Dict.t) (cur : Heap.heap) : Prop :=
  (exists ext, cur = h ++ ext) /\
  (exists D : Dict.dict Heap.loc,
      cur !! length h = Some (Heap.ODict D) /\
      Forall (fun l => (length h <= l)%nat /\
                       exists lxy ty ps,
                         cur !! l = Some (Heap.OCell lxy ty ps None) /\
                         lxy ∈ X /\ is_Some (Heap.read_xy h lxy))
             (Dict.values D) /\
      mapM (Heap.read_cell cur) D = Some M) /\
  cur !! (length h + 3)%nat
    = Some (Heap.OPit (length h) (length h + 4)%nat (length h + 5)%nat None) /\
  cur !! (length h + 4)%nat = Some (Heap.OArray cs) /\
  cur !! (length h + 5)%nat = Some (Heap.OArray rs).

(** * Concrete inputs *)

(** The piece "u" of the left set, as [new Game.Piece("u", "left")] builds it. *)
Definition piece_u : Piece.t :=
  Piece.Mk "u" "left" (XY.New 0 0)
    [(XY.New 0 0, Cell.New (XY.New 0 0) "u" "left");
     (XY.New (-1) 0, Cell.New (XY.New (-1) 0) "u" "left");
     (XY.New (-1) 1, Cell.New (XY.New (-1) 1) "u" "left");
     (XY.New 1 0, Cell.New (XY.New 1 0) "u" "left");
     (XY.New 1 (-1), Cell.New (XY.New 1 (-1)) "u" "left")].

(** The piece "-" of the left set, lying flat with its anchor at column [x]
    of the top row. *)
Definition bar_at (x : Z) : Piece.t :=
  Piece.Mk "-" "left" (XY.New x (Game.DEPTH - 1))
    [(XY.New 0 0, Cell.New (XY.New 0 0) "-" "left");
     (XY.New (-1) 0, Cell.New (XY.New (-1) 0) "-" "left")].

(** A piece of the given type and set at column [x] of the top row, after
    [turns] calls of [rotate(1)]; a piece without cells when the type does
    not exist. *)
Definition spawn (type set : string) (x : Z) (turns : nat) : Piece.t :=
  match Piece.New type set with
  | Some p => Piece.set_xy (XY.New x (Game.DEPTH - 1)) (AI.rotations turns p)
  | None => Piece.Mk type set (XY.New x (Game.DEPTH - 1)) []
  end.

(** A run of locks, each followed by its clearing. *)
Definition lock_all (p : Pit.t) (pcs : list Piece.t) : option Pit.t :=
  fold_left
    (fun acc pc =>
       match acc with
       | None => None
       | Some q =>
           match Pit.drop q pc with
           | None => None
           | Some o => Some (Pit.fire o)
           end
       end)
    pcs (Some p).

(** The bottom row filled except for its last two columns. *)
Definition four_bars : Pit.t :=
  Pit.Mk
    [(XY.New 1 0, Cell.New (XY.New 1 0) "-" "left");
     (XY.New 0 0, Cell.New (XY.New 0 0) "-" "left");
     (XY.New 3 0, Cell.New (XY.New 3 0) "-" "left");
     (XY.New 2 0, Cell.New (XY.New 2 0) "-" "left");
     (XY.New 5 0, Cell.New (XY.New 5 0) "-" "left");
     (XY.New 4 0, Cell.New (XY.New 4 0) "-" "left");
     (XY.New 7 0, Cell.New (XY.New 7 0) "-" "left");
     (XY.New 6 0, Cell.New (XY.New 6 0) "-" "left")]
    [1; 1; 1; 1; 1; 1; 1; 1; 0; 0]
    [8; 0; 0; 0; 0; 0; 0; 0; 0; 0; 0; 0; 0; 0; 0; 0]
    false.

(** [four_bars] with a fifth flat "-" locked in the last two columns,
    before the clearing. *)
Definition five_bars : Pit.t :=
  Pit.Mk
    [(XY.New 1 0, Cell.New (XY.New 1 0) "-" "left");
     (XY.New 0 0, Cell.New (XY.New 0 0) "-" "left");
     (XY.New 3 0, Cell.New (XY.New 3 0) "-" "left");
     (XY.New 2 0, Cell.New (XY.New 2 0) "-" "left");
     (XY.New 5 0, Cell.New (XY.New 5 0) "-" "left");
     (XY.New 4 0, Cell.New (XY.New 4 0) "-" "left");
     (XY.New 7 0, Cell.New (XY.New 7 0) "-" "left");
     (XY.New 6 0, Cell.New (XY.New 6 0) "-" "left");
     (XY.New 9 0, Cell.New (XY.New 9 0) "-" "left");
     (XY.New 8 0, Cell.New (XY.New 8 0) "-" "left")]
    [1; 1; 1; 1; 1; 1; 1; 1; 1; 1]
    [10; 0; 0; 0; 0; 0; 0; 0; 0; 0; 0; 0; 0; 0; 0; 0]
    false.

(** [four_bars] with a flat "-" on top of its first one and then a flat "-"
    locked in the last two columns of the bottom row, before the
    clearing: the bottom row is complete and two cells lie above it. *)
Definition six_bars : Pit.t :=
  Pit.Mk
    [(XY.New 1 0, Cell.New (XY.New 1 0) "-" "left");
     (XY.New 0 0, Cell.New (XY.New 0 0) "-" "left");
     (XY.New 3 0, Cell.New (XY.New 3 0) "-" "left");
     (XY.New 2 0, Cell.New (XY.New 2 0) "-" "left");
     (XY.New 5 0, Cell.New (XY.New 5 0) "-" "left");
     (XY.New 4 0, Cell.New (XY.New 4 0) "-" "left");
     (XY.New 7 0, Cell.New (XY.New 7 0) "-" "left");
     (XY.New 6 0, Cell.New (XY.New 6 0) "-" "left");
     (XY.New 1 1, Cell.New (XY.New 1 1) "-" "left");
     (XY.New 0 1, Cell.New (XY.New 0 1) "-" "left");
     (XY.New 9 0, Cell.New (XY.New 9 0) "-" "left");
     (XY.New 8 0, Cell.New (XY.New 8 0) "-" "left")]
    [2; 2; 1; 1; 1; 1; 1; 1; 1; 1]
    [10; 2; 0; 0; 0; 0; 0; 0; 0; 0; 0; 0; 0; 0; 0; 0]
    false.

(** The pit after the piece "u" was locked from the top row of the empty
    pit, and the same pit without the cell at (4, 1). *)
Definition u_locked : Pit.t :=
  Pit.Mk
    [(XY.New 5 1, Cell.New (XY.New 5 1) "u" "left");
     (XY.New 4 1, Cell.New (XY.New 4 1) "u" "left");
     (XY.New 4 2, Cell.New (XY.New 4 2) "u" "left");
     (XY.New 6 1, Cell.New (XY.New 6 1) "u" "left");
     (XY.New 6 0, Cell.New (XY.New 6 0) "u" "left")]
    [0; 0; 0; 0; 3; 2; 2; 0; 0; 0]
    [1; 3; 1; 0; 0; 0; 0; 0; 0; 0; 0; 0; 0; 0; 0; 0]
    false.

Definition u_locked_holed : Pit.t :=
  Pit.Mk
    [(XY.New 5 1, Cell.New (XY.New 5 1) "u" "left");
     (XY.New 4 2, Cell.New (XY.New 4 2) "u" "left");
     (XY.New 6 1, Cell.New (XY.New 6 1) "u" "left");
     (XY.New 6 0, Cell.New (XY.New 6 0) "u" "left")]
    [0; 0; 0; 0; 3; 2; 2; 0; 0; 0]
    [1; 2; 1; 0; 0; 0; 0; 0; 0; 0; 0; 0; 0; 0; 0; 0]
    false.

(** Ten locks of right-set pieces that leave rows 1 and 3 one cell short in
    column 5, with rows 0 and 2 partly filled in the same columns. *)
Definition staggered : list Piece.t :=
  [spawn "-" "right" 4 0; spawn "-" "right" 9 0; spawn "t" "right" 1 0;
   spawn "-" "right" 4 0; spawn "i" "right" 8 0;
   spawn "-" "right" 4 0; spawn "-" "right" 9 0; spawn "t" "right" 1 0;
   spawn "-" "right" 4 0; spawn "i" "right" 8 0].

(** Seven upright "-" pieces stacked in column 6, on which the piece "u"
    then comes to rest in the top row. *)
Definition tower : list Piece.t :=
  replicate 7 (spawn "-" "left" 6 1).

(** A heap that holds the pit after one flat "-" piece was locked at the
    left wall; the pit object is at reference 3, the coordinate objects of
    its two cells are at references 6 and 7. *)
Definition small_heap : Heap.heap :=
  [Heap.ODict [(XY.New 1 0, 4%nat); (XY.New 0 0, 5%nat)];
   Heap.OArray [1; 1; 0; 0; 0; 0; 0; 0; 0; 0];
   Heap.OArray [2; 0; 0; 0; 0; 0; 0; 0; 0; 0; 0; 0; 0; 0; 0; 0];
   Heap.OPit 0 1 2 None;
   Heap.OCell 6%nat "-" "left" None;
   Heap.OCell 7%nat "-" "left" None;
   Heap.OXY 1 0;
   Heap.OXY 0 0].

Definition small_pit : Pit.t :=
  Pit.Mk
    [(XY.New 1 0, Cell.New (XY.New 1 0) "-" "left");
     (XY.New 0 0, Cell.New (XY.New 0 0) "-" "left")]
    [1; 1; 0; 0; 0; 0; 0; 0; 0; 0]
    [2; 0; 0; 0; 0; 0; 0; 0; 0; 0; 0; 0; 0; 0; 0; 0]
    false.

(** * Vocabulary of the statements, continued *)

(** ** Falling and locking *)

(** The piece [pc] moved to row [y] of the column it is in. *)
Definition in_row (pc : Piece.t) (y : Z) : Piece.t :=
  Piece.set_xy (XY.New (XY.x (Piece.xy pc)) y) pc.

(** What the loop of [drop] stores for one cell of a piece at [pos]: the
    cell, now holding its place in the pit, under that place. *)
Definition locked_entry (pos : XY.t) (kv : XY.t * Cell.t) : XY.t * Cell.t :=
  let xy := XY.plus pos (Cell.xy (snd kv)) in
  (xy, Cell.set_xy xy (snd kv)).

(** ** The supply of pieces *)

(** How many pieces of a type the table lists; a type that is not listed
    counts as none ([this._availableTypes[type] || 0]). *)
Definition count (type : string) (m : SDict.dict Z) : Z :=
  match SDict.get type m with Some n => n | None => 0 end.

(** All the pieces that the table lists. *)
Definition total (m : SDict.dict Z) : Z := Zsum snd m.

(** How many pieces of a type [Game.Piece.DEF] gives to a set. *)
Definition full_count (set type : string) : Z :=
  match Piece.DEF set type with Some d => Piece.avail d | None => 0 end.

(** A supply in order: the set is one of [Game.Piece.DEF], the table is not
    empty and lists each type once, with a count between 1 and what the
    set gives to that type; and the type waiting in [_nextType], if any, is
    a type of the set. *)
Definition supply_ok (s : Session.t) : Prop :=
  Piece.types (Session._pieceSet s) <> None /\
  Session._availableTypes s <> [] /\
  NoDup (SDict.keys (Session._availableTypes s)) /\
  Forall (fun kv => 1 <= snd kv <= full_count (Session._pieceSet s) (fst kv))
         (Session._availableTypes s) /\
  (Engine._nextType (Session.engine s) = "" \/
   0 < full_count (Session._pieceSet s) (Engine._nextType (Session.engine s))).

(** ** The piece in play, and the states of an engine *)

(** The piece in play, if there is one, is a piece in order: its keys are
    its cells' offsets, all different, and it has a cell. *)
Definition piece_ok (e : Engine.t) : Prop :=
  match Engine._piece e with
  | None => True
  | Some pc => Piece.wf pc /\ Piece.cells pc <> []
  end.

(** JavaScript numbers are doubles: a sum or difference of two integers is
    the integer it should be when neither exceeds [2^52] in magnitude. *)
Definition safe (z : Z) : Prop := - 2 ^ 52 <= z <= 2 ^ 52.

(** The states of an engine in use: what the constructor makes for one of
    the two piece sets, followed by calls of the public methods and runs
    of the timer callbacks, in any order.  [setNextType] is called with any
    string that is not an inherited property name (a piece type, as the
    galleries and the attacker pass, or any other name), [shift] with any
    integer below [2^52] in magnitude. *)
Inductive played : Session.t -> Prop :=
| played_New (scoreElementId pieceSet : string) (interval_engine : Z) (s : Session.t) :
    pieceSet = "left" \/ pieceSet = "right" ->
    Session.New scoreElementId pieceSet interval_engine = Some s -> played s
| played_setNextType (nextType : string) (s s' : Session.t) :
    played s -> SDict.inherited nextType = false ->
    Session.setNextType nextType s = Some s' -> played s'
| played_shift (direction : Z) (s : Session.t) :
    played s -> safe direction ->
    played (Session.set_engine (Engine.shift direction (Session.engine s)) s)
| played_rotate (s : Session.t) :
    played s -> played (Session.set_engine (Engine.rotate (Session.engine s)) s)
| played_drop (s : Session.t) (e' : Engine.t) :
    played s -> Engine.drop (Session.engine s) = Some e' ->
    played (Session.set_engine e' s)
| played_tick (s : Session.t) (e' : Engine.t) :
    played s -> Engine._tick (Session.engine s) = Some e' ->
    played (Session.set_engine e' s)
| played_lock (s : Session.t) (l : Engine.locked) :
    played s -> Engine._drop (Session.engine s) = Some l ->
    played (Session.set_engine (Engine.engine_after l) s)
| played_clear (completed : list Z) (s : Session.t) :
    played s ->
    played (Session.set_engine (Engine.clear_rows completed (Session.engine s)) s)
| played_score (removed : Z) (s s' : Session.t) :
    played s -> Session.score_callback (JS.Number removed) s = Some s' -> played s'.

(** ** The search *)

(** [a <= b] on scores. *)
Definition JS_le (a b : JS.num) : Prop := JS.ltb b a = false.

(** The piece at column [x] of the top row, the row where
    [findBestPosition] centres it. *)
Definition top_row (piece : Piece.t) (x : Z) : Piece.t :=
  Piece.set_xy (XY.New x (Game.DEPTH - 1)) piece.

(** The score that the loop of [findBestPosition] gives to the piece where
    it stands: that of a copy of the pit into which a copy of the piece was
    dropped. *)
Definition lock_score (pit : Pit.t) (pc : Piece.t) : option JS.num :=
  match Pit.drop (Pit.clone pit) (Piece.clone pc) with
  | Some o => Some (Pit.getScore (Pit.after o))
  | None => None
  end.

(** The columns that [findBestPosition] comes to try: the piece fits the
    top row at every column from there to the centre column [WIDTH / 2]
    (when the column is left of it or the centre itself), or at every
    column from the one right of the centre up to there. *)
Definition scanned (pit : Pit.t) (piece : Piece.t) (x : Z) : Prop :=
  forall x', (x <= x' <= Game.WIDTH / 2 \/ Game.WIDTH / 2 < x' <= x) ->
             Piece.fits (top_row piece x') (Pit.cells pit) = true.

(** The score of a piece type on a pit: the least of the scores that
    [findBestPosition] gives to a new piece of that type turned 0, 1, 2 or 3
    times. *)
Definition type_score (pit : Pit.t) (set type : string) (sc : JS.num) : Prop :=
  exists piece,
    Piece.New type set = Some piece /\
    (exists (i r : nat) res,
        (i < 4)%nat /\
        AI.findBestPosition pit (AI.rotations i piece) r = Some res /\
        AI.score res = sc) /\
    (forall (j r : nat) res,
        (j < 4)%nat ->
        AI.findBestPosition pit (AI.rotations j piece) r = Some res ->
        JS_le sc (AI.score res)).

(** * Concrete inputs, continued *)

(** A newly made left engine with a flat "-" in play in the top row, and
    one with the piece "u" where [center] puts it. *)
Definition engine_with_bar : Engine.t :=
  Engine.set_piece (Some (bar_at 1)) (Engine.New "score-left").

Definition engine_with_u : Engine.t :=
  Engine.set_piece (Some (Piece.center piece_u)) (Engine.New "score-left").

(** The left engine as its constructor leaves it, with
    [Game.INTERVAL_ENGINE] at its initial value. *)
Definition left_session : Session.t :=
  Session.Mk (Engine.New "score-left") "left"
             [("s", 10); ("-", 2); ("t", 10); ("u", 10)]
             Game.INTERVAL_ENGINE_initial [].

(** A left engine whose pit holds four flat "-" pieces in the bottom row,
    with a fifth one in play above the two columns that are still free. *)
Definition engine_four_bars : Engine.t :=
  Engine.Mk 0 true "score-left" (Some 1000) false false
            (Pit.build four_bars) (Some (bar_at 9)) "".

(** The left engine after [setNextType("-")] on the state that the
    constructor leaves: a flat "-" in play in the middle of the top row,
    the tick interval armed. *)
Definition left_session_bar : Session.t :=
  Session.Mk
    (Engine.Mk 0 true "score-left" (Some 1000) false false (Pit.build Pit.New)
               (Some (bar_at 5)) "")
    "left" [("s", 10); ("-", 1); ("t", 10); ("u", 10)] 995 [].

(** Both sessions in the middle of a game, with no game over recorded: the
    left one has locked four pieces and a flat "-" falls under its timer;
    the right one is in a hard drop, its piece at rest on the floor, the
    drop timer armed and the next type chosen. *)
Definition mid_game : App.t :=
  App.Mk 990 None
    (Engine.Mk 0 true "score-left" (Some 1000) false false
               (Pit.build four_bars) (Some (bar_at 9)) "t")
    (Engine.Mk 2 true "score-right" None true true
               (Pit.build Pit.New)
               (Some (Piece.set_xy (XY.New 5 0) (spawn "-" "right" 5 0))) "o")
    [].
(** * Facts *)

(** ** Coordinates and dictionaries *)

Lemma XY_eqb_eq (a b : XY.t) : XY.eqb a b = true <-> a = b.
Proof.
  destruct a as [ax ay], b as [bx by_]. unfold XY.eqb. simpl.
  rewrite andb_true_iff, !Z.eqb_eq. split.
  - intros [-> ->]. reflexivity.
  - intros H. inversion H. auto.
Qed.

Lemma XY_eqb_refl (a : XY.t) : XY.eqb a a = true.
Proof. apply XY_eqb_eq. reflexivity. Qed.

Lemma XY_eqb_neq (a b : XY.t) : XY.eqb a b = false <-> a <> b.
Proof.
  rewrite <- XY_eqb_eq. destruct (XY.eqb a b); split; congruence.
Qed.

Lemma XY_plus_minus (a d : XY.t) : XY.minus (XY.plus a d) d = a.
Proof. destruct a, d. unfold XY.minus, XY.plus. simpl. f_equal; lia. Qed.

Section DictFacts.
Context {A : Type}.
Implicit Types (m : Dict.dict A) (k : XY.t) (v : A).

Lemma Dict_get_None k m : Dict.get k m = None <-> k ∉ Dict.keys m.
Proof.
  induction m as [|[k' v'] m IH]; simpl.
  - split; [intros _; apply not_elem_of_nil | reflexivity].
  - destruct (XY.eqb k k') eqn:E.
    + apply XY_eqb_eq in E. subst. split; [discriminate|].
      intros H. exfalso. apply H. left.
    + apply XY_eqb_neq in E. rewrite IH, not_elem_of_cons. tauto.
Qed.

Lemma Dict_has_false k m : Dict.has k m = false <-> k ∉ Dict.keys m.
Proof.
  unfold Dict.has. rewrite <- Dict_get_None.
  destruct (Dict.get k m); split; congruence.
Qed.

Lemma Dict_has_true k m : Dict.has k m = true <-> k ∈ Dict.keys m.
Proof.
  destruct (Dict.has k m) eqn:E.
  - split; [intros _|reflexivity].
    destruct (decide (k ∈ Dict.keys m)) as [|N]; [assumption|].
    apply Dict_has_false in N. congruence.
  - apply Dict_has_false in E. split; [discriminate | contradiction].
Qed.

Lemma Dict_set_fresh k v m : k ∉ Dict.keys m -> Dict.set k v m = m ++ [(k, v)].
Proof.
  induction m as [|[k' v'] m IH]; simpl; [reflexivity|].
  rewrite not_elem_of_cons. intros [Hne Hm].
  apply XY_eqb_neq in Hne. rewrite Hne, IH by assumption. reflexivity.
Qed.

Lemma Dict_keys_set k v m :
  Dict.keys (Dict.set k v m)
  = if Dict.has k m then Dict.keys m else Dict.keys m ++ [k].
Proof.
  unfold Dict.has. induction m as [|[k' v'] m IH]; simpl; [reflexivity|].
  destruct (XY.eqb k k') eqn:E; simpl; [reflexivity|].
  rewrite IH. destruct (Dict.get k m); reflexivity.
Qed.

(** Assigning pairwise distinct keys that are not yet present appends the
    entries in order. *)
Lemma Dict_fold_set_fresh {B : Type} (f : B -> XY.t * A) (l : list B) m :
  NoDup (fmap (fun b => fst (f b)) l) ->
  (forall b, b ∈ l -> fst (f b) ∉ Dict.keys m) ->
  fold_left (fun acc b => Dict.set (fst (f b)) (snd (f b)) acc) l m
  = m ++ fmap f l.
Proof.
  revert m. induction l as [|b l IH]; intros m Hnd Hfresh; simpl.
  - rewrite app_nil_r. reflexivity.
  - apply NoDup_cons in Hnd as [Hb Hnd].
    rewrite Dict_set_fresh by (apply Hfresh; left).
    rewrite IH; [| assumption |].
    + rewrite <- app_assoc. simpl. destruct (f b). reflexivity.
    + intros b' Hb'. unfold Dict.keys. rewrite fmap_app. simpl.
      rewrite elem_of_app, list_elem_of_singleton. intros [Hin | Heq].
      * apply (Hfresh b'); [right; assumption | exact Hin].
      * apply Hb. rewrite <- Heq. apply (list_elem_of_fmap_2 (fun b => fst (f b))).
        exact Hb'.
Qed.

End DictFacts.

(** ** Rotation *)

Lemma Cell_set_xy_same (c : Cell.t) : Cell.set_xy (Cell.xy c) c = c.
Proof. destruct c. reflexivity. Qed.

Lemma rotate_xy_inj (d : Z) (a b : XY.t) :
  Piece.rotate_xy (Piece.rotate_sign d) a = Piece.rotate_xy (Piece.rotate_sign d) b ->
  a = b.
Proof.
  destruct a as [ax ay], b as [bx by_].
  unfold Piece.rotate_xy, Piece.rotate_sign.
  destruct (0 <? d); simpl; intros H; inversion H; f_equal; lia.
Qed.

Lemma rotate_cells (d : Z) (p : Piece.t) :
  Piece.wf p ->
  Piece.cells (Piece.rotate d p) = rotate_entry d <$> Piece.cells p.
Proof.
  intros [Hkeys Hnd]. unfold Piece.rotate. simpl.
  rewrite (Dict_fold_set_fresh (rotate_entry d)); [reflexivity | | ].
  - assert (Hco : (fun b => fst (rotate_entry d b)) <$> Piece.cells p
                  = Piece.rotate_xy (Piece.rotate_sign d) <$> Dict.keys (Piece.cells p)).
    { unfold Dict.keys. rewrite <- list_fmap_compose.
      apply Forall_fmap_ext_1. eapply Forall_impl; [exact Hkeys|].
      intros [k c] Hk. simpl in *. rewrite Hk. reflexivity. }
    rewrite Hco. apply NoDup_fmap_2_strong; [|exact Hnd].
    intros a b _ _. apply rotate_xy_inj.
  - intros b _. apply not_elem_of_nil.
Qed.

Lemma rotate_wf (d : Z) (p : Piece.t) : Piece.wf p -> Piece.wf (Piece.rotate d p).
Proof.
  intros Hwf. pose proof (rotate_cells d p Hwf) as Hc.
  destruct Hwf as [Hkeys Hnd]. unfold Piece.wf. rewrite Hc. split.
  - apply Forall_fmap. apply Forall_forall. intros [k c] _. reflexivity.
  - unfold Dict.keys. rewrite <- list_fmap_compose.
    assert (Hco : fst ∘ rotate_entry d <$> Piece.cells p
                  = Piece.rotate_xy (Piece.rotate_sign d) <$> Dict.keys (Piece.cells p)).
    { unfold Dict.keys. rewrite <- list_fmap_compose.
      apply Forall_fmap_ext_1. eapply Forall_impl; [exact Hkeys|].
      intros [k c] Hk. simpl in *. rewrite Hk. reflexivity. }
    rewrite Hco. apply NoDup_fmap_2_strong; [|exact Hnd].
    intros a b _ _. apply rotate_xy_inj.
Qed.

Lemma rotate_back (d e : Z) (p : Piece.t) :
  Piece.wf p ->
  (forall a, Piece.rotate_xy (Piece.rotate_sign e)
               (Piece.rotate_xy (Piece.rotate_sign d) a) = a) ->
  Piece.rotate e (Piece.rotate d p) = p.
Proof.
  intros Hwf Hinv.
  assert (Hc : Piece.cells (Piece.rotate e (Piece.rotate d p)) = Piece.cells p).
  { rewrite rotate_cells by (apply rotate_wf; exact Hwf).
    rewrite rotate_cells by exact Hwf.
    rewrite <- list_fmap_compose.
    destruct Hwf as [Hkeys _].
    transitivity (id <$> Piece.cells p); [|apply list_fmap_id].
    apply Forall_fmap_ext_1. eapply Forall_impl; [exact Hkeys|].
    intros [k c] Hk. simpl in *. unfold rotate_entry. simpl.
    rewrite Hinv. destruct c as [cxy ct cs]. simpl in *. subst k. reflexivity. }
  destruct p as [ty ps pos cs]. unfold Piece.rotate in *. simpl in *.
  unfold Piece.set_cells. simpl. f_equal. exact Hc.
Qed.

(** The piece "u" of the left set, as the constructor builds it. *)
Lemma piece_u_left :
  Piece.New "u" "left"
  = Some (Piece.Mk "u" "left" (XY.New 0 0)
            [(XY.New 0 0, Cell.New (XY.New 0 0) "u" "left");
             (XY.New (-1) 0, Cell.New (XY.New (-1) 0) "u" "left");
             (XY.New (-1) 1, Cell.New (XY.New (-1) 1) "u" "left");
             (XY.New 1 0, Cell.New (XY.New 1 0) "u" "left");
             (XY.New 1 (-1), Cell.New (XY.New 1 (-1)) "u" "left")]).
Proof. reflexivity. Qed.

Lemma piece_u_wf : Piece.wf piece_u.
Proof.
  split.
  - repeat constructor.
  - apply (bool_decide_unpack (NoDup (Dict.keys (Piece.cells piece_u)))).
    vm_compute. exact I.
Qed.

(** C8, as stated, fails: for the piece "u" neither value of [s] makes the
    spec's formula agree with what [rotate] leaves in the piece, whether the
    direction is +1 or -1. *)
Lemma rotate_formula_counterexample :
  Dict.coords (Piece.cells (Piece.rotate 1 piece_u))
    <> spec_rotate_xy (-1) <$> Dict.coords (Piece.cells piece_u) /\
  Dict.coords (Piece.cells (Piece.rotate 1 piece_u))
    <> spec_rotate_xy 1 <$> Dict.coords (Piece.cells piece_u) /\
  Dict.coords (Piece.cells (Piece.rotate (-1) piece_u))
    <> spec_rotate_xy 1 <$> Dict.coords (Piece.cells piece_u) /\
  Dict.coords (Piece.cells (Piece.rotate (-1) piece_u))
    <> spec_rotate_xy (-1) <$> Dict.coords (Piece.cells piece_u).
Proof. repeat split; vm_compute; discriminate. Qed.

(** C8, amended: [rotate(direction)] replaces each relative offset (x, y)
    with (-y, x) when [direction > 0] and with (y, -x) otherwise, keeping
    the cells in order; both maps are quarter turns about the origin cell,
    in opposite senses. *)
Theorem rotate_quarter_turn (direction : Z) (p : Piece.t) :
  Piece.wf p ->
  Dict.coords (Piece.cells (Piece.rotate direction p))
  = (fun a => if 0 <? direction
              then XY.New (- XY.y a) (XY.x a)
              else XY.New (XY.y a) (- XY.x a)) <$> Dict.coords (Piece.cells p)
  /\ quarter_turn (0 <? direction)
       (Piece.rotate_xy (Piece.rotate_sign direction)).
Proof.
  intros Hwf. split.
  - rewrite rotate_cells by exact Hwf. unfold Dict.coords.
    rewrite <- !list_fmap_compose. apply list_fmap_ext. intros _ [k c] _. simpl.
    unfold Piece.rotate_xy, Piece.rotate_sign.
    destruct (0 <? direction); simpl; f_equal; lia.
  - intros [ax ay]. unfold Piece.rotate_xy, Piece.rotate_sign.
    destruct (0 <? direction); simpl; lia.
Qed.

Lemma rotate_quarter_turn_witness :
  Dict.coords (Piece.cells (Piece.rotate 1 piece_u))
  = (fun a => if 0 <? 1
              then XY.New (- XY.y a) (XY.x a)
              else XY.New (XY.y a) (- XY.x a)) <$> Dict.coords (Piece.cells piece_u)
  /\ quarter_turn (0 <? 1) (Piece.rotate_xy (Piece.rotate_sign 1)).
Proof. apply (rotate_quarter_turn 1 piece_u). exact piece_u_wf. Defined.

(** C10: rotating by +1 and then by -1, or four times by +1, gives back the
    piece, hence every relative cell offset. *)
Theorem rotate_self_inverse (p : Piece.t) :
  Piece.wf p ->
  Piece.rotate (-1) (Piece.rotate 1 p) = p /\
  Piece.rotate 1 (Piece.rotate 1 (Piece.rotate 1 (Piece.rotate 1 p))) = p.
Proof.
  intros Hwf. split.
  - apply rotate_back; [exact Hwf|].
    intros [ax ay]. unfold Piece.rotate_xy. simpl. f_equal; lia.
  - assert (H2 : forall q, Piece.wf q ->
               Piece.cells (Piece.rotate 1 (Piece.rotate 1 q))
               = (fun kv => let n := XY.New (- XY.x (Cell.xy (snd kv)))
                                            (- XY.y (Cell.xy (snd kv))) in
                            (n, Cell.set_xy n (snd kv))) <$> Piece.cells q).
    { intros q Hq. rewrite rotate_cells by (apply rotate_wf; exact Hq).
      rewrite rotate_cells by exact Hq. rewrite <- list_fmap_compose.
      apply list_fmap_ext. intros _ [k [[cx cy] ct cs]] _. unfold rotate_entry.
      simpl. unfold Piece.rotate_xy. simpl.
      replace (cx * 1 * -1) with (- cx) by lia.
      replace (cy * -1 * 1) with (- cy) by lia. reflexivity. }
    assert (Hc : Piece.cells
                   (Piece.rotate 1 (Piece.rotate 1 (Piece.rotate 1 (Piece.rotate 1 p))))
                 = Piece.cells p).
    { rewrite H2 by (do 2 apply rotate_wf; exact Hwf).
      rewrite H2 by exact Hwf. rewrite <- list_fmap_compose.
      destruct Hwf as [Hkeys _].
      transitivity (id <$> Piece.cells p); [|apply list_fmap_id].
      apply Forall_fmap_ext_1. eapply Forall_impl; [exact Hkeys|].
      intros [k [[cx cy] ct cs]] Hk. simpl in *. subst k.
      unfold Cell.set_xy. simpl. rewrite !Z.opp_involutive. reflexivity. }
    destruct p as [ty ps pos cs]. unfold Piece.rotate in *. simpl in *.
    unfold Piece.set_cells. simpl. f_equal. exact Hc.
Qed.

Lemma rotate_self_inverse_witness :
  Piece.rotate (-1) (Piece.rotate 1 piece_u) = piece_u /\
  Piece.rotate 1 (Piece.rotate 1 (Piece.rotate 1 (Piece.rotate 1 piece_u))) = piece_u.
Proof. apply (rotate_self_inverse piece_u). exact piece_u_wf. Defined.

(** ** Tick cadence and the shared interval *)

(** C4, as stated, fails: alone, the right session arms its tick timer with
    a period of 1000; after the left session has started a piece's fall, the
    same call arms it with 995. *)
Lemma tick_cadence_counterexample :
  Engine._interval (App.engine App.Right (App.engine_start App.Right App.start))
    = Some 1000 /\
  Engine._interval
    (App.engine App.Right
       (App.engine_start App.Right (App.engine_start App.Left App.start)))
    = Some 995.
Proof. split; reflexivity. Qed.

(** C4, amended: both sessions draw their tick period from the one global
    [Game.INTERVAL_ENGINE].  A session's [_start] never touches the other
    session's engine, so a timer the other session has armed keeps its
    period; but when it arms a timer it takes the current global value as
    period and lowers the global by 5, which is the period the next arming
    start of either session gets.  A [_start] on a running timer changes
    nothing. *)
Theorem engine_start_shared_interval (s : App.side) (w : App.t) :
  App.engine (App.other s) (App.engine_start s w) = App.engine (App.other s) w /\
  match Engine._interval (App.engine s w) with
  | Some _ => App.engine_start s w = w
  | None =>
      Engine._interval (App.engine s (App.engine_start s w))
        = Some (App.INTERVAL_ENGINE w) /\
      App.INTERVAL_ENGINE (App.engine_start s w) = App.INTERVAL_ENGINE w - 5 /\
      match Engine._interval (App.engine (App.other s) w) with
      | Some _ => True
      | None =>
          Engine._interval
            (App.engine (App.other s)
               (App.engine_start (App.other s) (App.engine_start s w)))
          = Some (App.INTERVAL_ENGINE w - 5)
      end
  end.
Proof.
  destruct w as [ie fg el er ov], s; unfold App.engine_start, Engine._start; simpl.
  - destruct (Engine._interval el) eqn:El; simpl.
    + split; reflexivity.
    + split; [reflexivity|]. split; [reflexivity|]. split; [reflexivity|].
      destruct (Engine._interval er) eqn:Er; simpl; [exact I|].
      reflexivity.
  - destruct (Engine._interval er) eqn:Er; simpl.
    + split; reflexivity.
    + split; [reflexivity|]. split; [reflexivity|]. split; [reflexivity|].
      destruct (Engine._interval el) eqn:El; simpl; [exact I|].
      reflexivity.
Qed.

(** ** Game-over arbitration *)

(** A frozen engine: not playing, no timers, no piece. *)
Lemma setPlaying_self_frozen (e : Engine.t) :
  Engine.playing e = false -> Engine._interval e = None ->
  Engine._dropping e = false -> Engine._dropTimeout e = false ->
  Engine._piece e = None ->
  Engine._setPlaying_self false e = e.
Proof.
  destruct e. simpl. intros -> -> -> -> ->. reflexivity.
Qed.

Lemma handleGameOver_recorded (fuel : nat) (id : string) (w : App.t) :
  App.truthy (App.firstGameOver w) = true ->
  App.handleGameOver (S fuel) id w = Some w.
Proof. intros H. simpl. rewrite H. reflexivity. Qed.

Lemma handleGameOver_first (fuel : nat) (id : string) (w : App.t) :
  App.truthy (App.firstGameOver w) = false ->
  App.handleGameOver (S fuel) id w
  = let w1 := App.Mk (App.INTERVAL_ENGINE w) (Some id) (App._engineLeft w)
                     (App._engineRight w) (App.overlays w) in
    match App._setPlaying (App.handleGameOver fuel) App.Left false w1 with
    | None => None
    | Some w2 =>
        match App._setPlaying (App.handleGameOver fuel) App.Right false w2 with
        | None => None
        | Some w3 =>
            let first := App.firstGameOver w3 in
            let is_left :=
              match first with
              | Some f => String.eqb f "score-left"
              | None => false
              end in
            Some (App.Mk (App.INTERVAL_ENGINE w3) first (App._engineLeft w3)
                    (App._engineRight w3)
                    (App.overlays w3
                     ++ [(if is_left then "left" else "right", "LOSER");
                         (if is_left then "right" else "left", "WINNER")]))
        end
    end.
Proof. intros H. simpl. rewrite H. reflexivity. Qed.

Lemma setPlaying_self_freezes (e : Engine.t) :
  frozen (Engine._setPlaying_self false e).
Proof. repeat split. Qed.

Lemma game_over_recorded (fuel : nat) (s : App.side) (w : App.t) :
  App.truthy (App.firstGameOver w) = true ->
  App.game_over (S fuel) s w
  = Some (App.set_engine s (Engine._setPlaying_self false (App.engine s w)) w).
Proof.
  intros H. unfold App.game_over, App._setPlaying.
  apply handleGameOver_recorded. destruct s; exact H.
Qed.

(** The right session of [mid_game] is where a hard drop of a "-" from the
    top row leaves it. *)
Lemma mid_game_hard_drop :
  Engine.drop
    (Engine.Mk 2 true "score-right" (Some 995) false false (Pit.build Pit.New)
               (Some (spawn "-" "right" 5 0)) "o")
  = Some (App._engineRight mid_game).
Proof. vm_compute. reflexivity. Qed.

(** C5: the first notification freezes both sessions, whatever their pits
    hold and whatever they were doing: each is left not playing, with
    neither its tick timer nor its drop timer armed, without a piece in play
    and out of any hard drop, its pit, score and chosen next type as they
    were; the notifying side is recorded as loser and the other as winner.
    From then on, in every state of the application that still holds this
    record, a notification leaves the whole state as it is, and a session
    that enters game over changes nothing but its own engine, which it
    freezes; in the state right after the first notification this changes
    nothing at all. *)
Theorem first_game_over_authoritative (s : App.side) (w : App.t) (fuel : nat) :
  App.firstGameOver w = None ->
  (2 <= fuel)%nat ->
  exists w',
    App.handleGameOver fuel (App.scoreElementId s) w = Some w' /\
    (forall s' : App.side,
        frozen (App.engine s' w') /\
        Engine.pit (App.engine s' w') = Engine.pit (App.engine s' w) /\
        Engine.score (App.engine s' w') = Engine.score (App.engine s' w) /\
        Engine._nextType (App.engine s' w') = Engine._nextType (App.engine s' w)) /\
    App.firstGameOver w' = Some (App.scoreElementId s) /\
    App.overlays w'
      = App.overlays w ++ [(App.side_name s, "LOSER");
                           (App.side_name (App.other s), "WINNER")] /\
    (forall (w'' : App.t) (id : string) (fuel' : nat),
        App.firstGameOver w'' = Some (App.scoreElementId s) ->
        (1 <= fuel')%nat ->
        App.handleGameOver fuel' id w'' = Some w'' /\
        forall s' : App.side,
          App.game_over fuel' s' w''
          = Some (App.set_engine s'
                    (Engine._setPlaying_self false (App.engine s' w'')) w'')) /\
    (forall (s' : App.side) (fuel' : nat),
        (1 <= fuel')%nat -> App.game_over fuel' s' w' = Some w').
Proof.
  intros Hnone Hfuel.
  destruct fuel as [|[|fuel]]; [lia | lia |].
  destruct w as [ie fg el er ov]. simpl in Hnone. subst fg.
  eexists. split.
  - rewrite handleGameOver_first by reflexivity.
    unfold App._setPlaying.
    cbn [App.set_engine App.engine App.INTERVAL_ENGINE App.firstGameOver
         App._engineLeft App._engineRight App.overlays].
    rewrite !handleGameOver_recorded by (destruct s; reflexivity).
    cbn [App.set_engine App.engine App.INTERVAL_ENGINE App.firstGameOver
         App._engineLeft App._engineRight App.overlays].
    reflexivity.
  - cbn [App.INTERVAL_ENGINE App.firstGameOver App._engineLeft App._engineRight
         App.overlays].
    split; [|split; [reflexivity|split; [|split]]].
    + intros s'. destruct s';
        cbn [App.engine App._engineLeft App._engineRight];
        (split; [apply setPlaying_self_freezes | repeat split]).
    + destruct s; reflexivity.
    + intros w'' id fuel' Hrec Hf.
      assert (Ht : App.truthy (App.firstGameOver w'') = true)
        by (rewrite Hrec; destruct s; reflexivity).
      destruct fuel' as [|fuel']; [lia|]. split.
      * apply handleGameOver_recorded. exact Ht.
      * intros s'. apply game_over_recorded. exact Ht.
    + intros s' fuel' Hf. destruct fuel' as [|fuel']; [lia|].
      rewrite game_over_recorded by (destruct s; reflexivity).
      destruct s'; cbn [App.engine App.set_engine App.INTERVAL_ENGINE
                        App.firstGameOver App._engineLeft App._engineRight
                        App.overlays];
        reflexivity.
Qed.

Lemma first_game_over_authoritative_witness :
  exists w',
    App.handleGameOver 2 (App.scoreElementId App.Right) mid_game = Some w' /\
    (forall s' : App.side,
        frozen (App.engine s' w') /\
        Engine.pit (App.engine s' w') = Engine.pit (App.engine s' mid_game) /\
        Engine.score (App.engine s' w') = Engine.score (App.engine s' mid_game) /\
        Engine._nextType (App.engine s' w')
        = Engine._nextType (App.engine s' mid_game)) /\
    App.firstGameOver w' = Some (App.scoreElementId App.Right) /\
    App.overlays w'
      = App.overlays mid_game ++ [(App.side_name App.Right, "LOSER");
                                  (App.side_name (App.other App.Right), "WINNER")] /\
    (forall (w'' : App.t) (id : string) (fuel' : nat),
        App.firstGameOver w'' = Some (App.scoreElementId App.Right) ->
        (1 <= fuel')%nat ->
        App.handleGameOver fuel' id w'' = Some w'' /\
        forall s' : App.side,
          App.game_over fuel' s' w''
          = Some (App.set_engine s'
                    (Engine._setPlaying_self false (App.engine s' w'')) w'')) /\
    (forall (s' : App.side) (fuel' : nat),
        (1 <= fuel')%nat -> App.game_over fuel' s' w' = Some w').
Proof.
  apply (first_game_over_authoritative App.Right mid_game 2); [reflexivity | lia].
Defined.

(** ** The loops that slide a piece while it fits *)

Lemma fits_cons_inv (pc : Piece.t) (m : Dict.t) (kv : XY.t * Cell.t) rest :
  Piece.cells pc = kv :: rest ->
  Piece.fits pc m = true ->
  0 <= XY.x (Cell.xy (snd kv)) + XY.x (Piece.xy pc) < Game.WIDTH /\
  0 <= XY.y (Cell.xy (snd kv)) + XY.y (Piece.xy pc).
Proof.
  unfold Piece.fits, Dict.values. intros -> H. simpl in H.
  apply andb_true_iff in H as [H _]. unfold Piece.fits_cell in H. simpl in H.
  destruct (XY.x (Cell.xy kv.2) + XY.x (Piece.xy pc) <? 0) eqn:E1; [discriminate|].
  destruct (Game.WIDTH <=? XY.x (Cell.xy kv.2) + XY.x (Piece.xy pc)) eqn:E2;
    [discriminate|].
  destruct (XY.y (Cell.xy kv.2) + XY.y (Piece.xy pc) <? 0) eqn:E3; [discriminate|].
  lia.
Qed.

(** The downward loop ends for a piece that has a cell. *)
Lemma while_fits_gravity_ends (m : Dict.t) (kv : XY.t * Cell.t) rest (fuel : nat)
    (pc : Piece.t) :
  Piece.cells pc = kv :: rest ->
  (Z.to_nat (XY.y (Piece.xy pc) + XY.y (Cell.xy (snd kv)) + 1) < fuel)%nat ->
  exists pc', Pit.while_fits fuel Pit.gravity m pc = Some pc'.
Proof.
  revert pc. induction fuel as [|fuel IH]; intros pc Hc Hlt; [lia|].
  simpl. destruct (Piece.fits pc m) eqn:Hf; [|eauto].
  destruct (fits_cons_inv _ _ _ _ Hc Hf) as [_ Hy].
  apply IH; [exact Hc|]. simpl. lia.
Qed.

(** The leftward loop likewise. *)
Lemma while_fits_left_ends (m : Dict.t) (kv : XY.t * Cell.t) rest (fuel : nat)
    (pc : Piece.t) :
  Piece.cells pc = kv :: rest ->
  (Z.to_nat (XY.x (Piece.xy pc) + XY.x (Cell.xy (snd kv)) + 1) < fuel)%nat ->
  exists pc', Pit.while_fits fuel AI.left m pc = Some pc'.
Proof.
  revert pc. induction fuel as [|fuel IH]; intros pc Hc Hlt; [lia|].
  simpl. destruct (Piece.fits pc m) eqn:Hf; [|eauto].
  destruct (fits_cons_inv _ _ _ _ Hc Hf) as [Hx _].
  apply IH; [exact Hc|]. simpl. lia.
Qed.

(** Where a sliding loop leaves the piece: same cells, some steps along the
    direction, fitting at every step but the last. *)
Lemma while_fits_spec (fuel : nat) (d : XY.t) (m : Dict.t) (pc pc' : Piece.t) :
  Pit.while_fits fuel d m pc = Some pc' ->
  Piece.fits pc' m = false /\
  exists k : nat,
    pc' = Piece.set_xy (XY.New (XY.x (Piece.xy pc) + Z.of_nat k * XY.x d)
                               (XY.y (Piece.xy pc) + Z.of_nat k * XY.y d)) pc /\
    forall i : nat, (i < k)%nat ->
      Piece.fits (Piece.set_xy (XY.New (XY.x (Piece.xy pc) + Z.of_nat i * XY.x d)
                                       (XY.y (Piece.xy pc) + Z.of_nat i * XY.y d)) pc) m
      = true.
Proof.
  revert pc. induction fuel as [|fuel IH]; intros pc H; [discriminate|].
  simpl in H. destruct (Piece.fits pc m) eqn:Hf.
  - apply IH in H as [Hnf [k [Hk Hall]]]. split; [exact Hnf|].
    exists (S k). split.
    + rewrite Hk. destruct pc as [ty ps [px py] cs]. unfold Piece.set_xy, XY.plus.
      simpl. f_equal. f_equal; lia.
    + intros i Hi. destruct i as [|i].
      * destruct pc as [ty ps [px py] cs]. unfold Piece.set_xy. simpl.
        rewrite !Z.add_0_r. exact Hf.
      * specialize (Hall i ltac:(lia)).
        destruct pc as [ty ps [px py] cs]. unfold Piece.set_xy, XY.plus in *.
        simpl in *.
        replace (px + Z.of_nat (S i) * XY.x d)
          with (px + XY.x d + Z.of_nat i * XY.x d) by lia.
        replace (py + Z.of_nat (S i) * XY.y d)
          with (py + XY.y d + Z.of_nat i * XY.y d) by lia.
        exact Hall.
  - inversion H. subst pc'. split; [exact Hf|]. exists O. split.
    + destruct pc as [ty ps [px py] cs]. unfold Piece.set_xy. simpl.
      rewrite !Z.add_0_r. reflexivity.
    + intros i Hi. lia.
Qed.

(** [drop] returns for every piece that has a cell. *)
Lemma landing_total (p : Pit.t) (pc : Piece.t) :
  Piece.cells pc <> [] -> exists pc', Pit.landing p pc = Some pc'.
Proof.
  intros Hne. unfold Pit.landing, Pit.fall_fuel.
  destruct (Piece.cells pc) as [|kv rest] eqn:Hc; [contradiction|].
  destruct (while_fits_gravity_ends (Pit.cells p) kv rest
              (S (Z.to_nat (XY.y (Piece.xy pc) + XY.y (Cell.xy kv.2) + 1))) pc Hc)
    as [pc' Hpc']; [lia|].
  rewrite Hpc'. eauto.
Qed.

(** ** What [drop] returns *)

Lemma StronglySorted_filter_lt (P : Z -> Prop) `{forall z, Decision (P z)} (l : list Z) :
  StronglySorted Z.lt l -> StronglySorted Z.lt (filter P l).
Proof.
  induction 1 as [|a l Hl IH Ha]; [constructor|].
  rewrite filter_cons. destruct (decide (P a)); [|exact IH].
  constructor; [exact IH|].
  apply Forall_forall. intros z Hz. apply list_elem_of_filter in Hz as [_ Hz].
  rewrite Forall_forall in Ha. apply Ha. exact Hz.
Qed.

Lemma seqZ_sorted (m n : Z) : StronglySorted Z.lt (seqZ m n).
Proof.
  destruct (Z_lt_le_dec n 0) as [Hn|Hn]; [rewrite seqZ_nil by lia; constructor|].
  rewrite <- (Z2Nat.id n) by lia. generalize (Z.to_nat n). clear n Hn.
  intros k. revert m. induction k as [|k IH]; intros m.
  - rewrite seqZ_nil by lia. constructor.
  - rewrite seqZ_cons by lia. constructor.
    + replace (Z.pred (Z.of_nat (S k))) with (Z.of_nat k) by lia. apply IH.
    + apply Forall_forall. intros z Hz. apply elem_of_seqZ in Hz. lia.
Qed.

Lemma completedRows_sorted (p : Pit.t) : StronglySorted Z.lt (Pit.completedRows p).
Proof.
  unfold Pit.completedRows. apply StronglySorted_filter_lt. apply seqZ_sorted.
Qed.

Lemma four_bars_reached :
  lock_all Pit.New [bar_at 1; bar_at 3; bar_at 5; bar_at 7] = Some four_bars.
Proof. vm_compute. reflexivity. Qed.

(** C1, as stated, fails: the lock that completes the bottom row clears row
    0, and [drop] hands back the number 1, not the list [0]. *)
Lemma drop_returns_list_counterexample :
  exists pc' o,
    Pit.landing four_bars (bar_at 9) = Some pc' /\
    Pit.drop four_bars (bar_at 9) = Some o /\
    Pit.completedRows (Pit.lock pc' four_bars) = [0] /\
    Pit.cells (Pit.after o) = [] /\
    Pit.returned o = JS.Number 1 /\
    Pit.returned o <> JS.Array (Pit.completedRows (Pit.lock pc' four_bars)).
Proof.
  eexists. eexists. split; [vm_compute; reflexivity|].
  split; [vm_compute; reflexivity|].
  split; [vm_compute; reflexivity|].
  split; [vm_compute; reflexivity|].
  split; [vm_compute; reflexivity|].
  vm_compute. discriminate.
Qed.

(** ** Clones in the value model *)

Lemma Cell_clone_id (c : Cell.t) : Cell.clone c = c.
Proof. destruct c. reflexivity. Qed.

Lemma cells_clone_id (m : Dict.t) :
  (fun kv : XY.t * Cell.t => (fst kv, Cell.clone (snd kv))) <$> m = m.
Proof.
  transitivity (id <$> m); [|apply list_fmap_id].
  apply list_fmap_ext. intros _ [k c] _. simpl. rewrite Cell_clone_id. reflexivity.
Qed.

Lemma Piece_clone_id (p : Piece.t) : Piece.clone p = p.
Proof. destruct p. unfold Piece.clone. simpl. rewrite cells_clone_id. reflexivity. Qed.

Lemma Pit_clone_cells (p : Pit.t) : Pit.cells (Pit.clone p) = Pit.cells p.
Proof. unfold Pit.clone. simpl. apply cells_clone_id. Qed.

(** ** Placement search *)

Lemma in_column_self (pc : Piece.t) : in_column pc (XY.x (Piece.xy pc)) = pc.
Proof. destruct pc as [ty ps [px py] cs]. reflexivity. Qed.

Lemma in_column_step (pc : Piece.t) (x : Z) :
  in_column (Piece.set_xy (XY.minus (Piece.xy pc) AI.left) pc) x = in_column pc x.
Proof.
  destruct pc as [ty ps [px py] cs]. unfold in_column, Piece.set_xy. simpl.
  do 2 f_equal. lia.
Qed.

Lemma scan_S (fuel : nat) (pit : Pit.t) (pc : Piece.t) (best : JS.num)
    (positions : list Z) :
  AI.scan (S fuel) pit pc best positions
  = if Piece.fits pc (Pit.cells pit) then
      match Pit.drop (Pit.clone pit) (Piece.clone pc) with
      | None => None
      | Some o =>
          let score := Pit.getScore (Pit.after o) in
          let '(best1, positions1) :=
            if JS.ltb score best then (score, []) else (best, positions) in
          let positions2 :=
            if JS.eqb score best1
            then positions1 ++ [XY.x (Piece.xy pc)] else positions1 in
          AI.scan fuel pit (Piece.set_xy (XY.minus (Piece.xy pc) AI.left) pc)
                  best1 positions2
      end
    else Some (best, positions).
Proof. reflexivity. Qed.

(** Every column that the rightward loop collects is one where the piece
    fitted. *)
Lemma scan_fits (fuel : nat) (pit : Pit.t) (pc : Piece.t) (best : JS.num)
    (positions : list Z) (best' : JS.num) (positions' : list Z) :
  Forall (fun x => Piece.fits (in_column pc x) (Pit.cells pit) = true) positions ->
  AI.scan fuel pit pc best positions = Some (best', positions') ->
  Forall (fun x => Piece.fits (in_column pc x) (Pit.cells pit) = true) positions'.
Proof.
  revert pc best positions.
  induction fuel as [|fuel IH]; intros pc best positions Hok H; [discriminate|].
  rewrite scan_S in H. destruct (Piece.fits pc (Pit.cells pit)) eqn:Hf.
  - destruct (Pit.drop (Pit.clone pit) (Piece.clone pc)) as [o|]; [|discriminate].
    cbv zeta in H. set (score := Pit.getScore (Pit.after o)) in *.
    destruct (JS.ltb score best).
    + apply IH in H.
      * eapply Forall_impl; [exact H|]. intros x Hx. cbv beta in Hx. rewrite in_column_step in Hx.
        exact Hx.
      * destruct (JS.eqb score score); [|constructor].
        constructor; [|constructor]. rewrite in_column_step, in_column_self. exact Hf.
    + apply IH in H.
      * eapply Forall_impl; [exact H|]. intros x Hx. cbv beta in Hx. rewrite in_column_step in Hx.
        exact Hx.
      * assert (Hok' : Forall (fun x => Piece.fits
                   (in_column (Piece.set_xy (XY.minus (Piece.xy pc) AI.left) pc) x)
                   (Pit.cells pit) = true) positions).
        { eapply Forall_impl; [exact Hok|]. intros x Hx. cbv beta in Hx. rewrite in_column_step.
          exact Hx. }
        destruct (JS.eqb score best); [|exact Hok'].
        apply Forall_app. split; [exact Hok'|].
        constructor; [|constructor]. rewrite in_column_step, in_column_self. exact Hf.
  - inversion H. subst. exact Hok.
Qed.

(** The rightward loop ends for a piece that has a cell. *)
Lemma scan_ends (pit : Pit.t) (kv : XY.t * Cell.t) rest (fuel : nat) (pc : Piece.t)
    (best : JS.num) (positions : list Z) :
  Piece.cells pc = kv :: rest ->
  (Z.to_nat (Game.WIDTH - (XY.x (Piece.xy pc) + XY.x (Cell.xy (snd kv)))) < fuel)%nat ->
  exists res, AI.scan fuel pit pc best positions = Some res.
Proof.
  revert pc best positions.
  induction fuel as [|fuel IH]; intros pc best positions Hc Hlt; [lia|].
  rewrite scan_S. destruct (Piece.fits pc (Pit.cells pit)) eqn:Hf; [|eauto].
  destruct (fits_cons_inv _ _ _ _ Hc Hf) as [Hx _].
  destruct (landing_total (Pit.clone pit) (Piece.clone pc)) as [pc' Hl].
  { rewrite Piece_clone_id, Hc. discriminate. }
  unfold Pit.drop. rewrite Hl. cbv zeta.
  destruct (JS.ltb _ best); apply IH; try exact Hc; simpl; lia.
Qed.

Lemma random_elem {A : Type} (l : list A) (r : nat) (a : A) :
  JS.random l r = Some a -> a ∈ l.
Proof. unfold JS.random. apply list_elem_of_lookup_2. Qed.

Lemma findBestPosition_total (pit : Pit.t) (piece : Piece.t) (r : nat) :
  Piece.cells piece <> [] ->
  exists res, AI.findBestPosition pit piece r = Some res.
Proof.
  intros Hne. unfold AI.findBestPosition, AI.leftmost. rewrite Piece_clone_id.
  destruct (Piece.cells piece) as [|kv rest] eqn:Hc; [contradiction|].
  destruct (while_fits_left_ends (Pit.cells (Pit.clone pit)) kv rest
              (AI.left_fuel (Piece.center piece)) (Piece.center piece))
    as [pc' Hpc']; [exact Hc | unfold AI.left_fuel; simpl; rewrite Hc; lia |].
  rewrite Hpc'.
  destruct (while_fits_spec _ _ _ _ _ Hpc') as [_ [k [Hk _]]].
  set (pc1 := Piece.set_xy (XY.minus (Piece.xy pc') AI.left) pc').
  assert (Hc1 : Piece.cells pc1 = kv :: rest) by (subst pc1 pc'; exact Hc).
  destruct (scan_ends (Pit.clone pit) kv rest (AI.right_fuel pc1) pc1 JS.PosInf [] Hc1)
    as [[b ps] Hs]; [unfold AI.right_fuel; rewrite Hc1; lia|].
  rewrite Hs. eauto.
Qed.

Lemma findBestPosition_fits_x (pit : Pit.t) (piece : Piece.t) (r : nat)
    (res : AI.position) (x0 : Z) :
  AI.findBestPosition pit piece r = Some res ->
  AI.x res = Some x0 ->
  Piece.fits (Piece.set_xy (XY.New x0 (Game.DEPTH - 1)) piece) (Pit.cells pit) = true.
Proof.
  unfold AI.findBestPosition, AI.leftmost. rewrite Piece_clone_id.
  destruct (Pit.while_fits _ AI.left _ _) as [pc'|] eqn:Hw; [|discriminate].
  destruct (AI.scan _ _ _ _ _) as [[b ps]|] eqn:Hs; [|discriminate].
  intros H Hx. inversion H. subst res. simpl in Hx.
  apply random_elem in Hx.
  apply scan_fits in Hs; [|constructor].
  rewrite Forall_forall in Hs. specialize (Hs x0 Hx).
  rewrite Pit_clone_cells in Hs.
  destruct (while_fits_spec _ _ _ _ _ Hw) as [_ [k [Hk _]]].
  subst pc'. unfold in_column, Piece.set_xy, Piece.center in *. simpl in *.
  replace (Game.DEPTH - 1 + Z.of_nat k * 0 - 0) with (Game.DEPTH - 1) in Hs by lia.
  exact Hs.
Qed.

Lemma Dict_set_nonempty {A : Type} (k : XY.t) (v : A) (m : Dict.dict A) :
  Dict.set k v m <> [].
Proof. destruct m as [|[k' v'] m]; simpl; [|destruct (XY.eqb k k')]; discriminate. Qed.

Lemma fold_set_nonempty {A B : Type} (f : B -> XY.t * A) (l : list B)
    (acc : Dict.dict A) :
  l <> [] \/ acc <> [] ->
  fold_left (fun acc b => Dict.set (fst (f b)) (snd (f b)) acc) l acc <> [].
Proof.
  revert acc. induction l as [|b l IH]; intros acc H; simpl.
  - destruct H as [H|H]; [contradiction | exact H].
  - apply IH. right. apply Dict_set_nonempty.
Qed.

Lemma rotate_nonempty (d : Z) (p : Piece.t) :
  Piece.cells p <> [] -> Piece.cells (Piece.rotate d p) <> [].
Proof.
  intros H. unfold Piece.rotate. simpl.
  apply (fold_set_nonempty (rotate_entry d)). left. exact H.
Qed.

Lemma rotations_nonempty (i : nat) (p : Piece.t) :
  Piece.cells p <> [] -> Piece.cells (AI.rotations i p) <> [].
Proof.
  intros H. induction i as [|i IH]; [exact H|].
  unfold AI.rotations in *. simpl. apply rotate_nonempty. exact IH.
Qed.

Lemma try_rotation_ok (pit : Pit.t) (piece : Piece.t) (rnd : nat -> nat)
    (best : JS.num) (l : list AI.placement) (i : nat) :
  Piece.cells piece <> [] ->
  (i < 4)%nat ->
  Forall (placement_ok pit piece) l ->
  exists best' l',
    AI.try_rotation pit piece rnd (Some (best, l)) i = Some (best', l') /\
    Forall (placement_ok pit piece) l'.
Proof.
  intros Hne Hi Hl. unfold AI.try_rotation. rewrite Piece_clone_id.
  destruct (findBestPosition_total pit (AI.rotations i piece) (rnd i))
    as [cur Hcur]; [apply rotations_nonempty; exact Hne|].
  rewrite Hcur.
  assert (Hok : placement_ok pit piece
                  (AI.Placement (AI.score cur) (AI.x cur) (Z.of_nat i))).
  { exists i. split; [exact Hi|]. split; [reflexivity|]. simpl. intros x0 Hx.
    eapply findBestPosition_fits_x; [exact Hcur | exact Hx]. }
  cbv zeta. simpl AI.p_score.
  destruct (JS.ltb (AI.score cur) best).
  - eexists. eexists. split; [reflexivity|].
    destruct (JS.eqb (AI.score cur) (AI.score cur)); [|constructor].
    constructor; [exact Hok | constructor].
  - eexists. eexists. split; [reflexivity|].
    destruct (JS.eqb (AI.score cur) best); [|exact Hl].
    apply Forall_app. split; [exact Hl|]. constructor; [exact Hok | constructor].
Qed.

Lemma fold_try_rotation_ok (pit : Pit.t) (piece : Piece.t) (rnd : nat -> nat)
    (idxs : list nat) (best : JS.num) (l : list AI.placement) :
  Piece.cells piece <> [] ->
  Forall (fun i => (i < 4)%nat) idxs ->
  Forall (placement_ok pit piece) l ->
  exists best' l',
    fold_left (AI.try_rotation pit piece rnd) idxs (Some (best, l)) = Some (best', l') /\
    Forall (placement_ok pit piece) l'.
Proof.
  intros Hne. revert best l. induction idxs as [|i idxs IH]; intros best l His Hl.
  - simpl. eauto.
  - apply Forall_cons in His as [Hi His].
    destruct (try_rotation_ok pit piece rnd best l i Hne Hi Hl) as [b1 [l1 [E1 Hl1]]].
    change (fold_left (AI.try_rotation pit piece rnd) (i :: idxs) (Some (best, l)))
      with (fold_left (AI.try_rotation pit piece rnd) idxs
              (AI.try_rotation pit piece rnd (Some (best, l)) i)).
    rewrite E1. apply IH; assumption.
Qed.

(** C7: for a piece with a cell, both searches return, and the column they
    return, when they return one, is a column of the top row (the row where
    [findBestPosition] centres the piece and from which it simulates the
    lock) where the piece, rotated as many times as the result says, fits
    the given pit.  On a pit where the piece fits nowhere in that row the
    result carries no column ([x] is [undefined]). *)
Theorem search_returns_fitting_placement (pit : Pit.t) (piece : Piece.t)
    (r : nat) (rnd : nat -> nat) :
  Piece.cells piece <> [] ->
  (exists res,
      AI.findBestPosition pit piece r = Some res /\
      forall x0, AI.x res = Some x0 ->
        Piece.fits (Piece.set_xy (XY.New x0 (Game.DEPTH - 1)) piece) (Pit.cells pit)
        = true) /\
  (exists res,
      AI.findBestPositionRotation pit piece rnd = Some res /\
      forall pl x0, res = Some pl -> AI.p_x pl = Some x0 ->
        exists i : nat,
          (i < 4)%nat /\ AI.rotation pl = Z.of_nat i /\
          Piece.fits (Piece.set_xy (XY.New x0 (Game.DEPTH - 1)) (AI.rotations i piece))
                     (Pit.cells pit) = true).
Proof.
  intros Hne. split.
  - destruct (findBestPosition_total pit piece r Hne) as [res Hres].
    exists res. split; [exact Hres|]. intros x0 Hx.
    eapply findBestPosition_fits_x; [exact Hres | exact Hx].
  - unfold AI.findBestPositionRotation.
    destruct (fold_try_rotation_ok pit piece rnd (seq 0 4) JS.PosInf [] Hne)
      as [b [l [E Hl]]].
    { repeat constructor. }
    { constructor. }
    rewrite E. eexists. split; [reflexivity|].
    intros pl x0 Hpl Hx. apply random_elem in Hpl.
    rewrite Forall_forall in Hl. destruct (Hl pl Hpl) as [i [Hi [Hr Hf]]].
    exists i. split; [exact Hi|]. split; [exact Hr|]. apply Hf. exact Hx.
Qed.

Lemma search_returns_fitting_placement_witness :
  (exists res,
      AI.findBestPosition four_bars piece_u 0 = Some res /\
      forall x0, AI.x res = Some x0 ->
        Piece.fits (Piece.set_xy (XY.New x0 (Game.DEPTH - 1)) piece_u)
                   (Pit.cells four_bars) = true) /\
  (exists res,
      AI.findBestPositionRotation four_bars piece_u (fun _ => O) = Some res /\
      forall pl x0, res = Some pl -> AI.p_x pl = Some x0 ->
        exists i : nat,
          (i < 4)%nat /\ AI.rotation pl = Z.of_nat i /\
          Piece.fits (Piece.set_xy (XY.New x0 (Game.DEPTH - 1)) (AI.rotations i piece_u))
                     (Pit.cells four_bars) = true).
Proof.
  apply (search_returns_fitting_placement four_bars piece_u 0 (fun _ => O)).
  discriminate.
Defined.

(** ** The search does return a column when there is one *)

Lemma while_fits_back (fuel : nat) (d : XY.t) (m : Dict.t) (pc pc2 : Piece.t) :
  Piece.fits pc m = true ->
  Pit.while_fits fuel d m pc = Some pc2 ->
  Piece.fits (Piece.set_xy (XY.minus (Piece.xy pc2) d) pc2) m = true.
Proof.
  intros Hfits Hw.
  destruct (while_fits_spec _ _ _ _ _ Hw) as [Hnf [k [Hk Hall]]].
  destruct k as [|k].
  - exfalso. subst pc2. destruct pc as [ty ps [px py] cs].
    unfold Piece.set_xy in Hnf. simpl in Hnf. rewrite !Z.add_0_r in Hnf. congruence.
  - specialize (Hall k ltac:(lia)). subst pc2.
    destruct pc as [ty ps [px py] cs], d as [dx dy].
    unfold Piece.set_xy, XY.minus in *. simpl in *.
    replace (px + Z.of_nat (S k) * dx - dx) with (px + Z.of_nat k * dx) by lia.
    replace (py + Z.of_nat (S k) * dy - dy) with (py + Z.of_nat k * dy) by lia.
    exact Hall.
Qed.

Lemma JS_eqb_refl (a : JS.num) : JS.eqb a a = true.
Proof. destruct a; simpl; [reflexivity | apply Z.eqb_refl | reflexivity]. Qed.

Lemma JS_not_below_inf (a : JS.num) : JS.ltb a JS.PosInf = false -> a = JS.PosInf.
Proof. destruct a; simpl; [discriminate | discriminate | reflexivity]. Qed.

Lemma scan_keeps (fuel : nat) (pit : Pit.t) (pc : Piece.t) (best : JS.num)
    (positions : list Z) (best' : JS.num) (positions' : list Z) :
  positions <> [] ->
  AI.scan fuel pit pc best positions = Some (best', positions') ->
  positions' <> [].
Proof.
  revert pc best positions.
  induction fuel as [|fuel IH]; intros pc best positions Hne H; [discriminate|].
  rewrite scan_S in H. destruct (Piece.fits pc (Pit.cells pit)).
  - destruct (Pit.drop (Pit.clone pit) (Piece.clone pc)) as [o|]; [|discriminate].
    cbv zeta in H. set (score := Pit.getScore (Pit.after o)) in *.
    destruct (JS.ltb score best).
    + rewrite JS_eqb_refl in H. eapply IH; [|exact H]. discriminate.
    + eapply IH; [|exact H]. destruct (JS.eqb score best); [|exact Hne].
      intros E. apply app_eq_nil in E as [_ E]. discriminate.
  - inversion H. subst. exact Hne.
Qed.

(** When the piece fits where [findBestPosition] centres it, the result
    carries a column. *)
Lemma findBestPosition_finds_column (pit : Pit.t) (piece : Piece.t) (r : nat)
    (res : AI.position) :
  Piece.fits (Piece.center piece) (Pit.cells pit) = true ->
  AI.findBestPosition pit piece r = Some res ->
  exists x0, AI.x res = Some x0.
Proof.
  intros Hfits. unfold AI.findBestPosition, AI.leftmost. rewrite Piece_clone_id.
  destruct (Pit.while_fits _ AI.left _ _) as [pc'|] eqn:Hw; [|discriminate].
  rewrite Pit_clone_cells in Hw.
  pose proof (while_fits_back _ _ _ _ _ Hfits Hw) as Hleft.
  destruct (AI.right_fuel _) as [|fuel]; [discriminate|].
  rewrite scan_S. rewrite Pit_clone_cells, Hleft.
  destruct (Pit.drop _ _) as [o|]; [|discriminate]. cbv zeta.
  set (score := Pit.getScore (Pit.after o)).
  assert (Hfirst : forall b ps,
            AI.scan fuel (Pit.clone pit)
              (Piece.set_xy
                 (XY.minus (Piece.xy (Piece.set_xy (XY.minus (Piece.xy pc') AI.left) pc'))
                           AI.left)
                 (Piece.set_xy (XY.minus (Piece.xy pc') AI.left) pc'))
              (if JS.ltb score JS.PosInf then score else JS.PosInf)
              (if JS.eqb score (if JS.ltb score JS.PosInf then score else JS.PosInf)
               then [XY.x (Piece.xy (Piece.set_xy (XY.minus (Piece.xy pc') AI.left) pc'))]
               else [])
            = Some (b, ps) -> ps <> []).
  { intros b ps Hs. eapply scan_keeps; [|exact Hs].
    destruct (JS.ltb score JS.PosInf) eqn:E.
    - rewrite JS_eqb_refl. discriminate.
    - apply JS_not_below_inf in E. rewrite E. simpl. discriminate. }
  destruct (JS.ltb score JS.PosInf) eqn:E;
    destruct (AI.scan _ _ _ _ _) as [[b ps]|] eqn:Hs; try discriminate;
    intros H; inversion H; subst res; simpl;
    specialize (Hfirst b ps);
    (assert (Hps : ps <> []) by (apply Hfirst; rewrite <- Hs; reflexivity));
    unfold JS.random;
    (destruct (lookup_lt_is_Some_2 ps (r mod length ps)%nat) as [x0 Hx0];
     [apply Nat.mod_upper_bound; destruct ps; [contradiction | discriminate]
     | exists x0; exact Hx0]).
Qed.

(** ** The heuristic score *)

Lemma u_locked_reached : lock_all Pit.New [Piece.center piece_u] = Some u_locked.
Proof. vm_compute. reflexivity. Qed.

(** C6, as stated, fails: the second pit is the first without the cell at
    (4, 1), which is then an empty cell under the occupied (4, 2), a hole;
    its score is 3 lower, not higher. *)
Lemma hole_monotonicity_counterexample :
  one_more_hole u_locked u_locked_holed (XY.New 4 1) /\
  Pit.getScore u_locked = JS.Fin 67 /\
  Pit.getScore u_locked_holed = JS.Fin 64 /\
  ~ JS.lt (Pit.getScore u_locked) (Pit.getScore u_locked_holed).
Proof.
  split; [|split; [|split]].
  - split; [reflexivity|]. split; [vm_compute; reflexivity|].
    split; [reflexivity|]. split; [vm_compute; discriminate|].
    split; [reflexivity|]. exists 2. split; [simpl; lia | reflexivity].
  - vm_compute. reflexivity.
  - vm_compute. reflexivity.
  - vm_compute. discriminate.
Qed.

Lemma cell_stats_fold (m : Dict.t) (l : Dict.t) (s : Pit.stats) :
  fold_left (Pit.score_cell m) l s
  = Pit.Stats (Pit.n_cells s + Z.of_nat (length l))
              (Pit.n_holes s + Zsum (hole_top m) l)
              (Pit.n_weight s + Zsum (fun kv => XY.y (Cell.xy (snd kv)) + 1) l).
Proof.
  revert s. induction l as [|kv l IH]; intros s.
  - destruct s. simpl. f_equal; lia.
  - simpl fold_left. rewrite IH. unfold Pit.score_cell, hole_top. simpl.
    destruct ((0 <=? XY.y (Cell.xy kv.2) - 1)
              && negb (Dict.has (XY.New (XY.x (Cell.xy kv.2))
                                        (XY.y (Cell.xy kv.2) - 1)) m));
      simpl; f_equal; lia.
Qed.

Lemma Zsum_ext {A : Type} (f g : A -> Z) (l : list A) :
  Forall (fun a => f a = g a) l -> Zsum f l = Zsum g l.
Proof. induction 1 as [|a l Ha _ IH]; simpl; [reflexivity | rewrite Ha, IH; reflexivity]. Qed.

Lemma Zsum_plus {A : Type} (f g : A -> Z) (l : list A) :
  Zsum (fun a => f a + g a) l = Zsum f l + Zsum g l.
Proof. induction l as [|a l IH]; simpl; [reflexivity | rewrite IH; lia]. Qed.

(** Removing the entry of a key from a dictionary with distinct keys. *)
Lemma filter_key_fresh (h : XY.t) (l : Dict.t) :
  h ∉ Dict.keys l -> filter (fun kv => fst kv <> h) l = l.
Proof.
  induction l as [|[k c] l IH]; [reflexivity|]. unfold Dict.keys. simpl.
  rewrite not_elem_of_cons. intros [Hne Hl].
  rewrite filter_cons_True by (simpl; congruence). rewrite IH by exact Hl.
  reflexivity.
Qed.

Lemma Zsum_remove_key (F : XY.t * Cell.t -> Z) (h : XY.t) (c : Cell.t) (l : Dict.t) :
  NoDup (Dict.keys l) -> (h, c) ∈ l ->
  Zsum F l = Zsum F (filter (fun kv => fst kv <> h) l) + F (h, c) /\
  Z.of_nat (length l) = Z.of_nat (length (filter (fun kv => fst kv <> h) l)) + 1.
Proof.
  induction l as [|[k c'] l IH]; intros Hnd Hin; [inversion Hin|].
  unfold Dict.keys in Hnd. simpl in Hnd. apply NoDup_cons in Hnd as [Hk Hnd].
  apply elem_of_cons in Hin as [Heq | Hin].
  - inversion Heq. subst k c'.
    rewrite filter_cons_False by (simpl; intros H; apply H; reflexivity).
    rewrite filter_key_fresh by exact Hk. simpl. lia.
  - assert (k <> h).
    { intros ->. apply Hk. apply (list_elem_of_fmap_2 fst) in Hin. exact Hin. }
    rewrite filter_cons_True by (simpl; assumption). simpl.
    destruct (IH Hnd Hin) as [E1 E2]. rewrite E1. lia.
Qed.

Lemma Dict_get_filter_key (h k : XY.t) (l : Dict.t) :
  Dict.get k (filter (fun kv => fst kv <> h) l)
  = if XY.eqb k h then None else Dict.get k l.
Proof.
  induction l as [|[k' c] l IH]; simpl; [destruct (XY.eqb k h); reflexivity|].
  rewrite filter_cons. destruct (decide ((k', c).1 <> h)) as [Hne|Heq]; simpl in *.
  - rewrite IH. destruct (XY.eqb k k') eqn:E; [|reflexivity].
    apply XY_eqb_eq in E. subst k'. apply XY_eqb_neq in Hne. rewrite Hne. reflexivity.
  - assert (k' = h) by (destruct (decide (k' = h)); [assumption | contradiction]).
    subst k'. rewrite IH. destruct (XY.eqb k h); reflexivity.
Qed.

Lemma Dict_has_filter_key (h k : XY.t) (l : Dict.t) :
  Dict.has k (filter (fun kv => fst kv <> h) l)
  = if XY.eqb k h then false else Dict.has k l.
Proof.
  unfold Dict.has. rewrite Dict_get_filter_key. destruct (XY.eqb k h); reflexivity.
Qed.

Lemma Dict_has_entry (k : XY.t) (l : Dict.t) :
  Dict.has k l = true -> exists c, (k, c) ∈ l.
Proof.
  intros H. apply Dict_has_true in H. unfold Dict.keys in H.
  apply list_elem_of_fmap in H as [[k' c] [-> Hin]]. exists c. exact Hin.
Qed.

(** In a dictionary with distinct keys that agree with the coordinates,
    exactly one cell has a given occupied coordinate. *)
Lemma Zsum_indicator (k : XY.t) (l : Dict.t) :
  cells_wf l -> k ∈ Dict.keys l ->
  Zsum (fun kv => if XY.eqb (Cell.xy (snd kv)) k then 1 else 0) l = 1.
Proof.
  intros [Hkeys Hnd]. induction l as [|[k' c] l IH]; intros Hin; [inversion Hin|].
  unfold Dict.keys in *. simpl in *.
  apply Forall_cons in Hkeys as [Hk Hkeys]. simpl in Hk.
  apply NoDup_cons in Hnd as [Hfresh Hnd].
  apply elem_of_cons in Hin as [Heq | Hin].
  - rewrite <- Hk, <- Heq, XY_eqb_refl. rewrite <- Heq in Hfresh. clear IH Hk Heq k'.
    assert (Zsum (fun kv => if XY.eqb (Cell.xy kv.2) k then 1 else 0) l = 0) as ->; [|lia].
    induction l as [|[k2 c2] l IH2]; [reflexivity|]. simpl in *.
    apply Forall_cons in Hkeys as [Hk2 Hkeys]. simpl in Hk2.
    apply not_elem_of_cons in Hfresh as [Hne Hfresh].
    apply NoDup_cons in Hnd as [_ Hnd].
    rewrite IH2 by assumption. rewrite <- Hk2.
    assert (E : XY.eqb k2 k = false) by (apply XY_eqb_neq; congruence).
    rewrite E. reflexivity.
  - rewrite IH by assumption. rewrite <- Hk.
    assert (E : XY.eqb k' k = false).
    { apply XY_eqb_neq. intros ->. contradiction. }
    rewrite E. reflexivity.
Qed.

Lemma cells_wf_filter (P : XY.t * Cell.t -> Prop) `{forall kv, Decision (P kv)}
    (m : Dict.t) :
  cells_wf m -> cells_wf (filter P m).
Proof.
  intros [Hkeys Hnd]. split.
  - apply Forall_forall. intros kv Hkv. apply list_elem_of_filter in Hkv as [_ Hkv].
    rewrite Forall_forall in Hkeys. apply Hkeys. exact Hkv.
  - unfold Dict.keys in *. eapply sublist_NoDup; [exact Hnd|].
    apply fmap_sublist. apply sublist_filter.
Qed.

(** How the hole counter of [getScore] sees a cell once the cell at [h] is
    gone: only the cell standing directly on [h] changes, from 0 to 1. *)
Lemma hole_top_filter (m0 : Dict.t) (h : XY.t) (kv : XY.t * Cell.t) :
  0 <= XY.y h -> Dict.has h m0 = true ->
  hole_top (filter (fun e => fst e <> h) m0) kv
  = hole_top m0 kv
    + (if XY.eqb (Cell.xy (snd kv)) (XY.New (XY.x h) (XY.y h + 1)) then 1 else 0).
Proof.
  intros Hy Hh. unfold hole_top. rewrite Dict_has_filter_key.
  destruct kv as [k [[qx qy] ct cs]]. simpl.
  destruct (XY.eqb (XY.New qx (qy - 1)) h) eqn:E1.
  - apply XY_eqb_eq in E1. subst h. simpl in *. rewrite Hh.
    replace (qy - 1 + 1) with qy by lia. rewrite XY_eqb_refl.
    replace (0 <=? qy - 1) with true by (symmetry; apply Z.leb_le; lia).
    reflexivity.
  - assert (E2 : XY.eqb (XY.New qx qy) (XY.New (XY.x h) (XY.y h + 1)) = false).
    { apply XY_eqb_neq. apply XY_eqb_neq in E1. intros Heq. apply E1.
      destruct h as [hx hy]. simpl in *. inversion Heq. f_equal. lia. }
    rewrite E2. lia.
Qed.

(** C6, amended: take two pits that are identical except that a cell at [h]
    of the first is missing in the second, where the cell directly above
    [h] is occupied and [h] rests on the floor or on an occupied cell, so
    that the hole counter of [getScore] (cells standing directly on an empty
    cell) goes up by exactly one.  Then the score of the second pit is the
    score of the first plus 18 minus the row of [h]: strictly greater for
    every row below 18, which covers the 16 rows of a pit. *)
Theorem score_grows_with_covered_hole (g0 g : Pit.t) (h : XY.t) :
  cells_wf (Pit.cells g0) ->
  Pit.cols g0 <> [] ->
  one_more_hole g0 g h ->
  Dict.has (XY.New (XY.x h) (XY.y h + 1)) (Pit.cells g0) = true ->
  XY.y h = 0 \/ Dict.has (XY.New (XY.x h) (XY.y h - 1)) (Pit.cells g0) = true ->
  XY.y h < 18 ->
  exists s0,
    Pit.getScore g0 = JS.Fin s0 /\
    Pit.getScore g = JS.Fin (s0 + 18 - XY.y h) /\
    JS.lt (Pit.getScore g0) (Pit.getScore g).
Proof.
  intros Hwf Hcols [Hc [Hcells [Hh [Hy _]]]] Hup Hlow Hy18.
  destruct (Dict_has_entry _ _ Hh) as [c Hin].
  assert (Hcxy : Cell.xy c = h).
  { destruct Hwf as [Hkeys _]. rewrite Forall_forall in Hkeys.
    symmetry. apply (Hkeys _ Hin). }
  pose proof (cells_wf_filter (fun e => fst e <> h) _ Hwf) as Hwf'.
  destruct Hwf as [Hkeys Hnd].
  set (m0 := Pit.cells g0) in *. set (m := filter (fun e => fst e <> h) m0) in *.
  assert (Hholes : Zsum (hole_top m) m = Zsum (hole_top m0) m0 + 1).
  { rewrite (Zsum_ext (hole_top m)
               (fun kv => hole_top m0 kv
                  + (if XY.eqb (Cell.xy kv.2) (XY.New (XY.x h) (XY.y h + 1))
                     then 1 else 0))).
    2:{ apply Forall_forall. intros kv _. apply hole_top_filter; assumption. }
    rewrite Zsum_plus. rewrite Zsum_indicator; [|exact Hwf'|].
    2:{ apply Dict_has_true. unfold m. rewrite Dict_has_filter_key.
        assert (E : XY.eqb (XY.New (XY.x h) (XY.y h + 1)) h = false).
        { apply XY_eqb_neq. destruct h as [hx hy]. simpl. intros Heq.
          inversion Heq. lia. }
        rewrite E. exact Hup. }
    destruct (Zsum_remove_key (hole_top m0) h c m0 Hnd Hin) as [E _].
    fold m in E. rewrite E.
    assert (E0 : hole_top m0 (h, c) = 0).
    { unfold hole_top. simpl. rewrite Hcxy. destruct Hlow as [H0 | Hb].
      - rewrite H0. reflexivity.
      - rewrite Hb. rewrite andb_false_r. reflexivity. }
    lia. }
  destruct (Zsum_remove_key (fun kv => XY.y (Cell.xy kv.2) + 1) h c m0 Hnd Hin)
    as [Ew El]. fold m in Ew, El. simpl in Ew. rewrite Hcxy in Ew.
  unfold Pit.getScore, Pit.cell_stats. rewrite Hc, Hcells. fold m0. fold m.
  rewrite !cell_stats_fold. simpl Pit.n_cells. simpl Pit.n_holes. simpl Pit.n_weight.
  destruct (Pit.cols g0) as [|a cs] eqn:Ecols; [contradiction|].
  unfold Arr.max. eexists. split; [reflexivity|]. split.
  - f_equal. rewrite Hholes, Ew, El. lia.
  - unfold JS.lt, JS.ltb. apply Z.ltb_lt. rewrite Hholes, Ew, El. lia.
Qed.

Lemma score_grows_with_covered_hole_witness :
  exists s0,
    Pit.getScore u_locked = JS.Fin s0 /\
    Pit.getScore (Pit.Mk (filter (fun kv => fst kv <> XY.New 6 0) (Pit.cells u_locked))
                         (Pit.cols u_locked) (Pit.rows u_locked) false)
    = JS.Fin (s0 + 18 - XY.y (XY.New 6 0)) /\
    JS.lt (Pit.getScore u_locked)
          (Pit.getScore (Pit.Mk (filter (fun kv => fst kv <> XY.New 6 0)
                                        (Pit.cells u_locked))
                                (Pit.cols u_locked) (Pit.rows u_locked) false)).
Proof.
  apply (score_grows_with_covered_hole u_locked
           (Pit.Mk (filter (fun kv => fst kv <> XY.New 6 0) (Pit.cells u_locked))
                   (Pit.cols u_locked) (Pit.rows u_locked) false)
           (XY.New 6 0)).
  - split; [repeat constructor|].
    apply (bool_decide_unpack (NoDup (Dict.keys (Pit.cells u_locked)))).
    vm_compute. exact I.
  - discriminate.
  - split; [reflexivity|]. split; [reflexivity|]. split; [reflexivity|].
    split; [simpl; lia|]. split; [reflexivity|]. exists 1. split; [simpl; lia|reflexivity].
  - reflexivity.
  - left. reflexivity.
  - simpl. lia.
Defined.

(** [one_more_hole] says what C6 says: the holes of the second pit
    are those of the first and [h]. *)
Lemma one_more_hole_exact (g0 g : Pit.t) (h q : XY.t) :
  one_more_hole g0 g h ->
  spec_hole (Pit.cells g) q <-> q = h \/ spec_hole (Pit.cells g0) q.
Proof.
  intros [_ [Hcells [Hh Hhole]]]. rewrite Hcells in *.
  set (m0 := Pit.cells g0) in *. split.
  - intros [Hy [Hq [y' [Hlt Hocc]]]].
    destruct (XY.eqb q h) eqn:E; [left; apply XY_eqb_eq; exact E | right].
    rewrite Dict_has_filter_key, E in Hq. rewrite Dict_has_filter_key in Hocc.
    destruct (XY.eqb (XY.New (XY.x q) y') h); [discriminate|].
    split; [exact Hy|]. split; [exact Hq|]. exists y'. split; assumption.
  - intros [-> | [Hy [Hq [y' [Hlt Hocc]]]]]; [exact Hhole|].
    assert (E : XY.eqb q h = false).
    { apply XY_eqb_neq. intros ->. congruence. }
    split; [exact Hy|]. split; [rewrite Dict_has_filter_key, E; exact Hq|].
    destruct (XY.eqb (XY.New (XY.x q) y') h) eqn:E2.
    + apply XY_eqb_eq in E2. destruct Hhole as [_ [_ [y2 [Hlt2 Hocc2]]]].
      exists y2. subst h. simpl in *. split; [lia | exact Hocc2].
    + exists y'. split; [exact Hlt|]. rewrite Dict_has_filter_key, E2. exact Hocc.
Qed.

(** ** Objects and references: what [clone] shares *)

Section HeapFacts.
Local Open Scope nat_scope.

Lemma new_Pit_eq (h : Heap.heap) :
  Heap.new_Pit h
  = (h ++ [Heap.ODict [];
           Heap.OArray (replicate (Z.to_nat Game.WIDTH) 0%Z);
           Heap.OArray (replicate (Z.to_nat Game.DEPTH) 0%Z);
           Heap.OPit (length h) (length h + 1) (length h + 2) None],
     length h + 3).
Proof.
  unfold Heap.new_Pit, Heap.alloc. rewrite !length_app. simpl.
  rewrite <- !app_assoc. simpl.
  replace (length h + 1 + 1) with (length h + 2) by lia.
  replace (length h + 2 + 1) with (length h + 3) by lia. reflexivity.
Qed.

Lemma Dict_values_set {A : Type} (P : A -> Prop) (k : XY.t) (v : A)
    (D : Dict.dict A) :
  Forall P (Dict.values D) -> P v -> Forall P (Dict.values (Dict.set k v D)).
Proof.
  unfold Dict.values. induction D as [|[k' v'] D IH]; simpl; intros HD Hv.
  - constructor; [exact Hv | constructor].
  - apply Forall_cons in HD as [Hv' HD].
    destruct (XY.eqb k k'); simpl; constructor; auto.
Qed.

Lemma mapM_read_set (f : XY.t * Heap.loc -> option (XY.t * Cell.t))
    (k : XY.t) (l : Heap.loc) (c : Cell.t) (D : Dict.dict Heap.loc) (M : Dict.t) :
  (forall kv kv', f kv = Some kv' -> fst kv' = fst kv) ->
  mapM f D = Some M -> f (k, l) = Some (k, c) ->
  mapM f (Dict.set k l D) = Some (Dict.set k c M).
Proof.
  intros Hkey. revert M. induction D as [|[k' l'] D IH]; intros M HM Hf.
  - simpl in HM. inversion HM. subst M. simpl. rewrite Hf. reflexivity.
  - simpl in HM. destruct (f (k', l')) as [[k2 c2]|] eqn:E; [|discriminate].
    simpl in HM. destruct (mapM f D) as [M'|] eqn:EM; [|discriminate].
    simpl in HM. inversion HM. subst M. clear HM.
    pose proof (Hkey _ _ E) as Hk2. simpl in Hk2. subst k2. simpl.
    destruct (XY.eqb k k') eqn:Ek.
    + apply XY_eqb_eq in Ek. subst k'. simpl. rewrite Hf. simpl. rewrite EM.
      reflexivity.
    + simpl. rewrite E. simpl. rewrite (IH M' eq_refl Hf). reflexivity.
Qed.

Lemma read_cell_key (h : Heap.heap) (kv : XY.t * Heap.loc) (kv' : XY.t * Cell.t) :
  Heap.read_cell h kv = Some kv' -> fst kv' = fst kv.
Proof.
  unfold Heap.read_cell.
  destruct (h !! kv.2) as [[| | |lxy ty ps nd| |]|]; try discriminate.
  destruct (Heap.read_xy h lxy); [|discriminate].
  intros H. inversion H. reflexivity.
Qed.

(** What [read_cell] needed to succeed. *)
Lemma read_cell_inv (h : Heap.heap) (kv : XY.t * Heap.loc) (kv' : XY.t * Cell.t) :
  Heap.read_cell h kv = Some kv' ->
  exists lxy ty ps nd x y,
    h !! snd kv = Some (Heap.OCell lxy ty ps nd) /\
    h !! lxy = Some (Heap.OXY x y) /\
    kv' = (fst kv, Cell.New (XY.New x y) ty ps).
Proof.
  unfold Heap.read_cell, Heap.read_xy.
  destruct (h !! kv.2) as [[| | |lxy ty ps nd| |]|]; try discriminate.
  destruct (h !! lxy) as [[| | | |x y|]|] eqn:Hxy; try discriminate.
  intros H. inversion H. exists lxy, ty, ps, nd, x, y. auto.
Qed.

(** [read_cell] looks at the cell and at its coordinate object only. *)
Lemma read_cell_same (h1 h2 : Heap.heap) (kv : XY.t * Heap.loc) :
  h2 !! snd kv = h1 !! snd kv ->
  (forall lxy, Heap.cell_xy h1 (snd kv) = Some lxy -> h2 !! lxy = h1 !! lxy) ->
  Heap.read_cell h2 kv = Heap.read_cell h1 kv.
Proof.
  intros Hc Hxy. unfold Heap.read_cell, Heap.cell_xy in *. rewrite Hc.
  destruct (h1 !! kv.2) as [[| | |lxy ty ps nd| |]|]; try reflexivity.
  unfold Heap.read_xy. rewrite (Hxy lxy eq_refl). reflexivity.
Qed.

Lemma mapM_read_same (h1 h2 : Heap.heap) (D : Dict.dict Heap.loc) :
  (forall l, l ∈ Dict.values D -> h2 !! l = h1 !! l) ->
  (forall l lxy, l ∈ Dict.values D -> Heap.cell_xy h1 l = Some lxy ->
     h2 !! lxy = h1 !! lxy) ->
  mapM (Heap.read_cell h2) D = mapM (Heap.read_cell h1) D.
Proof.
  induction D as [|kv D IH]; intros Hs Hx; [reflexivity|].
  assert (Ekv : Heap.read_cell h2 kv = Heap.read_cell h1 kv).
  { apply read_cell_same; [apply Hs; left|].
    intros lxy. apply Hx. left. }
  simpl. rewrite Ekv. rewrite IH.
  - reflexivity.
  - intros l Hl. apply Hs. right. exact Hl.
  - intros l lxy Hl. apply Hx. right. exact Hl.
Qed.

(** One round of the copying loop keeps the shape of the heap. *)
Lemma clone_entry_cloning (h : Heap.heap) (cs rs : list Z) (X : list Heap.loc)
    (M : Dict.t) (cur : Heap.heap) (kv : XY.t * Heap.loc) (lxy : Heap.loc)
    (x y : Z) (ty ps : string) (nd : option Heap.loc) :
  cloning h cs rs X M cur ->
  h !! snd kv = Some (Heap.OCell lxy ty ps nd) ->
  h !! lxy = Some (Heap.OXY x y) ->
  lxy ∈ X ->
  exists cur',
    Heap.clone_entry (length h) (Some cur) kv = Some cur' /\
    cloning h cs rs X (Dict.set (fst kv) (Cell.New (XY.New x y) ty ps) M) cur'.
Proof.
  intros [[ext Hext] [[D [HD [HDv HM]]] [Hp [Hc Hr]]]] Hcell Hxy HX.
  assert (Hcur : cur !! kv.2 = Some (Heap.OCell lxy ty ps nd)).
  { rewrite Hext. apply lookup_app_l_Some. exact Hcell. }
  pose proof (lookup_lt_Some _ _ _ HD) as Hn.
  pose proof (lookup_lt_Some _ _ _ Hxy) as Hnxy.
  exists (<[length h := Heap.ODict (Dict.set kv.1 (length cur) D)]>
            (cur ++ [Heap.OCell lxy ty ps None])).
  split.
  { unfold Heap.clone_entry, Heap.clone_cell. rewrite Hcur. unfold Heap.alloc.
    unfold Heap.dict_set. rewrite (lookup_app_l_Some _ _ _ _ HD). reflexivity. }
  assert (Hkeep : forall l o, cur !! l = Some o -> l <> length h ->
            <[length h := Heap.ODict (Dict.set kv.1 (length cur) D)]>
              (cur ++ [Heap.OCell lxy ty ps None]) !! l = Some o).
  { intros l o Hl Hl'. rewrite list_lookup_insert_ne by congruence.
    apply lookup_app_l_Some. exact Hl. }
  assert (Hold : forall l o, h !! l = Some o ->
            <[length h := Heap.ODict (Dict.set kv.1 (length cur) D)]>
              (cur ++ [Heap.OCell lxy ty ps None]) !! l = Some o).
  { intros l o Hl. apply Hkeep.
    - rewrite Hext. apply lookup_app_l_Some. exact Hl.
    - apply lookup_lt_Some in Hl. lia. }
  assert (Hnew : <[length h := Heap.ODict (Dict.set kv.1 (length cur) D)]>
                   (cur ++ [Heap.OCell lxy ty ps None]) !! length cur
                 = Some (Heap.OCell lxy ty ps None)).
  { rewrite list_lookup_insert_ne by lia. apply list_lookup_middle. reflexivity. }
  split; [|split; [|split; [|split]]].
  - exists (<[0 := Heap.ODict (Dict.set kv.1 (length cur) D)]>
              (ext ++ [Heap.OCell lxy ty ps None])).
    rewrite Hext at 2. rewrite <- app_assoc.
    rewrite <- (insert_app_r h). rewrite Nat.add_0_r. reflexivity.
  - exists (Dict.set kv.1 (length cur) D). split; [|split].
    + apply list_lookup_insert_eq. rewrite length_app. simpl. lia.
    + apply Dict_values_set.
      * eapply Forall_impl; [exact HDv|].
        intros l [Hl [lxy' [ty' [ps' [Hl' HX']]]]].
        split; [exact Hl|]. exists lxy', ty', ps'. split; [|exact HX'].
        apply Hkeep; [exact Hl'|]. intros ->. congruence.
      * cbv beta. split; [lia|]. exists lxy, ty, ps.
        split; [exact Hnew|]. split; [exact HX|].
        unfold Heap.read_xy. rewrite Hxy. eauto.
    + apply mapM_read_set.
      * intros a b. apply read_cell_key.
      * rewrite <- HM. apply mapM_read_same.
        -- intros l Hl. rewrite Forall_forall in HDv.
           destruct (HDv l Hl) as [_ [lxy' [ty' [ps' [Hl' _]]]]].
           rewrite Hl'. apply Hkeep; [exact Hl'|]. intros ->. congruence.
        -- intros l lxy' Hl Hcx. rewrite Forall_forall in HDv.
           destruct (HDv l Hl) as [_ [lxy2 [ty' [ps' [Hl' [_ [c Hr2]]]]]]].
           unfold Heap.cell_xy in Hcx. rewrite Hl' in Hcx. inversion Hcx. subst lxy2.
           unfold Heap.read_xy in Hr2.
           destruct (h !! lxy') as [o|] eqn:Ho; [|discriminate].
           rewrite (Hold _ _ Ho). rewrite Hext. symmetry.
           apply lookup_app_l_Some. exact Ho.
      * unfold Heap.read_cell. simpl. rewrite Hnew.
        unfold Heap.read_xy. rewrite (Hold _ _ Hxy). reflexivity.
  - apply Hkeep; [exact Hp | lia].
  - apply Hkeep; [exact Hc | lia].
  - apply Hkeep; [exact Hr | lia].
Qed.

Lemma clone_loop_cloning (h : Heap.heap) (cs rs : list Z) (X : list Heap.loc)
    (es : Dict.dict Heap.loc) (esv : Dict.t) (M : Dict.t) (cur : Heap.heap) :
  cloning h cs rs X M cur ->
  mapM (Heap.read_cell h) es = Some esv ->
  (forall l lxy, l ∈ Dict.values es -> Heap.cell_xy h l = Some lxy -> lxy ∈ X) ->
  exists cur',
    fold_left (Heap.clone_entry (length h)) es (Some cur) = Some cur' /\
    cloning h cs rs X (fold_left (fun acc kv => Dict.set (fst kv) (snd kv) acc) esv M) cur'.
Proof.
  revert esv M cur. induction es as [|kv es IH]; intros esv M cur Hinv Hes HX.
  - simpl in Hes. inversion Hes. subst esv. simpl. eauto.
  - simpl in Hes. destruct (Heap.read_cell h kv) as [kv'|] eqn:Ekv; [|discriminate].
    simpl in Hes. destruct (mapM (Heap.read_cell h) es) as [esv'|] eqn:Ees; [|discriminate].
    simpl in Hes. inversion Hes. subst esv. clear Hes.
    destruct (read_cell_inv _ _ _ Ekv) as [lxy [ty [ps [nd [x [y [Hkv [Hxy ->]]]]]]]].
    assert (HXl : lxy ∈ X).
    { apply (HX (snd kv)); [left|]. unfold Heap.cell_xy. rewrite Hkv. reflexivity. }
    destruct (clone_entry_cloning h cs rs X M cur kv lxy x y ty ps nd Hinv Hkv Hxy HXl)
      as [cur1 [E1 Hinv1]].
    change (fold_left (Heap.clone_entry (length h)) (kv :: es) (Some cur))
      with (fold_left (Heap.clone_entry (length h)) es
              (Heap.clone_entry (length h) (Some cur) kv)).
    rewrite E1. simpl fold_left at 2. apply IH; [exact Hinv1 | reflexivity |].
    intros l lxy' Hl. apply HX. right. exact Hl.
Qed.

(** What [read_pit] needed to succeed. *)
Lemma read_pit_inv (h : Heap.heap) (p : Heap.loc) (v : Pit.t) :
  Heap.read_pit h p = Some v ->
  exists lcells lcols lrows nd es,
    h !! p = Some (Heap.OPit lcells lcols lrows nd) /\
    h !! lcells = Some (Heap.ODict es) /\
    h !! lcols = Some (Heap.OArray (Pit.cols v)) /\
    h !! lrows = Some (Heap.OArray (Pit.rows v)) /\
    mapM (Heap.read_cell h) es = Some (Pit.cells v) /\
    Forall (fun kv => exists lxy ty ps nd' x y,
              h !! snd kv = Some (Heap.OCell lxy ty ps nd') /\
              h !! lxy = Some (Heap.OXY x y)) es.
Proof.
  unfold Heap.read_pit. intros H.
  destruct (h !! p) as [[lcells lcols lrows nd| | | | |]|] eqn:Hp; try discriminate.
  destruct (h !! lcells) as [[|es| | | |]|] eqn:Hc; try discriminate.
  destruct (h !! lcols) as [[| |cs| | |]|] eqn:Hco; try discriminate.
  destruct (h !! lrows) as [[| |rs| | |]|] eqn:Hr; try discriminate.
  destruct (mapM (Heap.read_cell h) es) as [m|] eqn:Hm; [|discriminate].
  inversion H. subst v. simpl.
  exists lcells, lcols, lrows, nd, es.
  split; [reflexivity|]. split; [exact Hc|]. split; [exact Hco|]. split; [exact Hr|].
  split; [exact Hm|].
  assert (Hs : is_Some (mapM (Heap.read_cell h) es)) by (rewrite Hm; eauto).
  apply mapM_is_Some_1 in Hs. eapply Forall_impl; [exact Hs|].
  intros kv [c Hc'].
  destruct (read_cell_inv _ _ _ Hc') as [lxy [ty [ps [nd' [x [y [H1 [H2 _]]]]]]]].
  exists lxy, ty, ps, nd', x, y. auto.
Qed.

Lemma lookup_app_plus {A : Type} (h ext : list A) (i : nat) :
  (h ++ ext) !! (length h + i) = ext !! i.
Proof. rewrite lookup_app_r by lia. f_equal. lia. Qed.

(** [clone] succeeds on a pit and leaves the heap in the shape above. *)
Lemma clone_cloning (h : Heap.heap) (this : Heap.loc) (v : Pit.t) :
  Heap.read_pit h this = Some v ->
  exists h',
    Heap.clone h this = Some (h', length h + 3) /\
    cloning h (Pit.cols v) (Pit.rows v) (Heap.coords h this)
      (fold_left (fun acc kv => Dict.set (fst kv) (snd kv) acc) (Pit.cells v) []) h'.
Proof.
  intros Hv.
  destruct (read_pit_inv h this v Hv)
    as [lc [lco [lr [nd [es [Hp [Hc [Hco [Hr [Hm Hes]]]]]]]]]].
  set (zw := Heap.OArray (replicate (Z.to_nat Game.WIDTH) 0%Z)).
  set (zd := Heap.OArray (replicate (Z.to_nat Game.DEPTH) 0%Z)).
  pose (h4 := h ++ [Heap.ODict []; zw; zd;
                    Heap.OPit (length h) (length h + 4) (length h + 5) None;
                    Heap.OArray (Pit.cols v); Heap.OArray (Pit.rows v)]).
  assert (Hinv : cloning h (Pit.cols v) (Pit.rows v) (Heap.coords h this) [] h4).
  { split; [eexists; reflexivity|]. split.
    - exists []. split; [|split; [constructor | reflexivity]].
      unfold h4. rewrite <- (Nat.add_0_r (length h)) at 1.
      rewrite lookup_app_plus. reflexivity.
    - unfold h4. rewrite !lookup_app_plus. repeat split; reflexivity. }
  assert (HX : forall l lxy, l ∈ Dict.values es -> Heap.cell_xy h l = Some lxy ->
             lxy ∈ Heap.coords h this).
  { intros l lxy Hl Hcx. unfold Heap.coords. rewrite Hp, Hc.
    apply list_elem_of_omap. exists l. split; assumption. }
  destruct (clone_loop_cloning h (Pit.cols v) (Pit.rows v) (Heap.coords h this)
              es (Pit.cells v) [] h4 Hinv Hm HX) as [h' [E Hinv']].
  exists h'. split; [|exact Hinv'].
  unfold Heap.clone. rewrite Hp, Hc, Hco, Hr, new_Pit_eq. cbv beta iota.
  fold zw zd. rewrite lookup_app_plus. cbn [lookup list_lookup]. unfold Heap.alloc.
  rewrite !length_app. cbn [length].
  replace (<[length h + 3 := Heap.OPit (length h) (length h + 4) (length h + 4 + 1) None]>
             (((h ++ [Heap.ODict []; zw; zd;
                      Heap.OPit (length h) (length h + 1) (length h + 2) None])
               ++ [Heap.OArray (Pit.cols v)]) ++ [Heap.OArray (Pit.rows v)]))
    with h4.
  - rewrite E. reflexivity.
  - unfold h4. rewrite <- !app_assoc. rewrite insert_app_r. simpl.
    replace (length h + 4 + 1) with (length h + 5) by lia. reflexivity.
Qed.

End HeapFacts.
Section CloneIndependence.
Local Open Scope nat_scope.

Lemma footprint_eq (h : Heap.heap) (p lc lco lr : Heap.loc) (nd : option Heap.loc)
    (es : Dict.dict Heap.loc) :
  h !! p = Some (Heap.OPit lc lco lr nd) ->
  h !! lc = Some (Heap.ODict es) ->
  Heap.footprint h p = p :: lc :: lco :: lr :: Dict.values es.
Proof. intros Hp Hc. unfold Heap.footprint. rewrite Hp, Hc. reflexivity. Qed.

Lemma coords_eq (h : Heap.heap) (p lc lco lr : Heap.loc) (nd : option Heap.loc)
    (es : Dict.dict Heap.loc) :
  h !! p = Some (Heap.OPit lc lco lr nd) ->
  h !! lc = Some (Heap.ODict es) ->
  Heap.coords h p = omap (Heap.cell_xy h) (Dict.values es).
Proof. intros Hp Hc. unfold Heap.coords. rewrite Hp, Hc. reflexivity. Qed.

Lemma omap_same {A B : Type} (f g : A -> option B) (l : list A) :
  Forall (fun a => f a = g a) l -> omap f l = omap g l.
Proof.
  induction 1 as [|a l Ha _ IH]; [reflexivity|].
  cbn. rewrite Ha. destruct (g a); [f_equal|]; exact IH.
Qed.

(** [read_pit] looks at the objects of the footprint and at the coordinate
    objects only. *)
Lemma read_pit_footprint (h1 h2 : Heap.heap) (p : Heap.loc) :
  (forall l, l ∈ Heap.footprint h1 p -> h2 !! l = h1 !! l) ->
  (forall l, l ∈ Heap.coords h1 p -> h2 !! l = h1 !! l) ->
  Heap.read_pit h2 p = Heap.read_pit h1 p.
Proof.
  intros Hsame Hxy. unfold Heap.read_pit, Heap.footprint, Heap.coords in *.
  destruct (h1 !! p) as [o|] eqn:Hp.
  2:{ rewrite (Hsame p), Hp by (apply list_elem_of_singleton; reflexivity).
      reflexivity. }
  destruct o as [lc lco lr nd| | | | |];
    try (rewrite (Hsame p), Hp by (apply list_elem_of_singleton; reflexivity);
         reflexivity).
  rewrite (Hsame p), Hp by left.
  rewrite (Hsame lc) by (right; left).
  rewrite (Hsame lco) by (do 2 right; left).
  rewrite (Hsame lr) by (do 3 right; left).
  destruct (h1 !! lc) as [[|es| | | |]|] eqn:Hc; try reflexivity.
  destruct (h1 !! lco) as [[| |cs| | |]|]; try reflexivity.
  destruct (h1 !! lr) as [[| |rs| | |]|]; try reflexivity.
  rewrite (mapM_read_same h1 h2 es); [reflexivity| |].
  - intros l Hl. apply Hsame. do 4 right. exact Hl.
  - intros l lxy Hl Hcx. apply Hxy. apply list_elem_of_omap. exists l.
    split; assumption.
Qed.

Lemma read_pit_write_outside (h : Heap.heap) (p l : Heap.loc) (o : Heap.obj) :
  l ∉ Heap.footprint h p -> l ∉ Heap.coords h p ->
  Heap.read_pit (Heap.write l o h) p = Heap.read_pit h p.
Proof.
  intros Hl Hx. apply read_pit_footprint; intros l' Hl'; unfold Heap.write;
    apply list_lookup_insert_ne; intros ->; contradiction.
Qed.

(** The clone of [small_heap]: three objects of the new pit's constructor,
    the pit object, the two copied arrays and the two new cells, which
    refer to the coordinate objects 6 and 7 of the original. *)
Lemma small_heap_cloned :
  Heap.clone small_heap 3
  = Some (small_heap ++
          [Heap.ODict [(XY.New 1 0, 14); (XY.New 0 0, 15)];
           Heap.OArray (replicate (Z.to_nat Game.WIDTH) 0%Z);
           Heap.OArray (replicate (Z.to_nat Game.DEPTH) 0%Z);
           Heap.OPit 8 12 13 None;
           Heap.OArray [1; 1; 0; 0; 0; 0; 0; 0; 0; 0]%Z;
           Heap.OArray [2; 0; 0; 0; 0; 0; 0; 0; 0; 0; 0; 0; 0; 0; 0; 0]%Z;
           Heap.OCell 6 "-" "left" None;
           Heap.OCell 7 "-" "left" None], 11).
Proof. reflexivity. Qed.

(** C9, the claim as written fails: the cells of the clone refer to the
    coordinate objects of the original's cells.  After [small_heap]'s pit is
    cloned, setting [y] to 7 in the coordinate object of the clone's first
    cell ([c.cells[k].xy.y = 7]) moves the first cell of the original pit
    too. *)
Lemma clone_shares_coordinates_counterexample :
  exists h' c l,
    Heap.clone small_heap 3 = Some (h', c) /\
    Heap.read_pit h' 3 = Some small_pit /\
    l ∈ Heap.coords h' c /\
    Heap.read_xy h' l = Some (XY.New 1 0) /\
    Heap.read_pit (Heap.write l (Heap.OXY 1 7) h') 3
    = Some (Pit.Mk
              [(XY.New 1 0, Cell.New (XY.New 1 7) "-" "left");
               (XY.New 0 0, Cell.New (XY.New 0 0) "-" "left")]
              (Pit.cols small_pit) (Pit.rows small_pit) false) /\
    Heap.read_pit (Heap.write l (Heap.OXY 1 7) h') 3 <> Some small_pit.
Proof.
  eexists _, _, 6. split; [exact small_heap_cloned|].
  split; [reflexivity|]. split; [|split; [reflexivity|split; [reflexivity|]]].
  - apply (bool_decide_unpack _). vm_compute. exact I.
  - vm_compute. discriminate.
Qed.

(** C9, as the code has it: [clone] succeeds on every pit and leaves the
    original as it was; the copy holds the same arrays and the cells
    assigned key by key (the pit of [Pit.clone] when the keys are distinct,
    as in every dictionary); the pit object, the dictionary, the two arrays
    and the cells of the copy are new objects, none of them an object of
    the original, so that any mutation of one of these objects of the one
    pit (assigning a new coordinate to a cell included) leaves the other
    pit as it was.  The coordinate objects are not copied: every coordinate
    object that a cell of the copy refers to is the coordinate object of a
    cell of the original. *)
Theorem clone_shares_coordinates_only (h : Heap.heap) (this : Heap.loc) (v : Pit.t) :
  Heap.read_pit h this = Some v ->
  exists h' c vc,
    Heap.clone h this = Some (h', c) /\
    Heap.read_pit h' this = Some v /\
    Heap.read_pit h' c = Some vc /\
    vc = Pit.Mk (fold_left (fun acc kv => Dict.set (fst kv) (snd kv) acc)
                           (Pit.cells v) [])
                (Pit.cols v) (Pit.rows v) false /\
    (NoDup (Dict.keys (Pit.cells v)) -> vc = Pit.clone v) /\
    (forall l, l ∈ Heap.footprint h' c -> l ∉ Heap.footprint h' this) /\
    (forall l, l ∈ Heap.coords h' c -> l ∈ Heap.coords h' this) /\
    (forall l o, l ∈ Heap.footprint h' c ->
       Heap.read_pit (Heap.write l o h') this = Some v) /\
    (forall l o, l ∈ Heap.footprint h' this ->
       Heap.read_pit (Heap.write l o h') c = Some vc).
Proof.
  intros Hv.
  destruct (clone_cloning h this v Hv) as [h' [Hclone Hinv]].
  destruct (read_pit_inv h this v Hv)
    as [lc [lco [lr [nd [es [Hp [Hc [Hco [Hr [_ Hes]]]]]]]]]].
  destruct Hinv as [[ext Hext] [[D [HD [HDv HM]]] [Hp' [Hc' Hr']]]].
  assert (Hold : forall l o, h !! l = Some o -> h' !! l = Some o).
  { intros l o Hl. rewrite Hext. apply lookup_app_l_Some. exact Hl. }
  assert (Hfo : Heap.footprint h' this = this :: lc :: lco :: lr :: Dict.values es).
  { apply (footprint_eq h' this lc lco lr nd es); apply Hold; assumption. }
  assert (Hfo_obj : forall l, l ∈ Heap.footprint h' this ->
            (l < length h) /\ Heap.read_xy h l = None).
  { intros l. rewrite Hfo. rewrite !elem_of_cons. unfold Heap.read_xy.
    intros [-> | [-> | [-> | [-> | Hl]]]];
      try (match goal with H : h !! _ = Some _ |- _ =>
             rewrite H; split; [eapply lookup_lt_Some; exact H | reflexivity] end).
    unfold Dict.values in Hl. apply list_elem_of_fmap in Hl as [kv [-> Hkv]].
    rewrite Forall_forall in Hes.
    destruct (Hes kv Hkv) as [lxy [ty [ps [nd' [x [y [H _]]]]]]].
    rewrite H. split; [eapply lookup_lt_Some; exact H | reflexivity]. }
  assert (Hcell_xy : forall l, l < length h -> Heap.cell_xy h' l = Heap.cell_xy h l).
  { intros l Hl. unfold Heap.cell_xy. rewrite Hext, lookup_app_l by exact Hl.
    reflexivity. }
  assert (Hco_old : Heap.coords h' this = Heap.coords h this).
  { rewrite (coords_eq h' this lc lco lr nd es) by (apply Hold; assumption).
    rewrite (coords_eq h this lc lco lr nd es Hp Hc).
    apply omap_same. rewrite Forall_forall. intros l Hl. apply Hcell_xy.
    unfold Dict.values in Hl. apply list_elem_of_fmap in Hl as [kv [-> Hkv]].
    rewrite Forall_forall in Hes.
    destruct (Hes kv Hkv) as [lxy [ty [ps [nd' [x [y [H _]]]]]]].
    eapply lookup_lt_Some; exact H. }
  assert (Hco_lt : forall l, l ∈ Heap.coords h' this -> l < length h).
  { intros l. rewrite Hco_old. rewrite (coords_eq h this lc lco lr nd es Hp Hc).
    intros Hl. apply list_elem_of_omap in Hl as [c [Hc1 Hc2]].
    unfold Dict.values in Hc1. apply list_elem_of_fmap in Hc1 as [kv [-> Hkv]].
    rewrite Forall_forall in Hes.
    destruct (Hes kv Hkv) as [lxy [ty [ps [nd' [x [y [H Hx]]]]]]].
    unfold Heap.cell_xy in Hc2. rewrite H in Hc2. inversion Hc2. subst l.
    eapply lookup_lt_Some; exact Hx. }
  assert (Hfc : Heap.footprint h' (length h + 3)
                = (length h + 3) :: length h :: (length h + 4) :: (length h + 5)
                  :: Dict.values D).
  { apply (footprint_eq h' _ _ _ _ None D); assumption. }
  assert (Hfc_ge : forall l, l ∈ Heap.footprint h' (length h + 3) -> length h <= l).
  { intros l. rewrite Hfc. rewrite !elem_of_cons.
    intros [-> | [-> | [-> | [-> | Hl]]]]; try lia.
    rewrite Forall_forall in HDv. apply (HDv l Hl). }
  assert (Hcc : forall l, l ∈ Heap.coords h' (length h + 3) ->
            l ∈ Heap.coords h this /\ is_Some (Heap.read_xy h l)).
  { intros l. rewrite (coords_eq h' _ _ _ _ None D Hp' HD).
    intros Hl. apply list_elem_of_omap in Hl as [c [Hc1 Hc2]].
    rewrite Forall_forall in HDv.
    destruct (HDv c Hc1) as [_ [lxy [ty [ps [Hcell HX]]]]].
    unfold Heap.cell_xy in Hc2. rewrite Hcell in Hc2. inversion Hc2. subst l.
    exact HX. }
  assert (Hv' : Heap.read_pit h' this = Some v).
  { rewrite <- Hv. apply read_pit_footprint.
    - intros l Hl.
      assert (Hl' : l ∈ Heap.footprint h' this).
      { rewrite Hfo. rewrite (footprint_eq h this lc lco lr nd es Hp Hc) in Hl.
        exact Hl. }
      apply Hfo_obj in Hl' as [Hl' _]. rewrite Hext. apply lookup_app_l. exact Hl'.
    - intros l Hl. rewrite <- Hco_old in Hl. apply Hco_lt in Hl.
      rewrite Hext. apply lookup_app_l. exact Hl. }
  set (m := fold_left (fun acc kv => Dict.set (fst kv) (snd kv) acc) (Pit.cells v) [])
    in *.
  assert (Hvc : Heap.read_pit h' (length h + 3)
                = Some (Pit.Mk m (Pit.cols v) (Pit.rows v) false)).
  { unfold Heap.read_pit. rewrite Hp', HD, Hc', Hr', HM. reflexivity. }
  exists h', (length h + 3), (Pit.Mk m (Pit.cols v) (Pit.rows v) false).
  split; [exact Hclone|]. split; [exact Hv'|]. split; [exact Hvc|].
  split; [reflexivity|]. split; [|split; [|split; [|split]]].
  - intros Hnd. unfold Pit.clone. rewrite cells_clone_id. f_equal. unfold m.
    pose proof (Dict_fold_set_fresh (fun b : XY.t * Cell.t => b) (Pit.cells v) []) as E.
    simpl in E. rewrite E; [apply list_fmap_id | exact Hnd |].
    intros b _. apply not_elem_of_nil.
  - intros l Hl Hl'. apply Hfc_ge in Hl. apply Hfo_obj in Hl' as [Hl' _]. lia.
  - intros l Hl. rewrite Hco_old. apply (Hcc l Hl).
  - intros l o Hl. rewrite read_pit_write_outside; [exact Hv'| |].
    + intros Hl'. apply Hfc_ge in Hl. apply Hfo_obj in Hl' as [Hl' _]. lia.
    + intros Hl'. apply Hfc_ge in Hl. apply Hco_lt in Hl'. lia.
  - intros l o Hl. rewrite read_pit_write_outside; [exact Hvc| |].
    + intros Hl'. apply Hfc_ge in Hl'. apply Hfo_obj in Hl as [Hl _]. lia.
    + intros Hl'. apply Hcc in Hl' as [_ [xy Hxy]].
      apply Hfo_obj in Hl as [_ Hl]. congruence.
Qed.

Lemma clone_shares_coordinates_only_witness :
  exists h' c vc,
    Heap.clone small_heap 3 = Some (h', c) /\
    Heap.read_pit h' 3 = Some small_pit /\
    Heap.read_pit h' c = Some vc /\
    vc = Pit.Mk (fold_left (fun acc kv => Dict.set (fst kv) (snd kv) acc)
                           (Pit.cells small_pit) [])
                (Pit.cols small_pit) (Pit.rows small_pit) false /\
    (NoDup (Dict.keys (Pit.cells small_pit)) -> vc = Pit.clone small_pit) /\
    (forall l, l ∈ Heap.footprint h' c -> l ∉ Heap.footprint h' 3) /\
    (forall l, l ∈ Heap.coords h' c -> l ∈ Heap.coords h' 3) /\
    (forall l o, l ∈ Heap.footprint h' c ->
       Heap.read_pit (Heap.write l o h') 3 = Some small_pit) /\
    (forall l o, l ∈ Heap.footprint h' 3 ->
       Heap.read_pit (Heap.write l o h') c = Some vc).
Proof. apply (clone_shares_coordinates_only small_heap 3 small_pit). reflexivity. Defined.

End CloneIndependence.

(** ** Clearing completed rows *)

Lemma insert_desc_smallest (a : Z) (l : list Z) :
  Forall (fun b => a < b) l -> Arr.insert_desc a l = l ++ [a].
Proof.
  induction 1 as [|b l Hb _ IH]; simpl; [reflexivity|].
  replace (b <? a) with false by (symmetry; apply Z.ltb_ge; lia).
  rewrite IH. reflexivity.
Qed.

Lemma sort_desc_ascending (l : list Z) :
  StronglySorted Z.lt l -> Arr.sort_desc l = reverse l.
Proof.
  induction 1 as [|a l Hl IH Ha]; [reflexivity|].
  unfold Arr.sort_desc in *. simpl. rewrite IH, reverse_cons.
  apply insert_desc_smallest. apply Forall_reverse. exact Ha.
Qed.

Lemma remove_rows_cells (js : list Z) (p : Pit.t) :
  Pit.cells (fold_left Pit.remove_row js p)
  = filter (fun kv => XY.y (Cell.xy (snd kv)) ∉ js) (Pit.cells p).
Proof.
  revert p. induction js as [|j js IH]; intros p.
  - simpl. symmetry. induction (Pit.cells p) as [|kv m IHm]; [reflexivity|].
    rewrite filter_cons_True by apply not_elem_of_nil. rewrite IHm. reflexivity.
  - simpl fold_left. rewrite IH. unfold Pit.remove_row at 1. simpl Pit.cells.
    rewrite list_filter_filter. apply list_filter_iff. intros kv.
    rewrite not_elem_of_cons. tauto.
Qed.

Lemma remove_rows_node (js : list Z) (p : Pit.t) :
  Pit.node (fold_left Pit.remove_row js p) = Pit.node p.
Proof. revert p. induction js as [|j js IH]; intros p; simpl; [|rewrite IH]; reflexivity. Qed.

Lemma shift_loop_cells (low : option Z) (k : Z) (l : Dict.t) (acc : Dict.t * list Z) :
  fst (fold_left (Pit.shift_cell low k) l acc)
  = fold_left (fun m kv => Dict.set (fst (shift_entry low k kv))
                                    (snd (shift_entry low k kv)) m)
              l (fst acc).
Proof.
  revert acc. induction l as [|kv l IH]; intros acc; [reflexivity|].
  simpl fold_left. rewrite IH. reflexivity.
Qed.

Lemma shift_entry_coord (low k : Z) (kv : XY.t * Cell.t) :
  fst (shift_entry (Some low) k kv) = shifted low k (Cell.xy (snd kv)) /\
  Cell.xy (snd (shift_entry (Some low) k kv)) = shifted low k (Cell.xy (snd kv)).
Proof.
  unfold shift_entry, shifted. simpl.
  destruct (low <? XY.y (Cell.xy kv.2)); split; reflexivity.
Qed.

(** Outside a block of [k] cleared rows the shift loses no coordinate. *)
Lemma shifted_inj (low k : Z) (a b : XY.t) :
  0 <= k ->
  (XY.y a < low \/ low + k <= XY.y a) ->
  (XY.y b < low \/ low + k <= XY.y b) ->
  shifted low k a = shifted low k b -> a = b.
Proof.
  destruct a as [ax ay], b as [bx by_]. unfold shifted. simpl.
  intros Hk Ha Hb.
  destruct (low <? ay) eqn:Ea; destruct (low <? by_) eqn:Eb;
    try apply Z.ltb_lt in Ea; try apply Z.ltb_ge in Ea;
    try apply Z.ltb_lt in Eb; try apply Z.ltb_ge in Eb;
    intros H; inversion H; f_equal; lia.
Qed.

Lemma not_in_seqZ (low k y : Z) :
  0 <= k -> y ∉ seqZ low k <-> y < low \/ low + k <= y.
Proof. intros Hk. rewrite elem_of_seqZ. lia. Qed.

(** The cells after a block of adjacent rows was cleared: the survivors in
    their order, each under the coordinate the shift assigns. *)
Lemma removeCompletedRows_adjacent_cells (p : Pit.t) (low k : Z) :
  cells_wf (Pit.cells p) -> 0 < k ->
  Pit.cells (Pit._removeCompletedRows (seqZ low k) p)
  = shift_entry (Some low) k
      <$> filter (fun kv => XY.y (Cell.xy (snd kv)) ∉ seqZ low k) (Pit.cells p).
Proof.
  intros Hwf Hk.
  pose proof (cells_wf_filter (fun kv => XY.y (Cell.xy (snd kv)) ∉ seqZ low k) _ Hwf)
    as [Hkeys Hnd].
  unfold Pit._removeCompletedRows. simpl Pit.cells.
  rewrite sort_desc_ascending by apply seqZ_sorted.
  rewrite shift_loop_cells. simpl fst. rewrite remove_rows_cells.
  assert (Hlast : last (reverse (seqZ low k)) = Some low).
  { rewrite last_reverse. rewrite seqZ_cons by lia. reflexivity. }
  rewrite Hlast. rewrite length_reverse, length_seqZ, Z2Nat.id by lia.
  assert (Efil : filter (fun kv : XY.t * Cell.t =>
                           XY.y (Cell.xy kv.2) ∉ reverse (seqZ low k)) (Pit.cells p)
                 = filter (fun kv => XY.y (Cell.xy kv.2) ∉ seqZ low k) (Pit.cells p)).
  { apply list_filter_iff. intros kv. rewrite elem_of_reverse. tauto. }
  rewrite Efil.
  rewrite (Dict_fold_set_fresh (shift_entry (Some low) k)); [reflexivity| |].
  - assert (Eco : (fun b => fst (shift_entry (Some low) k b))
                    <$> filter (fun kv => XY.y (Cell.xy kv.2) ∉ seqZ low k) (Pit.cells p)
                  = shifted low k
                    <$> Dict.keys (filter (fun kv => XY.y (Cell.xy kv.2) ∉ seqZ low k)
                                          (Pit.cells p))).
    { unfold Dict.keys. rewrite <- list_fmap_compose. apply Forall_fmap_ext_1.
      eapply Forall_impl; [exact Hkeys|]. intros kv Hkv. simpl in *.
      rewrite Hkv. apply shift_entry_coord. }
    rewrite Eco. apply NoDup_fmap_2_strong; [|exact Hnd].
    intros a b Ha Hb. unfold Dict.keys in Ha, Hb.
    apply list_elem_of_fmap in Ha as [kva [-> Hina]].
    apply list_elem_of_fmap in Hb as [kvb [-> Hinb]].
    rewrite Forall_forall in Hkeys.
    rewrite (Hkeys _ Hina), (Hkeys _ Hinb).
    apply list_elem_of_filter in Hina as [Hya _].
    apply list_elem_of_filter in Hinb as [Hyb _].
    apply shifted_inj; [lia | apply not_in_seqZ; [lia|assumption]
                            | apply not_in_seqZ; [lia|assumption]].
  - intros b _. apply not_elem_of_nil.
Qed.

Lemma filter_rows_step (j : Z) (js : list Z) (m : Dict.t) :
  j ∉ js ->
  Z.of_nat (length (filter (fun kv => XY.y (Cell.xy (snd kv)) ∉ j :: js) m))
    + count_row m j
  = Z.of_nat (length (filter (fun kv => XY.y (Cell.xy (snd kv)) ∉ js) m)).
Proof.
  intros Hj. unfold count_row. induction m as [|kv m IH]; [reflexivity|].
  rewrite !filter_cons.
  destruct (decide (XY.y (Cell.xy kv.2) = j)) as [E|E].
  - rewrite decide_False by (rewrite not_elem_of_cons; tauto).
    rewrite decide_True by (rewrite E; exact Hj).
    simpl length. lia.
  - destruct (decide (XY.y (Cell.xy kv.2) ∉ js)) as [E2|E2].
    + rewrite decide_True by (rewrite not_elem_of_cons; tauto). simpl length. lia.
    + rewrite decide_False by (rewrite not_elem_of_cons; tauto). lia.
Qed.

Lemma filter_rows_length (js : list Z) (m : Dict.t) :
  NoDup js ->
  Z.of_nat (length (filter (fun kv => XY.y (Cell.xy (snd kv)) ∉ js) m))
  = Z.of_nat (length m) - Zsum (count_row m) js.
Proof.
  induction 1 as [|j js Hj _ IH]; simpl.
  - rewrite Z.sub_0_r. f_equal. f_equal.
    induction m as [|kv m IHm]; [reflexivity|].
    rewrite filter_cons_True by apply not_elem_of_nil. rewrite IHm. reflexivity.
  - pose proof (filter_rows_step j js m Hj). lia.
Qed.

Lemma Zsum_const {A : Type} (f : A -> Z) (c : Z) (l : list A) :
  Forall (fun a => f a = c) l -> Zsum f l = Z.of_nat (length l) * c.
Proof.
  induction 1 as [|a l Ha _ IH]; [reflexivity|].
  simpl Zsum. rewrite Ha, IH. simpl length. lia.
Qed.

Lemma completedRows_full (p : Pit.t) :
  rows_consistent p ->
  Forall (fun j => count_row (Pit.cells p) j = Game.WIDTH) (Pit.completedRows p).
Proof.
  intros Hrows. apply Forall_forall. intros j Hj.
  unfold Pit.completedRows in Hj. apply list_elem_of_filter in Hj as [Hfull Hj].
  apply elem_of_seqZ in Hj. rewrite (Hrows j) in Hfull by lia.
  inversion Hfull. reflexivity.
Qed.

Lemma staggered_reached :
  exists p, lock_all Pit.New staggered = Some p /\
            Pit.rows p = [5; 9; 5; 9; 0; 0; 0; 0; 0; 0; 0; 0; 0; 0; 0; 0] /\
            Pit.cols p = [4; 4; 4; 4; 4; 0; 4; 4; 4; 4].
Proof. eexists. split; [vm_compute; reflexivity|]. split; reflexivity. Qed.

(** C2, as stated, fails: after ten locks an upright "i" in column 5
    completes rows 1 and 3 at once.  The lock leaves 32 cells; clearing the
    two rows should leave 12, but the six cells of row 2, moved down by two,
    land on the six cells of row 0, and 6 cells remain. *)
Lemma clear_count_counterexample :
  exists p pc' o,
    lock_all Pit.New staggered = Some p /\
    Pit.landing p (spawn "i" "right" 5 1) = Some pc' /\
    Pit.drop p (spawn "i" "right" 5 1) = Some o /\
    Pit.completedRows (Pit.lock pc' p) = [1; 3] /\
    length (Pit.cells (Pit.lock pc' p)) = 32%nat /\
    length (Pit.cells (Pit.fire o)) = 6%nat /\
    Z.of_nat (length (Pit.cells (Pit.fire o)))
      <> Z.of_nat (length (Pit.cells (Pit.lock pc' p))) - 2 * Game.WIDTH.
Proof.
  eexists. eexists. eexists.
  split; [vm_compute; reflexivity|].
  split; [vm_compute; reflexivity|].
  split; [vm_compute; reflexivity|].
  split; [vm_compute; reflexivity|].
  split; [vm_compute; reflexivity|].
  split; [vm_compute; reflexivity|].
  vm_compute. discriminate.
Qed.

(** The cells after completed rows were cleared, when no two surviving cells
    are shifted to the same place: the survivors in their order, each under
    the coordinate the shift assigns. *)
Lemma removeCompletedRows_cells (p : Pit.t) (low : Z) (rest : list Z) :
  cells_wf (Pit.cells p) ->
  Pit.completedRows p = low :: rest ->
  NoDup (shifted low (Z.of_nat (length (low :: rest)))
           <$> Dict.coords (filter (fun kv => XY.y (Cell.xy (snd kv))
                                              ∉ Pit.completedRows p) (Pit.cells p))) ->
  Pit.cells (Pit._removeCompletedRows (Pit.completedRows p) p)
  = shift_entry (Some low) (Z.of_nat (length (low :: rest)))
      <$> filter (fun kv => XY.y (Cell.xy (snd kv)) ∉ Pit.completedRows p)
                 (Pit.cells p).
Proof.
  intros Hwf Hc Hnd. set (k := Z.of_nat (length (low :: rest))) in *.
  pose proof (completedRows_sorted p) as Hsorted.
  rewrite Hc in *.
  unfold Pit._removeCompletedRows. cbn [Pit.cells].
  rewrite (sort_desc_ascending (low :: rest)) by exact Hsorted.
  rewrite shift_loop_cells. cbn [fst]. rewrite remove_rows_cells.
  assert (Hlast : last (reverse (low :: rest)) = Some low).
  { rewrite last_reverse. reflexivity. }
  rewrite Hlast. rewrite length_reverse. fold k.
  assert (Efil : filter (fun kv : XY.t * Cell.t =>
                           XY.y (Cell.xy kv.2) ∉ reverse (low :: rest)) (Pit.cells p)
                 = filter (fun kv => XY.y (Cell.xy kv.2) ∉ low :: rest) (Pit.cells p)).
  { apply list_filter_iff. intros kv. rewrite elem_of_reverse. tauto. }
  rewrite Efil.
  rewrite (Dict_fold_set_fresh (shift_entry (Some low) k)); [reflexivity| |].
  - assert (Eco : (fun b => fst (shift_entry (Some low) k b))
                    <$> filter (fun kv => XY.y (Cell.xy kv.2) ∉ low :: rest) (Pit.cells p)
                  = shifted low k
                    <$> Dict.coords (filter (fun kv => XY.y (Cell.xy kv.2) ∉ low :: rest)
                                            (Pit.cells p))).
    { unfold Dict.coords. rewrite <- list_fmap_compose. apply list_fmap_ext.
      intros _ kv _. simpl. apply shift_entry_coord. }
    rewrite Eco. exact Hnd.
  - intros b _. apply not_elem_of_nil.
Qed.

(** C2, where the clearing loses no cell: let the lock leave a pit whose
    row counters are right and in which [k] rows are complete, the lowest
    being [low], and let no two surviving cells be moved to the same place
    (as is the case when the completed rows are adjacent, see
    [survivors_shift_NoDup]).  After the clearing step the pit holds
    [k * WIDTH] cells less; the surviving cells keep their order, those
    above row [low] have their [y] reduced by exactly [k], the others keep
    their coordinates. *)
Theorem clear_rows_without_collision (p : Pit.t) (low : Z) (rest : list Z) :
  cells_wf (Pit.cells p) ->
  rows_consistent p ->
  Pit.completedRows p = low :: rest ->
  NoDup (shifted low (Z.of_nat (length (low :: rest)))
           <$> Dict.coords (filter (fun kv => XY.y (Cell.xy (snd kv))
                                              ∉ Pit.completedRows p) (Pit.cells p))) ->
  Z.of_nat (length (Pit.cells (Pit._removeCompletedRows (Pit.completedRows p) p)))
    = Z.of_nat (length (Pit.cells p))
      - Z.of_nat (length (low :: rest)) * Game.WIDTH /\
  Dict.coords (Pit.cells (Pit._removeCompletedRows (Pit.completedRows p) p))
    = shifted low (Z.of_nat (length (low :: rest)))
      <$> Dict.coords (filter (fun kv => XY.y (Cell.xy (snd kv)) ∉ Pit.completedRows p)
                              (Pit.cells p)).
Proof.
  intros Hwf Hrows Hc Hnd.
  pose proof (completedRows_full p Hrows) as Hfull.
  pose proof (completedRows_sorted p) as Hsorted.
  rewrite (removeCompletedRows_cells p low rest Hwf Hc Hnd). split.
  - rewrite length_fmap. rewrite filter_rows_length.
    + rewrite (Zsum_const _ Game.WIDTH) by exact Hfull. rewrite Hc. reflexivity.
    + clear -Hsorted. induction Hsorted as [|a l _ IH Ha]; constructor; [|exact IH].
      intros Hin. rewrite Forall_forall in Ha. specialize (Ha a Hin). lia.
  - unfold Dict.coords. rewrite <- !list_fmap_compose. apply list_fmap_ext.
    intros _ kv _. simpl. apply shift_entry_coord.
Qed.

Lemma rows_consistent_check (p : Pit.t) :
  Forall (fun j => Arr.get (Pit.rows p) j = Some (count_row (Pit.cells p) j))
         (seqZ 0 Game.DEPTH) ->
  rows_consistent p.
Proof.
  intros H j Hj. rewrite Forall_forall in H. apply H. apply elem_of_seqZ. lia.
Qed.

Lemma cols_consistent_check (p : Pit.t) :
  Forall (fun i => Arr.get (Pit.cols p) i = Some (col_height (Pit.cells p) i))
         (seqZ 0 Game.WIDTH) ->
  cols_consistent p.
Proof.
  intros H i Hi. rewrite Forall_forall in H. apply H. apply elem_of_seqZ. lia.
Qed.

Lemma five_bars_locked :
  Pit.landing four_bars (bar_at 9) = Some (Piece.set_xy (XY.New 9 0) (bar_at 9)) /\
  Pit.lock (Piece.set_xy (XY.New 9 0) (bar_at 9)) four_bars = five_bars.
Proof. split; vm_compute; reflexivity. Qed.

Lemma six_bars_locked :
  exists q,
    lock_all Pit.New [bar_at 1; bar_at 3; bar_at 5; bar_at 7; bar_at 1] = Some q /\
    Pit.landing q (bar_at 9) = Some (Piece.set_xy (XY.New 9 0) (bar_at 9)) /\
    Pit.lock (Piece.set_xy (XY.New 9 0) (bar_at 9)) q = six_bars.
Proof. eexists. split; [vm_compute; reflexivity|]. split; vm_compute; reflexivity. Qed.

Lemma clear_rows_without_collision_witness :
  Z.of_nat (length (Pit.cells (Pit._removeCompletedRows (Pit.completedRows six_bars)
                                                         six_bars)))
    = Z.of_nat (length (Pit.cells six_bars))
      - Z.of_nat (length [0]) * Game.WIDTH /\
  Dict.coords (Pit.cells (Pit._removeCompletedRows (Pit.completedRows six_bars)
                                                   six_bars))
    = shifted 0 (Z.of_nat (length [0]))
      <$> Dict.coords (filter (fun kv => XY.y (Cell.xy (snd kv))
                                         ∉ Pit.completedRows six_bars)
                              (Pit.cells six_bars)).
Proof.
  apply (clear_rows_without_collision six_bars 0 []).
  - split; [repeat constructor|].
    apply (bool_decide_unpack (NoDup (Dict.keys (Pit.cells six_bars)))).
    vm_compute. exact I.
  - apply rows_consistent_check.
    apply (bool_decide_unpack
             (Forall (fun j => Arr.get (Pit.rows six_bars) j
                               = Some (count_row (Pit.cells six_bars) j))
                     (seqZ 0 Game.DEPTH))).
    vm_compute. exact I.
  - vm_compute. reflexivity.
  - apply (bool_decide_unpack _). vm_compute. exact I.
Defined.

(** ** The caches *)

Lemma Arr_get_upd (i j : Z) (f : Z -> Z) (l : list Z) :
  0 <= i ->
  Arr.get (Arr.upd i f l) j
  = if decide (i = j) then f <$> Arr.get l j else Arr.get l j.
Proof.
  intros Hi. unfold Arr.get, Arr.upd.
  replace (i <? 0) with false by (symmetry; apply Z.ltb_ge; lia).
  destruct (j <? 0) eqn:Ej.
  - apply Z.ltb_lt in Ej. destruct (decide (i = j)); [lia | reflexivity].
  - apply Z.ltb_ge in Ej. destruct (decide (i = j)) as [->|Hne].
    + apply list_lookup_alter_eq.
    + apply list_lookup_alter_ne. intros H. apply Z2Nat.inj in H; lia.
Qed.

Lemma Arr_upd_length (i : Z) (f : Z -> Z) (l : list Z) :
  length (Arr.upd i f l) = length l.
Proof. unfold Arr.upd. destruct (i <? 0); [reflexivity | apply length_alter]. Qed.

Lemma count_row_snoc (m : Dict.t) (e : XY.t * Cell.t) (j : Z) :
  count_row (m ++ [e]) j
  = count_row m j + (if decide (XY.y (Cell.xy (snd e)) = j) then 1 else 0).
Proof.
  unfold count_row. rewrite filter_app, length_app, filter_cons, filter_nil.
  destruct (decide (XY.y (Cell.xy e.2) = j)); simpl; lia.
Qed.

Lemma col_height_nonneg (m : Dict.t) (i : Z) : 0 <= col_height m i.
Proof.
  unfold col_height. induction m as [|kv m IH]; simpl; [lia|].
  destruct (XY.x (Cell.xy kv.2) =? i); lia.
Qed.

Lemma col_height_base (m : Dict.t) (i b : Z) :
  0 <= b ->
  foldr (fun kv h =>
           if XY.x (Cell.xy (snd kv)) =? i
           then Z.max (XY.y (Cell.xy (snd kv)) + 1) h else h) b m
  = Z.max b (col_height m i).
Proof.
  intros Hb. unfold col_height. induction m as [|kv m IH]; simpl; [lia|].
  rewrite IH. destruct (XY.x (Cell.xy kv.2) =? i); lia.
Qed.

Lemma col_height_snoc (m : Dict.t) (e : XY.t * Cell.t) (i : Z) :
  col_height (m ++ [e]) i
  = if XY.x (Cell.xy (snd e)) =? i
    then Z.max (col_height m i) (XY.y (Cell.xy (snd e)) + 1)
    else col_height m i.
Proof.
  unfold col_height at 1. rewrite foldr_app. simpl.
  pose proof (col_height_nonneg m i).
  destruct (XY.x (Cell.xy e.2) =? i).
  - rewrite col_height_base by lia. lia.
  - rewrite col_height_base by lia. lia.
Qed.

(** The reading of [col_height]: for cells in rows that are not negative it
    is 0 on an empty column and otherwise one more than the row of a highest
    cell of the column. *)
Lemma col_height_spec (m : Dict.t) (i : Z) :
  Forall (fun kv => 0 <= XY.y (Cell.xy (snd kv))) m ->
  (Forall (fun kv => XY.x (Cell.xy (snd kv)) <> i) m /\ col_height m i = 0) \/
  (exists kv, kv ∈ m /\ XY.x (Cell.xy (snd kv)) = i /\
              col_height m i = XY.y (Cell.xy (snd kv)) + 1 /\
              Forall (fun kv' => XY.x (Cell.xy (snd kv')) = i ->
                                 XY.y (Cell.xy (snd kv')) <= XY.y (Cell.xy (snd kv))) m).
Proof.
  induction 1 as [|kv m Hkv Hm IH]; [left; split; [constructor | reflexivity]|].
  unfold col_height in *. simpl.
  destruct (XY.x (Cell.xy kv.2) =? i) eqn:E.
  - apply Z.eqb_eq in E. right. destruct IH as [[Hno H0] | [kv0 [Hin [Hx [Hh Hmax]]]]].
    + exists kv. split; [left|]. split; [exact E|]. split; [rewrite H0; lia|].
      constructor; [lia|]. eapply Forall_impl; [exact Hno|]. intros a Ha Hxa.
      contradiction.
    + destruct (Z_le_gt_dec (XY.y (Cell.xy kv0.2)) (XY.y (Cell.xy kv.2))) as [Hle|Hgt].
      * exists kv. split; [left|]. split; [exact E|]. split; [rewrite Hh; lia|].
        constructor; [lia|]. eapply Forall_impl; [exact Hmax|]. intros a Ha Hxa.
        specialize (Ha Hxa). lia.
      * exists kv0. split; [right; exact Hin|]. split; [exact Hx|].
        split; [rewrite Hh; lia|]. constructor; [lia | exact Hmax].
  - apply Z.eqb_neq in E. destruct IH as [[Hno H0] | [kv0 [Hin [Hx [Hh Hmax]]]]].
    + left. split; [constructor; assumption | exact H0].
    + right. exists kv0. split; [right; exact Hin|]. split; [exact Hx|].
      split; [exact Hh|]. constructor; [intros; contradiction | exact Hmax].
Qed.

Lemma XY_plus_comm (a b : XY.t) : XY.plus a b = XY.plus b a.
Proof. destruct a, b. unfold XY.plus. simpl. f_equal; lia. Qed.

(** Locking one cell at a free place inside the pit keeps the pit in
    order. *)
Lemma lock_cell_ok (pos : XY.t) (q : Pit.t) (kv : XY.t * Cell.t) :
  pit_ok q ->
  XY.plus pos (Cell.xy (snd kv)) ∉ Dict.keys (Pit.cells q) ->
  0 <= XY.x (XY.plus pos (Cell.xy (snd kv))) < Game.WIDTH ->
  0 <= XY.y (XY.plus pos (Cell.xy (snd kv))) < Game.DEPTH ->
  pit_ok (Pit.lock_cell pos q kv) /\
  Dict.keys (Pit.cells (Pit.lock_cell pos q kv))
  = Dict.keys (Pit.cells q) ++ [XY.plus pos (Cell.xy (snd kv))].
Proof.
  intros [[Hkeys Hnd] [Hin [Hlr [Hlc [Hrows Hcols]]]]] Hfresh Hx Hy.
  remember (XY.plus pos (Cell.xy kv.2)) as xy eqn:Exy.
  unfold Pit.lock_cell. rewrite <- Exy.
  replace (XY.y xy <? Game.DEPTH) with true by (symmetry; apply Z.ltb_lt; lia).
  rewrite (Dict_set_fresh _ _ _ Hfresh).
  split; [|simpl; unfold Dict.keys; rewrite fmap_app; reflexivity].
  split; [|split; [|split; [|split; [|split]]]]; simpl.
  - split.
    + apply Forall_app. split; [exact Hkeys|]. constructor; [reflexivity|constructor].
    + unfold Dict.keys. rewrite fmap_app. simpl. apply NoDup_app.
      split; [exact Hnd|]. split; [|apply NoDup_singleton].
      intros k Hk Hk'. apply list_elem_of_singleton in Hk'. subst k. contradiction.
  - apply Forall_app. split; [exact Hin|]. constructor; [|constructor]. simpl. lia.
  - rewrite Arr_upd_length. exact Hlr.
  - rewrite Arr_upd_length. exact Hlc.
  - intros j Hj. simpl. rewrite Arr_get_upd by lia. rewrite count_row_snoc. simpl.
    rewrite (Hrows j Hj). destruct (decide (XY.y xy = j)); simpl; f_equal; lia.
  - intros i Hi. simpl. rewrite Arr_get_upd by lia. rewrite col_height_snoc. simpl.
    rewrite (Hcols i Hi). destruct (decide (XY.x xy = i)) as [E|E].
    + rewrite E, Z.eqb_refl. reflexivity.
    + apply Z.eqb_neq in E. rewrite E. reflexivity.
Qed.

Lemma lock_cells_ok (pos : XY.t) (l : Dict.t) (q : Pit.t) :
  pit_ok q ->
  NoDup (Dict.coords l) ->
  Forall (fun kv =>
            (XY.plus pos (Cell.xy (snd kv)) ∉ Dict.keys (Pit.cells q)) /\
            0 <= XY.x (XY.plus pos (Cell.xy (snd kv))) < Game.WIDTH /\
            0 <= XY.y (XY.plus pos (Cell.xy (snd kv))) < Game.DEPTH) l ->
  pit_ok (fold_left (Pit.lock_cell pos) l q).
Proof.
  revert q. induction l as [|kv l IH]; intros q Hq Hnd Hl; [exact Hq|].
  apply Forall_cons in Hl as [[Hfresh [Hx Hy]] Hl].
  unfold Dict.coords in Hnd. simpl in Hnd. apply NoDup_cons in Hnd as [Hkv Hnd].
  destruct (lock_cell_ok pos q kv Hq Hfresh Hx Hy) as [Hq' Hkeys'].
  simpl fold_left. apply IH; [exact Hq' | exact Hnd |].
  apply Forall_forall. intros kv' Hkv'. rewrite Forall_forall in Hl.
  destruct (Hl kv' Hkv') as [Hf' [Hx' Hy']]. split; [|split; assumption].
  rewrite Hkeys'. rewrite not_elem_of_app. split; [exact Hf'|].
  rewrite list_elem_of_singleton. intros Heq. apply Hkv.
  assert (Cell.xy kv.2 = Cell.xy kv'.2) as ->.
  { destruct pos as [px py], (Cell.xy kv.2) as [ax ay], (Cell.xy kv'.2) as [bx by_].
    unfold XY.plus in Heq. simpl in Heq. inversion Heq. f_equal; lia. }
  apply (list_elem_of_fmap_2 (fun kv => Cell.xy kv.2)). exact Hkv'.
Qed.

Lemma wf_coords (m : Dict.t) : cells_wf m -> Dict.coords m = Dict.keys m.
Proof.
  intros [Hkeys _]. unfold Dict.coords, Dict.keys. symmetry.
  apply Forall_fmap_ext_1. exact Hkeys.
Qed.

(** Locking a fitting piece that stays below the top keeps the pit in
    order. *)
Lemma lock_ok (pc : Piece.t) (p : Pit.t) :
  pit_ok p -> Piece.wf pc -> Piece.fits pc (Pit.cells p) = true ->
  lands_below_depth pc ->
  pit_ok (Pit.lock pc p).
Proof.
  intros Hp Hwf Hfits Hbelow. unfold Pit.lock. apply lock_cells_ok; [exact Hp| |].
  - rewrite (wf_coords _ Hwf). destruct Hwf as [_ Hnd]. exact Hnd.
  - unfold Piece.fits, Dict.values in Hfits. rewrite forallb_forall in Hfits.
    apply Forall_forall. intros kv Hkv.
    assert (Hc : Piece.fits_cell (Piece.xy pc) (Pit.cells p) kv.2 = true).
    { apply Hfits. apply list_elem_of_In. apply (list_elem_of_fmap_2 snd). exact Hkv. }
    unfold lands_below_depth in Hbelow. rewrite Forall_forall in Hbelow.
    specialize (Hbelow kv Hkv).
    unfold Piece.fits_cell in Hc. rewrite (XY_plus_comm (Cell.xy kv.2)) in Hc.
    destruct (XY.x (XY.plus (Piece.xy pc) (Cell.xy kv.2)) <? 0) eqn:E1; [discriminate|].
    destruct (Game.WIDTH <=? XY.x (XY.plus (Piece.xy pc) (Cell.xy kv.2))) eqn:E2;
      [discriminate|].
    destruct (XY.y (XY.plus (Piece.xy pc) (Cell.xy kv.2)) <? 0) eqn:E3; [discriminate|].
    destruct (Dict.has (XY.plus (Piece.xy pc) (Cell.xy kv.2)) (Pit.cells p)) eqn:E4;
      [discriminate|].
    simpl in Hc. apply Dict_has_false in E4.
    apply Z.ltb_ge in E1. apply Z.leb_gt in E2. apply Z.ltb_ge in E3.
    split; [exact E4|]. split; [lia|]. split; [lia|].
    unfold XY.plus. simpl. exact Hbelow.
Qed.

(** A piece that fits when [drop] starts still fits where it lands, and it
    is the same piece. *)
Lemma landing_fits (p : Pit.t) (pc pc' : Piece.t) :
  Piece.fits pc (Pit.cells p) = true ->
  Pit.landing p pc = Some pc' ->
  Piece.fits pc' (Pit.cells p) = true /\ Piece.cells pc' = Piece.cells pc.
Proof.
  intros Hfits. unfold Pit.landing.
  destruct (Pit.while_fits _ _ _ _) as [pc2|] eqn:Hw; [|discriminate].
  intros H. inversion H. subst pc'. clear H.
  destruct (while_fits_spec _ _ _ _ _ Hw) as [Hnf [k [Hk Hall]]].
  destruct k as [|k].
  - exfalso. subst pc2. destruct pc as [ty ps [px py] cs].
    unfold Piece.set_xy in Hnf. simpl in Hnf. rewrite !Z.add_0_r in Hnf. congruence.
  - specialize (Hall k ltac:(lia)). subst pc2. split; [|reflexivity].
    destruct pc as [ty ps [px py] cs]. unfold Piece.set_xy, XY.minus in *. simpl in *.
    replace (px + Z.of_nat (S k) * 0 - 0) with (px + Z.of_nat k * 0) by lia.
    replace (py + Z.of_nat (S k) * -1 - -1) with (py + Z.of_nat k * -1) by lia.
    exact Hall.
Qed.

(** The row counters after the rows [low], ..., [low + k - 1] were spliced
    out from the top down, a zero being pushed each time. *)
Lemma remove_rows_rows (k : nat) (low : Z) (p : Pit.t) :
  0 <= low ->
  (Z.to_nat low + k <= length (Pit.rows p))%nat ->
  Pit.rows (fold_left Pit.remove_row (reverse (seqZ low (Z.of_nat k))) p)
  = take (Z.to_nat low) (Pit.rows p)
    ++ drop (Z.to_nat low + k) (Pit.rows p) ++ replicate k 0.
Proof.
  intros Hlow. revert p. induction k as [|k IH]; intros p Hlen.
  - simpl. rewrite Nat.add_0_r, app_nil_r, take_drop. reflexivity.
  - rewrite seqZ_S, reverse_snoc. simpl fold_left.
    set (N := (Z.to_nat low + k)%nat).
    assert (EN : Z.to_nat (low + Z.of_nat k) = N) by (unfold N; lia).
    assert (Hrows1 : Pit.rows (Pit.remove_row p (low + Z.of_nat k))
                     = (take N (Pit.rows p) ++ drop (S N) (Pit.rows p)) ++ [0]).
    { unfold Pit.remove_row, Arr.push, Arr.splice1. simpl. rewrite EN. reflexivity. }
    rewrite IH.
    2:{ rewrite Hrows1, !length_app, length_take, length_drop. simpl. lia. }
    rewrite Hrows1. fold N.
    assert (HlenN : length (take N (Pit.rows p)) = N)
      by (rewrite length_take; lia).
    rewrite <- (app_assoc (take N (Pit.rows p))).
    rewrite take_app_le by lia. rewrite take_take.
    replace (Z.to_nat low `min` N)%nat with (Z.to_nat low) by lia.
    rewrite drop_app_length' by (symmetry; exact HlenN).
    rewrite <- app_assoc. simpl.
    replace (Z.to_nat low + S k)%nat with (S N) by (unfold N; lia).
    reflexivity.
Qed.

Lemma fmap_zero_replicate (l : list Z) :
  (fun _ : Z => 0) <$> l = replicate (length l) 0.
Proof.
  induction l as [|a l IH]; [reflexivity|].
  rewrite fmap_cons, IH. reflexivity.
Qed.

Lemma remove_rows_cols (js : list Z) (p : Pit.t) :
  js <> [] ->
  Pit.cols (fold_left Pit.remove_row js p) = replicate (length (Pit.cols p)) 0.
Proof.
  intros Hne. destruct js as [|j js]; [contradiction|]. clear Hne.
  simpl fold_left.
  assert (H1 : Pit.cols (Pit.remove_row p j) = replicate (length (Pit.cols p)) 0).
  { unfold Pit.remove_row. cbn [Pit.cols]. apply fmap_zero_replicate. }
  revert H1. generalize (Pit.remove_row p j). clear j.
  induction js as [|j js IH]; intros q Hq; [exact Hq|].
  simpl fold_left. apply IH. unfold Pit.remove_row. cbn [Pit.cols].
  rewrite fmap_zero_replicate, Hq, length_replicate. reflexivity.
Qed.

Lemma shift_loop_cols (low : option Z) (k : Z) (l : Dict.t) (acc : Dict.t * list Z) :
  snd (fold_left (Pit.shift_cell low k) l acc)
  = fold_left (fun c kv =>
                 Arr.upd (XY.x (fst (shift_entry low k kv)))
                         (fun h => Z.max h (XY.y (fst (shift_entry low k kv)) + 1)) c)
              l (snd acc).
Proof.
  revert acc. induction l as [|kv l IH]; intros acc; [reflexivity|].
  simpl fold_left. rewrite IH. reflexivity.
Qed.

(** Column heights accumulated entry by entry, as both loops do. *)
Lemma cols_fold_get (es : Dict.t) (c0 : list Z) (i h0 : Z) :
  Forall (fun kv => 0 <= XY.x (Cell.xy (snd kv))) es ->
  0 <= h0 ->
  Arr.get c0 i = Some h0 ->
  Arr.get (fold_left (fun c kv =>
                        Arr.upd (XY.x (Cell.xy (snd kv)))
                                (fun h => Z.max h (XY.y (Cell.xy (snd kv)) + 1)) c)
                     es c0) i
  = Some (Z.max h0 (col_height es i)).
Proof.
  intros Hes. revert c0 h0. induction Hes as [|kv es Hkv _ IH]; intros c0 h0 Hh0 Hget.
  - simpl. rewrite Hget. f_equal. unfold col_height. simpl. lia.
  - simpl fold_left.
    rewrite (IH _ (if decide (XY.x (Cell.xy kv.2) = i)
                   then Z.max h0 (XY.y (Cell.xy kv.2) + 1) else h0)).
    + f_equal. unfold col_height. simpl. fold (col_height es i).
      pose proof (col_height_nonneg es i).
      destruct (decide (XY.x (Cell.xy kv.2) = i)) as [E|E].
      * rewrite E, Z.eqb_refl. lia.
      * apply Z.eqb_neq in E. rewrite E. reflexivity.
    + destruct (decide (XY.x (Cell.xy kv.2) = i)); lia.
    + rewrite Arr_get_upd by exact Hkv. rewrite Hget.
      destruct (decide (XY.x (Cell.xy kv.2) = i)); reflexivity.
Qed.

Lemma Arr_get_replicate (n : nat) (i : Z) :
  0 <= i < Z.of_nat n -> Arr.get (replicate n 0) i = Some 0.
Proof.
  intros Hi. unfold Arr.get.
  replace (i <? 0) with false by (symmetry; apply Z.ltb_ge; lia).
  apply lookup_replicate_2. lia.
Qed.

Lemma filter_fmap_length {A B : Type} (f : A -> B) (P : B -> Prop)
    `{forall b, Decision (P b)} (l : list A) :
  length (filter P (f <$> l)) = length (filter (fun a => P (f a)) l).
Proof.
  induction l as [|a l IH]; [reflexivity|].
  rewrite fmap_cons, !filter_cons. destruct (decide (P (f a))); simpl; rewrite IH;
    reflexivity.
Qed.

Lemma fold_left_fmap_list {A B C : Type} (g : C -> B -> C) (f : A -> B)
    (l : list A) (c : C) :
  fold_left g (f <$> l) c = fold_left (fun c a => g c (f a)) l c.
Proof. revert c. induction l as [|a l IH]; intros c; [reflexivity|]. simpl. apply IH. Qed.

(** Where the cells of a row of the cleared pit come from. *)
Lemma count_row_shifted (m : Dict.t) (low k j : Z) :
  0 < k ->
  count_row (shift_entry (Some low) k
               <$> filter (fun kv => XY.y (Cell.xy (snd kv)) ∉ seqZ low k) m) j
  = count_row m (if j <? low then j else j + k).
Proof.
  intros Hk. unfold count_row. f_equal.
  rewrite (filter_fmap_length (shift_entry (Some low) k)
             (fun kv => XY.y (Cell.xy kv.2) = j)).
  rewrite list_filter_filter. f_equal. apply list_filter_iff. intros kv.
  destruct (shift_entry_coord low k kv) as [_ ->].
  rewrite not_in_seqZ by lia. unfold shifted.
  destruct (low <? XY.y (Cell.xy kv.2)) eqn:E1; destruct (j <? low) eqn:E2;
    try apply Z.ltb_lt in E1; try apply Z.ltb_ge in E1;
    try apply Z.ltb_lt in E2; try apply Z.ltb_ge in E2; simpl; lia.
Qed.

Lemma count_row_outside (m : Dict.t) (j : Z) :
  in_bounds m -> Game.DEPTH <= j -> count_row m j = 0.
Proof.
  intros Hin Hj. unfold count_row.
  induction Hin as [|kv m [_ Hy] _ IH]; [reflexivity|].
  rewrite filter_cons_False by lia. exact IH.
Qed.

Lemma Arr_get_spliced (rows : list Z) (L k : nat) (j : Z) :
  (L + k <= length rows)%nat -> 0 <= j < Z.of_nat (length rows) ->
  Arr.get (take L rows ++ drop (L + k) rows ++ replicate k 0) j
  = if j <? Z.of_nat L then Arr.get rows j
    else if j <? Z.of_nat (length rows) - Z.of_nat k
         then Arr.get rows (j + Z.of_nat k)
         else Some 0.
Proof.
  intros Hlen Hj. unfold Arr.get.
  replace (j <? 0) with false by (symmetry; apply Z.ltb_ge; lia).
  replace (j + Z.of_nat k <? 0) with false by (symmetry; apply Z.ltb_ge; lia).
  assert (HlenT : length (take L rows) = L) by (rewrite length_take; lia).
  destruct (j <? Z.of_nat L) eqn:E1.
  - apply Z.ltb_lt in E1. rewrite lookup_app_l by lia.
    apply lookup_take_lt. lia.
  - apply Z.ltb_ge in E1. rewrite lookup_app_r by lia. rewrite HlenT.
    destruct (j <? Z.of_nat (length rows) - Z.of_nat k) eqn:E2.
    + apply Z.ltb_lt in E2. rewrite lookup_app_l by (rewrite length_drop; lia).
      rewrite lookup_drop. f_equal. lia.
    + apply Z.ltb_ge in E2. rewrite lookup_app_r by (rewrite length_drop; lia).
      rewrite length_drop. apply lookup_replicate_2. lia.
Qed.

Lemma survivors_shift_NoDup (m : Dict.t) (low k : Z) :
  cells_wf m -> 0 <= k ->
  NoDup (Dict.keys (shift_entry (Some low) k
                      <$> filter (fun kv => XY.y (Cell.xy (snd kv)) ∉ seqZ low k) m)).
Proof.
  intros Hwf Hk.
  pose proof (cells_wf_filter (fun kv => XY.y (Cell.xy (snd kv)) ∉ seqZ low k) _ Hwf)
    as [Hkeys Hnd].
  assert (Eco : Dict.keys (shift_entry (Some low) k
                  <$> filter (fun kv => XY.y (Cell.xy kv.2) ∉ seqZ low k) m)
                = shifted low k
                  <$> Dict.keys (filter (fun kv => XY.y (Cell.xy kv.2) ∉ seqZ low k) m)).
  { unfold Dict.keys. rewrite <- !list_fmap_compose. apply Forall_fmap_ext_1.
    eapply Forall_impl; [exact Hkeys|]. intros kv Hkv. simpl in *.
    rewrite Hkv. apply shift_entry_coord. }
  rewrite Eco. apply NoDup_fmap_2_strong; [|exact Hnd].
  intros a b Ha Hb. unfold Dict.keys in Ha, Hb.
  apply list_elem_of_fmap in Ha as [kva [-> Hina]].
  apply list_elem_of_fmap in Hb as [kvb [-> Hinb]].
  rewrite Forall_forall in Hkeys.
  rewrite (Hkeys _ Hina), (Hkeys _ Hinb).
  apply list_elem_of_filter in Hina as [Hya _].
  apply list_elem_of_filter in Hinb as [Hyb _].
  apply shifted_inj; [lia | apply not_in_seqZ; [lia|assumption]
                          | apply not_in_seqZ; [lia|assumption]].
Qed.

Lemma cols_fold_length (es : Dict.t) (c0 : list Z) :
  length (fold_left (fun c kv =>
                       Arr.upd (XY.x (Cell.xy (snd kv)))
                               (fun h => Z.max h (XY.y (Cell.xy (snd kv)) + 1)) c)
                    es c0)
  = length c0.
Proof.
  revert c0. induction es as [|kv es IH]; intros c0; [reflexivity|].
  simpl fold_left. rewrite IH. apply Arr_upd_length.
Qed.

(** The bounds of a block of completed rows. *)
Lemma completedRows_block (p : Pit.t) (low k : Z) :
  0 < k -> Pit.completedRows p = seqZ low k -> 0 <= low /\ low + k <= Game.DEPTH.
Proof.
  intros Hk Hc.
  assert (H1 : low ∈ Pit.completedRows p) by (rewrite Hc; apply elem_of_seqZ; lia).
  assert (H2 : low + k - 1 ∈ Pit.completedRows p)
    by (rewrite Hc; apply elem_of_seqZ; lia).
  unfold Pit.completedRows in H1, H2.
  apply list_elem_of_filter in H1 as [_ H1]. apply list_elem_of_filter in H2 as [_ H2].
  apply elem_of_seqZ in H1. apply elem_of_seqZ in H2. lia.
Qed.

(** Clearing a block of adjacent completed rows keeps the pit in order. *)
Lemma removeCompletedRows_adjacent_ok (p : Pit.t) (low k : Z) :
  pit_ok p -> 0 < k -> Pit.completedRows p = seqZ low k ->
  pit_ok (Pit._removeCompletedRows (seqZ low k) p).
Proof.
  intros [Hwf [Hin [Hlr [Hlc [Hrows Hcols]]]]] Hk Hc.
  destruct (completedRows_block p low k Hk Hc) as [Hlow Hhigh].
  pose proof (removeCompletedRows_adjacent_cells p low k Hwf Hk) as Ecells.
  set (S := filter (fun kv => XY.y (Cell.xy (snd kv)) ∉ seqZ low k) (Pit.cells p)) in *.
  assert (HinS : Forall (fun kv => 0 <= XY.x (Cell.xy kv.2) < Game.WIDTH /\
                                   (XY.y (Cell.xy kv.2) < low \/
                                    low + k <= XY.y (Cell.xy kv.2)) /\
                                   0 <= XY.y (Cell.xy kv.2) < Game.DEPTH) S).
  { apply Forall_forall. intros kv Hkv. unfold S in Hkv.
    apply list_elem_of_filter in Hkv as [Hy Hkv]. apply not_in_seqZ in Hy; [|lia].
    unfold in_bounds in Hin. rewrite Forall_forall in Hin.
    destruct (Hin kv Hkv) as [Hx Hy']. tauto. }
  assert (Hin' : in_bounds (shift_entry (Some low) k <$> S)).
  { unfold in_bounds. apply Forall_fmap. eapply Forall_impl; [exact HinS|].
    intros kv [Hx [Hy Hy']]. unfold compose.
    destruct (shift_entry_coord low k kv) as [_ ->]. unfold shifted.
    destruct (low <? XY.y (Cell.xy kv.2)) eqn:E;
      [apply Z.ltb_lt in E | apply Z.ltb_ge in E]; simpl; lia. }
  assert (Erows : Pit.rows (Pit._removeCompletedRows (seqZ low k) p)
                  = take (Z.to_nat low) (Pit.rows p)
                    ++ drop (Z.to_nat low + Z.to_nat k) (Pit.rows p)
                    ++ replicate (Z.to_nat k) 0).
  { unfold Pit._removeCompletedRows. cbn [Pit.rows].
    rewrite sort_desc_ascending by apply seqZ_sorted.
    rewrite <- (Z2Nat.id k) at 1 by lia.
    apply remove_rows_rows; [exact Hlow|]. rewrite Hlr. lia. }
  assert (Ecols : Pit.cols (Pit._removeCompletedRows (seqZ low k) p)
                  = fold_left (fun c kv =>
                        Arr.upd (XY.x (Cell.xy (snd kv)))
                                (fun h => Z.max h (XY.y (Cell.xy (snd kv)) + 1)) c)
                      (shift_entry (Some low) k <$> S)
                      (replicate (length (Pit.cols p)) 0)).
  { unfold Pit._removeCompletedRows. cbn [Pit.cols].
    rewrite sort_desc_ascending by apply seqZ_sorted.
    rewrite shift_loop_cols. cbn [snd]. rewrite remove_rows_cells.
    rewrite remove_rows_cols.
    2:{ rewrite seqZ_cons by lia. rewrite reverse_cons.
        intros H. apply app_eq_nil in H as [_ H]. discriminate. }
    assert (Hlast : last (reverse (seqZ low k)) = Some low).
    { rewrite last_reverse. rewrite seqZ_cons by lia. reflexivity. }
    rewrite Hlast. rewrite length_reverse, length_seqZ, Z2Nat.id by lia.
    assert (Efil : filter (fun kv : XY.t * Cell.t =>
                             XY.y (Cell.xy kv.2) ∉ reverse (seqZ low k)) (Pit.cells p)
                   = S).
    { apply list_filter_iff. intros kv. rewrite elem_of_reverse. tauto. }
    rewrite Efil. rewrite fold_left_fmap_list.
    assert (Hstep : forall kv c,
               Arr.upd (XY.x (fst (shift_entry (Some low) k kv)))
                 (fun h => Z.max h (XY.y (fst (shift_entry (Some low) k kv)) + 1)) c
               = Arr.upd (XY.x (Cell.xy (snd (shift_entry (Some low) k kv))))
                   (fun h => Z.max h
                      (XY.y (Cell.xy (snd (shift_entry (Some low) k kv))) + 1)) c).
    { intros kv c. destruct (shift_entry_coord low k kv) as [E1 E2].
      rewrite E1, E2. reflexivity. }
    generalize (replicate (length (Pit.cols p)) 0). clear - Hstep.
    induction S as [|kv S IH]; intros c; [reflexivity|].
    cbn [fold_left]. rewrite Hstep. apply IH. }
  split; [|split; [|split; [|split; [|split]]]].
  - rewrite Ecells. split.
    + apply Forall_fmap. apply Forall_forall. intros kv _. unfold compose.
      destruct (shift_entry_coord low k kv) as [-> ->]. reflexivity.
    + apply survivors_shift_NoDup; [exact Hwf | lia].
  - rewrite Ecells. exact Hin'.
  - rewrite Erows, !length_app, length_take, length_drop, length_replicate. lia.
  - rewrite Ecols, cols_fold_length, length_replicate. exact Hlc.
  - intros j Hj. rewrite Erows, Ecells.
    rewrite Arr_get_spliced by (rewrite Hlr; lia).
    unfold S. rewrite count_row_shifted by exact Hk. rewrite Hlr.
    rewrite !Z2Nat.id by (unfold Game.DEPTH; lia).
    destruct (j <? low) eqn:E1.
    + apply Hrows. exact Hj.
    + apply Z.ltb_ge in E1. destruct (j <? Game.DEPTH - k) eqn:E2.
      * apply Z.ltb_lt in E2. apply Hrows. lia.
      * apply Z.ltb_ge in E2. rewrite count_row_outside; [reflexivity|exact Hin|lia].
  - intros i Hi. rewrite Ecols, Ecells.
    rewrite (cols_fold_get _ _ i 0).
    + pose proof (col_height_nonneg (shift_entry (Some low) k <$> S) i).
      f_equal. lia.
    + eapply Forall_impl; [exact Hin'|]. intros kv [Hx _]. lia.
    + lia.
    + apply Arr_get_replicate. rewrite Hlc. unfold Game.WIDTH in *. lia.
Qed.

Lemma pit_ok_node (p : Pit.t) (b : bool) :
  pit_ok p -> pit_ok (Pit.Mk (Pit.cells p) (Pit.cols p) (Pit.rows p) b).
Proof. intros H. exact H. Qed.

(** A lock and its clearing keep the pit in order when the piece fits,
    lands below the top and completes no rows or adjacent ones. *)
Lemma drop_ok (p : Pit.t) (pc pc' : Piece.t) (o : Pit.outcome) :
  pit_ok p -> Piece.wf pc -> Piece.fits pc (Pit.cells p) = true ->
  Pit.landing p pc = Some pc' -> Pit.drop p pc = Some o ->
  lands_below_depth pc' ->
  adjacent_rows (Pit.completedRows (Pit.lock pc' p)) ->
  pit_ok (Pit.fire o).
Proof.
  intros Hp Hwf Hfits Hland Hdrop Hbelow [low [k [Hk Hadj]]].
  destruct (landing_fits p pc pc' Hfits Hland) as [Hfits' Hcells'].
  assert (Hwf' : Piece.wf pc') by (unfold Piece.wf; rewrite Hcells'; exact Hwf).
  pose proof (lock_ok pc' p Hp Hwf' Hfits' Hbelow) as Hlock.
  unfold Pit.drop in Hdrop. rewrite Hland in Hdrop. inversion Hdrop. subst o.
  unfold Pit._cleanup, Pit.fire.
  destruct (Z.eq_dec k 0) as [->|Hk0].
  - rewrite Hadj. rewrite seqZ_nil by lia. simpl. exact Hlock.
  - assert (Hpos : (0 <? Z.of_nat (length (Pit.completedRows (Pit.lock pc' p)))) = true).
    { apply Z.ltb_lt. rewrite Hadj, length_seqZ. lia. }
    rewrite Hpos.
    destruct (Pit.node (Pit.lock pc' p)); simpl; rewrite Hadj;
      apply removeCompletedRows_adjacent_ok; try assumption; lia.
Qed.

Lemma new_pit_ok : pit_ok Pit.New.
Proof.
  split; [split; [constructor | apply NoDup_nil_2]|].
  split; [constructor|]. split; [reflexivity|]. split; [reflexivity|]. split.
  - apply rows_consistent_check.
    apply (bool_decide_unpack
             (Forall (fun j => Arr.get (Pit.rows Pit.New) j
                               = Some (count_row (Pit.cells Pit.New) j))
                     (seqZ 0 Game.DEPTH))).
    vm_compute. exact I.
  - apply cols_consistent_check.
    apply (bool_decide_unpack
             (Forall (fun i => Arr.get (Pit.cols Pit.New) i
                               = Some (col_height (Pit.cells Pit.New) i))
                     (seqZ 0 Game.WIDTH))).
    vm_compute. exact I.
Qed.

Lemma reached_gently_ok (p : Pit.t) : reached_gently p -> pit_ok p.
Proof.
  induction 1 as [|p _ IH|p pc pc' o _ IH Hwf Hfits Hland Hdrop Hbelow Hadj].
  - exact new_pit_ok.
  - exact IH.
  - eapply drop_ok; eassumption.
Qed.

(** C3, as stated, fails: seven upright "-" pieces stacked in column 6, then
    the piece "u", which fits in the top row and cannot move down.  Its cell
    at (4, 16) enters the occupancy map, but it lies at row [DEPTH] and
    [drop] leaves both caches alone for it: [cols[4]] is 16 while the highest
    occupied row of column 4 is 16, which asks for 17. *)
Lemma caches_counterexample :
  exists p pc' o,
    lock_all Pit.New tower = Some p /\
    Piece.fits (spawn "u" "left" 5 0) (Pit.cells p) = true /\
    Pit.landing p (spawn "u" "left" 5 0) = Some pc' /\
    Pit.drop p (spawn "u" "left" 5 0) = Some o /\
    Dict.has (XY.New 4 16) (Pit.cells (Pit.fire o)) = true /\
    Arr.get (Pit.cols (Pit.fire o)) 4 = Some 16 /\
    col_height (Pit.cells (Pit.fire o)) 4 = 17 /\
    ~ cols_consistent (Pit.fire o).
Proof.
  eexists. eexists. eexists.
  split; [vm_compute; reflexivity|].
  split; [vm_compute; reflexivity|].
  split; [vm_compute; reflexivity|].
  split; [vm_compute; reflexivity|].
  split; [vm_compute; reflexivity|].
  split; [vm_compute; reflexivity|].
  split; [vm_compute; reflexivity|].
  intros H. specialize (H 4 ltac:(unfold Game.WIDTH; lia)).
  vm_compute in H. discriminate.
Qed.

(** The other way the caches go wrong, left out of the amended C3: when
    the completed rows are not adjacent (rows 1 and 3 after [staggered]),
    the row counters are spliced row by row but every cell above row 1 moves
    down by two, and [rows[1]] is 6 for a row that holds no cell. *)
Lemma staggered_clear_breaks_rows :
  exists p o,
    lock_all Pit.New staggered = Some p /\
    Pit.drop p (spawn "i" "right" 5 1) = Some o /\
    Arr.get (Pit.rows (Pit.fire o)) 1 = Some 6 /\
    count_row (Pit.cells (Pit.fire o)) 1 = 0 /\
    ~ rows_consistent (Pit.fire o).
Proof.
  eexists. eexists.
  split; [vm_compute; reflexivity|].
  split; [vm_compute; reflexivity|].
  split; [vm_compute; reflexivity|].
  split; [vm_compute; reflexivity|].
  intros H. specialize (H 1 ltac:(unfold Game.DEPTH; lia)).
  vm_compute in H. discriminate.
Qed.

(** C3, amended: in every pit reached from the empty pit by locks of
    fitting pieces that come to rest below row [DEPTH] and complete no rows
    or a block of adjacent rows, both caches agree with the occupancy map:
    [rows[y]] is the number of occupied cells of row [y], and [cols[x]] is
    one more than the highest occupied row of column [x], 0 for an empty
    column.  (A cell locked at row [DEPTH] or above is entered in the map
    and counted in neither cache.) *)
Theorem gentle_locks_keep_caches (p : Pit.t) :
  reached_gently p -> rows_consistent p /\ cols_consistent p.
Proof.
  intros H. apply reached_gently_ok in H.
  destruct H as [_ [_ [_ [_ [Hr Hc]]]]]. split; assumption.
Qed.

Lemma gentle_locks_keep_caches_witness :
  rows_consistent
    (Pit.fire (Pit._cleanup (Pit.lock (Piece.set_xy (XY.New 1 0) (bar_at 1)) Pit.New))) /\
  cols_consistent
    (Pit.fire (Pit._cleanup (Pit.lock (Piece.set_xy (XY.New 1 0) (bar_at 1)) Pit.New))).
Proof.
  apply (gentle_locks_keep_caches
           (Pit.fire (Pit._cleanup
                        (Pit.lock (Piece.set_xy (XY.New 1 0) (bar_at 1)) Pit.New)))).
  apply (reached_drop Pit.New (bar_at 1) (Piece.set_xy (XY.New 1 0) (bar_at 1))).
  - apply reached_new.
  - split; [repeat constructor|].
    apply (bool_decide_unpack (NoDup (Dict.keys (Piece.cells (bar_at 1))))).
    vm_compute. exact I.
  - vm_compute. reflexivity.
  - vm_compute. reflexivity.
  - vm_compute. reflexivity.
  - repeat constructor.
  - exists 0, 0. split; [lia|]. vm_compute. reflexivity.
Defined.

(** In a lock, a cell at row [DEPTH] or above goes into the map only. *)
Lemma lock_cell_above (pos : XY.t) (q : Pit.t) (kv : XY.t * Cell.t) :
  Game.DEPTH <= XY.y (XY.plus pos (Cell.xy (snd kv))) ->
  Pit.rows (Pit.lock_cell pos q kv) = Pit.rows q /\
  Pit.cols (Pit.lock_cell pos q kv) = Pit.cols q /\
  Dict.has (XY.plus pos (Cell.xy (snd kv))) (Pit.cells (Pit.lock_cell pos q kv)) = true.
Proof.
  intros Hy. unfold Pit.lock_cell.
  replace (XY.y (XY.plus pos (Cell.xy kv.2)) <? Game.DEPTH) with false
    by (symmetry; apply Z.ltb_ge; exact Hy).
  simpl. split; [reflexivity|]. split; [reflexivity|].
  apply Dict_has_true. rewrite Dict_keys_set.
  destruct (Dict.has (XY.plus pos (Cell.xy kv.2)) (Pit.cells q)) eqn:E.
  - apply Dict_has_true. exact E.
  - apply elem_of_app. right. left.
Qed.

(** ** The row counters after a lock *)

(** Locking one cell at a free place in a row that is not negative keeps the
    row counters right. *)
Lemma lock_cell_rows (pos : XY.t) (q : Pit.t) (kv : XY.t * Cell.t) :
  rows_consistent q ->
  XY.plus pos (Cell.xy (snd kv)) ∉ Dict.keys (Pit.cells q) ->
  0 <= XY.y (XY.plus pos (Cell.xy (snd kv))) ->
  rows_consistent (Pit.lock_cell pos q kv) /\
  Dict.keys (Pit.cells (Pit.lock_cell pos q kv))
  = Dict.keys (Pit.cells q) ++ [XY.plus pos (Cell.xy (snd kv))].
Proof.
  intros Hrows Hfresh Hy.
  remember (XY.plus pos (Cell.xy kv.2)) as xy eqn:Exy.
  unfold Pit.lock_cell. rewrite <- Exy.
  rewrite (Dict_set_fresh _ _ _ Hfresh).
  destruct (XY.y xy <? Game.DEPTH) eqn:Ed.
  - split; [|simpl; unfold Dict.keys; rewrite fmap_app; reflexivity].
    intros j Hj. simpl. rewrite Arr_get_upd by lia. rewrite count_row_snoc. simpl.
    rewrite (Hrows j Hj). destruct (decide (XY.y xy = j)); simpl; f_equal; lia.
  - apply Z.ltb_ge in Ed.
    split; [|simpl; unfold Dict.keys; rewrite fmap_app; reflexivity].
    intros j Hj. simpl. rewrite count_row_snoc. simpl.
    rewrite (Hrows j Hj). destruct (decide (XY.y xy = j)); [lia|].
    f_equal. lia.
Qed.

Lemma lock_cells_rows (pos : XY.t) (l : Dict.t) (q : Pit.t) :
  rows_consistent q ->
  NoDup (Dict.coords l) ->
  Forall (fun kv =>
            (XY.plus pos (Cell.xy (snd kv)) ∉ Dict.keys (Pit.cells q)) /\
            0 <= XY.y (XY.plus pos (Cell.xy (snd kv)))) l ->
  rows_consistent (fold_left (Pit.lock_cell pos) l q).
Proof.
  revert q. induction l as [|kv l IH]; intros q Hq Hnd Hl; [exact Hq|].
  apply Forall_cons in Hl as [[Hfresh Hy] Hl].
  unfold Dict.coords in Hnd. simpl in Hnd. apply NoDup_cons in Hnd as [Hkv Hnd].
  destruct (lock_cell_rows pos q kv Hq Hfresh Hy) as [Hq' Hkeys'].
  simpl fold_left. apply IH; [exact Hq' | exact Hnd |].
  apply Forall_forall. intros kv' Hkv'. rewrite Forall_forall in Hl.
  destruct (Hl kv' Hkv') as [Hf' Hy']. split; [|assumption].
  rewrite Hkeys'. rewrite not_elem_of_app. split; [exact Hf'|].
  rewrite list_elem_of_singleton. intros Heq. apply Hkv.
  assert (Cell.xy kv.2 = Cell.xy kv'.2) as ->.
  { destruct pos as [px py], (Cell.xy kv.2) as [ax ay], (Cell.xy kv'.2) as [bx by_].
    unfold XY.plus in Heq. simpl in Heq. inversion Heq. f_equal; lia. }
  apply (list_elem_of_fmap_2 (fun kv => Cell.xy kv.2)). exact Hkv'.
Qed.

(** Locking a fitting piece keeps the row counters right, also when the
    piece reaches above the top of the pit. *)
Lemma lock_rows_ok (pc : Piece.t) (p : Pit.t) :
  rows_consistent p -> Piece.wf pc -> Piece.fits pc (Pit.cells p) = true ->
  rows_consistent (Pit.lock pc p).
Proof.
  intros Hp Hwf Hfits. unfold Pit.lock. apply lock_cells_rows; [exact Hp| |].
  - rewrite (wf_coords _ Hwf). destruct Hwf as [_ Hnd]. exact Hnd.
  - unfold Piece.fits, Dict.values in Hfits. rewrite forallb_forall in Hfits.
    apply Forall_forall. intros kv Hkv.
    assert (Hc : Piece.fits_cell (Piece.xy pc) (Pit.cells p) kv.2 = true).
    { apply Hfits. apply list_elem_of_In. apply (list_elem_of_fmap_2 snd). exact Hkv. }
    unfold Piece.fits_cell in Hc. rewrite (XY_plus_comm (Cell.xy kv.2)) in Hc.
    destruct (XY.x (XY.plus (Piece.xy pc) (Cell.xy kv.2)) <? 0) eqn:E1; [discriminate|].
    destruct (Game.WIDTH <=? XY.x (XY.plus (Piece.xy pc) (Cell.xy kv.2))) eqn:E2;
      [discriminate|].
    destruct (XY.y (XY.plus (Piece.xy pc) (Cell.xy kv.2)) <? 0) eqn:E3; [discriminate|].
    destruct (Dict.has (XY.plus (Piece.xy pc) (Cell.xy kv.2)) (Pit.cells p)) eqn:E4;
      [discriminate|].
    apply Dict_has_false in E4. apply Z.ltb_ge in E3. split; assumption.
Qed.

Lemma filter_iff_on {A : Type} (P Q : A -> Prop) `{forall a, Decision (P a)}
    `{forall a, Decision (Q a)} (l : list A) :
  Forall (fun a => P a <-> Q a) l -> filter P l = filter Q l.
Proof.
  induction 1 as [|a l Ha _ IH]; [reflexivity|].
  rewrite !filter_cons, IH.
  destruct (decide (P a)), (decide (Q a)); tauto.
Qed.

(** With the row counters right, the rows that [_cleanup] finds completed
    are the rows that hold [WIDTH] cells. *)
Lemma completedRows_full_rows (p : Pit.t) :
  rows_consistent p -> Pit.completedRows p = full_rows (Pit.cells p).
Proof.
  intros Hrows. unfold Pit.completedRows, full_rows.
  apply filter_iff_on. apply Forall_forall. intros j Hj.
  apply elem_of_seqZ in Hj. rewrite (Hrows j) by lia.
  split; [intros H; inversion H; reflexivity | intros ->; reflexivity].
Qed.

(** What a fitting piece in order completes when it is locked where it
    lands: the counters that [_cleanup] reads are those of the map. *)
Lemma landed_lock_rows (p : Pit.t) (pc pc' : Piece.t) :
  rows_consistent p -> Piece.wf pc -> Piece.fits pc (Pit.cells p) = true ->
  Pit.landing p pc = Some pc' ->
  rows_consistent (Pit.lock pc' p) /\
  Pit.completedRows (Pit.lock pc' p) = full_rows (Pit.cells (Pit.lock pc' p)).
Proof.
  intros Hp Hwf Hfits Hl.
  destruct (landing_fits p pc pc' Hfits Hl) as [Hfits' Hcells].
  assert (Hwf' : Piece.wf pc') by (unfold Piece.wf; rewrite Hcells; exact Hwf).
  pose proof (lock_rows_ok pc' p Hp Hwf' Hfits') as H.
  split; [exact H | apply completedRows_full_rows; exact H].
Qed.

Lemma four_bars_ok : pit_ok four_bars.
Proof.
  split; [|split; [|split; [|split; [|split]]]].
  - split; [repeat constructor|].
    apply (bool_decide_unpack (NoDup (Dict.keys (Pit.cells four_bars)))).
    vm_compute. exact I.
  - unfold in_bounds. apply (bool_decide_unpack _). vm_compute. exact I.
  - reflexivity.
  - reflexivity.
  - apply rows_consistent_check. apply (bool_decide_unpack _). vm_compute. exact I.
  - apply cols_consistent_check. apply (bool_decide_unpack _). vm_compute. exact I.
Qed.

Lemma bar_wf (x : Z) : Piece.wf (bar_at x).
Proof.
  split; [repeat constructor|].
  apply (bool_decide_unpack (NoDup (Dict.keys (Piece.cells (bar_at x))))).
  vm_compute. exact I.
Qed.

(** ** What [drop] returns, amended *)

(** C1, amended: for every pit in order and every fitting piece in order
    with a cell, [drop] returns, and what it returns is the number of rows
    that hold [WIDTH] cells once the piece is locked where it lands, 0 when
    there is none (and then nothing is cleared).  The ascending list of
    these rows is what [_cleanup] works on (it clears them at once on a pit
    without node, and hands them to a timer otherwise); it is not
    returned. *)
Theorem drop_returns_count (p : Pit.t) (pc : Piece.t) :
  pit_ok p ->
  Piece.wf pc ->
  Piece.cells pc <> [] ->
  Piece.fits pc (Pit.cells p) = true ->
  exists pc' o,
    Pit.landing p pc = Some pc' /\
    Pit.drop p pc = Some o /\
    let full := full_rows (Pit.cells (Pit.lock pc' p)) in
    Pit.returned o = JS.Number (Z.of_nat (length full)) /\
    StronglySorted Z.lt full /\
    Forall (fun j => 0 <= j < Game.DEPTH /\
                     count_row (Pit.cells (Pit.lock pc' p)) j = Game.WIDTH) full /\
    Pit.fire o
      = match full with
        | [] => Pit.lock pc' p
        | _ :: _ => Pit._removeCompletedRows full (Pit.lock pc' p)
        end.
Proof.
  intros Hok Hwf Hne Hfits. destruct (landing_total p pc Hne) as [pc' Hl].
  assert (Hrows : rows_consistent p) by (apply Hok).
  destruct (landed_lock_rows p pc pc' Hrows Hwf Hfits Hl) as [_ Hfull].
  exists pc', (Pit._cleanup (Pit.lock pc' p)). split; [exact Hl|].
  split; [unfold Pit.drop; rewrite Hl; reflexivity|].
  cbv zeta. rewrite <- Hfull. split; [|split; [|split]].
  - unfold Pit._cleanup.
    destruct (0 <? Z.of_nat (length (Pit.completedRows (Pit.lock pc' p))));
      [destruct (Pit.node (Pit.lock pc' p))|]; reflexivity.
  - apply completedRows_sorted.
  - rewrite Hfull. unfold full_rows. apply Forall_forall. intros j Hj.
    apply list_elem_of_filter in Hj as [Hj1 Hj2]. apply elem_of_seqZ in Hj2.
    split; [lia | exact Hj1].
  - unfold Pit._cleanup, Pit.fire.
    destruct (Pit.completedRows (Pit.lock pc' p)) as [|j js] eqn:Hc; simpl.
    + reflexivity.
    + destruct (Pit.node (Pit.lock pc' p)); reflexivity.
Qed.

Lemma drop_returns_count_witness :
  exists pc' o,
    Pit.landing four_bars (bar_at 9) = Some pc' /\
    Pit.drop four_bars (bar_at 9) = Some o /\
    let full := full_rows (Pit.cells (Pit.lock pc' four_bars)) in
    Pit.returned o = JS.Number (Z.of_nat (length full)) /\
    StronglySorted Z.lt full /\
    Forall (fun j => 0 <= j < Game.DEPTH /\
                     count_row (Pit.cells (Pit.lock pc' four_bars)) j = Game.WIDTH)
           full /\
    Pit.fire o
      = match full with
        | [] => Pit.lock pc' four_bars
        | _ :: _ => Pit._removeCompletedRows full (Pit.lock pc' four_bars)
        end.
Proof.
  apply (drop_returns_count four_bars (bar_at 9)).
  - exact four_bars_ok.
  - exact (bar_wf 9).
  - discriminate.
  - vm_compute. reflexivity.
Defined.
(** * Facts on the engine, the search and the attacker *)

(** ** Reading the completed rows off the row counters *)

Lemma filter_ext_in {A : Type} (P Q : A -> Prop) `{!forall x, Decision (P x)}
    `{!forall x, Decision (Q x)} (l : list A) :
  (forall x, x ∈ l -> P x <-> Q x) -> filter P l = filter Q l.
Proof.
  induction l as [|a l IH]; intros Hext; [reflexivity|].
  rewrite !filter_cons.
  rewrite IH by (intros x Hx; apply Hext; right; exact Hx).
  destruct (decide (P a)) as [Hp|Hp], (decide (Q a)) as [Hq|Hq]; try reflexivity.
  - exfalso. apply Hq, (Hext a); [left | exact Hp].
  - exfalso. apply Hp, (Hext a); [left | exact Hq].
Qed.

Lemma getCompletedRows_seqZ (p : Pit.t) :
  Pit.getCompletedRows p
  = filter (fun j => Arr.get (Pit.rows p) j = Some Game.WIDTH)
           (seqZ 0 (Z.of_nat (length (Pit.rows p)))).
Proof.
  unfold Pit.getCompletedRows. generalize (Pit.rows p). clear p.
  induction l as [|a l IH] using rev_ind; [reflexivity|].
  rewrite imap_app, filter_app, fmap_app, IH. clear IH.
  rewrite length_app. simpl length.
  replace (Z.of_nat (length l + 1)) with (Z.of_nat (length l) + 1) by lia.
  rewrite seqZ_app by lia. rewrite filter_app. f_equal.
  - apply filter_ext_in. intros j Hj. apply elem_of_seqZ in Hj.
    unfold Arr.get. replace (j <? 0) with false by (symmetry; apply Z.ltb_ge; lia).
    rewrite lookup_app_l by lia. reflexivity.
  - simpl imap. rewrite Nat.add_0_r. simpl.
    change (seqZ (0 + Z.of_nat (length l)) 1) with [0 + Z.of_nat (length l)].
    rewrite !filter_cons, !filter_nil. simpl fst.
    assert (Hget : Arr.get (l ++ [a]) (0 + Z.of_nat (length l)) = Some a).
    { unfold Arr.get.
      replace (0 + Z.of_nat (length l) <? 0) with false by (symmetry; apply Z.ltb_ge; lia).
      replace (Z.to_nat (0 + Z.of_nat (length l))) with (length l + 0)%nat by lia.
      rewrite lookup_app_r by lia. replace (length l + 0 - length l)%nat with O by lia.
      reflexivity. }
    rewrite Hget.
    destruct (decide (a = Game.WIDTH)) as [->|Hne].
    + rewrite decide_True by reflexivity. simpl. f_equal.
    + rewrite decide_False by congruence. reflexivity.
Qed.

(** X1: on a pit whose [rows] array has [Game.DEPTH] entries (the
    constructor makes it so and [drop] keeps it so), [getCompletedRows]
    returns exactly the rows that [_cleanup] counts and clears: the indices
    below [Game.DEPTH] whose counter equals [Game.WIDTH], in ascending
    order. *)
Theorem getCompletedRows_matches_cleanup (p : Pit.t) :
  length (Pit.rows p) = Z.to_nat Game.DEPTH ->
  Pit.getCompletedRows p = Pit.completedRows p /\
  StronglySorted Z.lt (Pit.getCompletedRows p) /\
  forall j, j ∈ Pit.getCompletedRows p <->
            0 <= j < Game.DEPTH /\ Arr.get (Pit.rows p) j = Some Game.WIDTH.
Proof.
  intros Hlen.
  assert (E : Pit.getCompletedRows p = Pit.completedRows p).
  { rewrite getCompletedRows_seqZ, Hlen. reflexivity. }
  split; [exact E|]. rewrite E. split; [apply completedRows_sorted|].
  intros j. unfold Pit.completedRows. rewrite list_elem_of_filter, elem_of_seqZ.
  unfold Game.DEPTH. split; intros [H1 H2]; (split; [|]); try assumption; lia.
Qed.

Lemma getCompletedRows_matches_cleanup_witness :
  Pit.getCompletedRows five_bars = Pit.completedRows five_bars /\
  StronglySorted Z.lt (Pit.getCompletedRows five_bars) /\
  forall j, j ∈ Pit.getCompletedRows five_bars <->
            0 <= j < Game.DEPTH /\ Arr.get (Pit.rows five_bars) j = Some Game.WIDTH.
Proof. apply (getCompletedRows_matches_cleanup five_bars). reflexivity. Defined.
(** ** The sizes of the two arrays *)

(** Where the cells of a fitting piece are. *)
Lemma fits_free (pc : Piece.t) (m : Dict.t) (kv : XY.t * Cell.t) :
  Piece.fits pc m = true -> kv ∈ Piece.cells pc ->
  0 <= XY.x (XY.plus (Piece.xy pc) (Cell.xy (snd kv))) < Game.WIDTH /\
  0 <= XY.y (XY.plus (Piece.xy pc) (Cell.xy (snd kv))) /\
  XY.plus (Piece.xy pc) (Cell.xy (snd kv)) ∉ Dict.keys m.
Proof.
  unfold Piece.fits. rewrite forallb_forall. intros H Hkv.
  specialize (H (snd kv)).
  assert (Hin : In (snd kv) (Dict.values (Piece.cells pc))).
  { apply list_elem_of_In. unfold Dict.values. apply list_elem_of_fmap_2. exact Hkv. }
  specialize (H Hin). unfold Piece.fits_cell in H.
  rewrite (XY_plus_comm (Piece.xy pc)).
  destruct (XY.x (XY.plus (Cell.xy kv.2) (Piece.xy pc)) <? 0) eqn:E1; [discriminate|].
  destruct (Game.WIDTH <=? XY.x (XY.plus (Cell.xy kv.2) (Piece.xy pc))) eqn:E2;
    [discriminate|].
  destruct (XY.y (XY.plus (Cell.xy kv.2) (Piece.xy pc)) <? 0) eqn:E3; [discriminate|].
  destruct (Dict.has _ m) eqn:E; [discriminate|].
  apply Dict_has_false in E. apply Z.ltb_ge in E1, E3. apply Z.leb_gt in E2.
  split; [lia|]. split; [lia | exact E].
Qed.

Lemma remove_rows_length (js : list Z) (p : Pit.t) :
  Forall (fun j => 0 <= j < Z.of_nat (length (Pit.rows p))) js ->
  length (Pit.rows (fold_left Pit.remove_row js p)) = length (Pit.rows p).
Proof.
  revert p. induction js as [|j js IH]; intros p H; [reflexivity|].
  apply Forall_cons in H as [Hj Hjs].
  assert (E : length (Pit.rows (Pit.remove_row p j)) = length (Pit.rows p)).
  { unfold Pit.remove_row, Arr.push, Arr.splice1. simpl.
    rewrite !length_app, length_take, length_drop. simpl. lia. }
  simpl fold_left. rewrite IH; [exact E|]. rewrite E. exact Hjs.
Qed.

Lemma shift_loop_cols_length (low : option Z) (k : Z) (l : Dict.t)
    (acc : Dict.t * list Z) :
  length (snd (fold_left (Pit.shift_cell low k) l acc)) = length (snd acc).
Proof.
  revert acc. induction l as [|kv l IH]; intros acc; [reflexivity|].
  simpl fold_left. rewrite IH. unfold Pit.shift_cell. simpl.
  apply Arr_upd_length.
Qed.

Lemma remove_rows_cols_length (js : list Z) (p : Pit.t) :
  length (Pit.cols (fold_left Pit.remove_row js p)) = length (Pit.cols p).
Proof.
  revert p. induction js as [|j js IH]; intros p; [reflexivity|].
  simpl fold_left. rewrite IH. unfold Pit.remove_row. simpl.
  apply length_fmap.
Qed.

Lemma lock_lengths (pos : XY.t) (l : Dict.t) (p : Pit.t) :
  length (Pit.rows (fold_left (Pit.lock_cell pos) l p)) = length (Pit.rows p) /\
  length (Pit.cols (fold_left (Pit.lock_cell pos) l p)) = length (Pit.cols p).
Proof.
  revert p. induction l as [|kv l IH]; intros p; [split; reflexivity|].
  simpl fold_left. destruct (IH (Pit.lock_cell pos p kv)) as [-> ->].
  unfold Pit.lock_cell.
  destruct (XY.y (XY.plus pos (Cell.xy kv.2)) <? Game.DEPTH); simpl;
    rewrite ?Arr_upd_length; split; reflexivity.
Qed.

Lemma removeCompletedRows_lengths (p : Pit.t) :
  length (Pit.rows (Pit._removeCompletedRows (Pit.completedRows p) p))
    = length (Pit.rows p) /\
  length (Pit.cols (Pit._removeCompletedRows (Pit.completedRows p) p))
    = length (Pit.cols p).
Proof.
  unfold Pit._removeCompletedRows. simpl. split.
  - rewrite sort_desc_ascending by apply completedRows_sorted.
    apply remove_rows_length.
    apply Forall_reverse, Forall_forall. intros j Hj.
      unfold Pit.completedRows in Hj. apply list_elem_of_filter in Hj as [Hg Hj].
    apply elem_of_seqZ in Hj. unfold Arr.get in Hg.
    destruct (j <? 0) eqn:E; [discriminate|].
    apply lookup_lt_Some in Hg. lia.
  - rewrite shift_loop_cols_length. simpl. apply remove_rows_cols_length.
Qed.

Lemma Dict_set_Forall {A : Type} (P : XY.t * A -> Prop) (k : XY.t) (v : A)
    (m : Dict.dict A) :
  (forall k', P (k', v) -> P (k, v)) ->
  Forall P m -> P (k, v) -> Forall P (Dict.set k v m).
Proof.
  intros _. induction m as [|[k' v'] m IH]; simpl; intros Hm Hv.
  - constructor; [exact Hv | constructor].
  - apply Forall_cons in Hm as [Hv' Hm].
    destruct (XY.eqb k k') eqn:E.
    + apply XY_eqb_eq in E. subst k'. constructor; assumption.
    + constructor; [exact Hv' | apply IH; assumption].
Qed.

(** The columns of the cells in the pit after a lock of cells that go into
    columns of the pit. *)
Lemma lock_columns (pos : XY.t) (l : Dict.t) (p : Pit.t) (w : Z) :
  Forall (fun kv => 0 <= XY.x (Cell.xy (snd kv)) < w) (Pit.cells p) ->
  Forall (fun kv => 0 <= XY.x (XY.plus pos (Cell.xy (snd kv))) < w) l ->
  Forall (fun kv => 0 <= XY.x (Cell.xy (snd kv)) < w)
         (Pit.cells (fold_left (Pit.lock_cell pos) l p)).
Proof.
  revert p. induction l as [|kv l IH]; intros p Hp Hl; [exact Hp|].
  apply Forall_cons in Hl as [Hkv Hl]. simpl fold_left. apply IH; [|exact Hl].
  assert (H : Forall (fun kv0 : XY.t * Cell.t => 0 <= XY.x (Cell.xy (snd kv0)) < w)
                (Dict.set (XY.plus pos (Cell.xy kv.2))
                          (Cell.set_xy (XY.plus pos (Cell.xy kv.2)) kv.2)
                          (Pit.cells p))).
  { apply Dict_set_Forall; [auto | exact Hp | exact Hkv]. }
  unfold Pit.lock_cell.
  destruct (XY.y (XY.plus pos (Cell.xy kv.2)) <? Game.DEPTH); exact H.
Qed.

(** X2: no counter is written outside the two arrays, and they keep their
    lengths.  For a pit in order (arrays of the constructor's lengths,
    cells inside the pit) and a piece with a cell that fits, [drop]
    returns; every cell of the piece is locked in a column that is inside
    [cols] and in a row that is not negative and, when it is counted at
    all, inside [rows]; every row that is then cleared is inside [rows],
    and every cell whose column the clearing writes into [cols] is in a
    column inside [cols].  So [drop] and the clearing that follows leave
    [rows] and [cols] at the lengths they had: every [splice] of a
    completed row is made up by a [push]. *)
Theorem drop_keeps_array_lengths (p : Pit.t) (pc : Piece.t) :
  pit_ok p ->
  Piece.cells pc <> [] ->
  Piece.fits pc (Pit.cells p) = true ->
  exists pc' o,
    Pit.landing p pc = Some pc' /\
    Pit.drop p pc = Some o /\
    Forall (fun kv =>
              let xy := XY.plus (Piece.xy pc') (Cell.xy (snd kv)) in
              0 <= XY.x xy < Z.of_nat (length (Pit.cols p)) /\
              0 <= XY.y xy /\
              (XY.y xy < Game.DEPTH -> XY.y xy < Z.of_nat (length (Pit.rows p))))
           (Piece.cells pc') /\
    Forall (fun j => 0 <= j < Z.of_nat (length (Pit.rows p)))
           (Pit.completedRows (Pit.lock pc' p)) /\
    Forall (fun kv => 0 <= XY.x (Cell.xy (snd kv)) < Z.of_nat (length (Pit.cols p)))
           (Pit.cells (Pit.lock pc' p)) /\
    length (Pit.rows (Pit.after o)) = length (Pit.rows p) /\
    length (Pit.cols (Pit.after o)) = length (Pit.cols p) /\
    length (Pit.rows (Pit.fire o)) = length (Pit.rows p) /\
    length (Pit.cols (Pit.fire o)) = length (Pit.cols p).
Proof.
  intros (Hwf & Hin & Hlr & Hlc & _ & _) Hne Hf.
  destruct (landing_total p pc Hne) as [pc' Hl].
  destruct (landing_fits p pc pc' Hf Hl) as [Hf' Hcells].
  assert (Hw : Z.of_nat (length (Pit.cols p)) = Game.WIDTH)
    by (rewrite Hlc; reflexivity).
  assert (Hd : Z.of_nat (length (Pit.rows p)) = Game.DEPTH)
    by (rewrite Hlr; reflexivity).
  assert (Hpiece : Forall (fun kv =>
              let xy := XY.plus (Piece.xy pc') (Cell.xy (snd kv)) in
              0 <= XY.x xy < Z.of_nat (length (Pit.cols p)) /\
              0 <= XY.y xy /\
              (XY.y xy < Game.DEPTH -> XY.y xy < Z.of_nat (length (Pit.rows p))))
           (Piece.cells pc')).
  { apply Forall_forall. intros kv Hkv. cbv zeta.
    destruct (fits_free pc' (Pit.cells p) kv Hf' Hkv) as [Hx [Hy _]].
    rewrite Hw, Hd. split; [exact Hx|]. split; [exact Hy|]. auto. }
  destruct (lock_lengths (Piece.xy pc') (Piece.cells pc') p) as [Hr Hc].
  fold (Pit.lock pc' p) in Hr, Hc.
  destruct (removeCompletedRows_lengths (Pit.lock pc' p)) as [Hr' Hc'].
  exists pc'. eexists. split; [exact Hl|].
  split; [unfold Pit.drop; rewrite Hl; reflexivity|].
  split; [exact Hpiece|]. split; [|split].
  - apply Forall_forall. intros j Hj. unfold Pit.completedRows in Hj.
    apply list_elem_of_filter in Hj as [_ Hj]. apply elem_of_seqZ in Hj.
    rewrite Hd. lia.
  - unfold Pit.lock. apply lock_columns.
    + eapply Forall_impl; [exact Hin|]. intros kv [Hx _]. rewrite Hw. exact Hx.
    + eapply Forall_impl; [exact Hpiece|]. intros kv [Hx _]. exact Hx.
  - unfold Pit._cleanup, Pit.fire.
    destruct (0 <? Z.of_nat (length (Pit.completedRows (Pit.lock pc' p))));
      [destruct (Pit.node (Pit.lock pc' p))|]; cbn [Pit.after Pit.timer];
      rewrite ?Hr', ?Hc', ?Hr, ?Hc;
      repeat split; reflexivity.
Qed.

Lemma drop_keeps_array_lengths_witness :
  exists pc' o,
    Pit.landing four_bars (bar_at 9) = Some pc' /\
    Pit.drop four_bars (bar_at 9) = Some o /\
    Forall (fun kv =>
              let xy := XY.plus (Piece.xy pc') (Cell.xy (snd kv)) in
              0 <= XY.x xy < Z.of_nat (length (Pit.cols four_bars)) /\
              0 <= XY.y xy /\
              (XY.y xy < Game.DEPTH ->
               XY.y xy < Z.of_nat (length (Pit.rows four_bars))))
           (Piece.cells pc') /\
    Forall (fun j => 0 <= j < Z.of_nat (length (Pit.rows four_bars)))
           (Pit.completedRows (Pit.lock pc' four_bars)) /\
    Forall (fun kv => 0 <= XY.x (Cell.xy (snd kv))
                      < Z.of_nat (length (Pit.cols four_bars)))
           (Pit.cells (Pit.lock pc' four_bars)) /\
    length (Pit.rows (Pit.after o)) = length (Pit.rows four_bars) /\
    length (Pit.cols (Pit.after o)) = length (Pit.cols four_bars) /\
    length (Pit.rows (Pit.fire o)) = length (Pit.rows four_bars) /\
    length (Pit.cols (Pit.fire o)) = length (Pit.cols four_bars).
Proof.
  apply (drop_keeps_array_lengths four_bars (bar_at 9)).
  - exact four_bars_ok.
  - discriminate.
  - vm_compute. reflexivity.
Defined.

(** ** Where a dropped piece comes to rest *)

Lemma landing_spec (p : Pit.t) (pc pc' : Piece.t) :
  Pit.landing p pc = Some pc' ->
  exists k : nat,
    pc' = in_row pc (XY.y (Piece.xy pc) - Z.of_nat k + 1) /\
    Piece.fits (in_row pc (XY.y (Piece.xy pc) - Z.of_nat k)) (Pit.cells p) = false /\
    forall i : nat, (i < k)%nat ->
      Piece.fits (in_row pc (XY.y (Piece.xy pc) - Z.of_nat i)) (Pit.cells p) = true.
Proof.
  unfold Pit.landing.
  destruct (Pit.while_fits _ _ _ _) as [pc1|] eqn:Hw; [|discriminate].
  intros H. inversion H. subst pc'. clear H.
  destruct (while_fits_spec _ _ _ _ _ Hw) as [Hnf [k [Hk Hall]]].
  exists k. subst pc1. destruct pc as [ty ps [px py] cs].
  unfold in_row, Piece.set_xy, XY.minus, Pit.gravity in *. simpl in *.
  split; [|split].
  - do 2 f_equal; lia.
  - replace (px + Z.of_nat k * 0) with px in Hnf by lia.
    replace (py + Z.of_nat k * -1) with (py - Z.of_nat k) in Hnf by lia.
    exact Hnf.
  - intros i Hi. specialize (Hall i Hi).
    replace (px + Z.of_nat i * 0) with px in Hall by lia.
    replace (py + Z.of_nat i * -1) with (py - Z.of_nat i) in Hall by lia.
    exact Hall.
Qed.

Lemma in_row_self (pc : Piece.t) : in_row pc (XY.y (Piece.xy pc)) = pc.
Proof. destruct pc as [ty ps [px py] cs]. reflexivity. Qed.

(** X3: the fall of [drop] ends for every piece with a cell, and leaves it
    in its column with its cells as they were.  A piece that fits where it
    is handed over comes to rest at the lowest row that a straight fall
    reaches: it fits there and at every row it passed, and does not fit one
    row further down.  A piece that does not fit where it is handed over is
    not moved down at all: it is locked one row higher. *)
Theorem drop_lands_at_rest (p : Pit.t) (pc : Piece.t) :
  Piece.cells pc <> [] ->
  exists y',
    Pit.landing p pc = Some (in_row pc y') /\
    if Piece.fits pc (Pit.cells p) then
      y' <= XY.y (Piece.xy pc) /\
      (forall y, y' <= y <= XY.y (Piece.xy pc) ->
         Piece.fits (in_row pc y) (Pit.cells p) = true) /\
      Piece.fits (in_row pc (y' - 1)) (Pit.cells p) = false
    else y' = XY.y (Piece.xy pc) + 1.
Proof.
  intros Hne. destruct (landing_total p pc Hne) as [pc' Hl].
  destruct (landing_spec p pc pc' Hl) as [k [Hk [Hnf Hall]]].
  exists (XY.y (Piece.xy pc) - Z.of_nat k + 1). split; [rewrite Hl, Hk; reflexivity|].
  destruct (Piece.fits pc (Pit.cells p)) eqn:Hf.
  - destruct k as [|k].
    { exfalso. rewrite Z.sub_0_r, in_row_self in Hnf. congruence. }
    split; [lia|]. split.
    + intros y Hy.
      replace y with (XY.y (Piece.xy pc) - Z.of_nat (Z.to_nat (XY.y (Piece.xy pc) - y)))
        by lia.
      apply Hall. lia.
    + replace (XY.y (Piece.xy pc) - Z.of_nat (S k) + 1 - 1)
        with (XY.y (Piece.xy pc) - Z.of_nat (S k)) by lia.
      exact Hnf.
  - destruct k as [|k]; [lia|].
    exfalso. specialize (Hall O ltac:(lia)).
    rewrite Z.sub_0_r, in_row_self in Hall. congruence.
Qed.

Lemma drop_lands_at_rest_witness :
  exists y',
    Pit.landing four_bars (bar_at 9) = Some (in_row (bar_at 9) y') /\
    if Piece.fits (bar_at 9) (Pit.cells four_bars) then
      y' <= XY.y (Piece.xy (bar_at 9)) /\
      (forall y, y' <= y <= XY.y (Piece.xy (bar_at 9)) ->
         Piece.fits (in_row (bar_at 9) y) (Pit.cells four_bars) = true) /\
      Piece.fits (in_row (bar_at 9) (y' - 1)) (Pit.cells four_bars) = false
    else y' = XY.y (Piece.xy (bar_at 9)) + 1.
Proof. apply (drop_lands_at_rest four_bars (bar_at 9)). discriminate. Defined.

(** ** What a lock writes into the dictionary *)

Lemma lock_cells_fold (pos : XY.t) (l : Dict.t) (p : Pit.t) :
  Pit.cells (fold_left (Pit.lock_cell pos) l p)
  = fold_left (fun m kv => Dict.set (fst (locked_entry pos kv))
                                    (snd (locked_entry pos kv)) m)
              l (Pit.cells p).
Proof.
  revert p. induction l as [|kv l IH]; intros p; [reflexivity|].
  simpl fold_left. rewrite IH. f_equal.
  unfold Pit.lock_cell, locked_entry.
  destruct (XY.y (XY.plus pos (Cell.xy kv.2)) <? Game.DEPTH); reflexivity.
Qed.

Lemma XY_plus_inj (pos a b : XY.t) : XY.plus pos a = XY.plus pos b -> a = b.
Proof.
  destruct pos as [px py], a as [ax ay], b as [bx by_]. unfold XY.plus. simpl.
  intros H. inversion H. f_equal; lia.
Qed.

(** X4: a lock writes no place that is taken, and none outside the walls
    or below the floor.  For a piece whose keys are its cells' offsets, all
    different, and which fits where it is handed over, the dictionary of the
    pit after the loop of [drop] (before any clearing) is the dictionary
    before it, every entry and the order untouched, followed by the cells of
    the piece under their places in the pit, in the order of the piece; each
    of these places is in a column of the pit, in row 0 or above, and was
    free.  (Nothing keeps them below the top of the pit.) *)
Theorem drop_appends_piece_cells (p : Pit.t) (pc : Piece.t) :
  Piece.wf pc -> Piece.cells pc <> [] ->
  Piece.fits pc (Pit.cells p) = true ->
  exists pc',
    Pit.landing p pc = Some pc' /\
    Pit.cells (Pit.lock pc' p)
    = Pit.cells p ++ (locked_entry (Piece.xy pc') <$> Piece.cells pc) /\
    Forall (fun kv => 0 <= XY.x (fst kv) < Game.WIDTH /\ 0 <= XY.y (fst kv) /\
                      fst kv ∉ Dict.keys (Pit.cells p))
           (locked_entry (Piece.xy pc') <$> Piece.cells pc).
Proof.
  intros [Hkeys Hnd] Hne Hf. destruct (landing_total p pc Hne) as [pc' Hl].
  exists pc'. split; [exact Hl|].
  destruct (landing_fits p pc pc' Hf Hl) as [Hf' Hc'].
  split.
  - unfold Pit.lock. rewrite lock_cells_fold, Hc'.
    apply (Dict_fold_set_fresh (locked_entry (Piece.xy pc'))).
    + assert (E : (fun b : XY.t * Cell.t => fst (locked_entry (Piece.xy pc') b))
                    <$> Piece.cells pc
                  = XY.plus (Piece.xy pc') <$> Dict.keys (Piece.cells pc)).
      { unfold Dict.keys. rewrite <- list_fmap_compose.
        apply Forall_fmap_ext_1. eapply Forall_impl; [exact Hkeys|].
        intros kv E. simpl. rewrite E. reflexivity. }
      rewrite E. apply NoDup_fmap_2; [|exact Hnd].
      intros a b. apply XY_plus_inj.
    + intros kv Hkv. simpl. apply (fits_free pc' (Pit.cells p) kv Hf').
      rewrite Hc'. exact Hkv.
  - apply Forall_fmap, Forall_forall. intros kv Hkv. simpl.
    apply (fits_free pc' (Pit.cells p) kv Hf'). rewrite Hc'. exact Hkv.
Qed.

Lemma drop_appends_piece_cells_witness :
  exists pc',
    Pit.landing four_bars (bar_at 9) = Some pc' /\
    Pit.cells (Pit.lock pc' four_bars)
    = Pit.cells four_bars ++ (locked_entry (Piece.xy pc') <$> Piece.cells (bar_at 9)) /\
    Forall (fun kv => 0 <= XY.x (fst kv) < Game.WIDTH /\ 0 <= XY.y (fst kv) /\
                      fst kv ∉ Dict.keys (Pit.cells four_bars))
           (locked_entry (Piece.xy pc') <$> Piece.cells (bar_at 9)).
Proof.
  apply (drop_appends_piece_cells four_bars (bar_at 9)).
  - split; [repeat constructor|].
    apply (bool_decide_unpack (NoDup (Dict.keys (Piece.cells (bar_at 9))))).
    vm_compute. exact I.
  - discriminate.
  - vm_compute. reflexivity.
Defined.

(** ** The moves of the piece in play *)

Lemma set_piece_same (e : Engine.t) (pc : Piece.t) :
  Engine._piece e = Some pc -> Engine.set_piece (Some pc) e = e.
Proof. destruct e. simpl. intros ->. reflexivity. Qed.

Lemma move_back (pc : Piece.t) (d : XY.t) :
  Piece.set_xy (XY.minus (Piece.xy (Piece.set_xy (XY.plus (Piece.xy pc) d) pc)) d)
               (Piece.set_xy (XY.plus (Piece.xy pc) d) pc)
  = pc.
Proof.
  destruct pc as [ty ps xy cs]. unfold Piece.set_xy. simpl.
  rewrite XY_plus_minus. reflexivity.
Qed.

(** X5: [shift] never leaves the piece where it does not fit.  For a piece
    in play that fits and is not being dropped, and a [direction] that,
    like the column of the piece, is an integer below [2^52] in magnitude
    (so that the sum and the difference are exact), the piece after
    [shift(direction)] fits the pit; it is the piece moved by [direction]
    columns in its row when it fits there, and otherwise the very piece as
    it was.  Nothing else of the engine changes. *)
Theorem shift_keeps_piece_fitting (direction : Z) (e : Engine.t) (pc : Piece.t) :
  safe direction ->
  safe (XY.x (Piece.xy pc)) ->
  Engine._piece e = Some pc ->
  Engine._dropping e = false ->
  Piece.fits pc (Pit.cells (Engine.pit e)) = true ->
  exists pc',
    Engine.shift direction e = Engine.set_piece (Some pc') e /\
    Piece.fits pc' (Pit.cells (Engine.pit e)) = true /\
    Piece.cells pc' = Piece.cells pc /\
    XY.y (Piece.xy pc') = XY.y (Piece.xy pc) /\
    (pc' = in_column pc (XY.x (Piece.xy pc) + direction) \/
     pc' = pc /\
     Piece.fits (in_column pc (XY.x (Piece.xy pc) + direction))
                (Pit.cells (Engine.pit e)) = false).
Proof.
  intros _ _ Hp Hd Hf. unfold Engine.shift. rewrite Hp, Hd.
  assert (E : Piece.set_xy (XY.plus (Piece.xy pc) (XY.New direction 0)) pc
              = in_column pc (XY.x (Piece.xy pc) + direction)).
  { destruct pc as [ty ps [px py] cs]. unfold in_column, Piece.set_xy, XY.plus.
    simpl. do 2 f_equal. lia. }
  cbv zeta. rewrite move_back. rewrite E.
  destruct (Piece.fits (in_column pc (XY.x (Piece.xy pc) + direction))
                       (Pit.cells (Engine.pit e))) eqn:Hm.
  - eexists. split; [reflexivity|]. split; [exact Hm|].
    split; [reflexivity|]. split; [reflexivity|]. left. reflexivity.
  - exists pc. split; [reflexivity|]. split; [exact Hf|].
    split; [reflexivity|]. split; [reflexivity|]. right. split; reflexivity.
Qed.

Lemma shift_keeps_piece_fitting_witness :
  exists pc',
    Engine.shift (-1) engine_with_bar = Engine.set_piece (Some pc') engine_with_bar /\
    Piece.fits pc' (Pit.cells (Engine.pit engine_with_bar)) = true /\
    Piece.cells pc' = Piece.cells (bar_at 1) /\
    XY.y (Piece.xy pc') = XY.y (Piece.xy (bar_at 1)) /\
    (pc' = in_column (bar_at 1) (XY.x (Piece.xy (bar_at 1)) + -1) \/
     pc' = bar_at 1 /\
     Piece.fits (in_column (bar_at 1) (XY.x (Piece.xy (bar_at 1)) + -1))
                (Pit.cells (Engine.pit engine_with_bar)) = false).
Proof.
  apply (shift_keeps_piece_fitting (-1) engine_with_bar (bar_at 1));
    try reflexivity; unfold safe; simpl; lia.
Defined.

Lemma quarter_turns_cancel (a : XY.t) :
  Piece.rotate_xy (Piece.rotate_sign (-1)) (Piece.rotate_xy (Piece.rotate_sign 1) a) = a.
Proof.
  destruct a as [ax ay]. unfold Piece.rotate_xy, Piece.rotate_sign. simpl.
  f_equal; lia.
Qed.

(** X6: [rotate] never leaves the piece where it does not fit.  For a piece
    in play whose keys are its cells' offsets, all different (as the
    constructor makes them and [rotate] keeps them), which fits and is not
    being dropped, the piece after [rotate()] fits the pit and is again of
    that kind; it is the piece turned by [rotate(+1)] when that fits, and
    otherwise the very piece as it was: the turn back undoes the turn. *)
Theorem rotate_keeps_piece_fitting (e : Engine.t) (pc : Piece.t) :
  Engine._piece e = Some pc ->
  Engine._dropping e = false ->
  Piece.wf pc ->
  Piece.fits pc (Pit.cells (Engine.pit e)) = true ->
  exists pc',
    Engine.rotate e = Engine.set_piece (Some pc') e /\
    Piece.fits pc' (Pit.cells (Engine.pit e)) = true /\
    Piece.wf pc' /\
    (pc' = Piece.rotate 1 pc \/
     pc' = pc /\ Piece.fits (Piece.rotate 1 pc) (Pit.cells (Engine.pit e)) = false).
Proof.
  intros Hp Hd Hwf Hf. unfold Engine.rotate. rewrite Hp, Hd. cbv zeta.
  destruct (Piece.fits (Piece.rotate 1 pc) (Pit.cells (Engine.pit e))) eqn:Hr.
  - eexists. split; [reflexivity|]. split; [exact Hr|].
    split; [apply rotate_wf; exact Hwf | left; reflexivity].
  - exists pc. split.
    + rewrite (rotate_back 1 (-1) pc Hwf quarter_turns_cancel). reflexivity.
    + split; [exact Hf|]. split; [exact Hwf|]. right. split; reflexivity.
Qed.

Lemma rotate_keeps_piece_fitting_witness :
  exists pc',
    Engine.rotate engine_with_u = Engine.set_piece (Some pc') engine_with_u /\
    Piece.fits pc' (Pit.cells (Engine.pit engine_with_u)) = true /\
    Piece.wf pc' /\
    (pc' = Piece.rotate 1 (Piece.center piece_u) \/
     pc' = Piece.center piece_u /\
     Piece.fits (Piece.rotate 1 (Piece.center piece_u))
                (Pit.cells (Engine.pit engine_with_u)) = false).
Proof.
  apply (rotate_keeps_piece_fitting engine_with_u (Piece.center piece_u)).
  - reflexivity.
  - reflexivity.
  - split; [repeat constructor|].
    apply (bool_decide_unpack
             (NoDup (Dict.keys (Piece.cells (Piece.center piece_u))))).
    vm_compute. exact I.
  - vm_compute. reflexivity.
Defined.
(** A piece at rest is where the fall of [drop] leaves it. *)
Lemma landing_at_rest (p : Pit.t) (pc : Piece.t) :
  Piece.cells pc <> [] ->
  Piece.fits pc (Pit.cells p) = true ->
  Piece.fits (in_row pc (XY.y (Piece.xy pc) - 1)) (Pit.cells p) = false ->
  Pit.landing p pc = Some pc.
Proof.
  intros Hne Hf Hnf. destruct (landing_total p pc Hne) as [pc' Hl].
  destruct (landing_spec p pc pc' Hl) as [k [Hk [Hnf' Hall]]].
  destruct k as [|[|k]].
  - exfalso. rewrite Z.sub_0_r, in_row_self in Hnf'. congruence.
  - rewrite Hl, Hk. f_equal.
    replace (XY.y (Piece.xy pc) - Z.of_nat 1 + 1) with (XY.y (Piece.xy pc)) by lia.
    apply in_row_self.
  - exfalso. specialize (Hall 1%nat ltac:(lia)).
    change (Z.of_nat 1) with 1 in Hall. congruence.
Qed.

(** The resting row of a fitting piece. *)
Lemma landing_rest (p : Pit.t) (pc : Piece.t) :
  Piece.cells pc <> [] ->
  Piece.fits pc (Pit.cells p) = true ->
  exists y',
    Pit.landing p pc = Some (in_row pc y') /\
    y' <= XY.y (Piece.xy pc) /\
    Piece.fits (in_row pc y') (Pit.cells p) = true /\
    Piece.fits (in_row pc (y' - 1)) (Pit.cells p) = false.
Proof.
  intros Hne Hf. destruct (landing_total p pc Hne) as [pc' Hl].
  destruct (landing_spec p pc pc' Hl) as [k [Hk [Hnf Hall]]].
  destruct k as [|k].
  { exfalso. rewrite Z.sub_0_r, in_row_self in Hnf. congruence. }
  exists (XY.y (Piece.xy pc) - Z.of_nat (S k) + 1).
  split; [rewrite Hl, Hk; reflexivity|]. split; [lia|]. split.
  - replace (XY.y (Piece.xy pc) - Z.of_nat (S k) + 1)
      with (XY.y (Piece.xy pc) - Z.of_nat k) by lia.
    apply Hall. lia.
  - replace (XY.y (Piece.xy pc) - Z.of_nat (S k) + 1 - 1)
      with (XY.y (Piece.xy pc) - Z.of_nat (S k)) by lia.
    exact Hnf.
Qed.

(** X7: the hard drop.  For a piece in play with a cell that fits, in an
    engine that is playing and not already dropping, [drop()] returns; it
    takes the piece straight down to the row where it rests (it fits there
    and not one row further down), stops the tick interval, and arms the
    drop timeout with [_dropping] set.  Until that timeout runs, [shift],
    [rotate] and [drop] change nothing. *)
Theorem engine_drop_rests_piece (e : Engine.t) (pc : Piece.t) :
  Engine._piece e = Some pc ->
  Piece.cells pc <> [] ->
  Engine._dropping e = false ->
  Engine.playing e = true ->
  Piece.fits pc (Pit.cells (Engine.pit e)) = true ->
  exists y',
    y' <= XY.y (Piece.xy pc) /\
    Piece.fits (in_row pc y') (Pit.cells (Engine.pit e)) = true /\
    Piece.fits (in_row pc (y' - 1)) (Pit.cells (Engine.pit e)) = false /\
    let e' := Engine.Mk (Engine.score e) true (Engine.scoreElementId e) None
                        true true (Engine.pit e) (Some (in_row pc y'))
                        (Engine._nextType e) in
    Engine.drop e = Some e' /\
    (forall direction, Engine.shift direction e' = e') /\
    Engine.rotate e' = e' /\
    Engine.drop e' = Some e'.
Proof.
  intros Hp Hne Hd Hpl Hf.
  destruct (landing_rest (Engine.pit e) pc Hne Hf) as [y' [Hl [Hy [Hf' Hnf]]]].
  exists y'. split; [exact Hy|]. split; [exact Hf'|]. split; [exact Hnf|].
  cbv zeta. split; [|split; [|split]]; try reflexivity.
  unfold Engine.drop. rewrite Hp, Hd, Hpl, Hl. simpl. rewrite Hpl. reflexivity.
Qed.

Lemma engine_drop_rests_piece_witness :
  exists y',
    y' <= XY.y (Piece.xy (bar_at 1)) /\
    Piece.fits (in_row (bar_at 1) y') (Pit.cells (Engine.pit engine_with_bar)) = true /\
    Piece.fits (in_row (bar_at 1) (y' - 1)) (Pit.cells (Engine.pit engine_with_bar))
      = false /\
    let e' := Engine.Mk (Engine.score engine_with_bar) true
                        (Engine.scoreElementId engine_with_bar) None
                        true true (Engine.pit engine_with_bar)
                        (Some (in_row (bar_at 1) y'))
                        (Engine._nextType engine_with_bar) in
    Engine.drop engine_with_bar = Some e' /\
    (forall direction, Engine.shift direction e' = e') /\
    Engine.rotate e' = e' /\
    Engine.drop e' = Some e'.
Proof.
  apply (engine_drop_rests_piece engine_with_bar (bar_at 1)); try reflexivity.
  discriminate.
Defined.

(** X8: the gravity tick never leaves the piece where it does not fit.
    For a piece in play with a cell that fits, [_tick()] returns.  When the
    piece fits one row further down it is moved there and nothing else
    changes; otherwise it stays exactly where it is and the tick turns into
    [drop()]: in an engine that is playing and not dropping, the interval
    is stopped and the drop timeout armed. *)
Theorem tick_keeps_piece_fitting (e : Engine.t) (pc : Piece.t) :
  Engine._piece e = Some pc ->
  Piece.cells pc <> [] ->
  Piece.fits pc (Pit.cells (Engine.pit e)) = true ->
  exists e' pc',
    Engine._tick e = Some e' /\
    Engine._piece e' = Some pc' /\
    Engine.pit e' = Engine.pit e /\
    Piece.fits pc' (Pit.cells (Engine.pit e)) = true /\
    if Piece.fits (in_row pc (XY.y (Piece.xy pc) - 1)) (Pit.cells (Engine.pit e))
    then e' = Engine.set_piece (Some (in_row pc (XY.y (Piece.xy pc) - 1))) e
    else pc' = pc /\
         (Engine._dropping e = false -> Engine.playing e = true ->
          Engine._interval e' = None /\ Engine._dropping e' = true /\
          Engine._dropTimeout e' = true).
Proof.
  intros Hp Hne Hf. unfold Engine._tick. rewrite Hp. cbv zeta.
  assert (E : Piece.set_xy (XY.plus (Piece.xy pc) Pit.gravity) pc
              = in_row pc (XY.y (Piece.xy pc) - 1)).
  { destruct pc as [ty ps [px py] cs]. unfold in_row, Piece.set_xy, XY.plus.
    simpl. do 2 f_equal; lia. }
  rewrite move_back, E.
  destruct (Piece.fits (in_row pc (XY.y (Piece.xy pc) - 1))
                       (Pit.cells (Engine.pit e))) eqn:Hdown.
  - eexists. eexists. split; [reflexivity|]. split; [destruct e; reflexivity|].
    split; [destruct e; reflexivity|]. split; [exact Hdown | reflexivity].
  - rewrite (set_piece_same e pc Hp). unfold Engine.drop. rewrite Hp.
    destruct (Engine._dropping e || negb (Engine.playing e)) eqn:Hg.
    + exists e, pc. split; [reflexivity|]. split; [exact Hp|].
      split; [reflexivity|]. split; [exact Hf|]. split; [reflexivity|].
      intros Hd Hpl. rewrite Hd, Hpl in Hg. discriminate.
    + rewrite (landing_at_rest (Engine.pit e) pc Hne Hf Hdown).
      eexists. exists pc. split; [reflexivity|]. simpl.
      split; [reflexivity|]. split; [reflexivity|]. split; [exact Hf|].
      split; [reflexivity|]. intros _ _. repeat split.
Qed.

Lemma tick_keeps_piece_fitting_witness :
  exists e' pc',
    Engine._tick engine_with_bar = Some e' /\
    Engine._piece e' = Some pc' /\
    Engine.pit e' = Engine.pit engine_with_bar /\
    Piece.fits pc' (Pit.cells (Engine.pit engine_with_bar)) = true /\
    if Piece.fits (in_row (bar_at 1) (XY.y (Piece.xy (bar_at 1)) - 1))
                  (Pit.cells (Engine.pit engine_with_bar))
    then e' = Engine.set_piece
                (Some (in_row (bar_at 1) (XY.y (Piece.xy (bar_at 1)) - 1)))
                engine_with_bar
    else pc' = bar_at 1 /\
         (Engine._dropping engine_with_bar = false ->
          Engine.playing engine_with_bar = true ->
          Engine._interval e' = None /\ Engine._dropping e' = true /\
          Engine._dropTimeout e' = true).
Proof.
  apply (tick_keeps_piece_fitting engine_with_bar (bar_at 1)); try reflexivity.
  discriminate.
Defined.
(** ** Locking and the score *)

Lemma cleanup_returns_count (p : Pit.t) :
  Pit.returned (Pit._cleanup p)
  = JS.Number (Z.of_nat (length (Pit.completedRows p))).
Proof.
  unfold Pit._cleanup.
  destruct (0 <? Z.of_nat (length (Pit.completedRows p))); [destruct (Pit.node p)|];
    reflexivity.
Qed.

(** X9: the piece is locked where the hard drop left it.  After [drop()]
    on a fitting piece in order in play (with a cell, in an engine that is
    playing and not dropping, over a pit in order), the callback [_drop] of
    the drop timeout returns; the fall inside [pit.drop] moves the piece
    nowhere, so the pit is the one with the cells of the resting piece
    locked and [_cleanup] applied; the engine is left without a piece and
    without [_dropping], and the value kept for the score is the number of
    rows that hold [WIDTH] cells once the piece is locked. *)
Theorem hard_drop_locks_in_place (e : Engine.t) (pc : Piece.t) :
  pit_ok (Engine.pit e) ->
  Piece.wf pc ->
  Engine._piece e = Some pc ->
  Piece.cells pc <> [] ->
  Engine._dropping e = false ->
  Engine.playing e = true ->
  Piece.fits pc (Pit.cells (Engine.pit e)) = true ->
  exists e' pc' l,
    Engine.drop e = Some e' /\
    Engine._piece e' = Some pc' /\
    Engine._drop e' = Some l /\
    Engine.pit (Engine.engine_after l)
      = Pit.after (Pit._cleanup (Pit.lock pc' (Engine.pit e))) /\
    Engine.clearing l = Pit.timer (Pit._cleanup (Pit.lock pc' (Engine.pit e))) /\
    Engine.removed l
      = JS.Number (Z.of_nat (length (full_rows
                                       (Pit.cells (Pit.lock pc' (Engine.pit e)))))) /\
    Engine._piece (Engine.engine_after l) = None /\
    Engine._dropping (Engine.engine_after l) = false /\
    Engine.score (Engine.engine_after l) = Engine.score e.
Proof.
  intros Hok Hwf Hp Hne Hd Hpl Hf.
  destruct (landing_rest (Engine.pit e) pc Hne Hf) as [y' [Hl [Hy [Hf' Hnf]]]].
  assert (Hrest : Pit.landing (Engine.pit e) (in_row pc y') = Some (in_row pc y')).
  { apply landing_at_rest; [exact Hne | exact Hf' | exact Hnf]. }
  assert (Hrows : rows_consistent (Engine.pit e)) by (apply Hok).
  destruct (landed_lock_rows (Engine.pit e) pc (in_row pc y') Hrows Hwf Hf Hl)
    as [_ Hfull].
  eexists. exists (in_row pc y'). eexists.
  split; [unfold Engine.drop; rewrite Hp, Hd, Hpl, Hl; reflexivity|].
  split; [reflexivity|].
  split; [unfold Engine._drop, Pit.drop; simpl; rewrite Hrest; reflexivity|].
  simpl. rewrite cleanup_returns_count, Hfull. repeat split.
Qed.

Lemma hard_drop_locks_in_place_witness :
  exists e' pc' l,
    Engine.drop engine_four_bars = Some e' /\
    Engine._piece e' = Some pc' /\
    Engine._drop e' = Some l /\
    Engine.pit (Engine.engine_after l)
      = Pit.after (Pit._cleanup (Pit.lock pc' (Engine.pit engine_four_bars))) /\
    Engine.clearing l
      = Pit.timer (Pit._cleanup (Pit.lock pc' (Engine.pit engine_four_bars))) /\
    Engine.removed l
      = JS.Number (Z.of_nat (length (full_rows
                                       (Pit.cells
                                          (Pit.lock pc' (Engine.pit engine_four_bars)))))) /\
    Engine._piece (Engine.engine_after l) = None /\
    Engine._dropping (Engine.engine_after l) = false /\
    Engine.score (Engine.engine_after l) = Engine.score engine_four_bars.
Proof.
  apply (hard_drop_locks_in_place engine_four_bars (bar_at 9)); try reflexivity.
  - exact (pit_ok_node four_bars true four_bars_ok).
  - exact (bar_wf 9).
  - discriminate.
Defined.

Lemma refreshAvailable_score (s : Session.t) :
  Engine.score (Session.engine (snd (Session._refreshAvailable s)))
  = Engine.score (Session.engine s).
Proof.
  unfold Session._refreshAvailable.
  destruct (snd (fold_left _ _ _)); reflexivity.
Qed.

Lemma useNextType_score (s s' : Session.t) :
  Session._useNextType s = Some s' ->
  Engine.score (Session.engine s') = Engine.score (Session.engine s).
Proof.
  unfold Session._useNextType.
  set (m1 := match SDict.get _ _ with Some _ => _ | None => _ end).
  set (s1 := Session.set_availableTypes m1 s).
  assert (Hr : forall r, r = match SDict.keys m1 with
                             | [] => Session._refreshAvailable s1
                             | _ :: _ => (true, s1)
                             end ->
               Engine.score (Session.engine (snd r)) = Engine.score (Session.engine s)).
  { intros r ->. destruct (SDict.keys m1); [rewrite refreshAvailable_score|]; reflexivity. }
  specialize (Hr _ eq_refl). revert Hr.
  generalize (match SDict.keys m1 with
              | [] => Session._refreshAvailable s1
              | _ :: _ => (true, s1)
              end).
  intros [b s2] Hr. simpl in *. destruct b; simpl.
  - destruct (Piece.New _ _) as [np|]; [|discriminate].
    destruct (Piece.fits _ _); intros H; inversion H; subst s'; clear H.
    + unfold Session._start, Engine._start. simpl.
      destruct (Engine._interval (Session.engine s2)); simpl; exact Hr.
    + unfold Session._stop, Session._setPlaying. simpl. exact Hr.
  - intros H. inversion H. subst. exact Hr.
Qed.

(** X10: a lock is worth as many deals as it leaves rows full.  [_drop] on
    a fitting piece in order with a cell, over a pit in order, returns and
    keeps, for the 350 ms callback, the number of rows that hold [WIDTH]
    cells once the piece is locked where it lands.  Whenever that callback
    returns, the score is the score it found plus that number, and it does
    return when no next type is waiting; the score element aside,
    [_setScore] and [_computeScore] add nothing and take nothing away. *)
Theorem lock_scores_completed_rows (e : Engine.t) (pc : Piece.t) :
  pit_ok (Engine.pit e) ->
  Piece.wf pc ->
  Engine._piece e = Some pc ->
  Piece.cells pc <> [] ->
  Piece.fits pc (Pit.cells (Engine.pit e)) = true ->
  exists l pc',
    Engine._drop e = Some l /\
    Pit.landing (Engine.pit e) pc = Some pc' /\
    let k := Z.of_nat (length (full_rows (Pit.cells (Pit.lock pc' (Engine.pit e))))) in
    Engine.removed l = JS.Number k /\
    forall s : Session.t,
      (Engine._nextType (Session.engine s) = "" ->
       Session.score_callback (Engine.removed l) s
       = Some (Session.set_engine
                 (Engine._setScore (Engine.score (Session.engine s) + k)
                                   (Session.engine s)) s)) /\
      (forall s', Session.score_callback (Engine.removed l) s = Some s' ->
                  Engine.score (Session.engine s')
                  = Engine.score (Session.engine s) + k).
Proof.
  intros Hok Hwf Hp Hne Hf.
  destruct (landing_total (Engine.pit e) pc Hne) as [pc' Hl].
  assert (Hrows : rows_consistent (Engine.pit e)) by (apply Hok).
  destruct (landed_lock_rows (Engine.pit e) pc pc' Hrows Hwf Hf Hl) as [_ Hfull].
  eexists. exists pc'.
  split; [unfold Engine._drop, Pit.drop; rewrite Hp, Hl; reflexivity|].
  split; [exact Hl|]. cbv zeta. simpl Engine.removed.
  rewrite cleanup_returns_count, Hfull. split; [reflexivity|].
  set (k := Z.of_nat (length (full_rows (Pit.cells (Pit.lock pc' (Engine.pit e)))))).
  assert (Hc : Engine._computeScore (JS.Number k) = JS.Number k).
  { unfold Engine._computeScore. destruct k; reflexivity. }
  intros s. unfold Session.score_callback. rewrite Hc. simpl Session.plus_value.
  cbv iota beta. split.
  - intros Hn. simpl. rewrite Hn. reflexivity.
  - intros s'. simpl.
    destruct (negb (String.eqb (Engine._nextType (Session.engine s)) "")).
    + intros H. apply useNextType_score in H. exact H.
    + intros H. inversion H. reflexivity.
Qed.

(** The lock in [engine_four_bars] fills the bottom row: one deal. *)
Lemma engine_four_bars_one_row :
  exists pc',
    Pit.landing (Engine.pit engine_four_bars) (bar_at 9) = Some pc' /\
    full_rows (Pit.cells (Pit.lock pc' (Engine.pit engine_four_bars))) = [0].
Proof. eexists. split; [vm_compute; reflexivity|]. vm_compute. reflexivity. Qed.

Lemma lock_scores_completed_rows_witness :
  exists l pc',
    Engine._drop engine_four_bars = Some l /\
    Pit.landing (Engine.pit engine_four_bars) (bar_at 9) = Some pc' /\
    let k := Z.of_nat (length (full_rows
                                 (Pit.cells
                                    (Pit.lock pc' (Engine.pit engine_four_bars))))) in
    Engine.removed l = JS.Number k /\
    forall s : Session.t,
      (Engine._nextType (Session.engine s) = "" ->
       Session.score_callback (Engine.removed l) s
       = Some (Session.set_engine
                 (Engine._setScore (Engine.score (Session.engine s) + k)
                                   (Session.engine s)) s)) /\
      (forall s', Session.score_callback (Engine.removed l) s = Some s' ->
                  Engine.score (Session.engine s')
                  = Engine.score (Session.engine s) + k).
Proof.
  apply (lock_scores_completed_rows engine_four_bars (bar_at 9)).
  - exact (pit_ok_node four_bars true four_bars_ok).
  - exact (bar_wf 9).
  - reflexivity.
  - discriminate.
  - vm_compute. reflexivity.
Defined.

(** ** The supply of pieces *)

Section SDictFacts.
Context {A : Type}.
Implicit Types (m : SDict.dict A) (k : string) (v : A).

Lemma SDict_get_None k m : SDict.get k m = None <-> k ∉ SDict.keys m.
Proof.
  induction m as [|[k' v'] m IH]; simpl.
  - split; [intros _; apply not_elem_of_nil | reflexivity].
  - destruct (String.eqb k k') eqn:E.
    + apply String.eqb_eq in E. subst. split; [discriminate|].
      intros H. exfalso. apply H. left.
    + apply String.eqb_neq in E. rewrite IH, not_elem_of_cons. tauto.
Qed.

Lemma SDict_get_Some k v m : SDict.get k m = Some v -> (k, v) ∈ m.
Proof.
  induction m as [|[k' v'] m IH]; simpl; [discriminate|].
  destruct (String.eqb k k') eqn:E.
  - apply String.eqb_eq in E. subst. intros H. inversion H. left.
  - intros H. right. apply IH. exact H.
Qed.

Lemma SDict_get_set k k' v m :
  SDict.get k' (SDict.set k v m) = if String.eqb k' k then Some v else SDict.get k' m.
Proof.
  induction m as [|[k0 v0] m IH]; simpl.
  - destruct (String.eqb k' k); reflexivity.
  - destruct (String.eqb k k0) eqn:E; simpl.
    + apply String.eqb_eq in E. subst k0.
      destruct (String.eqb k' k); reflexivity.
    + rewrite IH. destruct (String.eqb k' k0) eqn:E0; [|reflexivity].
      apply String.eqb_eq in E0. subst k0.
      rewrite String.eqb_sym, E. reflexivity.
Qed.

Lemma SDict_get_del k k' m :
  NoDup (SDict.keys m) ->
  SDict.get k' (SDict.del k m) = if String.eqb k' k then None else SDict.get k' m.
Proof.
  induction m as [|[k0 v0] m IH]; simpl; intros Hnd.
  - destruct (String.eqb k' k); reflexivity.
  - apply NoDup_cons in Hnd as [Hk0 Hnd]. destruct (String.eqb k k0) eqn:E; simpl.
    + apply String.eqb_eq in E. subst k0.
      destruct (String.eqb k' k) eqn:E'; [|reflexivity].
      apply String.eqb_eq in E'. subst k'. apply SDict_get_None. exact Hk0.
    + rewrite IH by exact Hnd. destruct (String.eqb k' k0) eqn:E0; [|reflexivity].
      apply String.eqb_eq in E0. subst k0.
      rewrite String.eqb_sym, E. reflexivity.
Qed.

Lemma SDict_del_sublist k m : SDict.del k m `sublist_of` m.
Proof.
  induction m as [|[k0 v0] m IH]; simpl; [constructor|].
  destruct (String.eqb k k0); [apply sublist_cons; reflexivity|].
  apply sublist_skip. exact IH.
Qed.

Lemma SDict_del_NoDup k m : NoDup (SDict.keys m) -> NoDup (SDict.keys (SDict.del k m)).
Proof.
  intros H. eapply sublist_NoDup; [exact H|].
  unfold SDict.keys. apply fmap_sublist. apply SDict_del_sublist.
Qed.

Lemma SDict_del_Forall (P : string * A -> Prop) k m :
  Forall P m -> Forall P (SDict.del k m).
Proof.
  induction 1 as [|[k0 v0] m H0 Hm IH]; simpl; [constructor|].
  destruct (String.eqb k k0); [exact Hm | constructor; assumption].
Qed.

Lemma SDict_keys_set k v m :
  SDict.keys (SDict.set k v m)
  = if decide (k ∈ SDict.keys m) then SDict.keys m else SDict.keys m ++ [k].
Proof.
  induction m as [|[k0 v0] m IH].
  - destruct (decide (k ∈ SDict.keys [])) as [Hin|Hin]; [|reflexivity].
    apply elem_of_nil in Hin. contradiction.
  - cbn [SDict.set]. destruct (String.eqb k k0) eqn:E.
    + apply String.eqb_eq in E. subst k0.
      destruct (decide (k ∈ SDict.keys ((k, v0) :: m))) as [Hin|Hin]; [reflexivity|].
      exfalso. apply Hin. left.
    + apply String.eqb_neq in E.
      change (SDict.keys ((k0, v0) :: SDict.set k v m))
        with (k0 :: SDict.keys (SDict.set k v m)).
      rewrite IH. change (SDict.keys ((k0, v0) :: m)) with (k0 :: SDict.keys m).
      destruct (decide (k ∈ SDict.keys m)) as [Hin|Hin];
        destruct (decide (k ∈ k0 :: SDict.keys m)) as [Hin'|Hin']; try reflexivity.
      * exfalso. apply Hin'. right. exact Hin.
      * exfalso. apply elem_of_cons in Hin' as [Heq|Hin']; [congruence | contradiction].
Qed.

Lemma SDict_set_NoDup k v m : NoDup (SDict.keys m) -> NoDup (SDict.keys (SDict.set k v m)).
Proof.
  intros Hnd. rewrite SDict_keys_set. destruct (decide (k ∈ SDict.keys m)); [exact Hnd|].
  apply NoDup_app. split; [exact Hnd|]. split; [|apply NoDup_singleton].
  intros x Hx Hx'. apply list_elem_of_singleton in Hx'. subst. contradiction.
Qed.

Lemma SDict_set_Forall (P : string * A -> Prop) k v m :
  P (k, v) -> Forall P m -> Forall P (SDict.set k v m).
Proof.
  intros Hkv. induction 1 as [|[k0 v0] m H0 Hm IH]; simpl.
  - constructor; [exact Hkv | constructor].
  - destruct (String.eqb k k0) eqn:E.
    + apply String.eqb_eq in E. subst k0. constructor; assumption.
    + constructor; assumption.
Qed.

Lemma SDict_set_nonempty k v m : SDict.set k v m <> [].
Proof. destruct m as [|[k' v'] m]; simpl; [|destruct (String.eqb k k')]; discriminate. Qed.

End SDictFacts.

Lemma full_count_DEF (set type : string) :
  0 < full_count set type -> exists d, Piece.DEF set type = Some d.
Proof. unfold full_count. destruct (Piece.DEF set type); [eauto | lia]. Qed.

Lemma Piece_New_DEF (type set : string) :
  0 < full_count set type -> exists p, Piece.New type set = Some p.
Proof.
  intros H. destruct (full_count_DEF _ _ H) as [d Hd].
  unfold Piece.New. rewrite Hd. eauto.
Qed.

(** Only the two sets of [Game.Piece.DEF] give pieces. *)
Lemma full_count_set (set type : string) :
  0 < full_count set type -> set = "left" \/ set = "right".
Proof.
  unfold full_count, Piece.DEF.
  destruct (String.eqb set "left") eqn:E1; [apply String.eqb_eq in E1; auto|].
  destruct (String.eqb set "right") eqn:E2; [apply String.eqb_eq in E2; auto|].
  lia.
Qed.

(** The table that [_refreshAvailable] makes of an empty one. *)
Lemma refresh_empty (set : string) :
  set = "left" \/ set = "right" ->
  exists l m,
    Piece.types set = Some l /\
    fold_left (Session.refresh_step set) l ([], false) = (m, true) /\
    m <> [] /\ NoDup (SDict.keys m) /\
    Forall (fun kv => snd kv = full_count set (fst kv) /\ 1 <= snd kv) m /\
    forall type, count type m = full_count set type.
Proof.
  intros [E1|E2].
  - subst set.
    eexists. eexists. split; [reflexivity|]. split; [vm_compute; reflexivity|].
    split; [discriminate|]. split.
    { apply (bool_decide_unpack (NoDup ["s"; "-"; "t"; "u"])). vm_compute. exact I. }
    split.
    { repeat constructor; vm_compute; discriminate. }
    intros type. unfold count, full_count, Piece.DEF. simpl.
    rewrite (String.eqb_sym type "s"), (String.eqb_sym type "-"),
            (String.eqb_sym type "t"), (String.eqb_sym type "u").
    destruct (String.eqb "s" type); [reflexivity|].
    destruct (String.eqb "-" type); [reflexivity|].
    destruct (String.eqb "t" type); [reflexivity|].
    destruct (String.eqb "u" type); reflexivity.
  - subst set.
    eexists. eexists. split; [reflexivity|]. split; [vm_compute; reflexivity|].
    split; [discriminate|]. split.
    { apply (bool_decide_unpack (NoDup ["o"; "i"; "t"; "-"])). vm_compute. exact I. }
    split.
    { repeat constructor; vm_compute; discriminate. }
    intros type. unfold count, full_count, Piece.DEF. simpl.
    rewrite (String.eqb_sym type "o"), (String.eqb_sym type "i"),
            (String.eqb_sym type "t"), (String.eqb_sym type "-").
    destruct (String.eqb "o" type); [reflexivity|].
    destruct (String.eqb "i" type); [reflexivity|].
    destruct (String.eqb "t" type); [reflexivity|].
    destruct (String.eqb "-" type); reflexivity.
Qed.
Lemma total_nonneg (m : SDict.dict Z) :
  Forall (fun kv => 1 <= snd kv) m -> 0 <= total m /\ (total m = 0 -> m = []).
Proof.
  unfold total. induction 1 as [|[k v] m Hv Hm [IH1 IH2]]; simpl in *.
  - split; [lia | reflexivity].
  - split; [lia | intros; lia].
Qed.

Lemma total_del (k : string) (m : SDict.dict Z) :
  total m = count k m + total (SDict.del k m).
Proof.
  unfold total, count. induction m as [|[k0 v0] m IH]; simpl; [reflexivity|].
  destruct (String.eqb k k0); simpl; [reflexivity|]. lia.
Qed.

Lemma count_del (k k' : string) (m : SDict.dict Z) :
  NoDup (SDict.keys m) ->
  count k' (SDict.del k m) = if String.eqb k' k then 0 else count k' m.
Proof.
  intros Hnd. unfold count. rewrite SDict_get_del by exact Hnd.
  destruct (String.eqb k' k); reflexivity.
Qed.

Lemma count_set (k k' : string) (v : Z) (m : SDict.dict Z) :
  count k' (SDict.set k v m) = if String.eqb k' k then v else count k' m.
Proof. unfold count. rewrite SDict_get_set. destruct (String.eqb k' k); reflexivity. Qed.

Lemma count_entry (k : string) (m : SDict.dict Z) :
  1 <= count k m -> (k, count k m) ∈ m.
Proof.
  unfold count. destruct (SDict.get k m) as [n|] eqn:E; [|lia].
  intros _. apply SDict_get_Some. exact E.
Qed.

(** What [_useNextType] does, for a type of the set. *)
Lemma useNextType_spec (s : Session.t) :
  let type := Engine._nextType (Session.engine s) in
  let set := Session._pieceSet s in
  let m := Session._availableTypes s in
  let e := Session.engine s in
  Piece.types set <> None ->
  NoDup (SDict.keys m) ->
  Forall (fun kv => 1 <= snd kv <= full_count set (fst kv)) m ->
  0 < full_count set type ->
  exists m2 np,
    Piece.New type set = Some np /\
    m2 <> [] /\ NoDup (SDict.keys m2) /\
    Forall (fun kv => 1 <= snd kv <= full_count set (fst kv)) m2 /\
    (1 <= count type m ->
     forall type',
       count type' m2
       = if total m =? 1 then full_count set type'
         else if String.eqb type' type then count type m - 1 else count type' m) /\
    Session._useNextType s
    = Some (let s2 := Session.set_availableTypes m2 s in
            if Piece.fits (Piece.center np) (Pit.cells (Engine.pit e)) then
              Session._start
                (Session.set_engine
                   (Engine.Mk (Engine.score e) (Engine.playing e)
                              (Engine.scoreElementId e) (Engine._interval e)
                              (Engine._dropping e) (Engine._dropTimeout e)
                              (Engine.pit e) (Some (Piece.center np)) "")
                   s2)
            else Session._stop (Session._setPlaying false s2)).
Proof.
  intros type set m e Hset Hnd Hb Hty.
  destruct (Piece_New_DEF type set Hty) as [np Hnp].
  assert (Hb1 : Forall (fun kv : string * Z => 1 <= snd kv) m).
  { eapply Forall_impl; [exact Hb|]. simpl. intros kv H. lia. }
  set (m1 := match SDict.get type m with
             | Some n => if n - 1 =? 0 then SDict.del type m else SDict.set type (n - 1) m
             | None => SDict.del type m
             end).
  assert (Hnd1 : NoDup (SDict.keys m1)).
  { subst m1. destruct (SDict.get type m) as [n|];
      [destruct (n - 1 =? 0)|]; try apply SDict_del_NoDup; try apply SDict_set_NoDup;
      exact Hnd. }
  assert (Hb1' : Forall (fun kv => 1 <= snd kv <= full_count set (fst kv)) m1).
  { subst m1. destruct (SDict.get type m) as [n|] eqn:Hg.
    - destruct (n - 1 =? 0) eqn:Hn; [apply SDict_del_Forall; exact Hb|].
      apply SDict_set_Forall; [|exact Hb]. simpl.
      apply SDict_get_Some in Hg. rewrite Forall_forall in Hb.
      specialize (Hb _ Hg). simpl in Hb. apply Z.eqb_neq in Hn. lia.
    - apply SDict_del_Forall. exact Hb. }
  assert (Hcount1 : 1 <= count type m ->
            (m1 = [] <-> total m = 1) /\
            forall type', count type' m1
                          = if String.eqb type' type then count type m - 1
                            else count type' m).
  { intros Hc. pose proof (total_del type m) as Ht.
    assert (Hb2 : Forall (fun kv : string * Z => 1 <= snd kv) (SDict.del type m))
      by (apply SDict_del_Forall; exact Hb1).
    destruct (total_nonneg _ Hb2) as [Hd0 Hd1].
    subst m1. unfold count in Hc |- *. unfold count in Ht.
    destruct (SDict.get type m) as [n|] eqn:Hg; [|lia].
    destruct (n - 1 =? 0) eqn:Hn.
    - apply Z.eqb_eq in Hn. split.
      + split; [intros E; rewrite E in Ht; change (total []) with 0 in Ht; lia|].
        intros E. apply Hd1. lia.
      + intros type'. rewrite SDict_get_del by exact Hnd.
        destruct (String.eqb type' type); [lia | reflexivity].
    - apply Z.eqb_neq in Hn. split.
      + split; [intros E; exfalso; exact (SDict_set_nonempty _ _ _ E) | intros E; lia].
      + intros type'. rewrite SDict_get_set.
        destruct (String.eqb type' type); reflexivity. }
  destruct (refresh_empty set (full_count_set _ _ Hty))
    as [l [mf [Hl [Hfold [Hne [Hndf [Hbf Hcf]]]]]]].
  destruct m1 as [|kv1 m1'] eqn:Em1.
  - exists mf, np. split; [exact Hnp|]. split; [exact Hne|]. split; [exact Hndf|].
    split; [eapply Forall_impl; [exact Hbf|]; simpl; intros kv [H1 H2]; lia|].
    split.
    + intros Hc type'. destruct (Hcount1 Hc) as [[Hiff _] _].
      rewrite (Hiff eq_refl). simpl. apply Hcf.
    + unfold Session._useNextType. fold type. fold m. fold m1 in Em1 |- *.
      change (match SDict.get type m with
              | Some n => if n - 1 =? 0 then SDict.del type m
                          else SDict.set type (n - 1) m
              | None => SDict.del type m
              end) with m1.
      rewrite Em1. cbn [SDict.keys fmap list_fmap].
      unfold Session._refreshAvailable.
      cbn [Session._pieceSet Session.set_availableTypes Session._availableTypes].
      fold set. rewrite Hl, Hfold. cbn [fst snd negb].
      cbn [Session._pieceSet Session.set_availableTypes Session._availableTypes
           Session.engine]. fold set. rewrite Hnp. cbv zeta.
      destruct (Piece.fits _ _); reflexivity.
  - exists (kv1 :: m1'), np. split; [exact Hnp|]. split; [discriminate|].
    split; [exact Hnd1|]. split; [exact Hb1'|]. split.
    + intros Hc type'. destruct (Hcount1 Hc) as [[Hiff1 Hiff2] Hcnt].
      destruct (total m =? 1) eqn:Et.
      * apply Z.eqb_eq in Et. apply Hiff2 in Et. discriminate.
      * apply Hcnt.
    + unfold Session._useNextType. fold type. fold m.
      change (match SDict.get type m with
              | Some n => if n - 1 =? 0 then SDict.del type m
                          else SDict.set type (n - 1) m
              | None => SDict.del type m
              end) with m1.
      rewrite Em1. cbn [SDict.keys fmap list_fmap fst snd negb].
      cbn [Session._pieceSet Session.set_availableTypes Session._availableTypes
           Session.engine]. fold set. rewrite Hnp. cbv zeta.
      destruct (Piece.fits _ _); reflexivity.
Qed.
Lemma left_session_New :
  Session.New "score-left" "left" Game.INTERVAL_ENGINE_initial = Some left_session.
Proof. reflexivity. Qed.

Lemma New_supply_ok (id set : string) (iv : Z) (s : Session.t) :
  set = "left" \/ set = "right" ->
  Session.New id set iv = Some s -> supply_ok s.
Proof.
  intros Hset.
  destruct (refresh_empty set Hset) as [l [mf [Hl [Hfold [Hne [Hndf [Hbf Hcf]]]]]]].
  unfold Session.New. rewrite Hl.
  intros H. inversion H. subst s. clear H.
  unfold Session._refreshAvailable.
  cbn [Session._setPlaying Session._pieceSet Session._availableTypes].
  rewrite Hl, Hfold. cbn [fst snd]. unfold supply_ok. simpl.
  rewrite Hl. split; [discriminate|]. split; [exact Hne|]. split; [exact Hndf|].
  split; [|left; reflexivity].
  eapply Forall_impl; [exact Hbf|]. simpl. intros kv [H1 H2]. lia.
Qed.

Lemma supply_ok_engine (s : Session.t) (e : Engine.t) :
  Engine._nextType e = Engine._nextType (Session.engine s) ->
  supply_ok s -> supply_ok (Session.set_engine e s).
Proof.
  intros He (H1 & H2 & H3 & H4 & H5). unfold supply_ok. simpl. rewrite He.
  repeat split; assumption.
Qed.

Lemma start_supply_ok (s : Session.t) : supply_ok s -> supply_ok (Session._start s).
Proof.
  intros (H1 & H2 & H3 & H4 & H5). unfold supply_ok, Session._start, Engine._start.
  destruct (Engine._interval (Session.engine s)); simpl; repeat split; assumption.
Qed.

Lemma useNextType_supply_ok (s : Session.t) :
  Piece.types (Session._pieceSet s) <> None ->
  NoDup (SDict.keys (Session._availableTypes s)) ->
  Forall (fun kv => 1 <= snd kv <= full_count (Session._pieceSet s) (fst kv))
         (Session._availableTypes s) ->
  0 < full_count (Session._pieceSet s) (Engine._nextType (Session.engine s)) ->
  exists s', Session._useNextType s = Some s' /\ supply_ok s'.
Proof.
  intros H1 H3 H4 H5.
  destruct (useNextType_spec s H1 H3 H4 H5)
    as (m2 & np & Hnp & Hne & Hnd & Hb & _ & Hu).
  eexists. split; [exact Hu|]. cbv zeta.
  destruct (Piece.fits _ _).
  - apply start_supply_ok. unfold supply_ok. simpl.
    split; [exact H1|]. split; [exact Hne|]. split; [exact Hnd|].
    split; [exact Hb | left; reflexivity].
  - unfold supply_ok. simpl.
    split; [exact H1|]. split; [exact Hne|]. split; [exact Hnd|].
    split; [exact Hb | right; exact H5].
Qed.

Lemma setNextType_supply_ok (nextType : string) (s : Session.t) :
  SDict.inherited nextType = false ->
  supply_ok s -> exists s', Session.setNextType nextType s = Some s' /\ supply_ok s'.
Proof.
  intros Hinh Hok. pose proof Hok as (H1 & H2 & H3 & H4 & H5).
  unfold Session.setNextType, Session.avail_or_0. rewrite Hinh.
  destruct (SDict.get nextType (Session._availableTypes s)) as [n|] eqn:Hg;
    [|exists s; split; [reflexivity | exact Hok]].
  destruct ((if n =? 0 then 0 else n) <? 1) eqn:Hlt;
    [exists s; split; [reflexivity | exact Hok]|].
  assert (Hn : 0 < full_count (Session._pieceSet s) nextType).
  { apply SDict_get_Some in Hg. rewrite Forall_forall in H4.
    specialize (H4 _ Hg). simpl in H4. lia. }
  destruct (Engine._piece (Session.engine s)) as [pc|] eqn:Hp.
  - eexists. split; [reflexivity|]. unfold supply_ok. simpl.
    split; [exact H1|]. split; [exact H2|]. split; [exact H3|].
    split; [exact H4 | right; exact Hn].
  - apply useNextType_supply_ok; simpl; assumption.
Qed.

Lemma score_callback_supply_ok (removed : Z) (s : Session.t) :
  supply_ok s ->
  exists s', Session.score_callback (JS.Number removed) s = Some s' /\ supply_ok s'.
Proof.
  intros Hok. pose proof Hok as (H1 & H2 & H3 & H4 & H5).
  unfold Session.score_callback.
  assert (Hc : Engine._computeScore (JS.Number removed) = JS.Number removed)
    by (unfold Engine._computeScore; destruct removed; reflexivity).
  rewrite Hc. cbn [Session.plus_value]. cbv zeta.
  cbn [Session.set_engine Session.engine Engine._setScore Engine._nextType].
  destruct (String.eqb (Engine._nextType (Session.engine s)) "") eqn:E.
  - eexists. split; [reflexivity|]. apply supply_ok_engine; [reflexivity | exact Hok].
  - apply String.eqb_neq in E. destruct H5 as [H5|H5]; [contradiction|].
    cbn [negb]. apply useNextType_supply_ok; simpl; assumption.
Qed.

Lemma drop_nextType (e e' : Engine.t) :
  Engine.drop e = Some e' -> Engine._nextType e' = Engine._nextType e.
Proof.
  unfold Engine.drop. destruct (Engine._piece e) as [pc|].
  - destruct (Engine._dropping e || negb (Engine.playing e)).
    + intros H. inversion H. reflexivity.
    + destruct (Pit.landing _ _); [|discriminate].
      intros H. inversion H. reflexivity.
  - intros H. inversion H. reflexivity.
Qed.

(** X11: the supply never runs dry.  In every state that an engine of one
    of the two piece sets reaches from its constructor, through whatever
    calls of [setNextType] (with names that are not inherited property
    names), [shift] (with integers below [2^52] in magnitude), [rotate] and
    [drop] and runs of the tick, the drop timeout, the pit's clearing timer
    and the score callback, the table of
    available types is not empty and lists each type once, with at least 1
    and at most the set's count of pieces, and the type that waits in
    [_nextType] is one of the set.  So [setNextType], with any name that is
    not inherited, and the score callback always return: [new Game.Piece]
    is never asked for a type that does not exist, and [_refreshAvailable]
    never finds the set empty. *)
Theorem supply_never_runs_dry (s : Session.t) :
  played s ->
  supply_ok s /\
  (forall nextType,
     SDict.inherited nextType = false ->
     exists s', Session.setNextType nextType s = Some s') /\
  (forall removed, exists s', Session.score_callback (JS.Number removed) s = Some s').
Proof.
  intros Hp. assert (Hok : supply_ok s).
  { induction Hp as [id set iv s Hset HN | ty s s' _ IH Hinh Hs | d s _ IH Hd | s _ IH
                     | s e' _ IH Hd | s e' _ IH Ht | s l _ IH Hl | rows s _ IH
                     | n s s' _ IH Hs].
    - eapply New_supply_ok; [exact Hset | exact HN].
    - destruct (setNextType_supply_ok ty s Hinh IH) as [s2 [E Hok]].
      rewrite E in Hs. inversion Hs. subst. exact Hok.
    - apply supply_ok_engine; [|exact IH]. unfold Engine.shift.
      destruct (Engine._piece (Session.engine s)); [|reflexivity].
      destruct (Engine._dropping (Session.engine s)); [reflexivity|].
      cbv zeta. destruct (Piece.fits _ _); reflexivity.
    - apply supply_ok_engine; [|exact IH]. unfold Engine.rotate.
      destruct (Engine._piece (Session.engine s)); [|reflexivity].
      destruct (Engine._dropping (Session.engine s)); [reflexivity|].
      cbv zeta. destruct (Piece.fits _ _); reflexivity.
    - apply supply_ok_engine; [|exact IH]. eapply drop_nextType. exact Hd.
    - apply supply_ok_engine; [|exact IH]. unfold Engine._tick in Ht.
      destruct (Engine._piece (Session.engine s)) as [pc|]; [|discriminate].
      cbv zeta in Ht. destruct (Piece.fits _ _).
      + inversion Ht. reflexivity.
      + apply drop_nextType in Ht. exact Ht.
    - apply supply_ok_engine; [|exact IH]. unfold Engine._drop in Hl.
      destruct (Engine._piece (Session.engine s)) as [pc|]; [|discriminate].
      destruct (Pit.drop _ _); [|discriminate]. inversion Hl. reflexivity.
    - apply supply_ok_engine; [reflexivity | exact IH].
    - destruct (score_callback_supply_ok n s IH) as [s2 [E Hok]].
      rewrite E in Hs. inversion Hs. subst. exact Hok. }
  split; [exact Hok|]. split.
  - intros ty Hinh. destruct (setNextType_supply_ok ty s Hinh Hok) as [s' [E _]]. eauto.
  - intros n. destruct (score_callback_supply_ok n s Hok) as [s' [E _]]. eauto.
Qed.

Lemma supply_never_runs_dry_witness :
  supply_ok left_session /\
  (forall nextType,
     SDict.inherited nextType = false ->
     exists s', Session.setNextType nextType left_session = Some s') /\
  (forall removed,
     exists s', Session.score_callback (JS.Number removed) left_session = Some s').
Proof.
  apply (supply_never_runs_dry left_session).
  apply (played_New "score-left" "left" Game.INTERVAL_ENGINE_initial).
  - left. reflexivity.
  - reflexivity.
Defined.
(** [supply_ok] of a concrete session, by evaluation. *)
Ltac supply_ok_by_evaluation :=
  unfold supply_ok;
  split; [discriminate|];
  split; [discriminate|];
  split; [match goal with
          | |- ?G => apply (bool_decide_unpack G); vm_compute; exact I
          end|];
  split; [repeat constructor; vm_compute; discriminate | left; reflexivity].

Lemma count_get (k : string) (m : SDict.dict Z) :
  1 <= count k m -> SDict.get k m = Some (count k m).
Proof. unfold count. destruct (SDict.get k m); [reflexivity | lia]. Qed.

Lemma inherited_no_DEF (set type : string) :
  SDict.inherited type = true -> Piece.DEF set type = None.
Proof.
  unfold SDict.inherited. intros H. apply bool_decide_eq_true in H.
  unfold Piece.DEF.
  repeat (apply elem_of_cons in H as [->|H];
          [destruct (String.eqb set "left"), (String.eqb set "right"); reflexivity|]).
  apply elem_of_nil in H. contradiction.
Qed.

Lemma SDict_del_missing {A : Type} (k : string) (m : SDict.dict A) :
  SDict.get k m = None -> SDict.del k m = m.
Proof.
  induction m as [|[k' v] m IH]; [reflexivity|]. simpl.
  destruct (String.eqb k k'); [discriminate|]. intros H. rewrite IH by exact H.
  reflexivity.
Qed.

(** A supply in order lists no inherited name. *)
Lemma supply_lists_no_inherited (nextType : string) (s : Session.t) :
  supply_ok s -> SDict.inherited nextType = true ->
  SDict.get nextType (Session._availableTypes s) = None.
Proof.
  intros (H1 & H2 & H3 & H4 & H5) Hinh.
  destruct (SDict.get nextType (Session._availableTypes s)) as [n|] eqn:Hg;
    [|reflexivity].
  apply SDict_get_Some in Hg. rewrite Forall_forall in H4.
  specialize (H4 _ Hg). simpl in H4. unfold full_count in H4.
  rewrite (inherited_no_DEF _ _ Hinh) in H4. lia.
Qed.

(** X12: how the supply is counted down.  In a supply in order,
    [setNextType(type)] does nothing at all when the table lists no piece
    of that type and [type] is no inherited property name.  For a type
    that the table lists: with a piece in play it only notes the type in
    [_nextType], and takes nothing from the table; without a piece in play
    it returns and takes exactly one piece of that type out of the table,
    all other counts staying as they are, unless that piece was the last one
    of the whole table: then the table is filled again with the counts of
    [Game.Piece.DEF] for the set.  An inherited property name
    ("constructor", ...) gets past the test of the table, which lists
    none: with a piece in play it is noted in [_nextType], the table
    staying as it is; without a piece in play [new Game.Piece] throws. *)
Theorem setNextType_counts_down (nextType : string) (s : Session.t) :
  supply_ok s ->
  let m := Session._availableTypes s in
  (count nextType m < 1 -> SDict.inherited nextType = false ->
   Session.setNextType nextType s = Some s) /\
  (1 <= count nextType m ->
   exists s',
     Session.setNextType nextType s = Some s' /\
     match Engine._piece (Session.engine s) with
     | Some _ =>
         Session._availableTypes s' = m /\
         Engine._nextType (Session.engine s') = nextType
     | None =>
         forall type,
           count type (Session._availableTypes s')
           = if total m =? 1 then full_count (Session._pieceSet s) type
             else if String.eqb type nextType then count nextType m - 1
             else count type m
     end) /\
  (SDict.inherited nextType = true ->
   count nextType m = 0 /\
   match Engine._piece (Session.engine s) with
   | Some _ =>
       exists s',
         Session.setNextType nextType s = Some s' /\
         Session._availableTypes s' = m /\
         Engine._nextType (Session.engine s') = nextType
   | None => Session.setNextType nextType s = None
   end).
Proof.
  intros Hok. pose proof Hok as (H1 & H2 & H3 & H4 & H5). intros m. subst m.
  split; [|split].
  - unfold Session.setNextType, Session.avail_or_0, count. intros Hn Hinh.
    rewrite Hinh.
    destruct (SDict.get nextType (Session._availableTypes s)) as [n|]; [|reflexivity].
    replace (if n =? 0 then 0 else n) with n by (destruct (n =? 0) eqn:E; lia).
    replace (n <? 1) with true by (symmetry; apply Z.ltb_lt; lia). reflexivity.
  - intros Hc. unfold Session.setNextType, Session.avail_or_0.
    rewrite (count_get _ _ Hc).
    replace (if count nextType (Session._availableTypes s) =? 0 then 0
             else count nextType (Session._availableTypes s))
      with (count nextType (Session._availableTypes s))
      by (destruct (count nextType (Session._availableTypes s) =? 0) eqn:E; lia).
    replace (count nextType (Session._availableTypes s) <? 1) with false
      by (symmetry; apply Z.ltb_ge; lia).
    destruct (Engine._piece (Session.engine s)) as [pc|] eqn:Hp.
    + eexists. split; [reflexivity|]. split; reflexivity.
    + assert (Hn : 0 < full_count (Session._pieceSet s) nextType).
      { apply count_entry in Hc. rewrite Forall_forall in H4.
        specialize (H4 _ Hc). simpl in H4. lia. }
      match goal with
      | |- exists s', Session._useNextType ?s1 = Some s' /\ _ =>
          destruct (useNextType_spec s1 H1 H3 H4 Hn)
            as (m2 & np & Hnp & Hne & Hnd & Hb & Hcnt & Hu)
      end.
      eexists. split; [exact Hu|]. intros type. cbv zeta.
      specialize (Hcnt Hc type). simpl in Hcnt.
      destruct (Piece.fits _ _).
      * unfold Session._start, Engine._start. simpl.
        destruct (Engine._interval (Session.engine s)); simpl; exact Hcnt.
      * simpl. exact Hcnt.
  - intros Hinh. pose proof (supply_lists_no_inherited nextType s Hok Hinh) as Hg.
    split; [unfold count; rewrite Hg; reflexivity|].
    unfold Session.setNextType, Session.avail_or_0. rewrite Hg, Hinh.
    destruct (Engine._piece (Session.engine s)) as [pc|] eqn:Hp.
    + eexists. split; [reflexivity|]. split; reflexivity.
    + unfold Session._useNextType.
      cbn [Session.set_engine Session.engine Session._availableTypes
           Engine._nextType].
      rewrite Hg, (SDict_del_missing _ _ Hg).
      destruct (Session._availableTypes s) as [|kv m'] eqn:Em; [contradiction|].
      cbn [SDict.keys fmap list_fmap fst snd negb].
      cbn [Session.set_availableTypes Session._pieceSet Session.engine].
      unfold Piece.New. rewrite (inherited_no_DEF _ _ Hinh). reflexivity.
Qed.

Lemma setNextType_counts_down_witness :
  let m := Session._availableTypes left_session in
  (count "-" m < 1 -> SDict.inherited "-" = false ->
   Session.setNextType "-" left_session = Some left_session) /\
  (1 <= count "-" m ->
   exists s',
     Session.setNextType "-" left_session = Some s' /\
     match Engine._piece (Session.engine left_session) with
     | Some _ =>
         Session._availableTypes s' = m /\
         Engine._nextType (Session.engine s') = "-"
     | None =>
         forall type,
           count type (Session._availableTypes s')
           = if total m =? 1 then full_count (Session._pieceSet left_session) type
             else if String.eqb type "-" then count "-" m - 1
             else count type m
     end) /\
  (SDict.inherited "-" = true ->
   count "-" m = 0 /\
   match Engine._piece (Session.engine left_session) with
   | Some _ =>
       exists s',
         Session.setNextType "-" left_session = Some s' /\
         Session._availableTypes s' = m /\
         Engine._nextType (Session.engine s') = "-"
   | None => Session.setNextType "-" left_session = None
   end).
Proof.
  apply (setNextType_counts_down "-" left_session).
  supply_ok_by_evaluation.
Defined.

(** The inherited name "constructor": on the engine as its constructor
    leaves it, [setNextType] throws; with a piece in play it is noted as
    the next type, the table staying as it is, and a score callback that
    finds it there throws. *)
Lemma setNextType_constructor_throws :
  Session.setNextType "constructor" left_session = None /\
  exists s',
    Session.setNextType "constructor" left_session_bar = Some s' /\
    Engine._nextType (Session.engine s') = "constructor" /\
    Session._availableTypes s' = Session._availableTypes left_session_bar /\
    Session.score_callback (JS.Number 0) s' = None.
Proof.
  split; [reflexivity|]. eexists. split; [reflexivity|].
  split; [reflexivity|]. split; reflexivity.
Qed.

(** X13: a new piece or the end of the game.  In a supply in order,
    without a piece in play, [setNextType] of a type that the table lists
    builds a piece of that type and centres it in the top row.  When it
    fits the pit, it becomes the piece in play, [_nextType] is emptied, and
    the tick interval is armed with the current [Game.INTERVAL_ENGINE],
    which is then lowered by 5 (an interval already running is kept).
    When it does not fit, the game is over: [playing] is false, there is no
    piece, no interval, no drop timeout, and [_onGameOver] is called once
    with the engine's score element; the type stays in [_nextType]. *)
Theorem spawn_or_game_over (nextType : string) (s : Session.t) :
  supply_ok s ->
  Engine._piece (Session.engine s) = None ->
  1 <= count nextType (Session._availableTypes s) ->
  exists np s',
    Piece.New nextType (Session._pieceSet s) = Some np /\
    Session.setNextType nextType s = Some s' /\
    let e := Session.engine s in
    let e' := Session.engine s' in
    Engine.pit e' = Engine.pit e /\ Engine.score e' = Engine.score e /\
    if Piece.fits (Piece.center np) (Pit.cells (Engine.pit e)) then
      Engine._piece e' = Some (Piece.center np) /\
      Engine._nextType e' = "" /\
      Engine.playing e' = Engine.playing e /\
      Session.notified s' = Session.notified s /\
      match Engine._interval e with
      | None =>
          Engine._interval e' = Some (Session.INTERVAL_ENGINE s) /\
          Session.INTERVAL_ENGINE s' = Session.INTERVAL_ENGINE s - 5
      | Some period =>
          Engine._interval e' = Some period /\
          Session.INTERVAL_ENGINE s' = Session.INTERVAL_ENGINE s
      end
    else
      Engine.playing e' = false /\
      Engine._piece e' = None /\
      Engine._interval e' = None /\
      Engine._dropping e' = false /\
      Engine._dropTimeout e' = false /\
      Engine._nextType e' = nextType /\
      Session.notified s' = Session.notified s ++ [Engine.scoreElementId e] /\
      Session.INTERVAL_ENGINE s' = Session.INTERVAL_ENGINE s.
Proof.
  intros (H1 & H2 & H3 & H4 & H5) Hp Hc.
  assert (Hn : 0 < full_count (Session._pieceSet s) nextType).
  { apply count_entry in Hc. rewrite Forall_forall in H4.
    specialize (H4 _ Hc). simpl in H4. lia. }
  unfold Session.setNextType, Session.avail_or_0. rewrite (count_get _ _ Hc).
  replace (if count nextType (Session._availableTypes s) =? 0 then 0
           else count nextType (Session._availableTypes s))
    with (count nextType (Session._availableTypes s))
    by (destruct (count nextType (Session._availableTypes s) =? 0) eqn:E; lia).
  replace (count nextType (Session._availableTypes s) <? 1) with false
    by (symmetry; apply Z.ltb_ge; lia).
  rewrite Hp.
  match goal with
  | |- exists np s', _ /\ Session._useNextType ?s1 = Some s' /\ _ =>
      destruct (useNextType_spec s1 H1 H3 H4 Hn)
        as (m2 & np & Hnp & Hne & Hnd & Hb & Hcnt & Hu)
  end.
  simpl in Hnp. exists np. eexists. split; [exact Hnp|]. split; [exact Hu|].
  cbv zeta. simpl. destruct (Piece.fits _ _).
  - unfold Session._start, Engine._start. simpl.
    destruct (Engine._interval (Session.engine s)); simpl; repeat split.
  - simpl. repeat split.
Qed.

Lemma spawn_or_game_over_witness :
  exists np s',
    Piece.New "-" (Session._pieceSet left_session) = Some np /\
    Session.setNextType "-" left_session = Some s' /\
    let e := Session.engine left_session in
    let e' := Session.engine s' in
    Engine.pit e' = Engine.pit e /\ Engine.score e' = Engine.score e /\
    if Piece.fits (Piece.center np) (Pit.cells (Engine.pit e)) then
      Engine._piece e' = Some (Piece.center np) /\
      Engine._nextType e' = "" /\
      Engine.playing e' = Engine.playing e /\
      Session.notified s' = Session.notified left_session /\
      match Engine._interval e with
      | None =>
          Engine._interval e' = Some (Session.INTERVAL_ENGINE left_session) /\
          Session.INTERVAL_ENGINE s' = Session.INTERVAL_ENGINE left_session - 5
      | Some period =>
          Engine._interval e' = Some period /\
          Session.INTERVAL_ENGINE s' = Session.INTERVAL_ENGINE left_session
      end
    else
      Engine.playing e' = false /\
      Engine._piece e' = None /\
      Engine._interval e' = None /\
      Engine._dropping e' = false /\
      Engine._dropTimeout e' = false /\
      Engine._nextType e' = "-" /\
      Session.notified s' = Session.notified left_session ++ [Engine.scoreElementId e] /\
      Session.INTERVAL_ENGINE s' = Session.INTERVAL_ENGINE left_session.
Proof.
  apply (spawn_or_game_over "-" left_session).
  - supply_ok_by_evaluation.
  - reflexivity.
  - vm_compute. discriminate.
Defined.
(** ** The best column *)

Lemma JS_eqb_eq (a b : JS.num) : JS.eqb a b = true -> a = b.
Proof.
  destruct a, b; simpl; try discriminate; try reflexivity.
  intros H. apply Z.eqb_eq in H. subst. reflexivity.
Qed.

Lemma JS_le_refl (a : JS.num) : JS_le a a.
Proof. unfold JS_le. destruct a; simpl; try reflexivity. apply Z.ltb_irrefl. Qed.

Lemma JS_le_trans (a b c : JS.num) : JS_le a b -> JS_le b c -> JS_le a c.
Proof.
  unfold JS_le. destruct a, b, c; simpl; try discriminate; try reflexivity.
  rewrite !Z.ltb_ge. lia.
Qed.

Lemma JS_lt_le (a b : JS.num) : JS.ltb a b = true -> JS_le a b.
Proof.
  unfold JS_le. destruct a, b; simpl; try discriminate; try reflexivity.
  rewrite Z.ltb_lt, Z.ltb_ge. lia.
Qed.

Lemma Pit_clone_clone (p : Pit.t) : Pit.clone (Pit.clone p) = Pit.clone p.
Proof. unfold Pit.clone. simpl. rewrite cells_clone_id. reflexivity. Qed.

Lemma lock_score_clone (pit : Pit.t) (pc : Piece.t) :
  lock_score (Pit.clone pit) pc = lock_score pit pc.
Proof. unfold lock_score. rewrite Pit_clone_clone. reflexivity. Qed.

(** What the rightward loop has when it ends: it went through the columns
    from the one of the piece up to the first where the piece does not fit,
    the best score is the least of the one it began with and those of these
    columns, and each column it hands back is one it began with (the best
    score being still that one) or one of these, with the best score. *)
Lemma scan_min (fuel : nat) (pit : Pit.t) (pc : Piece.t) (best : JS.num)
    (positions : list Z) (best' : JS.num) (positions' : list Z) :
  AI.scan fuel pit pc best positions = Some (best', positions') ->
  exists k : nat,
    (forall i : nat, (i < k)%nat ->
       Piece.fits (in_column pc (XY.x (Piece.xy pc) + Z.of_nat i)) (Pit.cells pit)
       = true) /\
    Piece.fits (in_column pc (XY.x (Piece.xy pc) + Z.of_nat k)) (Pit.cells pit) = false /\
    JS_le best' best /\
    (forall i : nat, (i < k)%nat ->
       exists sc, lock_score pit (in_column pc (XY.x (Piece.xy pc) + Z.of_nat i)) = Some sc /\
                  JS_le best' sc) /\
    (forall x0, x0 ∈ positions' ->
       (x0 ∈ positions /\ best' = best) \/
       exists i : nat, (i < k)%nat /\ x0 = XY.x (Piece.xy pc) + Z.of_nat i /\
         lock_score pit (in_column pc (XY.x (Piece.xy pc) + Z.of_nat i)) = Some best').
Proof.
  revert pc best positions.
  induction fuel as [|fuel IH]; intros pc best positions H; [discriminate|].
  rewrite scan_S in H. destruct (Piece.fits pc (Pit.cells pit)) eqn:Hf.
  - destruct (Pit.drop (Pit.clone pit) (Piece.clone pc)) as [o|] eqn:Hd; [|discriminate].
    cbv zeta in H. set (s := Pit.getScore (Pit.after o)) in *.
    assert (Hls : lock_score pit pc = Some s) by (unfold lock_score; rewrite Hd; reflexivity).
    set (next := Piece.set_xy (XY.minus (Piece.xy pc) AI.left) pc) in *.
    assert (Hnx : XY.x (Piece.xy next) = XY.x (Piece.xy pc) + 1).
    { subst next. destruct pc as [ty ps [px py] cs]. simpl. lia. }
    assert (Hcol : forall x, in_column next x = in_column pc x).
    { intros x. subst next. apply in_column_step. }
    set (b1 := if JS.ltb s best then s else best).
    set (p1 := if JS.ltb s best then [] else positions).
    assert (E : (if JS.ltb s best then (s, []) else (best, positions)) = (b1, p1))
      by (subst b1 p1; destruct (JS.ltb s best); reflexivity).
    rewrite E in H. cbv iota beta in H.
    apply IH in H as [k [HA [HB [HC [HD HE]]]]].
    assert (Hb1 : JS_le b1 best /\ JS_le b1 s).
    { subst b1. destruct (JS.ltb s best) eqn:Hlt.
      - split; [apply JS_lt_le; exact Hlt | apply JS_le_refl].
      - split; [apply JS_le_refl | exact Hlt]. }
    exists (S k). split; [|split; [|split; [|split]]].
    + intros [|i] Hi.
      * rewrite Z.add_0_r, in_column_self. exact Hf.
      * specialize (HA i ltac:(lia)). rewrite Hcol, Hnx in HA.
        replace (XY.x (Piece.xy pc) + Z.of_nat (S i))
          with (XY.x (Piece.xy pc) + 1 + Z.of_nat i) by lia. exact HA.
    + rewrite Hcol, Hnx in HB.
      replace (XY.x (Piece.xy pc) + Z.of_nat (S k))
        with (XY.x (Piece.xy pc) + 1 + Z.of_nat k) by lia. exact HB.
    + eapply JS_le_trans; [exact HC | apply Hb1].
    + intros [|i] Hi.
      * rewrite Z.add_0_r, in_column_self. exists s. split; [exact Hls|].
        eapply JS_le_trans; [exact HC | apply Hb1].
      * destruct (HD i ltac:(lia)) as [sc [Hsc Hle]]. rewrite Hcol, Hnx in Hsc.
        replace (XY.x (Piece.xy pc) + Z.of_nat (S i))
          with (XY.x (Piece.xy pc) + 1 + Z.of_nat i) by lia. eauto.
    + intros x0 Hx0. destruct (HE x0 Hx0) as [[Hin Hb]|[i [Hi [Hx Hsc]]]].
      * assert (Hcase : x0 ∈ p1 \/ (x0 = XY.x (Piece.xy pc) /\ s = b1)).
        { destruct (JS.eqb s b1) eqn:Heq.
          - apply elem_of_app in Hin as [Hin|Hin]; [left; exact Hin|].
            apply list_elem_of_singleton in Hin. right.
            split; [exact Hin | apply JS_eqb_eq; exact Heq].
          - left. exact Hin. }
        destruct Hcase as [Hin1|[Hx Hs]].
        -- left. subst b1 p1. destruct (JS.ltb s best).
           ++ apply elem_of_nil in Hin1. contradiction.
           ++ split; [exact Hin1 | exact Hb].
        -- right. exists O. split; [lia|]. split; [lia|].
           rewrite Z.add_0_r, in_column_self, Hb, <- Hs. exact Hls.
      * right. exists (S i). split; [lia|]. split; [lia|].
        rewrite Hcol, Hnx in Hsc.
        replace (XY.x (Piece.xy pc) + Z.of_nat (S i))
          with (XY.x (Piece.xy pc) + 1 + Z.of_nat i) by lia. exact Hsc.
  - inversion H. subst. exists O. split; [intros i Hi; lia|].
    split; [rewrite Z.add_0_r, in_column_self; exact Hf|].
    split; [apply JS_le_refl|]. split; [intros i Hi; lia|].
    intros x0 Hx0. left. split; [exact Hx0 | reflexivity].
Qed.
Lemma set_xy_top (piece q : Piece.t) (a b x : Z) :
  a = x -> b = Game.DEPTH - 1 ->
  Piece.type q = Piece.type piece -> Piece.pieceSet q = Piece.pieceSet piece ->
  Piece.cells q = Piece.cells piece ->
  Piece.set_xy (XY.New a b) q = top_row piece x.
Proof.
  intros -> -> Ht Hs Hc. unfold top_row, Piece.set_xy. rewrite Ht, Hs, Hc. reflexivity.
Qed.

Lemma random_None {A : Type} (l : list A) (r : nat) : JS.random l r = None -> l = [].
Proof.
  unfold JS.random. destruct l as [|a l]; [reflexivity|]. intros H. exfalso.
  apply lookup_ge_None in H.
  pose proof (Nat.mod_upper_bound r (length (a :: l)) ltac:(discriminate)). lia.
Qed.

Lemma scan_first (fuel : nat) (pit : Pit.t) (pc : Piece.t) (b : JS.num) (ps : list Z) :
  Piece.fits pc (Pit.cells pit) = true ->
  AI.scan fuel pit pc JS.PosInf [] = Some (b, ps) -> ps <> [].
Proof.
  intros Hf. destruct fuel as [|fuel]; [discriminate|].
  rewrite scan_S, Hf. destruct (Pit.drop _ _) as [o|]; [|discriminate].
  cbv zeta. set (s := Pit.getScore (Pit.after o)).
  destruct (JS.ltb s JS.PosInf) eqn:E.
  - rewrite JS_eqb_refl. intros H. eapply scan_keeps; [|exact H]. discriminate.
  - apply JS_not_below_inf in E. rewrite E. simpl.
    intros H. eapply scan_keeps; [|exact H]. discriminate.
Qed.

Lemma scan_none (fuel : nat) (pit : Pit.t) (pc : Piece.t) (best b : JS.num)
    (positions ps : list Z) :
  Piece.fits pc (Pit.cells pit) = false ->
  AI.scan fuel pit pc best positions = Some (b, ps) -> b = best /\ ps = positions.
Proof.
  intros Hf. destruct fuel as [|fuel]; [discriminate|].
  rewrite scan_S, Hf. intros H. inversion H. split; reflexivity.
Qed.

(** What [findBestPosition] computes: the run of columns that it tries,
    from [L] to [L + k - 1]. *)
Lemma findBestPosition_run (pit : Pit.t) (piece : Piece.t) (r : nat) (res : AI.position) :
  AI.findBestPosition pit piece r = Some res ->
  exists (L : Z) (k : nat) (positions : list Z),
    AI.x res = JS.random positions r /\
    (forall x, scanned pit piece x <-> L <= x < L + Z.of_nat k) /\
    (forall x, L <= x < L + Z.of_nat k ->
       exists sc, lock_score pit (top_row piece x) = Some sc /\ JS_le (AI.score res) sc) /\
    (forall x0, x0 ∈ positions ->
       L <= x0 < L + Z.of_nat k /\
       lock_score pit (top_row piece x0) = Some (AI.score res)) /\
    (positions = [] -> AI.score res = JS.PosInf /\ k = O).
Proof.
  unfold AI.findBestPosition, AI.leftmost. rewrite Piece_clone_id.
  destruct (Pit.while_fits _ AI.left _ _) as [pc'|] eqn:Hw; [|discriminate].
  destruct (AI.scan _ _ _ _ _) as [[b ps]|] eqn:Hs; [|discriminate].
  intros H. inversion H. subst res. clear H. simpl AI.x. simpl AI.score.
  rewrite Pit_clone_cells in Hw.
  destruct (while_fits_spec _ _ _ _ _ Hw) as [HnfL [kL [HkL HallL]]].
  simpl in HkL, HallL.
  set (L := 6 - Z.of_nat kL).
  assert (Epc' : pc' = top_row piece (L - 1)).
  { rewrite HkL. apply set_xy_top; try reflexivity; subst L.
    - change (Game.WIDTH / 2) with 5. lia.
    - lia. }
  assert (HfitL : forall x, L <= x <= 5 ->
                    Piece.fits (top_row piece x) (Pit.cells pit) = true).
  { intros x Hx. specialize (HallL (Z.to_nat (5 - x)) ltac:(lia)).
    rewrite (set_xy_top piece _ _ _ x) in HallL; try reflexivity; [exact HallL| |lia].
    change (Game.WIDTH / 2) with 5. lia. }
  rewrite Epc' in HnfL.
  assert (EpcL : Piece.set_xy (XY.minus (Piece.xy pc') AI.left) pc' = top_row piece L).
  { rewrite Epc'. apply set_xy_top; try reflexivity; simpl; lia. }
  rewrite EpcL in Hs.
  pose proof (scan_min _ _ _ _ _ _ _ Hs) as [k [HA [HB [HC [HD HE]]]]].
  rewrite Pit_clone_cells in HA, HB.
  assert (Ecol : forall x, in_column (top_row piece L) x = top_row piece x)
    by reflexivity.
  assert (ExL : XY.x (Piece.xy (top_row piece L)) = L) by reflexivity.
  rewrite ExL in HA, HB, HD, HE.
  assert (HfitR : forall x, L <= x < L + Z.of_nat k ->
                    Piece.fits (top_row piece x) (Pit.cells pit) = true).
  { intros x Hx. specialize (HA (Z.to_nat (x - L)) ltac:(lia)).
    rewrite Ecol in HA. replace (L + Z.of_nat (Z.to_nat (x - L))) with x in HA by lia.
    exact HA. }
  rewrite Ecol in HB.
  exists L, k, ps. split; [reflexivity|]. split; [|split; [|split]].
  - intros x. unfold scanned. change (Game.WIDTH / 2) with 5. split.
    + intros Hsc.
      assert (HL : L <= x).
      { destruct (Z_le_gt_dec L x) as [|Hgt]; [assumption|]. exfalso.
        destruct (Z_le_gt_dec x 5) as [Hx5|Hx5]; [|subst L; lia].
        rewrite (Hsc (L - 1)) in HnfL; [discriminate|]. left. subst L. lia. }
      split; [exact HL|].
      destruct (Z_lt_le_dec x (L + Z.of_nat k)) as [|Hge]; [assumption|]. exfalso.
      destruct (Z_le_gt_dec (L + Z.of_nat k) 5) as [Hq|Hq].
      * rewrite HfitL in HB by lia. discriminate.
      * rewrite (Hsc (L + Z.of_nat k)) in HB; [discriminate|]. right. lia.
    + intros Hx x' [Hx'|Hx'].
      * apply HfitL. lia.
      * apply HfitR. subst L. lia.
  - intros x Hx. destruct (HD (Z.to_nat (x - L)) ltac:(lia)) as [sc [Hsc Hle]].
    rewrite Ecol, lock_score_clone in Hsc.
    replace (L + Z.of_nat (Z.to_nat (x - L))) with x in Hsc by lia. eauto.
  - intros x0 Hx0. destruct (HE x0 Hx0) as [[Hin _]|[i [Hi [Hx Hsc]]]].
    + apply elem_of_nil in Hin. contradiction.
    + rewrite Ecol, lock_score_clone, <- Hx in Hsc. split; [lia | exact Hsc].
  - intros ->. destruct (Piece.fits (top_row piece L) (Pit.cells pit)) eqn:HfL.
    + exfalso. eapply scan_first; [|exact Hs|reflexivity].
      rewrite Pit_clone_cells. exact HfL.
    + apply scan_none in Hs as [-> _]; [|rewrite Pit_clone_cells; exact HfL].
      split; [reflexivity|]. destruct k as [|k]; [reflexivity|]. exfalso.
      rewrite HfitR in HfL by lia. discriminate.
Qed.

(** X14: [findBestPosition] picks a best column among those it tries.
    For a piece with a cell the search returns.  The columns it tries are
    the run of top-row columns around the centre where the piece fits: going
    left from the centre column while it fits, then right from the leftmost
    of these while it fits (from the column right of the centre when the
    piece does not fit at the centre).  The score it returns is not above
    the score of any of them, the score of a column being that of a copy of
    the pit after a copy of the piece was dropped there; the column it
    returns is one of them and has that score; and a result without column
    means that the run is empty, the score then being [Infinity]. *)
Theorem findBestPosition_minimal (pit : Pit.t) (piece : Piece.t) (r : nat) :
  Piece.cells piece <> [] ->
  exists res,
    AI.findBestPosition pit piece r = Some res /\
    (forall x, scanned pit piece x ->
       exists sc, lock_score pit (top_row piece x) = Some sc /\
                  JS_le (AI.score res) sc) /\
    match AI.x res with
    | Some x0 =>
        scanned pit piece x0 /\
        lock_score pit (top_row piece x0) = Some (AI.score res)
    | None =>
        AI.score res = JS.PosInf /\ forall x, ~ scanned pit piece x
    end.
Proof.
  intros Hne. destruct (findBestPosition_total pit piece r Hne) as [res Hres].
  exists res. split; [exact Hres|].
  destruct (findBestPosition_run pit piece r res Hres)
    as (L & k & ps & Hx & Hscan & Hmin & Hpos & Hnil).
  split.
  - intros x Hsc. apply Hmin. apply Hscan. exact Hsc.
  - rewrite Hx. destruct (JS.random ps r) as [x0|] eqn:Hr.
    + apply random_elem in Hr. destruct (Hpos x0 Hr) as [Hin Hsc].
      split; [apply Hscan; exact Hin | exact Hsc].
    + apply random_None in Hr. destruct (Hnil Hr) as [Hinf Hk].
      split; [exact Hinf|]. intros x Hsc. apply Hscan in Hsc. lia.
Qed.

Lemma findBestPosition_minimal_witness :
  exists res,
    AI.findBestPosition four_bars piece_u 0 = Some res /\
    (forall x, scanned four_bars piece_u x ->
       exists sc, lock_score four_bars (top_row piece_u x) = Some sc /\
                  JS_le (AI.score res) sc) /\
    match AI.x res with
    | Some x0 =>
        scanned four_bars piece_u x0 /\
        lock_score four_bars (top_row piece_u x0) = Some (AI.score res)
    | None =>
        AI.score res = JS.PosInf /\ forall x, ~ scanned four_bars piece_u x
    end.
Proof. apply (findBestPosition_minimal four_bars piece_u 0). discriminate. Defined.
(** ** The best rotation *)

Lemma findBestPosition_score_draw (pit : Pit.t) (piece : Piece.t) (r r' : nat)
    (res res' : AI.position) :
  AI.findBestPosition pit piece r = Some res ->
  AI.findBestPosition pit piece r' = Some res' ->
  AI.score res = AI.score res'.
Proof.
  unfold AI.findBestPosition.
  destruct (AI.leftmost _ _) as [pc|]; [|discriminate].
  destruct (AI.scan _ _ _ _ _) as [[b ps]|]; [|discriminate].
  intros H H'. inversion H. inversion H'. reflexivity.
Qed.

(** The state of the loop over the four rotations, after the rotations of
    [seen] were tried. *)
Lemma try_rotation_min (pit : Pit.t) (piece : Piece.t) (rnd : nat -> nat)
    (idxs seen : list nat) (best : JS.num) (l : list AI.placement) :
  Piece.cells piece <> [] ->
  (l <> [] \/ best = JS.PosInf) ->
  Forall (fun pl =>
            AI.p_score pl = best /\
            exists i : nat, i ∈ seen /\ AI.rotation pl = Z.of_nat i /\
              AI.findBestPosition pit (AI.rotations i piece) (rnd i)
              = Some (AI.Position (AI.p_score pl) (AI.p_x pl))) l ->
  (forall (j : nat) res, j ∈ seen ->
     AI.findBestPosition pit (AI.rotations j piece) (rnd j) = Some res ->
     JS_le best (AI.score res)) ->
  exists best' l',
    fold_left (AI.try_rotation pit piece rnd) idxs (Some (best, l)) = Some (best', l') /\
    (l' <> [] \/ (best' = JS.PosInf /\ idxs = [])) /\
    Forall (fun pl =>
              AI.p_score pl = best' /\
              exists i : nat, i ∈ seen ++ idxs /\ AI.rotation pl = Z.of_nat i /\
                AI.findBestPosition pit (AI.rotations i piece) (rnd i)
                = Some (AI.Position (AI.p_score pl) (AI.p_x pl))) l' /\
    (forall (j : nat) res, j ∈ seen ++ idxs ->
       AI.findBestPosition pit (AI.rotations j piece) (rnd j) = Some res ->
       JS_le best' (AI.score res)).
Proof.
  intros Hne. revert seen best l.
  induction idxs as [|i idxs IH]; intros seen best l Hl Hall Hmin.
  - exists best, l. rewrite app_nil_r. split; [reflexivity|].
    split; [destruct Hl; [left; assumption | right; split; [assumption | reflexivity]]|].
    split; assumption.
  - destruct (findBestPosition_total pit (AI.rotations i piece) (rnd i))
      as [cur Hcur]; [apply rotations_nonempty; exact Hne|].
    set (current := AI.Placement (AI.score cur) (AI.x cur) (Z.of_nat i)).
    set (b1 := if JS.ltb (AI.score cur) best then AI.score cur else best).
    set (l1 := if JS.ltb (AI.score cur) best then [] else l).
    set (l2 := if JS.eqb (AI.score cur) b1 then l1 ++ [current] else l1).
    assert (Estep : AI.try_rotation pit piece rnd (Some (best, l)) i = Some (b1, l2)).
    { unfold AI.try_rotation. rewrite Piece_clone_id, Hcur. cbv zeta.
      simpl AI.p_score. subst b1 l1 l2 current.
      destruct (JS.ltb (AI.score cur) best); reflexivity. }
    change (fold_left (AI.try_rotation pit piece rnd) (i :: idxs) (Some (best, l)))
      with (fold_left (AI.try_rotation pit piece rnd) idxs
              (AI.try_rotation pit piece rnd (Some (best, l)) i)).
    rewrite Estep.
    assert (Hcurp : AI.p_score current = AI.score cur /\
              exists i0 : nat, i0 ∈ seen ++ [i] /\ AI.rotation current = Z.of_nat i0 /\
                AI.findBestPosition pit (AI.rotations i0 piece) (rnd i0)
                = Some (AI.Position (AI.p_score current) (AI.p_x current))).
    { split; [reflexivity|]. exists i. split; [apply elem_of_app; right; left|].
      split; [reflexivity|]. rewrite Hcur. destruct cur. reflexivity. }
    assert (Hb1 : JS_le b1 best /\ JS_le b1 (AI.score cur)).
    { subst b1. destruct (JS.ltb (AI.score cur) best) eqn:Hlt.
      - split; [apply JS_lt_le; exact Hlt | apply JS_le_refl].
      - split; [apply JS_le_refl | exact Hlt]. }
    assert (Hl2 : l2 <> []).
    { subst l2 l1 b1. destruct (JS.ltb (AI.score cur) best) eqn:Hlt.
      - rewrite JS_eqb_refl. discriminate.
      - destruct (JS.eqb (AI.score cur) best) eqn:Heq.
        + intros E. apply app_eq_nil in E as [_ E]. discriminate.
        + destruct Hl as [Hl|Hl]; [exact Hl|]. subst best.
          apply JS_not_below_inf in Hlt. rewrite Hlt in Heq. discriminate. }
    destruct (IH (seen ++ [i]) b1 l2) as [best' [l' [E [Hl' [Hall' Hmin']]]]].
    + left. exact Hl2.
    + subst l2. assert (Hl1 : Forall (fun pl =>
              AI.p_score pl = b1 /\
              exists i0 : nat, i0 ∈ seen ++ [i] /\ AI.rotation pl = Z.of_nat i0 /\
                AI.findBestPosition pit (AI.rotations i0 piece) (rnd i0)
                = Some (AI.Position (AI.p_score pl) (AI.p_x pl))) l1).
      { subst l1 b1. destruct (JS.ltb (AI.score cur) best); [constructor|].
        eapply Forall_impl; [exact Hall|]. simpl.
        intros pl [Hs [i0 [Hi0 Hrest]]]. split; [exact Hs|].
        exists i0. split; [apply elem_of_app; left; exact Hi0 | exact Hrest]. }
      destruct (JS.eqb (AI.score cur) b1) eqn:Heq; [|exact Hl1].
      apply Forall_app. split; [exact Hl1|]. constructor; [|constructor].
      destruct Hcurp as [Hs Hrest]. split; [|exact Hrest].
      rewrite Hs. apply JS_eqb_eq. exact Heq.
    + intros j res Hj Hres. apply elem_of_app in Hj as [Hj|Hj].
      * apply (JS_le_trans _ best); [exact (proj1 Hb1)|].
        eapply Hmin; [exact Hj | exact Hres].
      * apply list_elem_of_singleton in Hj. subst j. rewrite Hcur in Hres.
        inversion Hres. subst res. exact (proj2 Hb1).
    + exists best', l'. split; [exact E|].
      rewrite <- app_assoc in Hall', Hmin'. simpl in Hall', Hmin'.
      split; [|split; assumption].
      destruct Hl' as [Hl'|[_ Hid]]; [left; exact Hl'|]. left.
      subst idxs. simpl in E. injection E as Eb El. rewrite <- El. exact Hl2.
Qed.

Lemma random_Some {A : Type} (l : list A) (r : nat) :
  l <> [] -> exists a, JS.random l r = Some a.
Proof.
  intros Hne. destruct (JS.random l r) as [a|] eqn:E; [eauto|].
  apply random_None in E. contradiction.
Qed.

(** What [findBestPositionRotation] returns. *)
Lemma findBestPositionRotation_spec (pit : Pit.t) (piece : Piece.t)
    (rnd : nat -> nat) :
  Piece.cells piece <> [] ->
  exists pl (i : nat),
    AI.findBestPositionRotation pit piece rnd = Some (Some pl) /\
    (i < 4)%nat /\ AI.rotation pl = Z.of_nat i /\
    AI.findBestPosition pit (AI.rotations i piece) (rnd i)
      = Some (AI.Position (AI.p_score pl) (AI.p_x pl)) /\
    forall (j r : nat) res, (j < 4)%nat ->
      AI.findBestPosition pit (AI.rotations j piece) r = Some res ->
      JS_le (AI.p_score pl) (AI.score res).
Proof.
  intros Hne.
  destruct (try_rotation_min pit piece rnd (seq 0 4) [] JS.PosInf [] Hne)
    as [best [l [E [Hl [Hall Hmin]]]]].
  - right. reflexivity.
  - constructor.
  - intros j res Hj. apply elem_of_nil in Hj. contradiction.
  - assert (Hl' : l <> []) by (destruct Hl as [Hl|[_ Hl]]; [exact Hl | discriminate]).
    destruct (random_Some l (rnd 4%nat) Hl') as [pl Hpl].
    pose proof Hpl as Hin. apply random_elem in Hin.
    rewrite Forall_forall in Hall. destruct (Hall pl Hin) as [Hs [i [Hi [Hr Hf]]]].
    change ([] ++ seq 0 4) with (seq 0 4) in Hi. apply elem_of_seq in Hi.
    exists pl, i. unfold AI.findBestPositionRotation. rewrite E, Hpl.
    split; [reflexivity|]. split; [lia|]. split; [exact Hr|]. split; [exact Hf|].
    intros j r res Hj Hres.
    destruct (findBestPosition_total pit (AI.rotations j piece) (rnd j))
      as [res' Hres']; [apply rotations_nonempty; exact Hne|].
    rewrite (findBestPosition_score_draw _ _ _ _ _ _ Hres Hres'), Hs.
    apply (Hmin j res'); [|exact Hres'].
    change ([] ++ seq 0 4) with (seq 0 4). apply elem_of_seq. lia.
Qed.

(** X15: [findBestPositionRotation] picks a best rotation.  For a piece
    with a cell it returns a placement, never [undefined].  Its rotation
    count is one of 0, 1, 2, 3; its score and column are those that
    [findBestPosition] returned for the piece turned that many times; its
    score is not above the score that [findBestPosition] gives, with
    whatever draw, to the piece turned 0, 1, 2 or 3 times; and its column,
    if it has one, is a column that the search tried for the piece so
    turned, where the simulated lock has exactly that score, while a
    placement without column has the score [Infinity]. *)
Theorem findBestPositionRotation_minimal (pit : Pit.t) (piece : Piece.t)
    (rnd : nat -> nat) :
  Piece.cells piece <> [] ->
  exists pl (i : nat),
    AI.findBestPositionRotation pit piece rnd = Some (Some pl) /\
    (i < 4)%nat /\ AI.rotation pl = Z.of_nat i /\
    AI.findBestPosition pit (AI.rotations i piece) (rnd i)
      = Some (AI.Position (AI.p_score pl) (AI.p_x pl)) /\
    (forall (j r : nat) res, (j < 4)%nat ->
       AI.findBestPosition pit (AI.rotations j piece) r = Some res ->
       JS_le (AI.p_score pl) (AI.score res)) /\
    match AI.p_x pl with
    | Some x0 =>
        scanned pit (AI.rotations i piece) x0 /\
        lock_score pit (top_row (AI.rotations i piece) x0) = Some (AI.p_score pl)
    | None => AI.p_score pl = JS.PosInf
    end.
Proof.
  intros Hne.
  destruct (findBestPositionRotation_spec pit piece rnd Hne)
    as (pl & i & E & Hi & Hr & Hf & Hmin).
  exists pl, i. split; [exact E|]. split; [exact Hi|]. split; [exact Hr|].
  split; [exact Hf|]. split; [exact Hmin|].
  destruct (findBestPosition_run _ _ _ _ Hf)
    as (L & k & ps & Hx & Hscan & _ & Hpos & Hnil).
  simpl in Hx, Hpos, Hnil.
  destruct (AI.p_x pl) as [x0|].
  - symmetry in Hx. apply random_elem in Hx. destruct (Hpos x0 Hx) as [Hin Hsc].
    split; [apply Hscan; exact Hin | exact Hsc].
  - symmetry in Hx. apply random_None in Hx. apply Hnil. exact Hx.
Qed.

Lemma findBestPositionRotation_minimal_witness :
  exists pl (i : nat),
    AI.findBestPositionRotation four_bars piece_u (fun _ => O) = Some (Some pl) /\
    (i < 4)%nat /\ AI.rotation pl = Z.of_nat i /\
    AI.findBestPosition four_bars (AI.rotations i piece_u) O
      = Some (AI.Position (AI.p_score pl) (AI.p_x pl)) /\
    (forall (j r : nat) res, (j < 4)%nat ->
       AI.findBestPosition four_bars (AI.rotations j piece_u) r = Some res ->
       JS_le (AI.p_score pl) (AI.score res)) /\
    match AI.p_x pl with
    | Some x0 =>
        scanned four_bars (AI.rotations i piece_u) x0 /\
        lock_score four_bars (top_row (AI.rotations i piece_u) x0)
          = Some (AI.p_score pl)
    | None => AI.p_score pl = JS.PosInf
    end.
Proof.
  apply (findBestPositionRotation_minimal four_bars piece_u (fun _ => O)).
  discriminate.
Defined.

(** ** Scoring the types, and the attacker's choice *)

Lemma DEF_nonempty (set type : string) (d : Piece.def) :
  Piece.DEF set type = Some d -> Piece.def_cells d <> [] /\ 0 < Piece.avail d.
Proof.
  unfold Piece.DEF.
  repeat match goal with
         | |- context [String.eqb ?a ?b] => destruct (String.eqb a b)
         end;
    intros H; inversion H; subst d; simpl; split; try discriminate; lia.
Qed.

Lemma Piece_New_cells (type set : string) (p : Piece.t) :
  Piece.New type set = Some p -> Piece.cells p <> [].
Proof.
  unfold Piece.New. destruct (Piece.DEF set type) as [d|] eqn:Hd; [|discriminate].
  intros H. inversion H. subst p. simpl.
  apply (fold_set_nonempty (fun c => (c, Cell.New c type set))).
  left. apply (DEF_nonempty _ _ _ Hd).
Qed.

Lemma DEF_full_count (set type : string) (d : Piece.def) :
  Piece.DEF set type = Some d -> 0 < full_count set type.
Proof.
  intros H. unfold full_count. rewrite H. apply (DEF_nonempty _ _ _ H).
Qed.

Lemma JS_le_antisym (a b : JS.num) : JS_le a b -> JS_le b a -> a = b.
Proof.
  unfold JS_le. destruct a, b; simpl; try discriminate; try reflexivity.
  rewrite !Z.ltb_ge. intros. f_equal. lia.
Qed.

Lemma type_score_unique (pit : Pit.t) (set type : string) (a b : JS.num) :
  type_score pit set type a -> type_score pit set type b -> a = b.
Proof.
  intros (p & Hp & (i & r & res & Hi & Hr & Hs) & Hmin)
         (p' & Hp' & (i' & r' & res' & Hi' & Hr' & Hs') & Hmin').
  rewrite Hp in Hp'. inversion Hp'. subst p'.
  apply JS_le_antisym.
  - rewrite <- Hs'. eapply Hmin; [exact Hi' | exact Hr'].
  - rewrite <- Hs. eapply Hmin'; [exact Hi | exact Hr].
Qed.

(** The score that [scoreTypes] stores for a type. *)
Lemma scoreTypes_entry (pit : Pit.t) (set type : string) (rnd : nat -> nat) :
  0 < full_count set type ->
  exists piece pl,
    Piece.New type set = Some piece /\
    AI.findBestPositionRotation pit piece rnd = Some (Some pl) /\
    type_score pit set type (AI.p_score pl).
Proof.
  intros H. destruct (Piece_New_DEF type set H) as [piece Hp].
  pose proof (Piece_New_cells _ _ _ Hp) as Hne.
  destruct (findBestPositionRotation_spec pit piece rnd Hne)
    as (pl & i & E & Hi & Hr & Hf & Hmin).
  exists piece, pl. split; [exact Hp|]. split; [exact E|].
  exists piece. split; [exact Hp|]. split.
  - exists i, (rnd i). eexists. split; [exact Hi|]. split; [exact Hf | reflexivity].
  - exact Hmin.
Qed.

Lemma imap_snd (f : nat -> nat) (l : list string) :
  snd <$> imap (fun i type => (f i, type)) l = l.
Proof.
  revert f. induction l as [|a l IH]; intros f; [reflexivity|].
  rewrite imap_cons, fmap_cons. simpl. f_equal. apply (IH (f ∘ S)).
Qed.

Lemma scoreTypes_fold (pit : Pit.t) (set : string) (rnd : nat -> nat -> nat)
    (its : list (nat * string)) (scores : SDict.dict JS.num) :
  Forall (fun it => 0 < full_count set (snd it)) its ->
  Forall (fun kv => type_score pit set (fst kv) (snd kv)) scores ->
  exists scores',
    fold_left
      (fun acc it =>
         match acc with
         | None => None
         | Some scores =>
             match Piece.New (snd it) set with
             | None => None
             | Some piece =>
                 match AI.findBestPositionRotation pit piece (rnd (fst it)) with
                 | Some (Some pl) => Some (SDict.set (snd it) (AI.p_score pl) scores)
                 | _ => None
                 end
             end
         end)
      its (Some scores) = Some scores' /\
    Forall (fun kv => type_score pit set (fst kv) (snd kv)) scores' /\
    (forall type, type ∈ SDict.keys scores' <->
                  type ∈ SDict.keys scores \/ type ∈ snd <$> its).
Proof.
  revert scores. induction its as [|[i type] its IH]; intros scores Hits Hsc.
  - exists scores. split; [reflexivity|]. split; [exact Hsc|].
    intros type. split; [intros H; left; exact H|].
    intros [H|H]; [exact H|]. apply elem_of_nil in H. contradiction.
  - apply Forall_cons in Hits as [Hi Hits]. simpl in Hi.
    destruct (scoreTypes_entry pit set type (rnd i) Hi) as (piece & pl & Hp & Hr & Hts).
    simpl fold_left. rewrite Hp, Hr.
    destruct (IH (SDict.set type (AI.p_score pl) scores) Hits)
      as [scores' [E [Hall Hkeys]]].
    { apply SDict_set_Forall; [exact Hts | exact Hsc]. }
    exists scores'. split; [exact E|]. split; [exact Hall|].
    intros ty. rewrite Hkeys, SDict_keys_set, fmap_cons. simpl.
    destruct (decide (type ∈ SDict.keys scores)) as [Hin|Hin].
    + rewrite elem_of_cons. split; [tauto|].
      intros [H|[H|H]]; [tauto | subst; tauto | tauto].
    + rewrite elem_of_app, list_elem_of_singleton, elem_of_cons. tauto.
Qed.

(** What [scoreTypes] returns for types of the set: a score for each of
    them and for nothing else, each the least over the four rotations. *)
Lemma scoreTypes_spec (pit : Pit.t) (types : list string) (set : string)
    (rnd : nat -> nat -> nat) :
  Forall (fun type => 0 < full_count set type) types ->
  exists scores,
    AI.scoreTypes pit types set rnd = Some scores /\
    Forall (fun kv => type_score pit set (fst kv) (snd kv)) scores /\
    (forall type, type ∈ SDict.keys scores <-> type ∈ types).
Proof.
  intros Hty. unfold AI.scoreTypes.
  destruct (scoreTypes_fold pit set rnd (imap (fun i type => (i, type)) types) [])
    as [scores [E [Hall Hkeys]]].
  - apply Forall_forall. intros [i type] Hin. simpl.
    rewrite Forall_forall in Hty. apply Hty.
    rewrite <- (imap_snd (fun i => i) types).
    apply (list_elem_of_fmap_2 snd) in Hin. exact Hin.
  - constructor.
  - exists scores. split; [exact E|]. split; [exact Hall|].
    intros type. rewrite Hkeys, (imap_snd (fun i => i) types). split; [|tauto].
    intros [H|H]; [|exact H]. apply elem_of_nil in H. contradiction.
Qed.

Lemma JS_above_neginf (a : JS.num) : JS.ltb JS.NegInf a = false -> a = JS.NegInf.
Proof. destruct a; simpl; [reflexivity | discriminate | discriminate]. Qed.

(** The loop that collects the types of the highest score. *)
Lemma worst_fold (scores : SDict.dict JS.num) (w0 : JS.num) (t0 : list string) :
  let r := fold_left Attacker.worst_step scores (w0, t0) in
  JS_le w0 (fst r) /\
  (forall kv, kv ∈ scores -> JS_le (snd kv) (fst r)) /\
  (forall type, type ∈ snd r ->
     (type ∈ t0 /\ fst r = w0) \/ (type, fst r) ∈ scores) /\
  (t0 <> [] \/ (w0 = JS.NegInf /\ scores <> []) -> snd r <> []).
Proof.
  revert w0 t0. induction scores as [|[ty sc] scores IH]; intros w0 t0; cbv zeta.
  - simpl. split; [apply JS_le_refl|]. split.
    + intros kv H. apply elem_of_nil in H. contradiction.
    + split; [intros type H; left; split; [exact H | reflexivity]|].
      intros [H|[_ H]]; [exact H | contradiction].
  - simpl fold_left.
    set (w1 := if JS.ltb w0 sc then sc else w0).
    set (t1 := if JS.ltb w0 sc then [] else t0).
    set (t2 := if JS.eqb sc w1 then t1 ++ [ty] else t1).
    assert (E : Attacker.worst_step (w0, t0) (ty, sc) = (w1, t2)).
    { unfold Attacker.worst_step. simpl. subst w1 t1 t2.
      destruct (JS.ltb w0 sc); reflexivity. }
    rewrite E. specialize (IH w1 t2). cbv zeta in IH.
    destruct IH as [H1 [H2 [H3 H4]]].
    assert (Hw1 : JS_le w0 w1 /\ JS_le sc w1).
    { subst w1. destruct (JS.ltb w0 sc) eqn:Hlt.
      - split; [apply JS_lt_le; exact Hlt | apply JS_le_refl].
      - split; [apply JS_le_refl | exact Hlt]. }
    split; [apply (JS_le_trans _ w1); [exact (proj1 Hw1) | exact H1]|].
    split; [|split].
    + intros kv Hkv. apply elem_of_cons in Hkv as [->|Hkv]; [|apply H2; exact Hkv].
      simpl. apply (JS_le_trans _ w1); [exact (proj2 Hw1) | exact H1].
    + intros type Hin. destruct (H3 type Hin) as [[Hin2 Hw]|Hin2]; [|right; right; exact Hin2].
      assert (Hcase : type ∈ t1 \/ (type = ty /\ sc = w1)).
      { subst t2. destruct (JS.eqb sc w1) eqn:Heq; [|left; exact Hin2].
        apply elem_of_app in Hin2 as [Hin2|Hin2]; [left; exact Hin2|].
        apply list_elem_of_singleton in Hin2. right.
        split; [exact Hin2 | apply JS_eqb_eq; exact Heq]. }
      destruct Hcase as [Hin1|[-> Hs]].
      * left. subst t1 w1. destruct (JS.ltb w0 sc).
        -- apply elem_of_nil in Hin1. contradiction.
        -- split; [exact Hin1 | exact Hw].
      * right. rewrite Hw, <- Hs. left.
    + intros Hpre. apply H4. left. subst t2 t1 w1.
      destruct (JS.ltb w0 sc) eqn:Hlt.
      * rewrite JS_eqb_refl. discriminate.
      * destruct (JS.eqb sc w0) eqn:Heq.
        -- intros E2. apply app_eq_nil in E2 as [_ E2]. discriminate.
        -- destruct Hpre as [Hpre|[Hpre _]]; [exact Hpre|]. subst w0.
           apply JS_above_neginf in Hlt. rewrite Hlt in Heq. discriminate.
Qed.
Lemma remove_first_sub (x ty : string) (l : list string) :
  ty ∈ Attacker.remove_first x l -> ty ∈ l.
Proof.
  induction l as [|a l IH]; simpl; [intros H; exact H|].
  destruct (String.eqb x a); [intros H; right; exact H|].
  rewrite !elem_of_cons. intros [H|H]; [left; exact H | right; apply IH; exact H].
Qed.

Lemma remove_first_gone (x : string) (l : list string) :
  NoDup l -> x ∉ Attacker.remove_first x l.
Proof.
  induction 1 as [|a l Ha Hl IH]; simpl; [apply not_elem_of_nil|].
  destruct (String.eqb x a) eqn:E.
  - apply String.eqb_eq in E. subst a. exact Ha.
  - apply String.eqb_neq in E. rewrite not_elem_of_cons. split; assumption.
Qed.

Lemma remove_first_other (x ty : string) (l : list string) :
  ty ∈ l -> ty <> x -> ty ∈ Attacker.remove_first x l.
Proof.
  intros Hin Hne. induction l as [|a l IH]; simpl; [exact Hin|].
  apply elem_of_cons in Hin as [->|Hin].
  - replace (String.eqb x a) with false
      by (symmetry; apply String.eqb_neq; congruence). left.
  - destruct (String.eqb x a); [exact Hin|]. right. apply IH. exact Hin.
Qed.

Lemma remove_first_length (x : string) (l : list string) :
  x ∈ l -> S (length (Attacker.remove_first x l)) = length l.
Proof.
  induction l as [|a l IH]; simpl; [intros H; apply elem_of_nil in H; contradiction|].
  destruct (String.eqb x a) eqn:E; [reflexivity|].
  apply String.eqb_neq in E. intros H. apply elem_of_cons in H as [H|H]; [congruence|].
  simpl. rewrite IH by exact H. reflexivity.
Qed.

(** The candidates: the available types, without the last used one when
    there is another. *)
Lemma candidates_spec (last : option string) (avail : list string) (ty : string) :
  NoDup avail ->
  ty ∈ Attacker.candidates last avail <->
  ty ∈ avail /\ (last = Some ty -> (length avail <= 1)%nat).
Proof.
  intros Hnd. unfold Attacker.candidates. destruct last as [ty0|].
  - destruct (bool_decide (ty0 ∈ avail)) eqn:Hin; simpl.
    + apply bool_decide_eq_true in Hin.
      destruct (1 <? Z.of_nat (length avail)) eqn:Hlen.
      * apply Z.ltb_lt in Hlen. split.
        -- intros H. split; [eapply remove_first_sub; exact H|].
           intros E. inversion E. subst ty0. exfalso.
           exact (remove_first_gone ty avail Hnd H).
        -- intros [H Hl]. apply remove_first_other; [exact H|].
           intros ->. specialize (Hl eq_refl). lia.
      * apply Z.ltb_ge in Hlen. split; [intros H; split; [exact H | intros _; lia]|].
        intros [H _]. exact H.
    + apply bool_decide_eq_false in Hin. split.
      * intros H. split; [exact H|]. intros E. inversion E. subst. contradiction.
      * intros [H _]. exact H.
  - split; [intros H; split; [exact H | discriminate] | intros [H _]; exact H].
Qed.

Lemma candidates_nonempty (last : option string) (avail : list string) :
  avail <> [] -> Attacker.candidates last avail <> [].
Proof.
  intros Hne. unfold Attacker.candidates. destruct last as [ty0|]; [|exact Hne].
  destruct (bool_decide (ty0 ∈ avail)) eqn:Hin; simpl; [|exact Hne].
  apply bool_decide_eq_true in Hin.
  destruct (1 <? Z.of_nat (length avail)) eqn:Hlen; [|exact Hne].
  apply Z.ltb_lt in Hlen. pose proof (remove_first_length ty0 avail Hin) as Hl.
  intros E. rewrite E in Hl. simpl in Hl. lia.
Qed.

Lemma getScore_finite (p : Pit.t) : Pit.getScore p <> JS.PosInf.
Proof.
  unfold Pit.getScore, Arr.max. destruct (Pit.cols p); discriminate.
Qed.

Lemma lock_score_finite (pit : Pit.t) (pc : Piece.t) (sc : JS.num) :
  lock_score pit pc = Some sc -> sc <> JS.PosInf.
Proof.
  unfold lock_score. destruct (Pit.drop _ _) as [o|]; [|discriminate].
  intros H. inversion H. apply getScore_finite.
Qed.

(** A result of [findBestPosition] carries a column exactly when its score
    is not [Infinity]. *)
Lemma findBestPosition_column (pit : Pit.t) (piece : Piece.t) (r : nat)
    (res : AI.position) :
  AI.findBestPosition pit piece r = Some res ->
  (AI.x res = None <-> AI.score res = JS.PosInf).
Proof.
  intros Hres.
  destruct (findBestPosition_run pit piece r res Hres)
    as (L & k & ps & Hx & Hscan & Hmin & Hpos & Hnil).
  split.
  - intros H. rewrite Hx in H. apply random_None in H. apply Hnil. exact H.
  - intros Hs. destruct (AI.x res) as [x0|] eqn:E; [|reflexivity]. exfalso.
    symmetry in Hx. apply random_elem in Hx. destruct (Hpos x0 Hx) as [_ Hl].
    apply lock_score_finite in Hl. contradiction.
Qed.

(** The pit on which the attacker scores the types is there whenever the
    piece in play, if any, has a cell and fits where [center] puts it. *)
Lemma simulate_total (rnd : nat -> nat) (s : Session.t) :
  match Engine._piece (Session.engine s) with
  | None => True
  | Some current =>
      Piece.cells current <> [] /\
      Piece.fits (Piece.center current) (Pit.cells (Engine.pit (Session.engine s)))
      = true
  end ->
  exists pit, Attacker.simulate rnd s = Some pit.
Proof.
  unfold Attacker.simulate.
  destruct (Engine._piece (Session.engine s)) as [current|]; [|eauto].
  intros [Hne Hfit]. rewrite Piece_clone_id.
  set (pit := Pit.clone (Engine.pit (Session.engine s))).
  destruct (findBestPositionRotation_spec pit current rnd Hne)
    as (best & i & E & Hi & Hr & Hf & Hmin).
  rewrite E.
  destruct (AI.p_x best) as [x|] eqn:Hx.
  - destruct (landing_total pit
                (Piece.set_xy (XY.New x Game.DEPTH)
                   (AI.rotations (Z.to_nat (AI.rotation best)) current)))
      as [pc' Hl].
    { simpl. apply rotations_nonempty. exact Hne. }
    unfold Pit.drop. rewrite Hl. eauto.
  - exfalso.
    assert (Hinf : AI.p_score best = JS.PosInf).
    { apply (findBestPosition_column _ _ _ _ Hf). reflexivity. }
    destruct (findBestPosition_total pit current O Hne) as [res0 Hres0].
    assert (Hfit' : Piece.fits (Piece.center current) (Pit.cells pit) = true).
    { subst pit. rewrite Pit_clone_cells. exact Hfit. }
    destruct (findBestPosition_finds_column pit current O res0 Hfit' Hres0) as [x0 Hx0].
    pose proof (Hmin O O res0 ltac:(lia) Hres0) as Hle.
    rewrite Hinf in Hle. unfold JS_le in Hle. apply JS_not_below_inf in Hle.
    apply (findBestPosition_column _ _ _ _ Hres0) in Hle. congruence.
Qed.
Lemma scoreTypes_fold_None (pit : Pit.t) (set : string) (rnd : nat -> nat -> nat)
    (its : list (nat * string)) (acc : option (SDict.dict JS.num)) :
  acc = None \/ (exists it, it ∈ its /\ Piece.DEF set (snd it) = None) ->
  fold_left
    (fun acc it =>
       match acc with
       | None => None
       | Some scores =>
           match Piece.New (snd it) set with
           | None => None
           | Some piece =>
               match AI.findBestPositionRotation pit piece (rnd (fst it)) with
               | Some (Some pl) => Some (SDict.set (snd it) (AI.p_score pl) scores)
               | _ => None
               end
           end
       end)
    its acc = None.
Proof.
  revert acc. induction its as [|it its IH]; intros acc H.
  - destruct H as [H|[it [Hin _]]]; [exact H|]. apply elem_of_nil in Hin. contradiction.
  - simpl fold_left. apply IH.
    destruct H as [->|[it' [Hin Hd]]]; [left; reflexivity|].
    apply elem_of_cons in Hin as [->|Hin]; [|right; eauto].
    left. destruct acc; [|reflexivity]. unfold Piece.New. rewrite Hd. reflexivity.
Qed.

(** X16: [scoreTypes] gives every type its least score.  For types that
    the set has, it returns an object whose property names are exactly the
    given types, the value under a type being the least of the scores that
    [findBestPosition] gives to a new piece of that type turned 0, 1, 2 or 3
    times.  With a type that the set does not have among them, it throws
    (the error of [new Game.Piece]). *)
Theorem scoreTypes_least_scores (pit : Pit.t) (types : list string) (set : string)
    (rnd : nat -> nat -> nat) :
  (Forall (fun type => exists d, Piece.DEF set type = Some d) types ->
   exists scores,
     AI.scoreTypes pit types set rnd = Some scores /\
     Forall (fun kv => type_score pit set (fst kv) (snd kv)) scores /\
     (forall type, type ∈ SDict.keys scores <-> type ∈ types)) /\
  ((exists type, type ∈ types /\ Piece.DEF set type = None) ->
   AI.scoreTypes pit types set rnd = None).
Proof.
  split.
  - intros H. apply scoreTypes_spec. eapply Forall_impl; [exact H|].
    simpl. intros type [d Hd]. eapply DEF_full_count. exact Hd.
  - intros [type [Hin Hd]]. unfold AI.scoreTypes. apply scoreTypes_fold_None.
    right. rewrite <- (imap_snd (fun i => i) types) in Hin.
    apply list_elem_of_fmap in Hin as [it [-> Hit]]. exists it. split; assumption.
Qed.

Lemma scoreTypes_least_scores_witness :
  exists scores,
    AI.scoreTypes four_bars ["-"; "u"] "left" (fun _ _ => O) = Some scores /\
    Forall (fun kv => type_score four_bars "left" (fst kv) (snd kv)) scores /\
    (forall type, type ∈ SDict.keys scores <-> type ∈ ["-"; "u"]).
Proof.
  apply (scoreTypes_least_scores four_bars ["-"; "u"] "left" (fun _ _ => O)).
  repeat constructor; eexists; reflexivity.
Defined.

Lemma SDict_key_entry {A : Type} (k : string) (m : SDict.dict A) :
  k ∈ SDict.keys m -> exists v, (k, v) ∈ m.
Proof.
  unfold SDict.keys. intros H. apply list_elem_of_fmap in H as [[k' v] [-> H]].
  exists v. exact H.
Qed.

Lemma SDict_entry_get {A : Type} (k : string) (v : A) (m : SDict.dict A) :
  NoDup (SDict.keys m) -> (k, v) ∈ m -> SDict.get k m = Some v.
Proof.
  induction m as [|[k0 v0] m IH]; simpl; intros Hnd Hin.
  - apply elem_of_nil in Hin. contradiction.
  - apply NoDup_cons in Hnd as [Hk0 Hnd].
    apply elem_of_cons in Hin as [Hin|Hin].
    + inversion Hin. subst. rewrite String.eqb_refl. reflexivity.
    + destruct (String.eqb k k0) eqn:E; [|apply IH; assumption].
      apply String.eqb_eq in E. subst k0. exfalso. apply Hk0.
      apply (list_elem_of_fmap_2 fst) in Hin. exact Hin.
Qed.

(** X17: the attacker hands over the worst type.  In a supply in order,
    with a piece in play (if any) that has a cell and fits where [center]
    puts it: [_poll] does nothing while a next type is waiting; otherwise
    it returns, remembers its choice in [_lastType] and passes it to
    [setNextType].  The choice is a type of which the table lists a piece;
    it is not the type chosen last time unless the table lists no other;
    and among the types so admitted none has a higher score on the pit the
    attacker looks at (the engine's pit, or the pit with the piece in play
    locked where the search puts it), the score of a type being the least
    one over its four rotations. *)
Theorem poll_picks_worst_type (rnd : nat -> nat -> nat) (pick : nat)
    (a : Attacker.t) (s : Session.t) :
  supply_ok s ->
  match Engine._piece (Session.engine s) with
  | None => True
  | Some current =>
      Piece.cells current <> [] /\
      Piece.fits (Piece.center current) (Pit.cells (Engine.pit (Session.engine s)))
      = true
  end ->
  let m := Session._availableTypes s in
  let set := Session._pieceSet s in
  (Engine._nextType (Session.engine s) <> "" ->
   Attacker._poll rnd pick a s = Some (a, s)) /\
  (Engine._nextType (Session.engine s) = "" ->
   exists pit type sc s',
     Attacker.simulate (rnd O) s = Some pit /\
     Attacker._poll rnd pick a s = Some (Attacker.Mk (Some type), s') /\
     Session.setNextType type s = Some s' /\
     1 <= count type m /\
     (Attacker._lastType a = Some type -> (length (SDict.keys m) <= 1)%nat) /\
     type_score pit set type sc /\
     forall type' sc',
       1 <= count type' m ->
       (Attacker._lastType a = Some type' -> (length (SDict.keys m) <= 1)%nat) ->
       type_score pit set type' sc' ->
       JS_le sc' sc).
Proof.
  intros Hok Hpiece m set. pose proof Hok as (H1 & H2 & H3 & H4 & H5).
  fold m in H2, H3, H4. fold set in H4.
  unfold Attacker._poll. split.
  - intros Hn. apply String.eqb_neq in Hn. rewrite Hn. reflexivity.
  - intros Hn. rewrite Hn. simpl negb. cbv iota.
    destruct (simulate_total (rnd O) s Hpiece) as [pit Hsim]. rewrite Hsim.
    fold m. fold set.
    set (avail := Attacker.candidates (Attacker._lastType a) (SDict.keys m)).
    assert (Hcount : forall ty, ty ∈ SDict.keys m ->
              1 <= count ty m /\ 0 < full_count set ty).
    { intros ty Hin. destruct (SDict_key_entry ty m Hin) as [n Hn'].
      unfold count. rewrite (SDict_entry_get ty n m H3 Hn').
      rewrite Forall_forall in H4. specialize (H4 _ Hn'). simpl in H4. lia. }
    assert (Hkey : forall ty, 1 <= count ty m -> ty ∈ SDict.keys m).
    { intros ty Hc. apply count_entry in Hc.
      apply (list_elem_of_fmap_2 fst) in Hc. exact Hc. }
    destruct (scoreTypes_spec pit avail set (fun i => rnd (S i)))
      as [scores [Hst [Hall Hkeys]]].
    { apply Forall_forall. intros ty Hty. subst avail.
      apply (candidates_spec _ _ _ H3) in Hty as [Hty _]. apply Hcount. exact Hty. }
    rewrite Hst.
    pose proof (worst_fold scores JS.NegInf []) as Hw. cbv zeta in Hw.
    set (worst := fold_left Attacker.worst_step scores (JS.NegInf, [])) in *.
    destruct Hw as [_ [Hmax [Hmem Hne]]].
    assert (Hscores : scores <> []).
    { assert (Hav : avail <> []).
      { subst avail. apply candidates_nonempty. unfold SDict.keys.
        intros E. apply fmap_nil_inv in E. contradiction. }
      destruct avail as [|ty0 av]; [contradiction|].
      intros E. subst scores. specialize (Hkeys ty0).
      destruct Hkeys as [_ Hk]. specialize (Hk ltac:(left)).
      apply elem_of_nil in Hk. exact Hk. }
    destruct (random_Some (snd worst) pick) as [type Hpick].
    { apply Hne. right. split; [reflexivity | exact Hscores]. }
    rewrite Hpick. pose proof Hpick as Hin. apply random_elem in Hin.
    destruct (Hmem type Hin) as [[Hnil _]|Hent];
      [apply elem_of_nil in Hnil; contradiction|].
    assert (Hcand : type ∈ avail).
    { apply Hkeys. apply (list_elem_of_fmap_2 fst) in Hent. exact Hent. }
    subst avail. apply (candidates_spec _ _ _ H3) in Hcand as [Htbl Hlast].
    assert (Hinh : SDict.inherited type = false).
    { destruct (SDict.inherited type) eqn:Ei; [|reflexivity].
      pose proof (supply_lists_no_inherited type s Hok Ei) as Hg.
      apply SDict_get_None in Hg. contradiction. }
    destruct (setNextType_supply_ok type s Hinh Hok) as [s' [Hset _]].
    rewrite Hset. exists pit, type, (fst worst), s'.
    split; [reflexivity|]. split; [reflexivity|]. split; [exact Hset|].
    split; [apply Hcount; exact Htbl|]. split; [exact Hlast|].
    rewrite Forall_forall in Hall. split; [exact (Hall _ Hent)|].
    intros type' sc' Hc' Hl' Hts'.
    assert (Hin' : type' ∈ SDict.keys scores).
    { apply Hkeys. apply (candidates_spec _ _ _ H3). split; [apply Hkey; exact Hc'|].
      exact Hl'. }
    destruct (SDict_key_entry type' scores Hin') as [sc'' Hent'].
    rewrite (type_score_unique _ _ _ _ _ Hts' (Hall _ Hent')).
    exact (Hmax _ Hent').
Qed.

Lemma poll_picks_worst_type_witness :
  let m := Session._availableTypes left_session in
  let set := Session._pieceSet left_session in
  (Engine._nextType (Session.engine left_session) <> "" ->
   Attacker._poll (fun _ _ => O) O Attacker.New left_session
   = Some (Attacker.New, left_session)) /\
  (Engine._nextType (Session.engine left_session) = "" ->
   exists pit type sc s',
     Attacker.simulate (fun _ => O) left_session = Some pit /\
     Attacker._poll (fun _ _ => O) O Attacker.New left_session
     = Some (Attacker.Mk (Some type), s') /\
     Session.setNextType type left_session = Some s' /\
     1 <= count type m /\
     (Attacker._lastType Attacker.New = Some type -> (length (SDict.keys m) <= 1)%nat) /\
     type_score pit set type sc /\
     forall type' sc',
       1 <= count type' m ->
       (Attacker._lastType Attacker.New = Some type' ->
        (length (SDict.keys m) <= 1)%nat) ->
       type_score pit set type' sc' ->
       JS_le sc' sc).
Proof.
  apply (poll_picks_worst_type (fun _ _ => O) O Attacker.New left_session).
  - supply_ok_by_evaluation.
  - exact I.
Defined.
(** ** The piece in play *)

Lemma Piece_New_wf (type set : string) (p : Piece.t) :
  Piece.New type set = Some p -> Piece.wf p.
Proof.
  unfold Piece.New, Piece.DEF.
  repeat match goal with
         | |- context [String.eqb ?a ?b] => destruct (String.eqb a b)
         end;
    intros H; inversion H; subst p; clear H;
    (split;
     [repeat constructor
     | match goal with
       | |- ?G => apply (bool_decide_unpack G); vm_compute; exact I
       end]).
Qed.

Lemma refreshAvailable_piece_ok (s : Session.t) :
  piece_ok (Session.engine s) ->
  piece_ok (Session.engine (snd (Session._refreshAvailable s))).
Proof.
  intros H. unfold Session._refreshAvailable.
  destruct (snd (fold_left _ _ _)); [exact H | exact I].
Qed.

Lemma useNextType_piece_ok (s s' : Session.t) :
  piece_ok (Session.engine s) ->
  Session._useNextType s = Some s' -> piece_ok (Session.engine s').
Proof.
  intros Hok. unfold Session._useNextType.
  set (m1 := match SDict.get _ _ with Some _ => _ | None => _ end).
  set (s1 := Session.set_availableTypes m1 s).
  assert (Hr : forall r, r = match SDict.keys m1 with
                             | [] => Session._refreshAvailable s1
                             | _ :: _ => (true, s1)
                             end ->
               piece_ok (Session.engine (snd r))).
  { intros r ->. destruct (SDict.keys m1);
      [apply refreshAvailable_piece_ok|]; exact Hok. }
  specialize (Hr _ eq_refl). revert Hr.
  generalize (match SDict.keys m1 with
              | [] => Session._refreshAvailable s1
              | _ :: _ => (true, s1)
              end).
  intros [b s2] Hr. simpl in Hr. simpl fst. simpl snd. destruct b; simpl negb; cbv iota.
  - destruct (Piece.New _ _) as [np|] eqn:Hnp; [|discriminate].
    destruct (Piece.fits _ _); intros H; inversion H; subst s'; clear H.
    + unfold piece_ok, Session._start, Engine._start. simpl.
      assert (Hnew : Piece.wf (Piece.center np) /\ Piece.cells (Piece.center np) <> []).
      { split; [apply (Piece_New_wf _ _ _ Hnp) | apply (Piece_New_cells _ _ _ Hnp)]. }
      destruct (Engine._interval (Session.engine s2)); simpl; exact Hnew.
    + unfold piece_ok. simpl. exact I.
  - intros H. inversion H. subst s'. exact Hr.
Qed.

Lemma drop_piece_ok (e e' : Engine.t) :
  piece_ok e -> Engine.drop e = Some e' -> piece_ok e'.
Proof.
  unfold piece_ok, Engine.drop. destruct (Engine._piece e) as [pc|] eqn:Hp.
  - intros Hok. destruct (Engine._dropping e || negb (Engine.playing e)).
    + intros H. inversion H. subst e'. rewrite Hp. exact Hok.
    + destruct (Pit.landing _ _) as [pc'|] eqn:Hl; [|discriminate].
      intros H. inversion H. subst e'. simpl.
      destruct (landing_spec _ _ _ Hl) as [k [-> _]]. exact Hok.
  - intros _ H. inversion H. subst e'. rewrite Hp. exact I.
Qed.

Lemma played_piece_ok (s : Session.t) : played s -> piece_ok (Session.engine s).
Proof.
  induction 1 as [id set iv s Hset HN | ty s s' _ IH Hinh Hs | d s _ IH Hd | s _ IH
                  | s e' _ IH Hd | s e' _ IH Ht | s l _ IH Hl | rows s _ IH
                  | n s s' _ IH Hs].
  - unfold Session.New in HN. destruct (Piece.types set); [|discriminate].
    inversion HN. subst s. apply refreshAvailable_piece_ok. exact I.
  - unfold Session.setNextType in Hs.
    destruct (match Session.avail_or_0 _ _ with Some _ => _ | None => _ end);
      [inversion Hs; subst; exact IH|].
    destruct (Engine._piece (Session.engine s)) as [pc|] eqn:Hp.
    + inversion Hs. subst s'. unfold piece_ok in *. simpl. rewrite ?Hp in *. exact IH.
    + eapply useNextType_piece_ok; [|exact Hs]. unfold piece_ok. simpl.
      rewrite ?Hp. exact I.
  - unfold piece_ok in *. cbn [Session.set_engine Session.engine]. unfold Engine.shift.
    destruct (Engine._piece (Session.engine s)) as [pc|] eqn:Hp; [|rewrite ?Hp; exact I].
    destruct (Engine._dropping (Session.engine s)); [rewrite ?Hp; exact IH|].
    cbv zeta. rewrite move_back.
    destruct (Piece.fits _ _); cbn [Engine.set_piece Engine._piece]; exact IH.
  - unfold piece_ok in *. cbn [Session.set_engine Session.engine]. unfold Engine.rotate.
    destruct (Engine._piece (Session.engine s)) as [pc|] eqn:Hp; [|rewrite ?Hp; exact I].
    destruct (Engine._dropping (Session.engine s)); [rewrite ?Hp; exact IH|].
    cbv zeta. destruct IH as [Hwf Hne].
    destruct (Piece.fits _ _); cbn [Engine.set_piece Engine._piece].
    + split; [apply rotate_wf; exact Hwf | apply rotate_nonempty; exact Hne].
    + rewrite (rotate_back 1 (-1) pc Hwf quarter_turns_cancel). split; assumption.
  - simpl. eapply drop_piece_ok; [exact IH | exact Hd].
  - simpl. unfold Engine._tick in Ht.
    destruct (Engine._piece (Session.engine s)) as [pc|] eqn:Hp; [|discriminate].
    cbv zeta in Ht. rewrite move_back in Ht.
    unfold piece_ok in IH. rewrite Hp in IH.
    destruct (Piece.fits _ _).
    + inversion Ht. subst e'. unfold piece_ok. simpl. exact IH.
    + eapply drop_piece_ok; [|exact Ht]. unfold piece_ok. simpl. exact IH.
  - simpl. unfold Engine._drop in Hl.
    destruct (Engine._piece (Session.engine s)); [|discriminate].
    destruct (Pit.drop _ _); [|discriminate]. inversion Hl. exact I.
  - exact IH.
  - unfold Session.score_callback in Hs.
    destruct (Session.plus_value _ _) as [sc|]; [|discriminate].
    cbv zeta in Hs. destruct (negb _).
    + eapply useNextType_piece_ok; [|exact Hs]. exact IH.
    + inversion Hs. subst s'. exact IH.
Qed.

(** X18: the piece in play is always a piece in order, so the loops end.
    In every state that an engine of one of the two piece sets reaches from
    its constructor (through whatever calls of its methods and runs of its
    timer callbacks, [setNextType] with names that are not inherited
    property names and [shift] with integers below [2^52] in magnitude),
    the piece in play, if there is one, has a cell, and its keys are its cells'
    offsets, all different: it is a piece that the constructor built, moved
    and turned.  Hence [drop()] returns, and with a piece in play so do the
    tick and the callback [_drop] of the drop timeout: the downward loops
    end, and the tick leaves a piece in play. *)
Theorem piece_in_play_in_order (s : Session.t) :
  played s ->
  piece_ok (Session.engine s) /\
  (exists e', Engine.drop (Session.engine s) = Some e') /\
  (forall pc, Engine._piece (Session.engine s) = Some pc ->
     (exists e' pc', Engine._tick (Session.engine s) = Some e' /\
                     Engine._piece e' = Some pc') /\
     (exists l, Engine._drop (Session.engine s) = Some l)).
Proof.
  intros Hp. pose proof (played_piece_ok s Hp) as Hok. split; [exact Hok|].
  unfold piece_ok in Hok. split.
  - unfold Engine.drop. destruct (Engine._piece (Session.engine s)) as [pc|]; [|eauto].
    destruct (_ || _); [eauto|]. destruct Hok as [_ Hne].
    destruct (landing_total (Engine.pit (Session.engine s)) pc Hne) as [pc' Hl].
    rewrite Hl. eauto.
  - intros pc Hpc. rewrite Hpc in Hok. destruct Hok as [_ Hne]. split.
    + unfold Engine._tick. rewrite Hpc. cbv zeta. rewrite move_back.
      destruct (Piece.fits _ _); [eexists; eexists; split; reflexivity|].
      unfold Engine.drop. simpl.
      destruct (_ || _); [eexists; eexists; split; reflexivity|].
      destruct (landing_total (Engine.pit (Session.engine s)) pc Hne) as [pc' Hl].
      rewrite Hl. eexists. eexists. split; reflexivity.
    + unfold Engine._drop, Pit.drop. rewrite Hpc.
      destruct (landing_total (Engine.pit (Session.engine s)) pc Hne) as [pc' Hl].
      rewrite Hl. eauto.
Qed.

Lemma piece_in_play_in_order_witness :
  piece_ok (Session.engine left_session_bar) /\
  (exists e', Engine.drop (Session.engine left_session_bar) = Some e') /\
  (forall pc, Engine._piece (Session.engine left_session_bar) = Some pc ->
     (exists e' pc', Engine._tick (Session.engine left_session_bar) = Some e' /\
                     Engine._piece e' = Some pc') /\
     (exists l, Engine._drop (Session.engine left_session_bar) = Some l)).
Proof.
  apply (piece_in_play_in_order left_session_bar).
  apply (played_setNextType "-" left_session).
  - apply (played_New "score-left" "left" Game.INTERVAL_ENGINE_initial).
    + left. reflexivity.
    + reflexivity.
  - reflexivity.
  - reflexivity.
Defined.
(** ** The constructor of pieces *)

(** X19: [new Game.Piece(type, pieceSet)] throws exactly when
    [Game.Piece.DEF] has no such type in that set.  Otherwise the piece
    stands at the origin and holds one cell for every offset that the
    definition lists, in that order and under that offset as key (no two
    offsets of a definition coincide, so no cell is lost to another), each
    cell with the type and the set of the piece; its keys are its cells'
    offsets, all different, and it has a cell. *)
Theorem new_piece_from_definition (type set : string) :
  match Piece.DEF set type with
  | None => Piece.New type set = None
  | Some d =>
      exists p,
        Piece.New type set = Some p /\
        Piece.type p = type /\ Piece.pieceSet p = set /\
        Piece.xy p = XY.New 0 0 /\
        Piece.cells p = (fun c => (c, Cell.New c type set)) <$> Piece.def_cells d /\
        Piece.wf p /\ Piece.cells p <> []
  end.
Proof.
  destruct (Piece.DEF set type) as [d|] eqn:Hd.
  - assert (Hnew : Piece.New type set
                   = Some (Piece.Mk type set (XY.New 0 0)
                             (fold_left (fun m c => Dict.set c (Cell.New c type set) m)
                                        (Piece.def_cells d) [])))
      by (unfold Piece.New; rewrite Hd; reflexivity).
    eexists. split; [exact Hnew|].
    split; [reflexivity|]. split; [reflexivity|]. split; [reflexivity|].
    split; [|split; [exact (Piece_New_wf _ _ _ Hnew) | exact (Piece_New_cells _ _ _ Hnew)]].
    simpl. revert Hd. unfold Piece.DEF.
    repeat match goal with
           | |- context [String.eqb ?a ?b] => destruct (String.eqb a b)
           end;
      intros H; inversion H; subst d; reflexivity.
  - unfold Piece.New. rewrite Hd. reflexivity.
Qed.

(** ** There and back *)

(** X20: a step aside and the step back.  For a piece in play that fits
    and is not being dropped, and that also fits [direction] columns
    further, [shift(direction)] followed by [shift(-direction)] leaves the
    engine exactly as it was. *)
Theorem shift_there_and_back (direction : Z) (e : Engine.t) (pc : Piece.t) :
  Engine._piece e = Some pc ->
  Engine._dropping e = false ->
  Piece.fits pc (Pit.cells (Engine.pit e)) = true ->
  Piece.fits (in_column pc (XY.x (Piece.xy pc) + direction)) (Pit.cells (Engine.pit e))
    = true ->
  Engine.shift (- direction) (Engine.shift direction e) = e.
Proof.
  intros Hp Hd Hf Hm.
  assert (E1 : Engine.shift direction e
               = Engine.set_piece
                   (Some (in_column pc (XY.x (Piece.xy pc) + direction))) e).
  { unfold Engine.shift. rewrite Hp, Hd. cbv zeta.
    replace (Piece.set_xy (XY.plus (Piece.xy pc) (XY.New direction 0)) pc)
      with (in_column pc (XY.x (Piece.xy pc) + direction)).
    - rewrite Hm. reflexivity.
    - destruct pc as [ty ps [px py] cs]. unfold in_column, Piece.set_xy, XY.plus.
      simpl. do 2 f_equal. lia. }
  rewrite E1. unfold Engine.shift.
  cbn [Engine.set_piece Engine._piece Engine._dropping Engine.pit]. rewrite Hd.
  cbv zeta.
  replace (Piece.set_xy
             (XY.plus (Piece.xy (in_column pc (XY.x (Piece.xy pc) + direction)))
                      (XY.New (- direction) 0))
             (in_column pc (XY.x (Piece.xy pc) + direction)))
    with pc.
  - rewrite Hf. destruct e. simpl in *. rewrite Hp. reflexivity.
  - destruct pc as [ty ps [px py] cs]. unfold in_column, Piece.set_xy, XY.plus.
    simpl. do 2 f_equal; lia.
Qed.

Lemma shift_there_and_back_witness :
  Engine.shift (- 2) (Engine.shift 2 engine_with_bar) = engine_with_bar.
Proof.
  apply (shift_there_and_back 2 engine_with_bar (bar_at 1)); reflexivity.
Defined.
